(** * fsvisualizer: the FeatureScript indexer (tools/indexer.ts)

    A shallow embedding of the indexer's pure core: the comment stripper,
    the regular-expression based declaration extractors, the suffix index
    and path resolver, the alias chooser and the graph builder, followed
    by the properties of the written specification checked against them.

    Conventions.
    - A JavaScript string is a list of UTF-16 code units ([str]); a code
      unit is a number ([char := N]).
    - A [Map] or [Set] of the host language keeps insertion order, so it
      is an association list (resp. a duplicate-free list) updated in
      place.
    - A statement that can throw is modelled in the [outcome] monad; a
      [while] loop whose termination is not structural takes fuel and
      answers [Diverges] when the fuel is exhausted.
    - What the indexer asks of its host and the language leaves open,
      the collation behind [localeCompare], is a parameter ([Host]);
      the properties hold for every host that keeps the laws the
      language states, and the worked scenarios for every host that
      orders plain names as their code units.
    - Node fields that no property below reads ([label], [loc],
      [functionCount], [isGenerated], [sourceUrl]) are left out. *)

From Stdlib Require Import Ascii String DecimalString Decimal.
From Stdlib Require Import List NArith ZArith Bool Lia Arith.
From Stdlib Require Import Permutation Sorted.
Import ListNotations.

(* ================================================================== *)
(** ** Code units and strings *)
(* ================================================================== *)

Abbreviation char := N (only parsing).
Abbreviation str := (list N) (only parsing).

(** A literal of the source text, as code units. *)
Definition lit (s : string) : str := map N_of_ascii (list_ascii_of_string s).

(** Test inputs are written with an apostrophe where the source file
    has a double quote. *)
Definition src (s : string) : str :=
  map (fun c => if N.eqb c 39 then 34%N else c) (lit s).

Definition NL : char := 10%N.
Definition CR : char := 13%N.
Definition QUOTE : char := 34%N.
Definition STAR : char := 42%N.
Definition SLASH : char := 47%N.
Definition BACKSLASH : char := 92%N.
Definition DOT : char := 46%N.
Definition NUL : char := 0%N.

Definition nextIs (next : option char) (c : char) : bool :=
  match next with
  | Some d => N.eqb d c
  | None => false
  end.

Fixpoint eqb_str (a b : str) : bool :=
  match a, b with
  | [], [] => true
  | x :: a', y :: b' => N.eqb x y && eqb_str a' b'
  | _, _ => false
  end.

(* ================================================================== *)
(** ** stripComments *)
(* ================================================================== *)

Module Strip.

(** The body of the [while (i < source.length)] loop.  [source] is the
    text from index [i] on; [i += 1] continues on the tail and
    [i += 2] on the tail of the tail ([next] is defined wherever the
    loop does that); [out += ch] emits [ch]. *)
Fixpoint stripFrom (inString inLineComment inBlockComment escaped : bool)
    (source : str) {struct source} : str :=
  match source with
  | [] => []
  | ch :: rest =>
    let next := hd_error rest in
    if inLineComment then
      if N.eqb ch NL
      then NL :: stripFrom inString false inBlockComment escaped rest
      else stripFrom inString inLineComment inBlockComment escaped rest
    else if inBlockComment then
      if N.eqb ch STAR && nextIs next SLASH
      then match rest with
           | [] => []
           | _ :: rest2 => stripFrom inString inLineComment false escaped rest2
           end
      else if N.eqb ch NL
      then NL :: stripFrom inString inLineComment inBlockComment escaped rest
      else stripFrom inString inLineComment inBlockComment escaped rest
    else if inString then
      ch :: (if escaped
             then stripFrom inString inLineComment inBlockComment false rest
             else if N.eqb ch BACKSLASH
             then stripFrom inString inLineComment inBlockComment true rest
             else if N.eqb ch QUOTE
             then stripFrom false inLineComment inBlockComment escaped rest
             else stripFrom inString inLineComment inBlockComment escaped rest)
    else if N.eqb ch QUOTE then
      ch :: stripFrom true inLineComment inBlockComment escaped rest
    else if N.eqb ch SLASH && nextIs next SLASH then
      match rest with
      | [] => []
      | _ :: rest2 => stripFrom inString true inBlockComment escaped rest2
      end
    else if N.eqb ch SLASH && nextIs next STAR then
      match rest with
      | [] => []
      | _ :: rest2 => stripFrom inString inLineComment true escaped rest2
      end
    else
      ch :: stripFrom inString inLineComment inBlockComment escaped rest
  end.

Definition stripComments (source : str) : str :=
  stripFrom false false false false source.

(** The four flags when the loop exits, by the same case analysis. *)
Definition flags : Type := bool * bool * bool * bool.

Fixpoint flagsAfter (inString inLineComment inBlockComment escaped : bool)
    (source : str) {struct source} : flags :=
  match source with
  | [] => (inString, inLineComment, inBlockComment, escaped)
  | ch :: rest =>
    let next := hd_error rest in
    if inLineComment then
      if N.eqb ch NL
      then flagsAfter inString false inBlockComment escaped rest
      else flagsAfter inString inLineComment inBlockComment escaped rest
    else if inBlockComment then
      if N.eqb ch STAR && nextIs next SLASH
      then match rest with
           | [] => (inString, inLineComment, false, escaped)
           | _ :: rest2 => flagsAfter inString inLineComment false escaped rest2
           end
      else flagsAfter inString inLineComment inBlockComment escaped rest
    else if inString then
      if escaped
      then flagsAfter inString inLineComment inBlockComment false rest
      else if N.eqb ch BACKSLASH
      then flagsAfter inString inLineComment inBlockComment true rest
      else if N.eqb ch QUOTE
      then flagsAfter false inLineComment inBlockComment escaped rest
      else flagsAfter inString inLineComment inBlockComment escaped rest
    else if N.eqb ch QUOTE then
      flagsAfter true inLineComment inBlockComment escaped rest
    else if N.eqb ch SLASH && nextIs next SLASH then
      match rest with
      | [] => (inString, true, inBlockComment, escaped)
      | _ :: rest2 => flagsAfter inString true inBlockComment escaped rest2
      end
    else if N.eqb ch SLASH && nextIs next STAR then
      match rest with
      | [] => (inString, inLineComment, true, escaped)
      | _ :: rest2 => flagsAfter inString inLineComment true escaped rest2
      end
    else
      flagsAfter inString inLineComment inBlockComment escaped rest
  end.

End Strip.

Import Strip.

(* ================================================================== *)
(** ** The host's regular expressions *)
(* ================================================================== *)

(** A backtracking matcher in continuation-passing style, with the
    priorities of the host's engine: the left alternative first, a
    greedy star that gives iterations back one at a time, and an
    iteration of a star that consumes nothing is rejected.  Only the
    constructs the indexer's patterns use are there; none of the
    patterns contains a back-reference or a look-around, and none reads
    a group that sits under a star, so the groups of an iteration are
    not cleared when the next one starts.  The patterns carry no [u]
    and no [i] flag: they read code units, and [\b] and [\w] know the
    ASCII word characters only. *)
Module Regex.

Inductive regex : Type :=
| Eps
| Chr (p : char -> bool)
| Seq (r1 r2 : regex)
| Alt (r1 r2 : regex)
| Star (r : regex)
| Group (n : nat) (r : regex)
| WordB.

(** A position in the subject: the code unit before it, the text from
    it on, its index, and the groups captured so far. *)
Record mstate : Type := {
  prev : option char;
  rest : str;
  pos : nat;
  caps : list (nat * str)
}.

Definition advance (c : char) (t : str) (s : mstate) : mstate :=
  {| prev := Some c; rest := t; pos := S (pos s); caps := caps s |}.

Definition setCap (n : nat) (v : str) (s : mstate) : mstate :=
  {| prev := prev s; rest := rest s; pos := pos s; caps := (n, v) :: caps s |}.

Fixpoint getCap (n : nat) (cs : list (nat * str)) : option str :=
  match cs with
  | [] => None
  | (n', v) :: cs' => if Nat.eqb n n' then Some v else getCap n cs'
  end.

Definition inRange (lo hi c : char) : bool := N.leb lo c && N.leb c hi.

Definition isDigit (c : char) : bool := inRange 48 57 c.
Definition isAlpha (c : char) : bool := inRange 65 90 c || inRange 97 122 c.
Definition isIdentStart (c : char) : bool := isAlpha c || N.eqb c 95.
(** [\w], also the class [[A-Za-z0-9_]] *)
Definition isWord (c : char) : bool := isAlpha c || isDigit c || N.eqb c 95.

(** [\s]: the host's WhiteSpace and LineTerminator code units. *)
Definition isSpace (c : char) : bool :=
  inRange 9 13 c || N.eqb c 32 || N.eqb c 160 || N.eqb c 5760
  || inRange 8192 8202 c || N.eqb c 8232 || N.eqb c 8233 || N.eqb c 8239
  || N.eqb c 8287 || N.eqb c 12288 || N.eqb c 65279.

Definition isLineTerminator (c : char) : bool :=
  N.eqb c 10 || N.eqb c 13 || N.eqb c 8232 || N.eqb c 8233.

Definition isWordOpt (o : option char) : bool :=
  match o with
  | Some c => isWord c
  | None => false
  end.

Definition cont : Type := mstate -> option mstate.

Fixpoint starLoop (ma : cont -> cont) (k : cont) (fuel : nat) (s : mstate)
    {struct fuel} : option mstate :=
  match fuel with
  | 0 => k s
  | S fuel' =>
    match ma (fun s' => if Nat.ltb (pos s) (pos s')
                        then starLoop ma k fuel' s' else None) s with
    | Some x => Some x
    | None => k s
    end
  end.

Fixpoint m (r : regex) (k : cont) (s : mstate) {struct r} : option mstate :=
  match r with
  | Eps => k s
  | Chr p =>
    match rest s with
    | c :: t => if p c then k (advance c t s) else None
    | [] => None
    end
  | Seq r1 r2 => m r1 (m r2 k) s
  | Alt r1 r2 =>
    match m r1 k s with
    | Some x => Some x
    | None => m r2 k s
    end
  | Star r1 => starLoop (m r1) k (S (length (rest s))) s
  | Group n r1 =>
    m r1 (fun s' => k (setCap n (firstn (pos s' - pos s) (rest s)) s')) s
  | WordB =>
    if xorb (isWordOpt (prev s)) (isWordOpt (hd_error (rest s)))
    then k s else None
  end.

Definition Plus (r : regex) : regex := Seq r (Star r).
Definition Opt (r : regex) : regex := Alt r Eps.

Fixpoint Lit (s : str) : regex :=
  match s with
  | [] => Eps
  | c :: t => Seq (Chr (N.eqb c)) (Lit t)
  end.

Fixpoint seqs (rs : list regex) : regex :=
  match rs with
  | [] => Eps
  | r :: rs' => Seq r (seqs rs')
  end.

(** One attempt of [pattern.exec] with the [g] flag: the leftmost
    match at or after the cursor.  The whole match is group 0. *)
Fixpoint execFrom (r : regex) (pv : option char) (rs : str) (ps : nat)
    {struct rs} : option (nat * mstate) :=
  match m (Group 0 r) Some {| prev := pv; rest := rs; pos := ps; caps := [] |} with
  | Some e => Some (ps, e)
  | None =>
    match rs with
    | [] => None
    | c :: t => execFrom r (Some c) t (S ps)
    end
  end.

(** [cur] stands for [pattern.lastIndex]. *)
Definition exec (r : regex) (cur : mstate) : option (nat * mstate) :=
  execFrom r (prev cur) (rest cur) (pos cur).

Definition start (source : str) : mstate :=
  {| prev := None; rest := source; pos := 0; caps := [] |}.

(** [match[n]] *)
Definition group (n : nat) (mt : mstate) : option str := getCap n (caps mt).

End Regex.

Import Regex.

(** What a run of a statement can come to. *)
Inductive outcome (A : Type) : Type :=
| Ok (a : A)
| Throws
| Diverges.

Arguments Ok {A} a.
Arguments Throws {A}.
Arguments Diverges {A}.

Definition bind {A B : Type} (x : outcome A) (f : A -> outcome B) : outcome B :=
  match x with
  | Ok a => f a
  | Throws => Throws
  | Diverges => Diverges
  end.

Notation "x <- e ;; k" := (bind e (fun x => k))
  (at level 61, e at next level, right associativity).

(** [let match = pattern.exec(source); while (match) { body;
    match = pattern.exec(source); }]: the match found at [lastIndex]
    is handed to the body with its index, and the next search starts
    where it ended. *)
Fixpoint whileMatch {A : Type} (fuel : nat) (pattern : regex)
    (body : nat * mstate -> A -> outcome A) (cur : mstate) (acc : A)
    : outcome A :=
  match fuel with
  | 0 => Diverges
  | S fuel' =>
    match exec pattern cur with
    | None => Ok acc
    | Some (i, mt) =>
      acc' <- body (i, mt) acc ;;
      whileMatch fuel' pattern body mt acc'
    end
  end.

(** [source.replace(pattern, by)] with the [g] flag; after an empty
    match the host steps one code unit forward. *)
Fixpoint replaceFrom (fuel : nat) (pattern : regex) (by_ : str) (cur : mstate)
    : str :=
  match fuel with
  | 0 => rest cur
  | S fuel' =>
    match exec pattern cur with
    | None => rest cur
    | Some (i, mt) =>
      firstn (i - pos cur) (rest cur) ++ by_ ++
      (if Nat.ltb i (pos mt)
       then replaceFrom fuel' pattern by_ mt
       else match rest mt with
            | [] => []
            | c :: t => c :: replaceFrom fuel' pattern by_ (advance c t mt)
            end)
    end
  end.

Definition replaceAll (pattern : regex) (by_ : str) (source : str) : str :=
  replaceFrom (S (length source)) pattern by_ (start source).

(** Insertion-ordered [Set] and [Map]. *)
Definition setHas (x : str) (s : list str) : bool := existsb (eqb_str x) s.

Definition setAdd (x : str) (s : list str) : list str :=
  if setHas x s then s else s ++ [x].

Fixpoint mapGet {V : Type} (k : str) (mp : list (str * V)) : option V :=
  match mp with
  | [] => None
  | (k', v) :: mp' => if eqb_str k k' then Some v else mapGet k mp'
  end.

Fixpoint mapSet {V : Type} (k : str) (v : V) (mp : list (str * V))
    : list (str * V) :=
  match mp with
  | [] => [(k, v)]
  | (k', v') :: mp' =>
    if eqb_str k k' then (k, v) :: mp' else (k', v') :: mapSet k v mp'
  end.

(* ================================================================== *)
(** ** normalizePath, parseImports, parseExportedSymbols,
       extractIdentifierTokens *)
(* ================================================================== *)

Fixpoint dropWhile (p : char -> bool) (s : str) : str :=
  match s with
  | [] => []
  | c :: t => if p c then dropWhile p t else s
  end.

(** [String.prototype.trim] *)
Definition trim (s : str) : str :=
  rev (dropWhile isSpace (rev (dropWhile isSpace s))).

(** [.replace(/\/+/g, '/')]; [afterSlash] tells that the code unit
    before was a slash of the same run. *)
Fixpoint collapseSlashes (afterSlash : bool) (s : str) : str :=
  match s with
  | [] => []
  | c :: t =>
    if N.eqb c SLASH
    then if afterSlash then collapseSlashes true t
         else SLASH :: collapseSlashes true t
    else c :: collapseSlashes false t
  end.

(** [.replace(/^\.\/+/, '')] *)
Definition stripDotSlash (s : str) : str :=
  match s with
  | c1 :: c2 :: t =>
    if N.eqb c1 DOT && N.eqb c2 SLASH then dropWhile (N.eqb SLASH) t else s
  | _ => s
  end.

Definition normalizePath (value : str) : str :=
  collapseSlashes false
    (stripDotSlash
       (map (fun c => if N.eqb c BACKSLASH then SLASH else c) value)).

Definition ws : regex := Chr isSpace.
Definition notQuote : regex := Chr (fun c => negb (N.eqb c QUOTE)).
Definition one (a : string) : regex := Lit (lit a).

(** The patterns, written here with Q for the double quote.

    [/\b(export\s+)?import\s*\(\s*path\s*:\s*Q([^Q]+)Q\s*,\s*version\s*:\s*Q[^Q]*Q\s*\)\s*;/gms] *)
Definition importPattern : regex :=
  seqs [ WordB; Opt (Group 1 (Seq (one "export") (Plus ws)));
         one "import"; Star ws; one "("; Star ws; one "path"; Star ws;
         one ":"; Star ws; Chr (N.eqb QUOTE); Group 2 (Plus notQuote);
         Chr (N.eqb QUOTE); Star ws; one ","; Star ws; one "version";
         Star ws; one ":"; Star ws; Chr (N.eqb QUOTE); Star notQuote;
         Chr (N.eqb QUOTE); Star ws; one ")"; Star ws; one ";" ].

(** [/\bexport\s+(function|type|predicate|enum|const)\s+(NAME)/g],
    NAME being [[A-Za-z_][A-Za-z0-9_]*]. *)
Definition exportPattern : regex :=
  seqs [ WordB; one "export"; Plus ws;
         Group 1 (Alt (one "function") (Alt (one "type")
                 (Alt (one "predicate") (Alt (one "enum") (one "const")))));
         Plus ws;
         Group 2 (Seq (Chr isIdentStart) (Star (Chr isWord))) ].

(** [/Q([^Q\\]|\\.)*Q/g]; the dot stops at a line terminator. *)
Definition stringPattern : regex :=
  seqs [ Chr (N.eqb QUOTE);
         Star (Group 1
           (Alt (Chr (fun c => negb (N.eqb c QUOTE || N.eqb c BACKSLASH)))
                (Seq (Chr (N.eqb BACKSLASH))
                     (Chr (fun c => negb (isLineTerminator c))))));
         Chr (N.eqb QUOTE) ].

(** [/\b[A-Za-z_][A-Za-z0-9_]*\b/g] *)
Definition identPattern : regex :=
  seqs [ WordB; Chr isIdentStart; Star (Chr isWord); WordB ].

Definition nonEmpty (s : str) : bool :=
  match s with
  | [] => false
  | _ :: _ => true
  end.

(** The truth value of [match[1]]. *)
Definition truthy (g : option str) : bool :=
  match g with
  | Some s => nonEmpty s
  | None => false
  end.

Record importsAcc : Type := {
  imports : list str;
  reexports : list str;
  importSet : list str;
  reexportSet : list str
}.

(** The body of the loop of [parseImports]; [match[2].trim()] throws
    when group 2 is undefined. *)
Definition parseImportsBody (mt : nat * mstate) (a : importsAcc)
    : outcome importsAcc :=
  match group 2 (snd mt) with
  | None => Throws
  | Some g2 =>
    let target := normalizePath (trim g2) in
    if nonEmpty target then
      if truthy (group 1 (snd mt)) then
        if negb (setHas target (reexportSet a))
        then Ok {| imports := imports a;
                   reexports := reexports a ++ [target];
                   importSet := importSet a;
                   reexportSet := setAdd target (reexportSet a) |}
        else Ok a
      else if negb (setHas target (importSet a))
      then Ok {| imports := imports a ++ [target];
                 reexports := reexports a;
                 importSet := setAdd target (importSet a);
                 reexportSet := reexportSet a |}
      else Ok a
    else Ok a
  end.

Definition parseImports (source : str) : outcome (list str * list str) :=
  a <- whileMatch (S (length source)) importPattern parseImportsBody
         (start source)
         {| imports := []; reexports := []; importSet := []; reexportSet := [] |} ;;
  Ok (imports a, reexports a).

(** The accumulator is the pair [(out, seen)]. *)
Definition parseExportedSymbolsBody (mt : nat * mstate)
    (a : list str * list str) : outcome (list str * list str) :=
  match group 2 (snd mt) with
  | None => Throws
  | Some symbol =>
    if negb (setHas symbol (snd a))
    then Ok (fst a ++ [symbol], setAdd symbol (snd a))
    else Ok a
  end.

Definition parseExportedSymbols (source : str) : outcome (list str) :=
  a <- whileMatch (S (length source)) exportPattern parseExportedSymbolsBody
         (start source) ([], []) ;;
  Ok (fst a).

Definition extractIdentifierTokensBody (mt : nat * mstate) (tokens : list str)
    : outcome (list str) :=
  match group 0 (snd mt) with
  | None => Throws
  | Some tok => Ok (setAdd tok tokens)
  end.

Definition extractIdentifierTokens (source : str) : outcome (list str) :=
  let noStrings := replaceAll stringPattern (lit " ") source in
  whileMatch (S (length noStrings)) identPattern extractIdentifierTokensBody
    (start noStrings) [].

(* ================================================================== *)
(** ** Sorting and comparison *)
(* ================================================================== *)

(** [Array.prototype.sort] is stable; for a consistent comparator every
    stable sort gives the list that insertion gives. *)
Fixpoint insertBy {A : Type} (cmp : A -> A -> Z) (x : A) (l : list A)
    : list A :=
  match l with
  | [] => [x]
  | y :: l' => if Z.leb (cmp x y) 0 then x :: l else y :: insertBy cmp x l'
  end.

Fixpoint sortBy {A : Type} (cmp : A -> A -> Z) (l : list A) : list A :=
  match l with
  | [] => []
  | x :: l' => insertBy cmp x (sortBy cmp l')
  end.

(** [a.localeCompare(b)] is called with no locale argument: the host
    compares by the collation of its default locale.  The language
    fixes no table for it, so the comparison is what a host brings. *)
Class Host : Type := { localeCompare : str -> str -> Z }.

(** The comparison of code units, first difference first and a proper
    prefix before its extensions: what a host without collation data
    computes. *)
Fixpoint codeUnitCompare (a b : str) : Z :=
  match a, b with
  | [], [] => 0
  | [], _ :: _ => -1
  | _ :: _, [] => 1
  | x :: a', y :: b' =>
    match N.compare x y with
    | Lt => -1
    | Gt => 1
    | Eq => codeUnitCompare a' b'
    end
  end.

Definition codeUnits : Host := {| localeCompare := codeUnitCompare |}.

(* ================================================================== *)
(** ** buildSuffixIndex, resolveModuleTarget, chooseModulePath *)
(* ================================================================== *)

Module ParsedFile.
Record t : Type := {
  id : str;
  filePath : str;
  imports : list str;
  reexports : list str;
  exportedSymbols : list str;
  tokens : list str
}.
End ParsedFile.

(** [value.split('/')] *)
Fixpoint split (s : str) : list str :=
  match s with
  | [] => [[]]
  | c :: t =>
    if N.eqb c SLASH then [] :: split t
    else match split t with
         | seg :: segs => (c :: seg) :: segs
         | [] => [[c]]
         end
  end.

(** [segments.join('/')] *)
Fixpoint join (segments : list str) : str :=
  match segments with
  | [] => []
  | [seg] => seg
  | seg :: segs => seg ++ SLASH :: join segs
  end.

(** [value.split('/').filter(Boolean)] *)
Definition segmentsOf (value : str) : list str := filter nonEmpty (split value).

(** [segments.slice(i).join('/')] *)
Definition suffixAt (segments : list str) (i : nat) : str :=
  join (skipn i segments).

Definition suffixIndex : Type := list (str * list str).

Definition orEmpty {A : Type} (o : option (list A)) : list A :=
  match o with
  | Some l => l
  | None => []
  end.

(** The inner [for] loop of [buildSuffixIndex], for one record. *)
Definition registerSuffixes (record : ParsedFile.t) (index : suffixIndex)
    : suffixIndex :=
  let segments := segmentsOf (ParsedFile.filePath record) in
  fold_left
    (fun index i =>
       let suffix := suffixAt segments i in
       let existing := orEmpty (mapGet suffix index) in
       mapSet suffix (existing ++ [ParsedFile.id record]) index)
    (seq 0 (length segments)) index.

Definition buildSuffixIndex (records : list ParsedFile.t) : suffixIndex :=
  fold_left (fun index record => registerSuffixes record index) records [].

(** [matches && matches.length === 1], then [matches[0]] *)
Definition single (matches : option (list str)) : option str :=
  match matches with
  | Some [x] => Some x
  | _ => None
  end.

(** [for (let i = 1; i < segments.length; i += 1)] with its early
    return, over the values of [i] still to come. *)
Fixpoint resolveLoop (segments : list str) (index : suffixIndex)
    (is_ : list nat) : option str :=
  match is_ with
  | [] => None
  | i :: is' =>
    match single (mapGet (suffixAt segments i) index) with
    | Some x => Some x
    | None => resolveLoop segments index is'
    end
  end.

Definition resolveModuleTarget (modulePath : str) (index : suffixIndex)
    : option str :=
  let normalized := normalizePath modulePath in
  match single (mapGet normalized index) with
  | Some x => Some x
  | None =>
    let segments := segmentsOf normalized in
    resolveLoop segments index (seq 1 (length segments - 1))
  end.

Section Chooser.

Context {host : Host}.

(** The comparator handed to [sort] in [chooseModulePath]. *)
Definition aliasOrder (a b : str * nat) : Z :=
  if negb (Nat.eqb (snd b) (snd a))
  then Z.of_nat (snd b) - Z.of_nat (snd a)
  else if negb (Nat.eqb (length (fst b)) (length (fst a)))
  then Z.of_nat (length (fst b)) - Z.of_nat (length (fst a))
  else localeCompare (fst a) (fst b).

Definition chooseModulePath (aliases : option (list (str * nat)))
    (fallback : str) : str :=
  match aliases with
  | None => fallback
  | Some [] => fallback
  | Some (e :: es) => fst (hd e (sortBy aliasOrder (e :: es)))
  end.

End Chooser.

Definition file (path : string) (imports reexports exported tokens : list string)
    : ParsedFile.t :=
  {| ParsedFile.id := lit path;
     ParsedFile.filePath := lit path;
     ParsedFile.imports := map lit imports;
     ParsedFile.reexports := map lit reexports;
     ParsedFile.exportedSymbols := map lit exported;
     ParsedFile.tokens := map lit tokens |}.

(* ================================================================== *)
(** ** buildGraph *)
(* ================================================================== *)

Inductive edgeKind : Type := KImport | KReexport.

Definition kindName (k : edgeKind) : str :=
  match k with
  | KImport => lit "import"
  | KReexport => lit "reexport"
  end.

Definition edgeKind_eqb (a b : edgeKind) : bool :=
  match a, b with
  | KImport, KImport | KReexport, KReexport => true
  | _, _ => false
  end.

Module NodeData.
Record t : Type := {
  id : str;
  filePath : str;
  modulePath : str;
  imports : list str;
  reexports : list str;
  importTargets : list str;
  reexportTargets : list str;
  importCount : nat;
  reexportCount : nat;
  exports : list str;
  exportCount : nat;
  symbolUsers : list (str * list str);
  isVirtual : bool
}.
End NodeData.

Module EdgeData.
Record t : Type := {
  id : str;
  source : str;
  target : str;
  kind : edgeKind
}.
End EdgeData.

Record GraphOutput : Type := {
  nodes : list NodeData.t;
  edges : list EdgeData.t
}.

(** [`e${edgeNumber}`] *)
Definition edgeId (edgeNumber : nat) : str :=
  lit "e" ++ lit (NilEmpty.string_of_uint (Nat.to_uint edgeNumber)).

(** [`${kind}\u0000${file.id}\u0000${resolvedTarget}`] *)
Definition edgeKey (k : edgeKind) (fileId resolvedTarget : str) : str :=
  kindName k ++ NUL :: fileId ++ NUL :: resolvedTarget.

Definition UNRESOLVED : str := lit "(unresolved module)".

(** The placeholder stored in [virtualNodes]. *)
Definition virtualNode (resolvedTarget targetModulePath : str) : NodeData.t :=
  {| NodeData.id := resolvedTarget;
     NodeData.filePath := UNRESOLVED;
     NodeData.modulePath := targetModulePath;
     NodeData.imports := [];
     NodeData.reexports := [];
     NodeData.importTargets := [];
     NodeData.reexportTargets := [];
     NodeData.importCount := 0;
     NodeData.reexportCount := 0;
     NodeData.exports := [];
     NodeData.exportCount := 0;
     NodeData.symbolUsers := [];
     NodeData.isVirtual := true |}.

(** The mutable locals of [buildGraph] that the first loop updates. *)
Record build : Type := {
  b_edges : list EdgeData.t;
  edgeKeys : list str;
  virtualNodes : list (str * NodeData.t);
  aliasCounts : list (str * list (str * nat));
  targetsByFile : list (str * (list str * list str));
  directConsumersByTarget : list (str * list str);
  edgeNumber : nat
}.

Definition emptyBuild : build :=
  {| b_edges := []; edgeKeys := []; virtualNodes := []; aliasCounts := [];
     targetsByFile := []; directConsumersByTarget := []; edgeNumber := 0 |}.

Definition orZero (o : option nat) : nat :=
  match o with
  | Some n => n
  | None => 0
  end.

Section Declarations.

Variable index : suffixIndex.
Variable parsedFileIds : list str.

Definition resolved (targetModulePath : str) : str :=
  match resolveModuleTarget targetModulePath index with
  | Some x => x
  | None => targetModulePath
  end.

(** [if (!edgeKeys.has(edgeKey)) { ... edges.push(...) }] *)
Definition addEdge (k : edgeKind) (fileId resolvedTarget : str) (b : build)
    : build :=
  let key := edgeKey k fileId resolvedTarget in
  if negb (setHas key (edgeKeys b)) then
    {| b_edges := b_edges b ++
         [ {| EdgeData.id := edgeId (S (edgeNumber b));
              EdgeData.source := fileId;
              EdgeData.target := resolvedTarget;
              EdgeData.kind := k |} ];
       edgeKeys := setAdd key (edgeKeys b);
       virtualNodes := virtualNodes b;
       aliasCounts := aliasCounts b;
       targetsByFile := targetsByFile b;
       directConsumersByTarget := directConsumersByTarget b;
       edgeNumber := S (edgeNumber b) |}
  else b.

(** [if (parsedFileIds.has(resolvedTarget)) { ... consumers.add(file.id) ... }] *)
Definition addConsumer (fileId resolvedTarget : str) (b : build) : build :=
  if setHas resolvedTarget parsedFileIds then
    let consumers := orEmpty (mapGet resolvedTarget (directConsumersByTarget b)) in
    {| b_edges := b_edges b;
       edgeKeys := edgeKeys b;
       virtualNodes := virtualNodes b;
       aliasCounts := aliasCounts b;
       targetsByFile := targetsByFile b;
       directConsumersByTarget :=
         mapSet resolvedTarget (setAdd fileId consumers)
           (directConsumersByTarget b);
       edgeNumber := edgeNumber b |}
  else b.

(** [if (resolvedTarget !== targetModulePath && resolvedTarget !== file.id)
    { ... aliasMap.set(targetModulePath, count + 1) ... }] *)
Definition addAlias (fileId resolvedTarget targetModulePath : str) (b : build)
    : build :=
  if negb (eqb_str resolvedTarget targetModulePath)
     && negb (eqb_str resolvedTarget fileId) then
    let aliasMap := orEmpty (mapGet resolvedTarget (aliasCounts b)) in
    {| b_edges := b_edges b;
       edgeKeys := edgeKeys b;
       virtualNodes := virtualNodes b;
       aliasCounts :=
         mapSet resolvedTarget
           (mapSet targetModulePath
              (orZero (mapGet targetModulePath aliasMap) + 1) aliasMap)
           (aliasCounts b);
       targetsByFile := targetsByFile b;
       directConsumersByTarget := directConsumersByTarget b;
       edgeNumber := edgeNumber b |}
  else b.

(** [if (!parsedFileIds.has(resolvedTarget)) { virtualNodes.set(...) }] *)
Definition addVirtual (resolvedTarget targetModulePath : str) (b : build)
    : build :=
  if negb (setHas resolvedTarget parsedFileIds) then
    {| b_edges := b_edges b;
       edgeKeys := edgeKeys b;
       virtualNodes :=
         mapSet resolvedTarget (virtualNode resolvedTarget targetModulePath)
           (virtualNodes b);
       aliasCounts := aliasCounts b;
       targetsByFile := targetsByFile b;
       directConsumersByTarget := directConsumersByTarget b;
       edgeNumber := edgeNumber b |}
  else b.

(** The body shared by the loop over [file.imports] and the loop over
    [file.reexports]; the second component collects [importTargets]
    (resp. [reexportTargets]). *)
Definition declare (k : edgeKind) (fileId : str) (st : build * list str)
    (targetModulePath : str) : build * list str :=
  let resolvedTarget := resolved targetModulePath in
  (addVirtual resolvedTarget targetModulePath
     (addAlias fileId resolvedTarget targetModulePath
        (addConsumer fileId resolvedTarget
           (addEdge k fileId resolvedTarget (fst st)))),
   snd st ++ [resolvedTarget]).

(** The body of the first [for (const file of parsedFiles)]. *)
Definition declareFile (b : build) (f : ParsedFile.t) : build :=
  let '(b1, importTargets) :=
    fold_left (declare KImport (ParsedFile.id f)) (ParsedFile.imports f) (b, []) in
  let '(b2, reexportTargets) :=
    fold_left (declare KReexport (ParsedFile.id f)) (ParsedFile.reexports f) (b1, []) in
  {| b_edges := b_edges b2;
     edgeKeys := edgeKeys b2;
     virtualNodes := virtualNodes b2;
     aliasCounts := aliasCounts b2;
     targetsByFile :=
       mapSet (ParsedFile.id f) (importTargets, reexportTargets) (targetsByFile b2);
     directConsumersByTarget := directConsumersByTarget b2;
     edgeNumber := edgeNumber b2 |}.

End Declarations.

(** [symbolUsers[symbol] = users] on an object literal: the host's
    reserved key [__proto__] sets the prototype and adds no property. *)
Definition objSet {V : Type} (k : str) (v : V) (o : list (str * V))
    : list (str * V) :=
  if eqb_str k (lit "__proto__") then o else mapSet k v o.

(** [new Map(parsedFiles.map((file) => [file.id, file]))] *)
Definition byId (parsedFiles : list ParsedFile.t) : list (str * ParsedFile.t) :=
  fold_left (fun mp f => mapSet (ParsedFile.id f) f mp) parsedFiles [].

Section Graph.

Context {host : Host}.

(** [parsedById.get(consumerId)?.tokens.has(symbol)] *)
Definition usesSymbol (parsedById : list (str * ParsedFile.t))
    (symbol consumerId : str) : bool :=
  match mapGet consumerId parsedById with
  | Some p => setHas symbol (ParsedFile.tokens p)
  | None => false
  end.

Definition usersOf (parsedById : list (str * ParsedFile.t))
    (directConsumers : list str) (symbol : str) : list str :=
  sortBy localeCompare (filter (usesSymbol parsedById symbol) directConsumers).

(** The loop over [file.exportedSymbols]. *)
Definition symbolUsersOf (parsedById : list (str * ParsedFile.t))
    (directConsumers : list str) (exportedSymbols : list str)
    : list (str * list str) :=
  fold_left
    (fun symbolUsers symbol =>
       let users := usersOf parsedById directConsumers symbol in
       if Nat.ltb 0 (length users) then objSet symbol users symbolUsers
       else symbolUsers)
    exportedSymbols [].

(** The node pushed by the second [for (const file of parsedFiles)]. *)
Definition fileNode (b : build) (parsedById : list (str * ParsedFile.t))
    (f : ParsedFile.t) : NodeData.t :=
  let targets :=
    match mapGet (ParsedFile.id f) (targetsByFile b) with
    | Some t => t
    | None => ([], [])
    end in
  let directConsumers :=
    orEmpty (mapGet (ParsedFile.id f) (directConsumersByTarget b)) in
  {| NodeData.id := ParsedFile.id f;
     NodeData.filePath := ParsedFile.filePath f;
     NodeData.modulePath :=
       chooseModulePath (mapGet (ParsedFile.id f) (aliasCounts b))
         (ParsedFile.filePath f);
     NodeData.imports := ParsedFile.imports f;
     NodeData.reexports := ParsedFile.reexports f;
     NodeData.importTargets := fst targets;
     NodeData.reexportTargets := snd targets;
     NodeData.importCount := length (ParsedFile.imports f);
     NodeData.reexportCount := length (ParsedFile.reexports f);
     NodeData.exports := ParsedFile.exportedSymbols f;
     NodeData.exportCount := length (ParsedFile.exportedSymbols f);
     NodeData.symbolUsers :=
       symbolUsersOf parsedById directConsumers (ParsedFile.exportedSymbols f);
     NodeData.isVirtual := false |}.

(** [for (const virtualNode of virtualNodes.values())
      if (!nodes.some(...)) nodes.push(virtualNode)] *)
Definition addVirtualNodes (nodes : list NodeData.t)
    (virtuals : list (str * NodeData.t)) : list NodeData.t :=
  fold_left
    (fun nodes v =>
       if negb (existsb (fun n => eqb_str (NodeData.id n) (NodeData.id (snd v)))
                  nodes)
       then nodes ++ [snd v] else nodes)
    virtuals nodes.

(** [new Set(parsedFiles.map((file) => file.id))] *)
Definition parsedFileIdsOf (parsedFiles : list ParsedFile.t) : list str :=
  fold_left (fun s f => setAdd (ParsedFile.id f) s) parsedFiles [].

(** The locals after the first [for (const file of parsedFiles)]. *)
Definition firstLoop (parsedFiles : list ParsedFile.t) : build :=
  fold_left
    (declareFile (buildSuffixIndex parsedFiles) (parsedFileIdsOf parsedFiles))
    parsedFiles emptyBuild.

(** The order handed to the final [edges.sort]. *)
Definition edgeOrder (x y : EdgeData.t) : Z :=
  localeCompare (EdgeData.id x) (EdgeData.id y).

(** The order handed to the final [nodes.sort]. *)
Definition nodeOrder (x y : NodeData.t) : Z :=
  localeCompare (NodeData.id x) (NodeData.id y).

(** [buildGraph] from the parsed files on. *)
Definition buildGraphFrom (parsedFiles : list ParsedFile.t) : GraphOutput :=
  let parsedById := byId parsedFiles in
  let b := firstLoop parsedFiles in
  let nodes := map (fileNode b parsedById) parsedFiles in
  let nodes := addVirtualNodes nodes (virtualNodes b) in
  {| nodes := sortBy nodeOrder nodes;
     edges := sortBy edgeOrder (b_edges b) |}.

(** [toPosixRelative(root, filePath)]; [relative] is what the host's
    [path.relative(root, filePath)] returns: the names from the root
    down to the file, joined by the separator of the platform. *)
Definition toPosixRelative (relative : str) : str := normalizePath relative.

(** The per-file analysis at the head of [buildGraph]; an input is the
    relative path of a collected file, as [path.relative] gives it, and
    the text read from the file. *)
Definition parseFile (input : str * str) : outcome ParsedFile.t :=
  let '(relative, raw) := input in
  let stripped := stripComments raw in
  let filePath := toPosixRelative relative in
  parsedImports <- parseImports stripped ;;
  exportedSymbols <- parseExportedSymbols stripped ;;
  tokens <- extractIdentifierTokens stripped ;;
  Ok {| ParsedFile.id := filePath;
        ParsedFile.filePath := filePath;
        ParsedFile.imports := fst parsedImports;
        ParsedFile.reexports := snd parsedImports;
        ParsedFile.exportedSymbols := exportedSymbols;
        ParsedFile.tokens := tokens |}.

Fixpoint parseFiles (inputs : list (str * str)) : outcome (list ParsedFile.t) :=
  match inputs with
  | [] => Ok []
  | input :: inputs' =>
    f <- parseFile input ;;
    fs <- parseFiles inputs' ;;
    Ok (f :: fs)
  end.

Definition buildGraph (inputs : list (str * str)) : outcome GraphOutput :=
  parsedFiles <- parseFiles inputs ;;
  Ok (buildGraphFrom parsedFiles).

End Graph.

(* ================================================================== *)
(** * Notions of the written specification *)
(* ================================================================== *)

(** The definitions below are not in the source: they say, in the
    words of the specification, what the properties are about. *)

(** ** Lines, comments and string literals *)

Definition newlines (s : str) : nat := length (filter (N.eqb NL) s).

(** [split(/\r?\n/).length] *)
Definition lineCount (s : str) : nat := S (newlines s).

(** A text still holds a comment when a left-to-right reading that
    tracks double-quoted literals and their backslash escapes meets
    [//] or [/*] outside a literal. *)
Fixpoint hasComment (inLiteral escaped : bool) (t : str) : bool :=
  match t with
  | [] => false
  | c :: r =>
    if inLiteral then
      if escaped then hasComment true false r
      else if N.eqb c BACKSLASH then hasComment true true r
      else if N.eqb c QUOTE then hasComment false false r
      else hasComment true false r
    else if N.eqb c QUOTE then hasComment true false r
    else if N.eqb c SLASH
            && (nextIs (hd_error r) SLASH || nextIs (hd_error r) STAR)
    then true
    else hasComment false false r
  end.

(** The contents of one literal: every quote in it is escaped and the
    last character does not escape the closing quote. *)
Fixpoint stringBody (escaped : bool) (b : str) : bool :=
  match b with
  | [] => negb escaped
  | c :: r =>
    if escaped then stringBody false r
    else if N.eqb c BACKSLASH then stringBody true r
    else if N.eqb c QUOTE then false
    else stringBody false r
  end.

(** The contents of a literal that the end of the text cuts short: no
    quote in it closes the literal. *)
Fixpoint unclosed (escaped : bool) (b : str) : bool :=
  match b with
  | [] => true
  | c :: r =>
    if escaped then unclosed false r
    else if N.eqb c BACKSLASH then unclosed true r
    else if N.eqb c QUOTE then false
    else unclosed false r
  end.

(** The text holds a star followed by a slash. *)
Fixpoint hasClose (t : str) : bool :=
  match t with
  | [] => false
  | c :: r => (N.eqb c STAR && nextIs (hd_error r) SLASH) || hasClose r
  end.

(** A code unit of the code proper, seen with what follows it: no
    quote, and no slash that opens a comment. *)
Definition isCode (c : char) (after : str) : bool :=
  negb (N.eqb c QUOTE)
  && negb (N.eqb c SLASH
           && (nextIs (hd_error after) SLASH || nextIs (hd_error after) STAR)).

(** The text is at the end of a line: it is over, or a line feed comes. *)
Definition lineEnds (s : str) : bool :=
  match s with
  | [] => true
  | c :: _ => N.eqb c NL
  end.

(** The line feeds of a text. *)
Definition lineFeeds (t : str) : str := filter (N.eqb NL) t.

(** [stripped source out]: [out] is [source] without its comments.  The
    text is read from the left as a sequence of pieces, and each piece
    is kept or dropped as the specification says:
    - a code unit of the code proper is kept;
    - a literal, from its quote to the quote that closes it, is kept
      whole; so is a literal that the text cuts short;
    - a line comment, from [//] to the end of its line, is dropped, and
      the line feed after it is part of what follows;
    - a block comment, from [/*] to the first [*/] after it (or to the
      end of the text when none comes), is dropped but for its line
      feeds. *)
Inductive stripped : str -> str -> Prop :=
| stripped_end : stripped [] []
| stripped_code c s o :
    isCode c s = true -> stripped s o -> stripped (c :: s) (c :: o)
| stripped_literal body s o :
    stringBody false body = true -> stripped s o ->
    stripped (QUOTE :: body ++ QUOTE :: s) (QUOTE :: body ++ QUOTE :: o)
| stripped_literal_cut body :
    unclosed false body = true -> stripped (QUOTE :: body) (QUOTE :: body)
| stripped_line text s o :
    ~ In NL text -> lineEnds s = true -> stripped s o ->
    stripped (SLASH :: SLASH :: text ++ s) o
| stripped_block text s o :
    hasClose (text ++ [STAR]) = false -> stripped s o ->
    stripped (SLASH :: STAR :: text ++ STAR :: SLASH :: s) (lineFeeds text ++ o)
| stripped_block_cut text :
    hasClose text = false ->
    stripped (SLASH :: STAR :: text) (lineFeeds text).

Definition normalFlags : flags := (false, false, false, false).

(** The loop is outside every literal and comment after reading [pre]. *)
Definition endsNormal (pre : str) : Prop :=
  flagsAfter false false false false pre = normalFlags.

(** ** Orders *)

(** Below or equal for a comparator of [sort]. *)
Definition cle {A : Type} (cmp : A -> A -> Z) (a b : A) : Prop := (cmp a b <= 0)%Z.

(** The lexicographic order of the written specification. *)
Inductive lexLe : str -> str -> Prop :=
| lexLe_nil b : lexLe [] b
| lexLe_lt x y a b : (x < y)%N -> lexLe (x :: a) (y :: b)
| lexLe_eq x a b : lexLe a b -> lexLe (x :: a) (x :: b).

(** ** The host's collation *)

(** What the language asks of [localeCompare] (ECMA-262, 22.1.3.12): a
    consistent comparison function on all strings, in the five laws of
    23.1.3.30.  It need not tell all strings apart: two strings that
    are canonically equivalent compare equal. *)
Class Collation (host : Host) : Prop := {
  collate_refl : forall a, localeCompare a a = 0%Z;
  collate_sym : forall a b, localeCompare a b = 0%Z -> localeCompare b a = 0%Z;
  collate_eq_trans : forall a b c,
    localeCompare a b = 0%Z -> localeCompare b c = 0%Z -> localeCompare a c = 0%Z;
  collate_lt_trans : forall a b c,
    (localeCompare a b < 0)%Z -> (localeCompare b c < 0)%Z ->
    (localeCompare a c < 0)%Z;
  collate_gt_trans : forall a b c,
    (localeCompare a b > 0)%Z -> (localeCompare b c > 0)%Z ->
    (localeCompare a c > 0)%Z
}.

(** Two hosts put the strings of [P] in the same order: [sort] reads
    the sign of a comparison and nothing else. *)
Definition agreeOn (h1 h2 : Host) (P : str -> Prop) : Prop :=
  forall a b, P a -> P b ->
    Z.leb (@localeCompare h1 a b) 0 = Z.leb (@localeCompare h2 a b) 0.

(** The host orders the edge ids [e1], [e2], ... as strings of code
    units, digit by digit: [e10] before [e2]. *)
Definition ordersEdgeIds (host : Host) : Prop :=
  agreeOn host codeUnits (fun s => exists n, s = edgeId n).

(** A plain name is made of lower-case letters, digits, dots and
    slashes; the host orders plain names as strings of code units.  A
    collation without tailoring does (dot, slash, digits, letters, in
    that order); one that reads a pair of letters as one, or moves a
    letter, does not. *)
Definition plainChar (c : char) : bool :=
  inRange 97 122 c || isDigit c || N.eqb c DOT || N.eqb c SLASH.

Definition plainName (s : str) : bool := forallb plainChar s.

Definition ordersPlainNames (host : Host) : Prop :=
  agreeOn host codeUnits (fun s => plainName s = true).

(** The host tells the strings of [names] apart. *)
Definition separates (host : Host) (names : list str) : Prop :=
  forall a b, In a names -> In b names -> localeCompare a b = 0%Z -> a = b.

(** *** A host with collation data

    The order of printable ASCII in the root collation of the Unicode
    CLDR, which a host built on ICU applies when its locale has no
    tailoring (en-US): white space, then the marks below in that order,
    then the digits, then the letters, a letter in either case at the
    place of the letter and the lower case first among strings that
    differ in case alone.  The other control characters are ignored.
    Code units beyond ASCII are put after the letters by their value,
    which is not the order of the collation: the statements about this
    host read ASCII only. *)
Definition rootOrder : str :=
  [9; 10; 11; 12; 13; 32]%N
  ++ lit "_-,;:!?.'" ++ [QUOTE] ++ lit "()[]{}@*/\&#%`^+<=>|~$0123456789".

Fixpoint indexOf (c : char) (l : str) : option nat :=
  match l with
  | [] => None
  | x :: l' =>
    if N.eqb c x then Some 0
    else match indexOf c l' with
         | Some i => Some (S i)
         | None => None
         end
  end.

Definition isUpper (c : char) : bool := inRange 65 90 c.
Definition isLower (c : char) : bool := inRange 97 122 c.

(** The primary weight of a code unit, from 1 on; none when ignored. *)
Definition primary (c : char) : option N :=
  match indexOf c rootOrder with
  | Some i => Some (1 + N.of_nat i)%N
  | None =>
    if isLower c then Some (100 + (c - 97))%N
    else if isUpper c then Some (100 + (c - 65))%N
    else if N.ltb c 128 then None
    else Some (200 + c)%N
  end.

(** The weight of the case, read when the primary weights are equal. *)
Definition tertiary (c : char) : N := if isUpper c then 2%N else 1%N.

Definition weighted (s : str) : str :=
  filter (fun c => match primary c with Some _ => true | None => false end) s.

(** The sort key: the primary weights, a separator below them all, the
    weights of the case. *)
Definition weightOf (c : char) : N :=
  match primary c with Some w => w | None => 0%N end.

Definition sortKey (s : str) : str :=
  map weightOf (weighted s) ++ 0%N :: map tertiary (weighted s).

Definition rootCollation : Host :=
  {| localeCompare := fun a b => codeUnitCompare (sortKey a) (sortKey b) |}.

(** ** The suffix index and the resolver *)

(** Following the specification: the ids that [record] registers under
    the key [s], one for every starting offset whose joined suffix is
    [s]; and the ids all records register, in the order of the records. *)
Definition registeredBy (s : str) (record : ParsedFile.t) : list str :=
  let segments := segmentsOf (ParsedFile.filePath record) in
  flat_map
    (fun i => if eqb_str s (suffixAt segments i) then [ParsedFile.id record] else [])
    (seq 0 (length segments)).

Definition registered (s : str) (records : list ParsedFile.t) : list str :=
  flat_map (registeredBy s) records.

(** Following the specification: the strings tried, the full normalized
    path first, then the path with its first segment dropped, then with
    its first two dropped, and so on. *)
Definition attempts (declared : str) : list str :=
  let normalized := normalizePath declared in
  let segments := segmentsOf normalized in
  normalized :: map (suffixAt segments) (seq 1 (length segments - 1)).

(** The first attempt that exactly one file registered. *)
Fixpoint firstSingle (records : list ParsedFile.t) (tries : list str)
    : option str :=
  match tries with
  | [] => None
  | s :: tries' =>
    match registered s records with
    | [x] => Some x
    | _ => firstSingle records tries'
    end
  end.

Definition resolveSpec (declared : str) (records : list ParsedFile.t)
    : option str :=
  firstSingle records (attempts declared).

Definition wrap (l : list str) : option (list str) :=
  match l with
  | [] => None
  | _ :: _ => Some l
  end.

(** ** What a match of a pattern has done *)

(** [r] can match the empty string. *)
Fixpoint nullable (r : regex) : bool :=
  match r with
  | Eps => true
  | Chr _ => false
  | Seq r1 r2 => nullable r1 && nullable r2
  | Alt r1 r2 => nullable r1 || nullable r2
  | Star _ => true
  | Group _ r1 => nullable r1
  | WordB => true
  end.

(** Every match of [r] goes through group [n]. *)
Fixpoint definesCap (n : nat) (r : regex) : bool :=
  match r with
  | Seq r1 r2 => definesCap n r1 || definesCap n r2
  | Alt r1 r2 => definesCap n r1 && definesCap n r2
  | Group n' r1 => Nat.eqb n n' || definesCap n r1
  | _ => false
  end.

Definition capSet (n : nat) (s : mstate) : Prop := getCap n (caps s) <> None.

(** The code unit before the position reached after [consumed]. *)
Definition prevAfter (consumed : str) (pv : option char) : option char :=
  fold_left (fun _ c => Some c) consumed pv.

(** [s'] is [s] after the matcher has read [consumed]. *)
Definition reads (consumed : str) (s s' : mstate) : Prop :=
  rest s = consumed ++ rest s'
  /\ pos s' = pos s + length consumed
  /\ prev s' = prevAfter consumed (prev s)
  /\ (forall n, capSet n s -> capSet n s').

Definition later (s s' : mstate) : Prop := exists consumed, reads consumed s s'.

(** A successful run of the matcher hands to its continuation a later
    position: strictly later when the pattern cannot match the empty
    string, and with every group set that the pattern always goes
    through. *)
Definition through (r : regex) (s s' : mstate) : Prop :=
  later s s'
  /\ (nullable r = false -> pos s < pos s')
  /\ (forall n, definesCap n r = true -> capSet n s').

(** The matches that [while (match)] goes through over [source], each
    as the pair of its index and of the index where it ends. *)
Definition matchSpans (pattern : regex) (source : str)
    : outcome (list (nat * nat)) :=
  whileMatch (S (length source)) pattern
    (fun mt acc => Ok (acc ++ [(fst mt, pos (snd mt))]))
    (start source) [].

(** [s] is a position of the text [t]. *)
Definition inText (t : str) (s : mstate) : Prop :=
  exists before,
    t = before ++ rest s /\ length before = pos s
    /\ prev s = prevAfter before None.

(** The literal made of [body] between its two quotes, right after
    [before], holds the span from [i] to [j]. *)
Definition insideLiteral (before body : str) (i j : nat) : Prop :=
  length before <= i /\ j <= length before + length body + 2.

(** Pieces of [importPattern]. *)
Definition COLON : char := 58%N.

Definition beforeQuote (c : char) : bool := N.eqb c COLON || isSpace c.

(** The head of [importPattern], up to the colon after [path], and what
    follows the first quote. *)
Definition importHead : list regex :=
  [ WordB; Opt (Group 1 (Seq (one "export") (Plus ws)));
    one "import"; Star ws; one "("; Star ws; one "path"; Star ws ].

Definition importAfterQuote : list regex :=
  [ Group 2 (Plus notQuote);
    Chr (N.eqb QUOTE); Star ws; one ","; Star ws; one "version";
    Star ws; one ":"; Star ws; Chr (N.eqb QUOTE); Star notQuote;
    Chr (N.eqb QUOTE); Star ws; one ")"; Star ws; one ";" ].

(** The span from [i] to [j] of [t] holds a quote that follows a colon
    or white space, and at least one more code unit after the quote. *)
Definition hasBareQuote (t : str) (i j : nat) : Prop :=
  exists a w b,
    t = a ++ w :: QUOTE :: b /\ beforeQuote w = true
    /\ i <= length a /\ length a + 2 < j.

(** ** Declarations and edges *)

(** A declaration: its kind, the id of the declaring file and the
    declared path; and the declarations of all files in the order in
    which the first loop of [buildGraph] meets them. *)
Definition decl : Type := edgeKind * str * str.

Definition declsOf (f : ParsedFile.t) : list decl :=
  map (fun p => (KImport, ParsedFile.id f, p)) (ParsedFile.imports f)
  ++ map (fun p => (KReexport, ParsedFile.id f, p)) (ParsedFile.reexports f).

Definition allDecls (parsedFiles : list ParsedFile.t) : list decl :=
  flat_map declsOf parsedFiles.

(** One round of either inner loop, on the locals alone. *)
Definition stepDecl (index : suffixIndex) (parsedFileIds : list str)
    (b : build) (d : decl) : build :=
  let '(k, fileId, targetModulePath) := d in
  let resolvedTarget := resolved index targetModulePath in
  addVirtual parsedFileIds resolvedTarget targetModulePath
    (addAlias fileId resolvedTarget targetModulePath
       (addConsumer parsedFileIds fileId resolvedTarget
          (addEdge k fileId resolvedTarget b))).

(** The identity of an edge: kind, source id, resolved target id. *)
Definition triple : Type := edgeKind * str * str.

Definition tripleOf (e : EdgeData.t) : triple :=
  (EdgeData.kind e, EdgeData.source e, EdgeData.target e).

Definition tripleOfDecl (index : suffixIndex) (d : decl) : triple :=
  let '(k, fileId, targetModulePath) := d in
  (k, fileId, resolved index targetModulePath).

Definition keyOfTriple (t : triple) : str :=
  let '(k, s, g) := t in edgeKey k s g.

Definition triple_eqb (a b : triple) : bool :=
  let '(k1, s1, g1) := a in
  let '(k2, s2, g2) := b in
  edgeKind_eqb k1 k2 && eqb_str s1 s2 && eqb_str g1 g2.

(** The distinct elements of a list, each where it first occurs. *)
Definition firstOccurrences (l : list str) : list str :=
  fold_left (fun s x => setAdd x s) l [].

(** The locals with [targetsByFile] dropped. *)
Definition forget (b : build) : build :=
  {| b_edges := b_edges b; edgeKeys := edgeKeys b;
     virtualNodes := virtualNodes b; aliasCounts := aliasCounts b;
     targetsByFile := [];
     directConsumersByTarget := directConsumersByTarget b;
     edgeNumber := edgeNumber b |}.

Definition nulFree (s : str) : Prop := ~ In NUL s.

(** The locals after the declarations [ds], from empty locals. *)
Definition run (index : suffixIndex) (parsedFileIds : list str)
    (ds : list decl) : build :=
  fold_left (stepDecl index parsedFileIds) ds emptyBuild.

Definition keyOfEdge (e : EdgeData.t) : str := keyOfTriple (tripleOf e).

(** The identities of the edges of a result, in output order. *)
Definition edgeTriples (g : outcome GraphOutput) : outcome (list triple) :=
  g' <- g ;; Ok (map tripleOf (edges g')).

Definition edgeIds (g : outcome GraphOutput) : outcome (list str) :=
  g' <- g ;; Ok (map EdgeData.id (edges g')).

(** The number of edges of [es] whose identity is [t]. *)
Definition edgeCount (t : triple) (es : list EdgeData.t) : nat :=
  length (filter (fun e => triple_eqb (tripleOf e) t) es).

(** The reading of the numbering that the specification gives: the
    edge at position [k] of the list carries the id [e<k+1>]. *)
Definition numberedInOrder (es : list EdgeData.t) : Prop :=
  forall k e, nth_error es k = Some e -> EdgeData.id e = edgeId (S k).

(** One file with ten imports that resolve to nothing. *)
Definition tenImports : list (str * str) :=
  [(lit "a.fs",
    src "import(path:'m1', version:'1'); import(path:'m2', version:'1');
         import(path:'m3', version:'1'); import(path:'m4', version:'1');
         import(path:'m5', version:'1'); import(path:'m6', version:'1');
         import(path:'m7', version:'1'); import(path:'m8', version:'1');
         import(path:'m9', version:'1'); import(path:'m10', version:'1');")].


(** Id and virtual flag of the nodes of a graph, in output order. *)
Definition nodeKinds (g : GraphOutput) : list (str * bool) :=
  map (fun n => (NodeData.id n, NodeData.isVirtual n)) (nodes g).

(** ** Aliases *)

(** The tie-break of the specification between two spellings with
    their counts: the higher count; among equal counts the longer
    string; among equal lengths the lexicographically smaller one. *)
Definition preferred (a b : str * nat) : Prop :=
  snd b < snd a
  \/ (snd b = snd a
      /\ (length (fst b) < length (fst a)
          \/ (length (fst b) = length (fst a) /\ lexLe (fst a) (fst b)))).

(** The same tie-break with the comparison of the host in the third
    place: among equal lengths the string that [localeCompare] does not
    put after the other. *)
Definition ranked {host : Host} (a b : str * nat) : Prop :=
  snd b < snd a
  \/ (snd b = snd a
      /\ (length (fst b) < length (fst a)
          \/ (length (fst b) = length (fst a)
              /\ (localeCompare (fst a) (fst b) <= 0)%Z))).

(** The declaration [d] is an observation of [spelling] for [target]:
    it declares that path, the path resolves to [target], is not the
    id of [target] itself and is not declared by [target]. *)
Definition observes (index : suffixIndex) (target spelling : str) (d : decl)
    : bool :=
  let '(_, fileId, p) := d in
  eqb_str p spelling && eqb_str (resolved index p) target
  && negb (eqb_str target p) && negb (eqb_str target fileId).

Definition occurrences (index : suffixIndex) (ds : list decl)
    (target spelling : str) : nat :=
  length (filter (observes index target spelling) ds).

(** [aliasCounts.get(target)?.get(spelling) ?? 0] *)
Definition aliasCount (ac : list (str * list (str * nat)))
    (target spelling : str) : nat :=
  orZero (mapGet spelling (orEmpty (mapGet target ac))).

Definition wfAliases (ac : list (str * list (str * nat))) : Prop :=
  forall t mp, mapGet t ac = Some mp ->
    mp <> [] /\ NoDup (map fst mp)
    /\ forall p c, mapGet p mp = Some c -> 0 < c.

(** ** Scenarios *)

(** The unresolved import of the specification. *)
Definition missingImport : list (str * str) :=
  [(lit "app.ext", src "import(path:'missing/mod.ext', version:'1');")].

(** An import whose path is the id of one indexed file and the tail of
    another: it resolves to nothing, and it names a real node. *)
Definition ambiguousFullPath : list ParsedFile.t :=
  [ file "a/b/c.ext" ["a/c.ext"]%string [] [] [];
    file "a/c.ext" [] [] [] [];
    file "b/a/c.ext" [] [] [] [] ].

Definition nodeKindsOf (g : outcome GraphOutput) : outcome (list (str * bool)) :=
  g' <- g ;;
  Ok (map (fun n => (NodeData.id n, NodeData.isVirtual n)) (nodes g')).

Definition virtualNodesOf (g : outcome GraphOutput) : outcome (list NodeData.t) :=
  g' <- g ;; Ok (filter NodeData.isVirtual (nodes g')).

(** An import of [lib/b.fs] under two spellings. *)
Definition twoSpellings : list ParsedFile.t :=
  [ file "a.fs" ["b.fs"; "x/lib/b.fs"]%string [] [] [];
    file "c.fs" ["b.fs"; "lib/b.fs"; "x/lib/b.fs"]%string ["lib/b.fs"]%string [] [];
    file "lib/b.fs" [] [] [] [] ].

(** The node that [buildGraph] pushes for the file [f]. *)
Definition nodeOfFile {host : Host} (parsedFiles : list ParsedFile.t)
    (f : ParsedFile.t) : NodeData.t :=
  fileNode (firstLoop parsedFiles) (byId parsedFiles) f.

(** The strings that [buildGraph] hands to [localeCompare]: the ids of
    the nodes and of the edges, the spellings in the alias tables and
    the consumers of each target. *)
Definition comparedNames (parsedFiles : list ParsedFile.t) : list str :=
  let b := firstLoop parsedFiles in
  map ParsedFile.id parsedFiles
  ++ map (fun v => NodeData.id (snd v)) (virtualNodes b)
  ++ map EdgeData.id (b_edges b)
  ++ flat_map (fun t => map fst (snd t)) (aliasCounts b)
  ++ flat_map snd (directConsumersByTarget b).

(** The reading of the specification: the display path of a file is
    preferred, with the lexicographic order in the third place, to every
    spelling observed for the file. *)
Definition lexicographicTieBreak (parsedFiles : list ParsedFile.t)
    (g : GraphOutput) : Prop :=
  forall n p,
    In n (nodes g) -> NodeData.isVirtual n = false ->
    let occ := occurrences (buildSuffixIndex parsedFiles) (allDecls parsedFiles)
                 (NodeData.id n) in
    0 < occ p ->
    preferred (NodeData.modulePath n, occ (NodeData.modulePath n)) (p, occ p).

(** Two spellings of [lib/b.fs], declared once each and of one length. *)
Definition underscoreAlias : list (str * str) :=
  [ (lit "a.fs",
     src "import(path:'x-y/b.fs', version:'1'); import(path:'x_y/b.fs', version:'1');");
    (lit "lib/b.fs", []) ].

Definition modulePathsOf (g : outcome GraphOutput) : outcome (list (str * str)) :=
  g' <- g ;;
  Ok (map (fun n => (NodeData.id n, NodeData.modulePath n)) (nodes g')).

(** A tree of a POSIX platform, where a backslash is a character of a
    name like another: the file [b.fs] of the directory [a], and beside
    that directory the file whose name is [a], a backslash, [b.fs]. *)
Definition backslashName : list (str * str) :=
  [ (lit "a/b.fs", []); (lit "a\b.fs", []) ].

Definition nodeIdsOf (g : outcome GraphOutput) : outcome (list str) :=
  g' <- g ;; Ok (map NodeData.id (nodes g')).

(** ** Symbol users *)

(** [consumer] is a user of [symbol] of the file [target]: some edge of
    the graph goes from it to [target], and [symbol] is one of the
    tokens of the file it names. *)
Definition isUser (parsedFiles : list ParsedFile.t) (g : GraphOutput)
    (target symbol consumer : str) : Prop :=
  (exists e, In e (edges g) /\ EdgeData.source e = consumer
             /\ EdgeData.target e = target)
  /\ (exists cf, In cf parsedFiles /\ ParsedFile.id cf = consumer
                 /\ In symbol (ParsedFile.tokens cf)).

(** The reading of the specification: the users of a symbol of a file
    are other files. *)
Definition usersAreOthers (g : GraphOutput) : Prop :=
  forall n symbol users,
    In n (nodes g) -> mapGet symbol (NodeData.symbolUsers n) = Some users ->
    ~ In (NodeData.id n) users.

(** A file that imports itself and exports a function. *)
Definition selfImport : list (str * str) :=
  [(lit "a.fs", src "import(path:'a.fs', version:'1'); export function Foo() {}")].

Definition PROTO : str := lit "__proto__".

Definition symbolUsersById (g : outcome GraphOutput)
    : outcome (list (str * list (str * list str))) :=
  g' <- g ;;
  Ok (map (fun n => (NodeData.id n, NodeData.symbolUsers n)) (nodes g')).

(** The end-to-end scenario of the specification, as parsed files. *)
Definition addScenario : list ParsedFile.t :=
  [ file "app.ext" ["util.ext"]%string [] [] ["x"; "Add"]%string;
    file "lib/util.ext" [] [] ["Add"]%string ["Add"; "a"; "b"]%string ].

(** ** What the first loop keeps true *)

(** The key set holds the keys of the edges, one for one and in the
    same order; the counter is the number of edges; the k-th edge
    created has number k. *)
Definition edgesInv (b : build) : Prop :=
  edgeKeys b = map keyOfEdge (b_edges b)
  /\ edgeNumber b = length (b_edges b)
  /\ map EdgeData.id (b_edges b) = map edgeId (seq 1 (length (b_edges b)))
  /\ NoDup (edgeKeys b).

(** The side table of placeholders after the declarations [ds]. *)
Definition virtualInv (index : suffixIndex) (ids : list str)
    (ds : list decl) (vn : list (str * NodeData.t)) : Prop :=
  NoDup (map fst vn)
  /\ (forall t v, In (t, v) vn ->
        v = virtualNode t t /\ ~ In t ids
        /\ resolveModuleTarget t index = None
        /\ exists k s, In (k, s, t) ds)
  /\ (forall k s p, In (k, s, p) ds -> ~ In (resolved index p) ids ->
        In (p, virtualNode p p) vn).

(** The consumers gathered for each target after the declarations [ds]. *)
Definition consumersInv (index : suffixIndex) (ids : list str)
    (ds : list decl) (dc : list (str * list str)) : Prop :=
  forall t,
    NoDup (orEmpty (mapGet t dc))
    /\ forall c, In c (orEmpty (mapGet t dc)) <->
         (In t ids /\ exists k p, In (k, c, p) ds /\ resolved index p = t).

(** The number of slashes of a string. *)
Definition slashes (s : str) : nat := length (filter (N.eqb SLASH) s).

(* ================================================================== *)
(** * The rest of the indexer *)
(* ================================================================== *)

(** The functions of [tools/indexer.ts] around the graph builder: the
    command line, the Onshape element map and the source links, the
    module file name of a path, and the two counters of a file.  The
    host's own functions are taken as the language and the run time
    define them: [path.posix.basename], [encodeURIComponent],
    [String.prototype.split] with a pattern.  [path.resolve] and
    [process.cwd] stay parameters, and a JSON text is taken as parsed. *)

(** ** Strings of the host *)

(** [s.startsWith(prefix)] *)
Fixpoint startsWith (prefix s : str) : bool :=
  match prefix, s with
  | [], _ => true
  | p :: prefix', c :: s' => N.eqb p c && startsWith prefix' s'
  | _ :: _, [] => false
  end.

(** [s.endsWith(suffix)] *)
Definition endsWith (suffix s : str) : bool := startsWith (rev suffix) (rev s).

Fixpoint takeWhile (p : char -> bool) (s : str) : str :=
  match s with
  | [] => []
  | c :: t => if p c then c :: takeWhile p t else []
  end.

Definition notSlash (c : char) : bool := negb (N.eqb c SLASH).

(** [path.posix.basename(path)]: the host reads [path] from its end,
    passes the slashes it ends with, and keeps the code units from
    there back to the slash before them. *)
Definition basename (path : str) : str :=
  rev (takeWhile notSlash (dropWhile (N.eqb SLASH) (rev path))).

(* ================================================================== *)
(** ** toModuleFileName, countNonCommentLoc, countFunctionDeclarations *)
(* ================================================================== *)

Definition toModuleFileName (value : str) : option str :=
  let normalized := trim (normalizePath value) in
  if negb (nonEmpty normalized) then None
  else
    let base := basename normalized in
    if negb (endsWith (lit ".fs") base) then None else Some base.

(** [s.split(/\r?\n/)]: a line ends at a line feed, with the carriage
    return before it when there is one. *)
Fixpoint splitLines (s : str) : list str :=
  match s with
  | [] => [[]]
  | c :: t =>
    if N.eqb c NL then [] :: splitLines t
    else if N.eqb c CR && nextIs (hd_error t) NL then
      match t with
      | [] => [[]]
      | _ :: t2 => [] :: splitLines t2
      end
    else
      match splitLines t with
      | line :: lines => (c :: line) :: lines
      | [] => [[c]]
      end
  end.

Definition countNonCommentLoc (sourceWithoutComments : str) : nat :=
  length
    (filter (fun line => Nat.ltb 0 (length line))
       (map (fun line => trim line) (splitLines sourceWithoutComments))).

(** [/\b(?:export\s+)?function\s+[A-Za-z_][A-Za-z0-9_]*\b/g] *)
Definition functionPattern : regex :=
  seqs [ WordB; Opt (Seq (one "export") (Plus ws)); one "function"; Plus ws;
         Chr isIdentStart; Star (Chr isWord); WordB ].

Definition countFunctionDeclarations (sourceWithoutComments : str) : outcome nat :=
  whileMatch (S (length sourceWithoutComments)) functionPattern
    (fun _ count => Ok (count + 1)) (start sourceWithoutComments) 0.

(* ================================================================== *)
(** ** encodeURIComponent and buildOnshapeSourceUrl *)
(* ================================================================== *)

(** The code units that [encodeURIComponent] copies: letters, digits
    and the marks [- _ . ! ~ * ' ( )]. *)
Definition isUnescaped (c : char) : bool :=
  isAlpha c || isDigit c || existsb (N.eqb c) (lit "-_.!~*'()").

Definition isLeadSurrogate (c : char) : bool := inRange 55296 56319 c.
Definition isTrailSurrogate (c : char) : bool := inRange 56320 57343 c.

Definition PERCENT : char := 37%N.

Definition hexDigit (d : N) : char :=
  if N.ltb d 10 then (48 + d)%N else (55 + d)%N.

(** One octet as [%XY], in upper-case hexadecimal. *)
Definition percentEncode (octet : N) : str :=
  [PERCENT; hexDigit (octet / 16); hexDigit (octet mod 16)].

(** The octets of a code point in UTF-8. *)
Definition utf8 (cp : N) : list N :=
  (if cp <? 128 then [cp]
   else if cp <? 2048 then [192 + cp / 64; 128 + cp mod 64]
   else if cp <? 65536 then
     [224 + cp / 4096; 128 + (cp / 64) mod 64; 128 + cp mod 64]
   else
     [240 + cp / 262144; 128 + (cp / 4096) mod 64; 128 + (cp / 64) mod 64;
      128 + cp mod 64])%N.

(** The code point of a surrogate pair. *)
Definition pairCodePoint (lead trail : char) : N :=
  ((lead - 55296) * 1024 + (trail - 56320) + 65536)%N.

(** [encodeURIComponent(s)]: a [URIError] is thrown at a surrogate
    that has no partner. *)
Fixpoint encodeURIComponent (s : str) : outcome str :=
  match s with
  | [] => Ok []
  | c :: t =>
    if isUnescaped c then
      r <- encodeURIComponent t ;; Ok (c :: r)
    else if isTrailSurrogate c then Throws
    else if isLeadSurrogate c then
      match t with
      | [] => Throws
      | d :: t2 =>
        if isTrailSurrogate d then
          r <- encodeURIComponent t2 ;;
          Ok (flat_map percentEncode (utf8 (pairCodePoint c d)) ++ r)
        else Throws
      end
    else
      r <- encodeURIComponent t ;; Ok (flat_map percentEncode (utf8 c) ++ r)
  end.

Definition buildOnshapeSourceUrl (elementId documentId workspaceId : str)
    : outcome str :=
  encodedDoc <- encodeURIComponent documentId ;;
  encodedWorkspace <- encodeURIComponent workspaceId ;;
  encodedElement <- encodeURIComponent elementId ;;
  Ok (lit "https://cad.onshape.com/documents/" ++ encodedDoc
      ++ lit "/w/" ++ encodedWorkspace ++ lit "/e/" ++ encodedElement).

(* ================================================================== *)
(** ** The Onshape element map *)
(* ================================================================== *)

(** A statement that returns, throws an [Error] with a message, or
    ends the process after printing. *)
Inductive completion (A : Type) : Type :=
| Returns (a : A)
| Raises (message : str)
| Exits (logged : str) (code : N).

Arguments Returns {A} a.
Arguments Raises {A} message.
Arguments Exits {A} logged code.

(** What [JSON.parse] answers.  A number is [mantissa * 2 ^ exponent];
    the fields of an object come in the order of [Object.entries]. *)
#[local] Unset Elimination Schemes.
Inductive json : Type :=
| JNull
| JBool (b : bool)
| JNumber (mantissa exponent : Z)
| JString (s : str)
| JArray (items : list json)
| JObject (fields : list (str * json)).
#[local] Set Elimination Schemes.

(** [Boolean(value)] *)
Definition toBoolean (value : json) : bool :=
  match value with
  | JNull => false
  | JBool b => b
  | JNumber mantissa _ => negb (Z.eqb mantissa 0)
  | JString s => nonEmpty s
  | JArray _ | JObject _ => true
  end.

(** [typeof value === 'object'] *)
Definition typeofObject (value : json) : bool :=
  match value with
  | JNull | JArray _ | JObject _ => true
  | _ => false
  end.

Definition isArray (value : json) : bool :=
  match value with
  | JArray _ => true
  | _ => false
  end.

Definition isRecord (value : json) : bool :=
  toBoolean value && typeofObject value && negb (isArray value).

(** The own properties of a value that [isRecord] accepts. *)
Definition fieldsOf (value : json) : list (str * json) :=
  match value with
  | JObject fields => fields
  | _ => []
  end.

Module OnshapeElementMap.
Record t : Type := {
  documentId : option str;
  workspaceId : option str;
  elementsByName : option (list (str * str))
}.
End OnshapeElementMap.

(** [typeof elementId !== 'string' || elementId.trim().length === 0] *)
Definition invalidElementId (elementId : json) : bool :=
  match elementId with
  | JString s => Nat.eqb (length (trim s)) 0
  | _ => true
  end.

(** [for (const [moduleFile, elementId] of Object.entries(elementsByName))] *)
Fixpoint checkElementIds (filePath : str) (entries : list (str * json))
    : completion unit :=
  match entries with
  | [] => Returns tt
  | (moduleFile, elementId) :: entries' =>
    if invalidElementId elementId then
      Raises (lit "Onshape map has invalid element id for " ++ QUOTE :: moduleFile
              ++ QUOTE :: lit " in " ++ filePath)
    else checkElementIds filePath entries'
  end.

(** [typeof v === 'string' && v.trim().length > 0 ? v.trim() : undefined] *)
Definition trimmedString (v : option json) : option str :=
  match v with
  | Some (JString s) => if Nat.ltb 0 (length (trim s)) then Some (trim s) else None
  | _ => None
  end.

(** The fields of a checked map, as the strings they are. *)
Definition asStrings (entries : list (str * json)) : list (str * str) :=
  flat_map
    (fun entry => match snd entry with
                  | JString s => [(fst entry, s)]
                  | _ => []
                  end)
    entries.

(** [loadOnshapeElementMap], from the value parsed from the file. *)
Definition loadOnshapeElementMap (filePath : str) (parsed : json)
    : completion OnshapeElementMap.t :=
  if negb (isRecord parsed) then
    Raises (lit "Onshape map must be a JSON object: " ++ filePath)
  else
    let elementsByName := mapGet (lit "elementsByName") (fieldsOf parsed) in
    let checked :=
      match elementsByName with
      | None => Returns tt
      | Some e =>
        if negb (isRecord e) then
          Raises (lit "Onshape map field " ++ QUOTE :: lit "elementsByName"
                  ++ QUOTE :: lit " must be an object: " ++ filePath)
        else checkElementIds filePath (fieldsOf e)
      end in
    match checked with
    | Raises message => Raises message
    | Exits logged code => Exits logged code
    | Returns _ =>
      Returns
        {| OnshapeElementMap.documentId :=
             trimmedString (mapGet (lit "documentId") (fieldsOf parsed));
           OnshapeElementMap.workspaceId :=
             trimmedString (mapGet (lit "workspaceId") (fieldsOf parsed));
           OnshapeElementMap.elementsByName :=
             Some (match elementsByName with
                   | Some e => asStrings (fieldsOf e)
                   | None => []
                   end) |}
    end.

(* ================================================================== *)
(** ** parseArgs *)
(* ================================================================== *)

Module CliOptions.
Record t : Type := {
  root : str;
  out : str;
  onshapeMap : option str;
  onshapeDocumentId : option str;
  onshapeWorkspaceId : option str
}.

Definition withRoot (v : str) (o : t) : t :=
  {| root := v; out := out o; onshapeMap := onshapeMap o;
     onshapeDocumentId := onshapeDocumentId o;
     onshapeWorkspaceId := onshapeWorkspaceId o |}.

Definition withOut (v : str) (o : t) : t :=
  {| root := root o; out := v; onshapeMap := onshapeMap o;
     onshapeDocumentId := onshapeDocumentId o;
     onshapeWorkspaceId := onshapeWorkspaceId o |}.

Definition withOnshapeMap (v : str) (o : t) : t :=
  {| root := root o; out := out o; onshapeMap := Some v;
     onshapeDocumentId := onshapeDocumentId o;
     onshapeWorkspaceId := onshapeWorkspaceId o |}.

Definition withOnshapeDocumentId (v : str) (o : t) : t :=
  {| root := root o; out := out o; onshapeMap := onshapeMap o;
     onshapeDocumentId := Some v;
     onshapeWorkspaceId := onshapeWorkspaceId o |}.

Definition withOnshapeWorkspaceId (v : str) (o : t) : t :=
  {| root := root o; out := out o; onshapeMap := onshapeMap o;
     onshapeDocumentId := onshapeDocumentId o;
     onshapeWorkspaceId := Some v |}.
End CliOptions.

(** The text that [printHelp] logs. *)
Definition helpText : str :=
  lit "FeatureScript stdlib indexer

Usage:
  npm run index -- --root <PATH_TO_STDLIB> [--out public/graph.json]"
  ++ lit " [--onshape-map tools/onshape-element-map.json]"
  ++ lit " [--onshape-document-id <id>] [--onshape-workspace-id <id>]
".

(** The locals of [parseArgs] before its loop. *)
Definition initialOptions : CliOptions.t :=
  {| CliOptions.root := [];
     CliOptions.out := lit "public/graph.json";
     CliOptions.onshapeMap := None;
     CliOptions.onshapeDocumentId := None;
     CliOptions.onshapeWorkspaceId := None |}.

(** [arg.slice(prefix.length)] *)
Definition sliceAfter (prefix : string) (arg : str) : str :=
  skipn (length (lit prefix)) arg.

(** The loop of [parseArgs] over the arguments still to read, on the
    locals [o]; [i += 1; continue] passes the value of an option. *)
Fixpoint parseArgsLoop (argv : list str) (o : CliOptions.t)
    : completion CliOptions.t :=
  match argv with
  | [] => Returns o
  | arg :: rest =>
    if eqb_str arg (lit "--help") || eqb_str arg (lit "-h") then
      Exits helpText 0
    else if eqb_str arg (lit "--root") then
      match rest with
      | [] => Returns (CliOptions.withRoot [] o)
      | value :: rest' => parseArgsLoop rest' (CliOptions.withRoot value o)
      end
    else if startsWith (lit "--root=") arg then
      parseArgsLoop rest (CliOptions.withRoot (sliceAfter "--root=" arg) o)
    else if eqb_str arg (lit "--out") then
      match rest with
      | [] => Returns o
      | value :: rest' => parseArgsLoop rest' (CliOptions.withOut value o)
      end
    else if startsWith (lit "--out=") arg then
      parseArgsLoop rest (CliOptions.withOut (sliceAfter "--out=" arg) o)
    else if eqb_str arg (lit "--onshape-map") then
      match rest with
      | [] => Raises (lit "Missing value for --onshape-map <PATH_TO_JSON>")
      | value :: rest' =>
        if negb (nonEmpty value)
        then Raises (lit "Missing value for --onshape-map <PATH_TO_JSON>")
        else parseArgsLoop rest' (CliOptions.withOnshapeMap value o)
      end
    else if startsWith (lit "--onshape-map=") arg then
      parseArgsLoop rest
        (CliOptions.withOnshapeMap (sliceAfter "--onshape-map=" arg) o)
    else if eqb_str arg (lit "--onshape-document-id") then
      match rest with
      | [] => Raises (lit "Missing value for --onshape-document-id <id>")
      | value :: rest' =>
        if negb (nonEmpty value)
        then Raises (lit "Missing value for --onshape-document-id <id>")
        else parseArgsLoop rest' (CliOptions.withOnshapeDocumentId value o)
      end
    else if startsWith (lit "--onshape-document-id=") arg then
      parseArgsLoop rest
        (CliOptions.withOnshapeDocumentId
           (sliceAfter "--onshape-document-id=" arg) o)
    else if eqb_str arg (lit "--onshape-workspace-id") then
      match rest with
      | [] => Raises (lit "Missing value for --onshape-workspace-id <id>")
      | value :: rest' =>
        if negb (nonEmpty value)
        then Raises (lit "Missing value for --onshape-workspace-id <id>")
        else parseArgsLoop rest' (CliOptions.withOnshapeWorkspaceId value o)
      end
    else if startsWith (lit "--onshape-workspace-id=") arg then
      parseArgsLoop rest
        (CliOptions.withOnshapeWorkspaceId
           (sliceAfter "--onshape-workspace-id=" arg) o)
    else Raises (lit "Unknown argument: " ++ arg)
  end.

Section Host.

(** [process.cwd()] and [path.resolve(...paths)]. *)
Variable cwd : str.
Variable pathResolve : list str -> str.

Definition parseArgs (argv : list str) : completion CliOptions.t :=
  match parseArgsLoop argv initialOptions with
  | Returns o =>
    if negb (nonEmpty (CliOptions.root o)) then
      Raises (lit "Missing required argument: --root <PATH_TO_STDLIB>")
    else
      Returns
        {| CliOptions.root := pathResolve [CliOptions.root o];
           CliOptions.out := pathResolve [cwd; CliOptions.out o];
           CliOptions.onshapeMap :=
             match CliOptions.onshapeMap o with
             | Some mapPath =>
               if nonEmpty mapPath then Some (pathResolve [cwd; mapPath]) else None
             | None => None
             end;
           CliOptions.onshapeDocumentId := CliOptions.onshapeDocumentId o;
           CliOptions.onshapeWorkspaceId := CliOptions.onshapeWorkspaceId o |}
  | Raises message => Raises message
  | Exits logged code => Exits logged code
  end.

End Host.

(* ================================================================== *)
(** ** The source links: main and buildGraph *)
(* ================================================================== *)

Definition DEFAULT_ONSHAPE_STD_DOCUMENT_ID : str := lit "12312312345abcabcabcdeff".
Definition DEFAULT_ONSHAPE_STD_WORKSPACE_ID : str := lit "a855e4161c814f2e9ab3698a".

Module SourceConfig.
Record t : Type := {
  documentId : str;
  workspaceId : str;
  elementsByName : list (str * str)
}.
End SourceConfig.

(** [a ?? b] *)
Definition orElse {A : Type} (a : option A) (b : A) : A :=
  match a with
  | Some x => x
  | None => b
  end.

(** The [onshapeSourceConfig] that [main] builds once the map is loaded. *)
Definition onshapeSourceConfigOf (options : CliOptions.t)
    (map_ : OnshapeElementMap.t) : SourceConfig.t :=
  {| SourceConfig.documentId :=
       orElse (CliOptions.onshapeDocumentId options)
         (orElse (OnshapeElementMap.documentId map_)
            DEFAULT_ONSHAPE_STD_DOCUMENT_ID);
     SourceConfig.workspaceId :=
       orElse (CliOptions.onshapeWorkspaceId options)
         (orElse (OnshapeElementMap.workspaceId map_)
            DEFAULT_ONSHAPE_STD_WORKSPACE_ID);
     SourceConfig.elementsByName :=
       orElse (OnshapeElementMap.elementsByName map_) [] |}.

(** [sourceElementId] of [buildGraph] for one file.  The key read from
    [elementsByName] ends in [.fs], as no property that an object
    inherits does: the read finds an own property or nothing. *)
Definition sourceElementIdOf (onshapeSourceConfig : option SourceConfig.t)
    (filePath : str) : option str :=
  match toModuleFileName filePath, onshapeSourceConfig with
  | Some moduleFileName, Some config =>
    if nonEmpty moduleFileName
    then mapGet moduleFileName (SourceConfig.elementsByName config)
    else None
  | _, _ => None
  end.

(** [sourceUrl] of [buildGraph] for one file. *)
Definition sourceUrlOf (onshapeSourceConfig : option SourceConfig.t)
    (filePath : str) : outcome (option str) :=
  match sourceElementIdOf onshapeSourceConfig filePath, onshapeSourceConfig with
  | Some sourceElementId, Some config =>
    if nonEmpty sourceElementId then
      url <- buildOnshapeSourceUrl sourceElementId
               (SourceConfig.documentId config) (SourceConfig.workspaceId config) ;;
      Ok (Some url)
    else Ok None
  | _, _ => Ok None
  end.

(** The [label] of the node of a file. *)
Definition labelOf (filePath : str) : str := basename filePath.

(* ================================================================== *)
(** * Notions used by the further properties *)
(* ================================================================== *)

(** A string without a surrogate that lacks its partner
    ([String.prototype.isWellFormed]). *)
Fixpoint isWellFormed (s : str) : bool :=
  match s with
  | [] => true
  | c :: t =>
    if isLeadSurrogate c then
      match t with
      | [] => false
      | d :: t2 => isTrailSurrogate d && isWellFormed t2
      end
    else negb (isTrailSurrogate c) && isWellFormed t
  end.

(** A code unit is a 16-bit number. *)
Definition codeUnit (c : char) : Prop := (c < 65536)%N.

(** The characters a URL component is written with once encoded. *)
Definition isUriSafe (c : char) : bool := isUnescaped c || N.eqb c PERCENT.

(** A line holds something else than white space. *)
Definition notBlank (line : str) : bool := existsb (fun c => negb (isSpace c)) line.

(** [s] holds the two code units [a], [b] side by side. *)
Fixpoint hasPair (a b : char) (s : str) : bool :=
  match s with
  | [] => false
  | c :: t => (N.eqb c a && nextIs (hd_error t) b) || hasPair a b t
  end.

(** A name as the patterns take it: a letter or an underscore, then
    letters, digits and underscores. *)
Definition isIdentifier (s : str) : bool :=
  match s with
  | [] => false
  | c :: t => isIdentStart c && forallb isWord t
  end.

(** ** The texts a pattern reads *)

(** [derives r cs]: [cs] is a text that [r] can read; the word
    boundary reads nothing, and what stands around it is not looked at
    here. *)
Inductive derives : regex -> str -> Prop :=
| derives_Eps : derives Eps []
| derives_Chr p c : p c = true -> derives (Chr p) [c]
| derives_Seq r1 r2 a b :
    derives r1 a -> derives r2 b -> derives (Seq r1 r2) (a ++ b)
| derives_AltL r1 r2 a : derives r1 a -> derives (Alt r1 r2) a
| derives_AltR r1 r2 a : derives r2 a -> derives (Alt r1 r2) a
| derives_StarNil r : derives (Star r) []
| derives_StarCons r a b :
    derives r a -> derives (Star r) b -> derives (Star r) (a ++ b)
| derives_Group n r a : derives r a -> derives (Group n r) a
| derives_WordB : derives WordB [].

(** Every text recorded for group [n] satisfies [P]. *)
Definition capHolds (n : nat) (P : str -> Prop) (s : mstate) : Prop :=
  forall v, In (n, v) (caps s) -> P v.

(** Every text that a group [n] of [r] can read satisfies [P]. *)
Fixpoint groupsHold (n : nat) (P : str -> Prop) (r : regex) : Prop :=
  match r with
  | Seq r1 r2 | Alt r1 r2 => groupsHold n P r1 /\ groupsHold n P r2
  | Star r1 => groupsHold n P r1
  | Group n' r1 =>
    groupsHold n P r1 /\ (n' = n -> forall v, derives r1 v -> P v)
  | _ => True
  end.

(** The least number of code units that a match of [r] reads. *)
Fixpoint minLen (r : regex) : nat :=
  match r with
  | Chr _ => 1
  | Seq r1 r2 => minLen r1 + minLen r2
  | Alt r1 r2 => Nat.min (minLen r1) (minLen r2)
  | Group _ r1 => minLen r1
  | _ => 0
  end.

(** What a target that [parseImports] returns looks like. *)
Definition cleanTarget (p : str) : Prop :=
  p <> [] /\ ~ In BACKSLASH p /\ ~ In QUOTE p
  /\ hasPair SLASH SLASH p = false.

(** [pre] is empty or ends with a slash. *)
Definition endsWithSlash (pre : str) : Prop :=
  pre = [] \/ exists q, pre = q ++ [SLASH].

(** An optional id is, when given, non-empty and free of white space
    at both ends. *)
Definition trimmedId (o : option str) : Prop :=
  forall id, o = Some id -> id <> [] /\ trim id = id.

(** The root [r] is given on the command line [argv], in one argument
    or in two. *)
Definition rootGiven (r : str) (argv : list str) : Prop :=
  In (lit "--root=" ++ r) argv
  \/ exists before after, argv = before ++ lit "--root" :: r :: after.

(** The value [after] of an optional id is the value [before], or it
    was given on the command line [argv]: if empty, by the argument
    [flag] alone. *)
Definition optionGiven (flag : str) (before after : option str)
    (argv : list str) : Prop :=
  after = before \/ exists v, after = Some v /\ (v = [] -> In flag argv).

(** How the locals [res] of [parseArgs] after the arguments [argv]
    relate to the locals [o] before them. *)
Definition argsGiven (argv : list str) (o res : CliOptions.t) : Prop :=
  (CliOptions.root res = CliOptions.root o \/ CliOptions.root res = []
   \/ rootGiven (CliOptions.root res) argv)
  /\ optionGiven (lit "--onshape-document-id=")
       (CliOptions.onshapeDocumentId o) (CliOptions.onshapeDocumentId res) argv
  /\ optionGiven (lit "--onshape-workspace-id=")
       (CliOptions.onshapeWorkspaceId o) (CliOptions.onshapeWorkspaceId res) argv.

(** The path [path] ends with the segments [tail]. *)
Definition endsWithSegments (tail : list str) (path : str) : Prop :=
  exists before, segmentsOf path = before ++ tail.

(** A segment of a path: not empty, and without a slash. *)
Definition goodSegment (seg : str) : Prop :=
  slashes seg = 0 /\ nonEmpty seg = true.

(** ** Whole words *)

(** The position reached from [s] after the code units [cs]. *)
Definition after (cs : str) (s : mstate) : mstate :=
  {| prev := prevAfter cs (prev s);
     rest := skipn (length cs) (rest s);
     pos := pos s + length cs;
     caps := caps s |}.

(** A name can start between [pv] and [rs]: no word character before,
    a letter or an underscore after. *)
Definition identAt (pv : option char) (rs : str) : bool :=
  negb (isWordOpt pv)
  && match rs with
     | c :: _ => isIdentStart c
     | [] => false
     end.

(** [tok] stands in [text] as a whole word: no word character before
    it and none after it. *)
Definition wholeWord (tok text : str) : Prop :=
  exists a b,
    text = a ++ tok ++ b
    /\ isWordOpt (prevAfter a None) = false
    /\ isWordOpt (hd_error b) = false.

(** ** The names and the nodes of a tree *)

(** The names of a tree: the ids of its files and the paths they
    declare. *)
Definition namesOf (parsedFiles : list ParsedFile.t) : list str :=
  map ParsedFile.id parsedFiles
  ++ flat_map (fun f => ParsedFile.imports f ++ ParsedFile.reexports f) parsedFiles.

(** The nodes in the order in which [buildGraph] makes them: those of
    the files, then the placeholders as the table lists them. *)
Definition unsortedNodes {host : Host} (parsedFiles : list ParsedFile.t)
    : list NodeData.t :=
  map (fileNode (firstLoop parsedFiles) (byId parsedFiles)) parsedFiles
  ++ map snd (virtualNodes (firstLoop parsedFiles)).
(* ================================================================== *)
(** * Properties *)
(* ================================================================== *)

(** ** Worked examples *)

Example strip_ex1 :
  stripComments (src "a // c
b /* x
y */ 'q//r' z") = src "a 
b 
 'q//r' z".
Proof. vm_compute. reflexivity. Qed.

Example normalizePath_ex :
  normalizePath (lit ".//./a\\b//c") = lit "./a/b/c".
Proof. vm_compute. reflexivity. Qed.

Example parseImports_ex :
  parseImports (stripComments (src
    "import(path : 'lib/a.fs', version : '1');
     // import(path : 'lib/c.fs', version : '1');
     export import(path : './b.fs', version : '');
     export  import ( path:'lib/a.fs',version:'7' ) ;
     import(path : 'lib/a.fs', version : '2');"))
  = Ok ([lit "lib/a.fs"], [lit "b.fs"; lit "lib/a.fs"]).
Proof. vm_compute. reflexivity. Qed.

Example parseExportedSymbols_ex :
  parseExportedSymbols (src
    "export function Add(a, b) {} export const  PI = 3; export type Add;
     export constant X; exportfunction Y; export enum E1 {}")
  = Ok [lit "Add"; lit "PI"; lit "E1"].
Proof. vm_compute. reflexivity. Qed.

Example extractIdentifierTokens_ex :
  extractIdentifierTokens (src "x = Add(1, y2) + 'Foo \' Bar' + _z; x")
  = Ok [lit "x"; lit "Add"; lit "y2"; lit "_z"].
Proof. vm_compute. reflexivity. Qed.

Example buildSuffixIndex_ex :
  buildSuffixIndex [file "a/b/c.ext" [] [] [] []; file "x/b/c.ext" [] [] [] []]
  = [ (lit "a/b/c.ext", [lit "a/b/c.ext"]);
      (lit "b/c.ext", [lit "a/b/c.ext"; lit "x/b/c.ext"]);
      (lit "c.ext", [lit "a/b/c.ext"; lit "x/b/c.ext"]);
      (lit "x/b/c.ext", [lit "x/b/c.ext"]) ].
Proof. vm_compute. reflexivity. Qed.

Example chooseModulePath_ex :
  @chooseModulePath rootCollation
    (Some [(lit "b.fs", 2); (lit "lib/b.fs", 2); (lit "x/lib/b.fs", 1);
           (lit "lia/b.fs", 2)])
    (lit "x/lib/b.fs") = lit "lia/b.fs".
Proof. vm_compute. reflexivity. Qed.

Example users_example :
  symbolUsersById
    (@buildGraph rootCollation
       [ (lit "app.ext", src "import(path:'util.ext', version:'1'); x = Add(1, 2);");
         (lit "lib/util.ext", src "export function Add(a, b) { return a + b; }");
         (lit "lib/z.ext", src "export import(path:'util.ext', version:'1');") ])
  = Ok [ (lit "app.ext", []);
         (lit "lib/util.ext", [(lit "Add", [lit "app.ext"])]);
         (lit "lib/z.ext", []) ].
Proof. vm_compute. reflexivity. Qed.

(** The order of the users and of the nodes is the host's: with
    collation data the upper-case [B.fs] comes after [a.fs] and the
    underscore before the hyphen; without, the code units decide. *)
Example collation_example :
  symbolUsersById
    (@buildGraph rootCollation
       [ (lit "B.fs", src "import(path:'u.fs', version:'1'); f();");
         (lit "a.fs", src "import(path:'u.fs', version:'1'); f();");
         (lit "a-b.fs", []); (lit "a_b.fs", []);
         (lit "lib/u.fs", src "export function f() {}") ])
  = Ok [ (lit "a_b.fs", []); (lit "a-b.fs", []); (lit "a.fs", []); (lit "B.fs", []);
         (lit "lib/u.fs", [(lit "f", [lit "a.fs"; lit "B.fs"])]) ]
  /\ symbolUsersById
       (@buildGraph codeUnits
          [ (lit "B.fs", src "import(path:'u.fs', version:'1'); f();");
            (lit "a.fs", src "import(path:'u.fs', version:'1'); f();");
            (lit "a-b.fs", []); (lit "a_b.fs", []);
            (lit "lib/u.fs", src "export function f() {}") ])
     = Ok [ (lit "B.fs", []); (lit "a-b.fs", []); (lit "a.fs", []); (lit "a_b.fs", []);
            (lit "lib/u.fs", [(lit "f", [lit "B.fs"; lit "a.fs"])]) ].
Proof. split; vm_compute; reflexivity. Qed.

(** The reserved key: the assignment sets the prototype of the object,
    which gets no property of that name. *)
Example reserved_key_example :
  symbolUsersById
    (@buildGraph rootCollation
       [ (lit "app.ext", src "import(path:'util.ext', version:'1'); __proto__();");
         (lit "lib/util.ext", src "export function __proto__() {}") ])
  = Ok [ (lit "app.ext", []); (lit "lib/util.ext", []) ].
Proof. vm_compute. reflexivity. Qed.

Example literal_like_import_ex :
  parseImports (stripComments (src
    "var s = 'import(path : \'a//b.fs\', version : \'1\');';"))
  = Ok ([], []).
Proof. vm_compute. reflexivity. Qed.

(** A match can start in one literal and end in another: the quotes it
    reads are then those that close and open the literals. *)
Example across_literals_ex :
  parseImports (stripComments (src
    "a = 'import(path:'; b = ',version:'; c = ');';"))
  = Ok ([lit "; b ="], []).
Proof. vm_compute. reflexivity. Qed.

(** ** The comment stripper *)

Lemma newlines_cons c s :
  newlines (c :: s) = (if N.eqb c NL then 1 else 0) + newlines s.
Proof.
  unfold newlines. cbn [filter]. rewrite (N.eqb_sym NL c).
  destruct (N.eqb c NL); reflexivity.
Qed.

Ltac char_facts :=
  repeat match goal with
  | H : andb _ _ = true |- _ => apply andb_true_iff in H; destruct H
  | H : nextIs (hd_error ?l) _ = true |- _ =>
      destruct l; simpl in H; [discriminate H|]
  | H : N.eqb _ _ = true |- _ => apply N.eqb_eq in H; subst
  end.

Lemma stripFrom_newlines n :
  forall s, length s <= n -> forall a b c d,
  newlines (stripFrom a b c d s) = newlines s.
Proof.
  induction n as [|n IH]; intros s Hn a b c d.
  - destruct s; [reflexivity | simpl in Hn; lia].
  - destruct s as [|ch rest]; [reflexivity|].
    simpl in Hn.
    assert (IH1 : forall a b c d,
      newlines (stripFrom a b c d rest) = newlines rest)
      by (intros; apply IH; lia).
    assert (IH2 : forall a b c d,
      newlines (match rest with [] => [] | _ :: r2 => stripFrom a b c d r2 end)
      = newlines (tl rest)).
    { intros. destruct rest; [reflexivity|]. simpl. apply IH. simpl in Hn. lia. }
    simpl stripFrom.
    repeat match goal with
    | |- context [if ?x then _ else _] =>
        let E := fresh "E" in destruct x eqn:E
    end;
    char_facts; simpl tl in *;
    rewrite ?newlines_cons, ?IH1, ?IH2; simpl; try rewrite ?E; try reflexivity;
    repeat match goal with
    | H : N.eqb ?x ?y = false |- context [N.eqb ?x ?y] => rewrite H
    end; try reflexivity.
Qed.

Lemma stripFrom_normal_head c r :
  N.eqb c SLASH = false ->
  hd_error (stripFrom false false false false (c :: r)) = Some c.
Proof.
  intros H. simpl. rewrite H. simpl.
  destruct (N.eqb c QUOTE); reflexivity.
Qed.

Lemma stripFrom_no_comment n :
  forall s, length s <= n ->
  hasComment false false (stripFrom false false false false s) = false
  /\ (forall esc, hasComment true esc (stripFrom true false false esc s) = false)
  /\ hasComment false false (stripFrom false true false false s) = false
  /\ hasComment false false (stripFrom false false true false s) = false.
Proof.
  induction n as [|n IH]; intros s Hn.
  - destruct s; [simpl; auto | simpl in Hn; lia].
  - destruct s as [|ch rest]; [simpl; auto|].
    simpl in Hn.
    destruct (IH rest ltac:(lia)) as (N1 & S1 & L1 & B1).
    repeat split.
    + simpl stripFrom.
      destruct (N.eqb ch QUOTE) eqn:Eq.
      { simpl. rewrite Eq. apply S1. }
      cbn [andb].
      destruct (N.eqb ch SLASH && nextIs (hd_error rest) SLASH) eqn:E1.
      { destruct rest as [|x r2]; [reflexivity|].
        simpl in Hn. apply (IH r2); lia. }
      destruct (N.eqb ch SLASH && nextIs (hd_error rest) STAR) eqn:E2.
      { destruct rest as [|x r2]; [reflexivity|].
        simpl in Hn. apply (IH r2); lia. }
      cbn [hasComment]. rewrite Eq.
      destruct (N.eqb ch SLASH) eqn:Es; [|simpl; apply N1].
      simpl in E1, E2.
      destruct rest as [|x r2]; [reflexivity|].
      assert (Hx : N.eqb x SLASH = false) by exact E1.
      rewrite (stripFrom_normal_head x r2 Hx).
      cbn [nextIs hd_error] in E1, E2 |- *. rewrite E1, E2. apply N1.
    + intros esc. simpl stripFrom. cbn [hasComment].
      destruct esc; [apply S1|].
      destruct (N.eqb ch BACKSLASH); [apply S1|].
      destruct (N.eqb ch QUOTE); [apply N1 | apply S1].
    + simpl stripFrom.
      destruct (N.eqb ch NL) eqn:E; [|apply L1].
      apply N.eqb_eq in E; subst ch. cbn. apply N1.
    + simpl stripFrom.
      destruct (N.eqb ch STAR && nextIs (hd_error rest) SLASH) eqn:E1.
      { destruct rest as [|x r2]; [reflexivity|].
        simpl in Hn. apply (IH r2); lia. }
      destruct (N.eqb ch NL) eqn:E; [|apply B1].
      apply N.eqb_eq in E; subst ch. cbn. apply B1.
Qed.

Lemma stripFrom_app n :
  forall pre, length pre <= n -> forall a b c d post,
  nextIs (hd_error post) SLASH = false ->
  nextIs (hd_error post) STAR = false ->
  stripFrom a b c d (pre ++ post)
  = stripFrom a b c d pre
    ++ (let '(a', b', c', d') := flagsAfter a b c d pre in
        stripFrom a' b' c' d' post).
Proof.
  induction n as [|n IH]; intros pre Hn a b c d post H1 H2.
  - destruct pre; [reflexivity | simpl in Hn; lia].
  - destruct pre as [|ch rest]; [reflexivity|].
    simpl in Hn.
    assert (Hhd : forall q, q = SLASH \/ q = STAR ->
              nextIs (hd_error (rest ++ post)) q = nextIs (hd_error rest) q).
    { intros q Hq. destruct rest; simpl; [|reflexivity].
      destruct Hq; subst q; assumption. }
    assert (IH1 : forall a b c d, stripFrom a b c d (rest ++ post)
      = stripFrom a b c d rest
        ++ (let '(a', b', c', d') := flagsAfter a b c d rest in
            stripFrom a' b' c' d' post))
      by (intros; apply IH; [lia | assumption | assumption]).
    cbn [app stripFrom flagsAfter].
    rewrite !Hhd by auto.
    repeat match goal with
    | |- context [if ?x then _ else _] =>
        let E := fresh "E" in destruct x eqn:E
    end;
    rewrite <- ?app_comm_cons, ?IH1; try reflexivity;
    char_facts; cbn [app];
    (apply IH; [simpl in Hn; lia | assumption | assumption]).
Qed.

Lemma stripFrom_string_body body :
  forall esc post, stringBody esc body = true ->
  stripFrom true false false esc (body ++ QUOTE :: post)
  = body ++ QUOTE :: stripFrom false false false false post.
Proof.
  induction body as [|c r IH]; intros esc post H.
  - destruct esc; [discriminate|]. reflexivity.
  - cbn [app stripFrom]. simpl in H. f_equal.
    destruct esc; [apply IH; assumption|].
    destruct (N.eqb c BACKSLASH); [apply IH; assumption|].
    destruct (N.eqb c QUOTE); [discriminate|].
    apply IH; assumption.
Qed.

Lemma stripComments_literal pre body post :
  endsNormal pre -> stringBody false body = true ->
  stripComments (pre ++ QUOTE :: body ++ QUOTE :: post)
  = stripComments pre ++ QUOTE :: body ++ QUOTE :: stripComments post.
Proof.
  intros Hpre Hbody. unfold stripComments.
  rewrite (stripFrom_app (length pre) pre (le_n _)) by reflexivity.
  rewrite Hpre. unfold normalFlags. f_equal.
  change (stripFrom false false false false (QUOTE :: body ++ QUOTE :: post))
    with (QUOTE :: stripFrom true false false false (body ++ QUOTE :: post)).
  rewrite stripFrom_string_body by assumption.
  reflexivity.
Qed.

(** *** The pieces of a text *)

Lemma stripComments_code c s :
  isCode c s = true -> stripComments (c :: s) = c :: stripComments s.
Proof.
  unfold isCode, stripComments. intros H.
  apply andb_true_iff in H. destruct H as (Hq & Hs).
  apply negb_true_iff in Hq, Hs. cbn [stripFrom]. rewrite Hq.
  destruct (N.eqb c SLASH); [|reflexivity]. cbn [andb] in Hs |- *.
  apply orb_false_iff in Hs. destruct Hs as (-> & ->). reflexivity.
Qed.

Lemma stripFrom_unclosed body : forall esc,
  unclosed esc body = true -> stripFrom true false false esc body = body.
Proof.
  induction body as [|c r IH]; intros esc H; [reflexivity|].
  cbn [stripFrom unclosed] in *. f_equal.
  destruct esc; [apply IH; exact H|].
  destruct (N.eqb c BACKSLASH); [apply IH; exact H|].
  destruct (N.eqb c QUOTE); [discriminate H | apply IH; exact H].
Qed.

Lemma stripFrom_line text : forall s,
  ~ In NL text -> lineEnds s = true ->
  stripFrom false true false false (text ++ s) = stripComments s.
Proof.
  induction text as [|c t IH]; intros s Hn He.
  - destruct s as [|c s]; [reflexivity|]. cbn [lineEnds] in He.
    apply N.eqb_eq in He. subst c. reflexivity.
  - cbn [app stripFrom].
    destruct (N.eqb c NL) eqn:E.
    + apply N.eqb_eq in E. subst c. exfalso. apply Hn. left. reflexivity.
    + apply IH; [|exact He]. intros H. apply Hn. right. exact H.
Qed.

Lemma lineFeeds_cons c t :
  lineFeeds (c :: t) = if N.eqb c NL then NL :: lineFeeds t else lineFeeds t.
Proof.
  unfold lineFeeds. cbn [filter]. rewrite (N.eqb_sym NL c).
  destruct (N.eqb c NL) eqn:E; [|reflexivity].
  apply N.eqb_eq in E. subst c. reflexivity.
Qed.

Lemma stripFrom_block text : forall s,
  hasClose (text ++ [STAR]) = false ->
  stripFrom false false true false (text ++ STAR :: SLASH :: s)
  = lineFeeds text ++ stripComments s.
Proof.
  induction text as [|c t IH]; intros s H; [reflexivity|].
  cbn [app hasClose] in H. apply orb_false_iff in H. destruct H as (H1 & H2).
  cbn [app stripFrom]. rewrite lineFeeds_cons.
  assert (Hh : nextIs (hd_error (t ++ STAR :: SLASH :: s)) SLASH
               = nextIs (hd_error (t ++ [STAR])) SLASH)
    by (destruct t; reflexivity).
  rewrite Hh, H1.
  destruct (N.eqb c NL); [cbn [app]; f_equal|]; apply IH; exact H2.
Qed.

Lemma stripFrom_block_cut text :
  hasClose text = false ->
  stripFrom false false true false text = lineFeeds text.
Proof.
  induction text as [|c t IH]; intros H; [reflexivity|].
  cbn [hasClose] in H. apply orb_false_iff in H. destruct H as (H1 & H2).
  cbn [stripFrom]. rewrite lineFeeds_cons, H1.
  destruct (N.eqb c NL); [f_equal|]; apply IH; exact H2.
Qed.

(** What the specification describes is what the stripper returns. *)
Lemma stripped_sound source out : stripped source out -> out = stripComments source.
Proof.
  induction 1 as [|c s o Hc _ IH|body s o Hb _ IH|body Hb|text s o Hn He _ IH
                  |text s o Hc _ IH|text Hc].
  - reflexivity.
  - rewrite (stripComments_code c s Hc), IH. reflexivity.
  - rewrite IH. unfold stripComments.
    change (stripFrom false false false false (QUOTE :: body ++ QUOTE :: s))
      with (QUOTE :: stripFrom true false false false (body ++ QUOTE :: s)).
    rewrite (stripFrom_string_body body false s Hb). reflexivity.
  - unfold stripComments.
    change (stripFrom false false false false (QUOTE :: body))
      with (QUOTE :: stripFrom true false false false body).
    rewrite (stripFrom_unclosed body false Hb). reflexivity.
  - rewrite IH. unfold stripComments at 2.
    change (stripFrom false false false false (SLASH :: SLASH :: text ++ s))
      with (stripFrom false true false false (text ++ s)).
    symmetry. apply stripFrom_line; assumption.
  - rewrite IH. unfold stripComments at 2.
    change (stripFrom false false false false
              (SLASH :: STAR :: text ++ STAR :: SLASH :: s))
      with (stripFrom false false true false (text ++ STAR :: SLASH :: s)).
    symmetry. apply stripFrom_block. exact Hc.
  - unfold stripComments.
    change (stripFrom false false false false (SLASH :: STAR :: text))
      with (stripFrom false false true false text).
    symmetry. apply stripFrom_block_cut. exact Hc.
Qed.

Lemma literal_split r : forall esc,
  unclosed esc r = true
  \/ exists body s, r = body ++ QUOTE :: s /\ stringBody esc body = true.
Proof.
  induction r as [|c r IH]; intros esc; [left; reflexivity|].
  cbn [unclosed].
  destruct esc.
  - destruct (IH false) as [H|(body & s & -> & H)]; [left; exact H|].
    right. exists (c :: body), s. split; [reflexivity | exact H].
  - destruct (N.eqb c BACKSLASH) eqn:Eb.
    + destruct (IH true) as [H|(body & s & -> & H)]; [left; exact H|].
      right. exists (c :: body), s. split; [reflexivity|].
      cbn [stringBody]. rewrite Eb. exact H.
    + destruct (N.eqb c QUOTE) eqn:Eq.
      * right. apply N.eqb_eq in Eq. subst c. exists [], r. split; reflexivity.
      * destruct (IH false) as [H|(body & s & -> & H)]; [left; exact H|].
        right. exists (c :: body), s. split; [reflexivity|].
        cbn [stringBody]. rewrite Eb, Eq. exact H.
Qed.

Lemma line_split r :
  exists text s, r = text ++ s /\ ~ In NL text /\ lineEnds s = true.
Proof.
  induction r as [|c r (text & s & -> & Hn & He)].
  - exists [], []. repeat split. intros [].
  - destruct (N.eqb c NL) eqn:E.
    + exists [], (c :: text ++ s). repeat split; [intros [] | exact E].
    + exists (c :: text), s. repeat split; [|exact He].
      intros [->|H]; [|contradiction]. rewrite N.eqb_refl in E. discriminate E.
Qed.

Lemma block_split r :
  hasClose r = false
  \/ exists text s, r = text ++ STAR :: SLASH :: s /\ hasClose (text ++ [STAR]) = false.
Proof.
  induction r as [|c r IH]; [left; reflexivity|].
  cbn [hasClose].
  destruct (N.eqb c STAR && nextIs (hd_error r) SLASH) eqn:E.
  - right. apply andb_true_iff in E. destruct E as (E1 & E2).
    apply N.eqb_eq in E1. subst c.
    destruct r as [|d r]; [discriminate E2|]. cbn in E2.
    apply N.eqb_eq in E2. subst d. exists [], r. split; reflexivity.
  - destruct IH as [H|(text & s & -> & H)]; [left; exact H|].
    right. exists (c :: text), s. split; [reflexivity|].
    cbn [app hasClose]. rewrite H, orb_false_r.
    destruct text; exact E.
Qed.

(** Every text reads as such pieces. *)
Lemma stripped_complete n : forall source,
  length source <= n -> stripped source (stripComments source).
Proof.
  induction n as [|n IH]; intros source Hn.
  - destruct source; [constructor | simpl in Hn; lia].
  - destruct source as [|c r]; [constructor|]. cbn [length] in Hn.
    destruct (isCode c r) eqn:Ec.
    { rewrite (stripComments_code c r Ec). apply stripped_code; [exact Ec|].
      apply IH. lia. }
    unfold isCode in Ec. apply andb_false_iff in Ec.
    destruct (N.eqb c QUOTE) eqn:Eq.
    + apply N.eqb_eq in Eq. subst c.
      destruct (literal_split r false) as [H|(body & s & -> & H)].
      * rewrite <- (stripped_sound _ _ (stripped_literal_cut r H)).
        apply stripped_literal_cut. exact H.
      * assert (Hs : stripped s (stripComments s)).
        { apply IH. rewrite length_app in Hn. cbn [length] in Hn. lia. }
        rewrite <- (stripped_sound _ _ (stripped_literal body s _ H Hs)).
        apply stripped_literal; assumption.
    + destruct Ec as [Ec|Ec]; [discriminate Ec|].
      apply negb_false_iff, andb_true_iff in Ec. destruct Ec as (Es & En).
      apply N.eqb_eq in Es. subst c.
      destruct r as [|d r]; [discriminate En|].
      cbn [hd_error nextIs] in En. cbn [length] in Hn.
      apply orb_true_iff in En. destruct En as [En|En];
        apply N.eqb_eq in En; subst d.
      * destruct (line_split r) as (text & s & -> & Ht & He).
        assert (Hs : stripped s (stripComments s)).
        { apply IH. rewrite length_app in Hn. lia. }
        rewrite <- (stripped_sound _ _ (stripped_line text s _ Ht He Hs)).
        apply stripped_line; assumption.
      * destruct (block_split r) as [H|(text & s & -> & H)].
        -- rewrite <- (stripped_sound _ _ (stripped_block_cut r H)).
           apply stripped_block_cut. exact H.
        -- assert (Hs : stripped s (stripComments s)).
           { apply IH. rewrite length_app in Hn. cbn [length] in Hn. lia. }
           rewrite <- (stripped_sound _ _ (stripped_block text s _ H Hs)).
           apply stripped_block; assumption.
Qed.

(** ** Strings, sets and maps *)

Lemma eqb_str_eq a : forall b, eqb_str a b = true <-> a = b.
Proof.
  induction a as [|x a IH]; destruct b as [|y b]; simpl;
    try (split; [discriminate | intros [=]]); try tauto.
  rewrite andb_true_iff, N.eqb_eq, IH. split.
  - intros [-> ->]. reflexivity.
  - intros [= -> ->]. auto.
Qed.

Lemma eqb_str_refl a : eqb_str a a = true.
Proof. apply eqb_str_eq. reflexivity. Qed.

Lemma eqb_str_neq a b : eqb_str a b = false <-> a <> b.
Proof.
  rewrite <- eqb_str_eq. destruct (eqb_str a b); split; congruence.
Qed.

Lemma eqb_str_spec a b : reflect (a = b) (eqb_str a b).
Proof.
  destruct (eqb_str a b) eqn:E; constructor.
  - apply eqb_str_eq; assumption.
  - apply eqb_str_neq; assumption.
Qed.

Lemma setHas_In x s : setHas x s = true <-> In x s.
Proof.
  unfold setHas. rewrite existsb_exists. split.
  - intros (y & Hy & E). apply eqb_str_eq in E. subst. assumption.
  - intros H. exists x. split; [assumption | apply eqb_str_refl].
Qed.

Lemma setHas_false x s : setHas x s = false <-> ~ In x s.
Proof.
  rewrite <- setHas_In. destruct (setHas x s); split; congruence.
Qed.

Lemma setAdd_In x y s : In y (setAdd x s) <-> y = x \/ In y s.
Proof.
  unfold setAdd. destruct (setHas x s) eqn:E.
  - apply setHas_In in E. split; [auto|]. intros [->|]; assumption.
  - rewrite in_app_iff. simpl. intuition congruence.
Qed.

Lemma setAdd_NoDup x s : NoDup s -> NoDup (setAdd x s).
Proof.
  intros H. unfold setAdd. destruct (setHas x s) eqn:E; [assumption|].
  apply setHas_false in E.
  apply NoDup_rev in H. rewrite <- (rev_involutive (s ++ [x])).
  apply NoDup_rev. rewrite rev_app_distr. simpl. constructor.
  - rewrite <- in_rev. assumption.
  - assumption.
Qed.

Lemma mapGet_mapSet_same {V} k (v : V) mp : mapGet k (mapSet k v mp) = Some v.
Proof.
  induction mp as [|[k' v'] mp IH]; simpl.
  - rewrite eqb_str_refl. reflexivity.
  - destruct (eqb_str k k') eqn:E; simpl; rewrite ?eqb_str_refl, ?E; auto.
Qed.

Lemma mapGet_mapSet_other {V} k k' (v : V) mp :
  k <> k' -> mapGet k (mapSet k' v mp) = mapGet k mp.
Proof.
  intros Hne. induction mp as [|[k2 v2] mp IH]; simpl.
  - apply eqb_str_neq in Hne. rewrite Hne. reflexivity.
  - destruct (eqb_str k' k2) eqn:E; simpl.
    + apply eqb_str_eq in E. subst k2.
      apply eqb_str_neq in Hne. rewrite Hne. reflexivity.
    + destruct (eqb_str k k2); auto.
Qed.

Lemma mapGet_mapSet {V} k k' (v : V) mp :
  mapGet k (mapSet k' v mp) = if eqb_str k k' then Some v else mapGet k mp.
Proof.
  destruct (eqb_str_spec k k') as [->|Hne].
  - apply mapGet_mapSet_same.
  - apply mapGet_mapSet_other. assumption.
Qed.

Lemma mapSet_keys {V} k (v : V) mp x :
  In x (map fst (mapSet k v mp)) <-> x = k \/ In x (map fst mp).
Proof.
  induction mp as [|[k2 v2] mp IH]; simpl.
  - intuition congruence.
  - destruct (eqb_str_spec k k2) as [->|Hne]; simpl.
    + intuition congruence.
    + rewrite IH. intuition congruence.
Qed.

Lemma mapSet_NoDup {V} k (v : V) mp :
  NoDup (map fst mp) -> NoDup (map fst (mapSet k v mp)).
Proof.
  induction mp as [|[k2 v2] mp IH]; simpl; intros H.
  - constructor; [intros [] | constructor].
  - inversion H as [|? ? Hn Hd]; subst.
    destruct (eqb_str_spec k k2) as [->|Hne]; simpl.
    + constructor; assumption.
    + constructor; [|apply IH; assumption].
      rewrite mapSet_keys. intros [E|Hin]; [congruence | contradiction].
Qed.

Lemma mapGet_In {V} k (v : V) mp : mapGet k mp = Some v -> In (k, v) mp.
Proof.
  induction mp as [|[k2 v2] mp IH]; simpl; [discriminate|].
  destruct (eqb_str_spec k k2) as [->|Hne].
  - intros [= ->]. left. reflexivity.
  - intros H. right. apply IH. assumption.
Qed.

Lemma In_mapGet {V} k (v : V) mp :
  NoDup (map fst mp) -> In (k, v) mp -> mapGet k mp = Some v.
Proof.
  induction mp as [|[k2 v2] mp IH]; simpl; [intros _ []|].
  intros Hnd [E|Hin]; inversion Hnd as [|? ? Hn Hd]; subst.
  - injection E as -> ->. rewrite eqb_str_refl. reflexivity.
  - destruct (eqb_str_spec k k2) as [->|Hne].
    + exfalso. apply Hn. apply (in_map fst) in Hin. assumption.
    + apply IH; assumption.
Qed.

Lemma mapGet_None {V} k (mp : list (str * V)) :
  mapGet k mp = None <-> ~ In k (map fst mp).
Proof.
  induction mp as [|[k2 v2] mp IH]; simpl; [tauto|].
  destruct (eqb_str_spec k k2) as [->|Hne].
  - split; [discriminate | intros H; exfalso; apply H; auto].
  - rewrite IH. intuition congruence.
Qed.

(** ** normalizePath *)

Lemma collapseSlashes_In c b s : In c (collapseSlashes b s) -> In c s.
Proof.
  revert b. induction s as [|x t IH]; intros b H; simpl in *; [assumption|].
  destruct (N.eqb x SLASH) eqn:E.
  - apply N.eqb_eq in E. subst x.
    destruct b; [right; eapply IH; eassumption|].
    destruct H as [H|H]; [left; assumption | right; eapply IH; eassumption].
  - destruct H as [H|H]; [left; assumption | right; eapply IH; eassumption].
Qed.

Lemma dropWhile_In p c s : In c (dropWhile p s) -> In c s.
Proof.
  induction s as [|x t IH]; intros H; simpl in *; [assumption|].
  destruct (p x); [right; apply IH; assumption | assumption].
Qed.

Lemma stripDotSlash_In c s : In c (stripDotSlash s) -> In c s.
Proof.
  unfold stripDotSlash. destruct s as [|c1 [|c2 t]]; try (intros H; exact H).
  destruct (N.eqb c1 DOT && N.eqb c2 SLASH); [|intros H; exact H].
  intros H. right. right. eapply dropWhile_In. eassumption.
Qed.

Lemma collapseSlashes_head b s :
  nextIs (hd_error (collapseSlashes b s)) SLASH = true -> b = false.
Proof.
  revert b. induction s as [|x t IH]; intros b H; simpl in H; [discriminate|].
  destruct (N.eqb x SLASH) eqn:E.
  - destruct b; [|reflexivity]. apply IH in H. discriminate H.
  - simpl in H. rewrite E in H. discriminate H.
Qed.

Lemma collapseSlashes_hasPair b s :
  hasPair SLASH SLASH (collapseSlashes b s) = false.
Proof.
  revert b. induction s as [|x t IH]; intros b; simpl; [reflexivity|].
  destruct (N.eqb x SLASH) eqn:E.
  - destruct b; [apply IH|]. simpl. rewrite IH, orb_false_r.
    destruct (nextIs (hd_error (collapseSlashes true t)) SLASH) eqn:En;
      [|reflexivity].
    apply collapseSlashes_head in En. discriminate En.
  - simpl. rewrite E, IH. reflexivity.
Qed.

Lemma collapseSlashes_id s :
  hasPair SLASH SLASH s = false -> collapseSlashes false s = s.
Proof.
  induction s as [|x t IH]; intros H; [reflexivity|].
  cbn [hasPair] in H. apply orb_false_iff in H. destruct H as (H1 & H2).
  specialize (IH H2). cbn [collapseSlashes].
  destruct (N.eqb x SLASH) eqn:E; [|f_equal; exact IH].
  apply N.eqb_eq in E. subst x.
  f_equal. destruct t as [|y t']; [reflexivity|].
  cbn [andb hd_error nextIs] in H1.
  cbn [collapseSlashes] in IH |- *. rewrite H1 in IH |- *. exact IH.
Qed.

Lemma map_id_free (f : N -> N) s :
  (forall c, In c s -> f c = c) -> map f s = s.
Proof.
  induction s as [|x t IH]; intros H; simpl; [reflexivity|].
  rewrite H by (left; reflexivity). f_equal. apply IH.
  intros c Hc. apply H. right. assumption.
Qed.

Lemma unslash_id s :
  ~ In BACKSLASH s -> map (fun c => if N.eqb c BACKSLASH then SLASH else c) s = s.
Proof.
  intros H. apply map_id_free. intros c Hc.
  destruct (N.eqb c BACKSLASH) eqn:E; [|reflexivity].
  apply N.eqb_eq in E. subst c. contradiction.
Qed.

Lemma stripDotSlash_cases s :
  (startsWith (lit "./") s = false /\ stripDotSlash s = s)
  \/ (startsWith (lit "./") s = true /\ length (stripDotSlash s) < length s).
Proof.
  unfold stripDotSlash. destruct s as [|c1 [|c2 t]].
  - left. split; reflexivity.
  - left. split; [|reflexivity]. simpl. apply andb_false_r.
  - change (startsWith (lit "./") (c1 :: c2 :: t))
      with (N.eqb DOT c1 && (N.eqb SLASH c2 && true)).
    rewrite andb_true_r, (N.eqb_sym DOT), (N.eqb_sym SLASH).
    destruct (N.eqb c1 DOT && N.eqb c2 SLASH); [right | left; auto].
    split; [reflexivity|]. simpl.
    assert (H : forall p (l : list N), length (dropWhile p l) <= length l).
    { intros p l. induction l as [|x l IH]; simpl; [lia|].
      destruct (p x); simpl; lia. }
    pose proof (H (N.eqb SLASH) t). lia.
Qed.

Lemma normalizePath_fixed s :
  ~ In BACKSLASH s -> hasPair SLASH SLASH s = false ->
  startsWith (lit "./") s = false -> normalizePath s = s.
Proof.
  intros Hb Hp Hd. unfold normalizePath. rewrite unslash_id by assumption.
  destruct (stripDotSlash_cases s) as [(_ & ->)|(E & _)]; [|congruence].
  apply collapseSlashes_id. assumption.
Qed.

Lemma normalizePath_no_backslash value : ~ In BACKSLASH (normalizePath value).
Proof.
  unfold normalizePath. intros H.
  apply collapseSlashes_In, stripDotSlash_In, in_map_iff in H.
  destruct H as (c & E & _).
  destruct (N.eqb c BACKSLASH) eqn:Ec; [discriminate E|].
  subst c. discriminate Ec.
Qed.

(** ** Sorting *)

Section Sorting.

Context {A : Type}.
Variable cmp : A -> A -> Z.

Lemma insertBy_perm x l : Permutation (insertBy cmp x l) (x :: l).
Proof.
  induction l as [|y l IH]; simpl; [reflexivity|].
  destruct (Z.leb (cmp x y) 0); [reflexivity|].
  rewrite IH. apply perm_swap.
Qed.

Lemma sortBy_perm l : Permutation (sortBy cmp l) l.
Proof.
  induction l as [|x l IH]; simpl; [reflexivity|].
  rewrite insertBy_perm. constructor. assumption.
Qed.

Lemma sortBy_In x l : In x (sortBy cmp l) <-> In x l.
Proof.
  split; apply Permutation_in; [|symmetry]; apply sortBy_perm.
Qed.

Lemma sortBy_length l : length (sortBy cmp l) = length l.
Proof. apply Permutation_length, sortBy_perm. Qed.

Lemma insertBy_sorted_id x l :
  HdRel (cle cmp) x l -> insertBy cmp x l = x :: l.
Proof.
  intros H. destruct l as [|y l]; [reflexivity|].
  inversion H as [|? ? Hxy]; subst. simpl.
  unfold cle in Hxy. apply Z.leb_le in Hxy. rewrite Hxy. reflexivity.
Qed.

(** Sorting a sorted list changes nothing. *)
Lemma sortBy_sorted_id l : Sorted (cle cmp) l -> sortBy cmp l = l.
Proof.
  induction 1 as [|x l Hs IH Hh]; simpl; [reflexivity|].
  rewrite IH. apply insertBy_sorted_id. assumption.
Qed.

Hypothesis cmp_total : forall a b, (cle cmp) a b \/ (cle cmp) b a.

Lemma insertBy_Sorted x l : Sorted (cle cmp) l -> Sorted (cle cmp) (insertBy cmp x l).
Proof.
  induction 1 as [|y l Hs IH Hh]; simpl.
  - repeat constructor.
  - destruct (Z.leb (cmp x y) 0) eqn:E.
    + apply Z.leb_le in E. repeat constructor; assumption.
    + apply Z.leb_gt in E. constructor; [assumption|].
      assert (Hyx : (cle cmp) y x).
      { destruct (cmp_total x y) as [H|H]; [unfold cle in H; lia | exact H]. }
      destruct l as [|z l]; simpl.
      * constructor. assumption.
      * inversion Hh; subst.
        destruct (Z.leb (cmp x z) 0); constructor; assumption.
Qed.

Lemma sortBy_Sorted l : Sorted (cle cmp) (sortBy cmp l).
Proof.
  induction l as [|x l IH]; simpl; [constructor|].
  apply insertBy_Sorted. assumption.
Qed.

Hypothesis cmp_trans : forall a b c, (cle cmp) a b -> (cle cmp) b c -> (cle cmp) a c.

Lemma sortBy_StronglySorted l : StronglySorted (cle cmp) (sortBy cmp l).
Proof.
  apply Sorted_StronglySorted; [exact cmp_trans | apply sortBy_Sorted].
Qed.

(** The head of the sorted list is below every element. *)
Lemma sortBy_head_least d x l y :
  In y (x :: l) -> (cle cmp) (hd d (sortBy cmp (x :: l))) y.
Proof.
  intros Hy.
  pose proof (sortBy_StronglySorted (x :: l)) as Hs.
  apply (sortBy_In y) in Hy.
  destruct (sortBy cmp (x :: l)) as [|h t] eqn:E; [destruct Hy|].
  simpl. inversion Hs as [|? ? _ Hall]; subst.
  destruct Hy as [->|Hy].
  - destruct (cmp_total y y); assumption.
  - rewrite Forall_forall in Hall. apply Hall. assumption.
Qed.

Lemma sortBy_head_In d x l : In (hd d (sortBy cmp (x :: l))) (x :: l).
Proof.
  pose proof (sortBy_perm (x :: l)) as Hp.
  destruct (sortBy cmp (x :: l)) as [|h t] eqn:E.
  - apply Permutation_nil in Hp. discriminate.
  - apply (Permutation_in h Hp). left. reflexivity.
Qed.

(** The head of the sorted list is the first of the least elements:
    what stands before it in the list is not below it. *)
Lemma sortBy_head_first d l :
  l <> [] ->
  exists before after,
    l = before ++ hd d (sortBy cmp l) :: after
    /\ forall y, In y before -> ~ cle cmp y (hd d (sortBy cmp l)).
Proof.
  induction l as [|x l IH]; intros Hne; [contradiction|].
  destruct l as [|x' l'].
  - exists [], []. split; [reflexivity | intros y []].
  - destruct (IH ltac:(discriminate)) as (before & after & E & Hb).
    cbn [sortBy] in *.
    destruct (insertBy cmp x' (sortBy cmp l')) as [|h t] eqn:Es.
    { pose proof (insertBy_perm x' (sortBy cmp l')) as Hp. rewrite Es in Hp.
      apply Permutation_nil in Hp. discriminate Hp. }
    cbn [hd] in E, Hb. cbn [insertBy].
    destruct (Z.leb (cmp x h) 0) eqn:El; cbn [hd].
    + exists [], (x' :: l'). split; [reflexivity | intros y []].
    + exists (x :: before), after. split; [rewrite E; reflexivity|].
      intros y [<-|Hy]; [|apply Hb; exact Hy].
      unfold cle. apply Z.leb_gt in El. lia.
Qed.

End Sorting.

(** Two comparators that agree in sign on a list sort it alike. *)
Lemma insertBy_ext_in {A} (c1 c2 : A -> A -> Z) x l :
  (forall y, In y l -> Z.leb (c1 x y) 0 = Z.leb (c2 x y) 0) ->
  insertBy c1 x l = insertBy c2 x l.
Proof.
  induction l as [|y l IH]; intros H; [reflexivity|].
  cbn [insertBy]. rewrite (H y (or_introl eq_refl)).
  destruct (Z.leb (c2 x y) 0); [reflexivity|].
  f_equal. apply IH. intros z Hz. apply H. right. exact Hz.
Qed.

Lemma sortBy_ext_in {A} (c1 c2 : A -> A -> Z) l :
  (forall a b, In a l -> In b l -> Z.leb (c1 a b) 0 = Z.leb (c2 a b) 0) ->
  sortBy c1 l = sortBy c2 l.
Proof.
  induction l as [|x l IH]; intros H; [reflexivity|].
  cbn [sortBy]. rewrite IH by (intros a b Ha Hb; apply H; right; assumption).
  apply insertBy_ext_in. intros y Hy. apply (proj1 (sortBy_In c2 y l)) in Hy.
  apply H; [left; reflexivity | right; exact Hy].
Qed.

(** ** The comparison of code units *)

Lemma codeUnitCompare_lexLe a : forall b,
  (codeUnitCompare a b <= 0)%Z <-> lexLe a b.
Proof.
  induction a as [|x a IH]; destruct b as [|y b]; simpl.
  - split; [constructor | lia].
  - split; [constructor | lia].
  - split; [lia | inversion 1].
  - destruct (N.compare_spec x y) as [->|Hlt|Hgt].
    + rewrite IH. split; [constructor; assumption|].
      inversion 1; subst; [lia | assumption].
    + split; [constructor; assumption | lia].
    + split; [lia|]. inversion 1; subst; lia.
Qed.

Lemma codeUnitCompare_refl a : codeUnitCompare a a = 0%Z.
Proof.
  induction a as [|x a IH]; simpl; [reflexivity|].
  rewrite N.compare_refl. assumption.
Qed.

Lemma codeUnitCompare_eq a : forall b, codeUnitCompare a b = 0%Z -> a = b.
Proof.
  induction a as [|x a IH]; destruct b as [|y b]; simpl; try lia; auto.
  destruct (N.compare_spec x y) as [->|Hlt|Hgt]; try lia.
  intros H. f_equal. apply IH. assumption.
Qed.

Lemma codeUnitCompare_antisym a : forall b,
  codeUnitCompare b a = (- codeUnitCompare a b)%Z.
Proof.
  induction a as [|x a IH]; destruct b as [|y b]; simpl; try reflexivity.
  rewrite (N.compare_antisym x y).
  destruct (N.compare x y); simpl; auto.
Qed.

Lemma codeUnitCompare_total a b :
  (codeUnitCompare a b <= 0)%Z \/ (codeUnitCompare b a <= 0)%Z.
Proof. rewrite (codeUnitCompare_antisym a b). lia. Qed.

Lemma codeUnitCompare_trans a : forall b c,
  (codeUnitCompare a b <= 0)%Z -> (codeUnitCompare b c <= 0)%Z ->
  (codeUnitCompare a c <= 0)%Z.
Proof.
  induction a as [|x a IH]; intros [|y b] [|z c]; simpl; try lia.
  destruct (N.compare_spec x y) as [->|Hxy|Hxy]; try lia.
  - destruct (N.compare_spec y z) as [->|Hyz|Hyz]; try lia.
    apply IH.
  - destruct (N.compare_spec y z) as [->|Hyz|Hyz]; try lia.
    + destruct (N.compare_spec x z); lia.
    + destruct (N.compare_spec x z); lia.
Qed.

(** ** Hosts *)

(** A comparison through a key keeps the laws of the comparison of code
    units; with the identity as key it is that comparison. *)
Lemma keyed_collation (key : str -> str) :
  Collation {| localeCompare := fun a b => codeUnitCompare (key a) (key b) |}.
Proof.
  assert (Hlt : forall a b c : str,
    (codeUnitCompare a b < 0)%Z -> (codeUnitCompare b c < 0)%Z ->
    (codeUnitCompare a c < 0)%Z).
  { intros a b c H1 H2.
    pose proof (codeUnitCompare_trans a b c ltac:(lia) ltac:(lia)) as H.
    destruct (Z.eq_dec (codeUnitCompare a c) 0) as [E|E]; [|lia].
    apply codeUnitCompare_eq in E. subst c.
    rewrite (codeUnitCompare_antisym a b) in H2. lia. }
  constructor; cbn [localeCompare].
  - intros a. apply codeUnitCompare_refl.
  - intros a b H. rewrite (codeUnitCompare_antisym (key a) (key b)), H. reflexivity.
  - intros a b c H1 H2. apply codeUnitCompare_eq in H1, H2.
    rewrite H1, H2. apply codeUnitCompare_refl.
  - intros a b c. apply Hlt.
  - intros a b c H1 H2.
    rewrite (codeUnitCompare_antisym (key b) (key a)) in H1.
    rewrite (codeUnitCompare_antisym (key c) (key b)) in H2.
    rewrite (codeUnitCompare_antisym (key c) (key a)).
    pose proof (Hlt (key c) (key b) (key a)). lia.
Qed.

Lemma codeUnits_collation : Collation codeUnits.
Proof. exact (keyed_collation (fun s => s)). Qed.

Lemma rootCollation_collation : Collation rootCollation.
Proof. exact (keyed_collation sortKey). Qed.

(** On plain names the root collation is the comparison of code
    units: the weights of dot, slash, digits and lower-case letters
    rise with the code units, and no case is there to tell apart. *)
Lemma plainChar_cases c :
  plainChar c = true ->
  In c ([46; 47]%N ++ map N.of_nat (seq 48 10) ++ map N.of_nat (seq 97 26)).
Proof.
  unfold plainChar, isDigit, inRange, DOT, SLASH. intros H.
  change ([46; 47]%N ++ map N.of_nat (seq 48 10) ++ map N.of_nat (seq 97 26))
    with (46%N :: 47%N :: (map N.of_nat (seq 48 10) ++ map N.of_nat (seq 97 26))).
  assert (Hn : forall lo len, (N.of_nat lo <= c)%N -> (c <= N.of_nat (lo + len - 1))%N ->
                 0 < len -> In c (map N.of_nat (seq lo len))).
  { intros lo len H1 H2 Hl. rewrite <- (N2Nat.id c). apply in_map.
    apply in_seq. lia. }
  apply orb_true_iff in H. destruct H as [H|H].
  - apply orb_true_iff in H. destruct H as [H|H].
    + apply orb_true_iff in H. destruct H as [H|H];
        apply andb_true_iff in H; destruct H as (H1 & H2);
        apply N.leb_le in H1, H2.
      * do 2 right. apply in_or_app. right. apply Hn; simpl; lia.
      * do 2 right. apply in_or_app. left. apply Hn; simpl; lia.
    + apply N.eqb_eq in H. left. symmetry. exact H.
  - apply N.eqb_eq in H. right. left. symmetry. exact H.
Qed.

Lemma plainChar_weights x y :
  plainChar x = true -> plainChar y = true ->
  N.compare (weightOf x) (weightOf y) = N.compare x y
  /\ N.compare 0 (weightOf x) = Lt
  /\ primary x <> None /\ tertiary x = 1%N.
Proof.
  intros Hx Hy. apply plainChar_cases in Hx, Hy.
  set (l := ([46; 47]%N ++ map N.of_nat (seq 48 10) ++ map N.of_nat (seq 97 26))) in *.
  assert (H : forallb (fun x =>
                forallb (fun y =>
                  match N.compare (weightOf x) (weightOf y), N.compare x y with
                  | Lt, Lt | Eq, Eq | Gt, Gt => true
                  | _, _ => false
                  end) l
                && match N.compare 0 (weightOf x) with Lt => true | _ => false end
                && match primary x with Some _ => true | None => false end
                && N.eqb (tertiary x) 1) l = true)
    by (vm_compute; reflexivity).
  rewrite forallb_forall in H. specialize (H x Hx).
  apply andb_true_iff in H. destruct H as (H & H4).
  apply andb_true_iff in H. destruct H as (H & H3).
  apply andb_true_iff in H. destruct H as (H1 & H2).
  rewrite forallb_forall in H1. specialize (H1 y Hy).
  split; [|split; [|split]].
  - destruct (N.compare (weightOf x) (weightOf y)), (N.compare x y);
      try reflexivity; discriminate H1.
  - destruct (N.compare 0 (weightOf x)); try reflexivity; discriminate H2.
  - destruct (primary x); [discriminate | discriminate H3].
  - apply N.eqb_eq. exact H4.
Qed.

Lemma weighted_plain s : plainName s = true -> weighted s = s.
Proof.
  unfold plainName, weighted. induction s as [|c s IH]; intros H; [reflexivity|].
  cbn [forallb filter] in *. apply andb_true_iff in H. destruct H as (Hc & Hs).
  destruct (plainChar_weights c c Hc Hc) as (_ & _ & Hp & _).
  destruct (primary c); [|contradiction]. rewrite IH by exact Hs. reflexivity.
Qed.

Lemma keys_compare a : forall b ta tb,
  plainName a = true -> plainName b = true ->
  (a = b -> codeUnitCompare ta tb = 0%Z) ->
  codeUnitCompare (map weightOf a ++ 0%N :: ta) (map weightOf b ++ 0%N :: tb)
  = codeUnitCompare a b.
Proof.
  unfold plainName.
  induction a as [|x a IH]; intros [|y b] ta tb Ha Hb Ht;
    cbn [forallb map app codeUnitCompare] in *.
  - rewrite N.compare_refl. apply Ht. reflexivity.
  - apply andb_true_iff in Hb. destruct Hb as (Hy & _).
    destruct (plainChar_weights y y Hy Hy) as (_ & -> & _). reflexivity.
  - apply andb_true_iff in Ha. destruct Ha as (Hx & _).
    destruct (plainChar_weights x x Hx Hx) as (_ & H0 & _).
    rewrite N.compare_antisym, H0. reflexivity.
  - apply andb_true_iff in Ha, Hb. destruct Ha as (Hx & Ha), Hb as (Hy & Hb).
    destruct (plainChar_weights x y Hx Hy) as (-> & _).
    destruct (N.compare_spec x y) as [->|_|_]; try reflexivity.
    apply IH; try assumption. intros ->. apply Ht. reflexivity.
Qed.

Lemma rootCollation_plain : ordersPlainNames rootCollation.
Proof.
  intros a b Ha Hb. cbn [localeCompare rootCollation codeUnits]. f_equal.
  unfold sortKey. rewrite (weighted_plain a Ha), (weighted_plain b Hb).
  apply (keys_compare a b _ _ Ha Hb). intros ->. apply codeUnitCompare_refl.
Qed.

Lemma agreeOn_refl host P : agreeOn host host P.
Proof. intros a b _ _. reflexivity. Qed.

Lemma agreeOn_sub h1 h2 (P Q : str -> Prop) :
  (forall s, Q s -> P s) -> agreeOn h1 h2 P -> agreeOn h1 h2 Q.
Proof. intros H Ha a b Qa Qb. apply Ha; apply H; assumption. Qed.

(** The ids of the edges are plain names. *)
Lemma uint_plain d : plainName (lit (NilEmpty.string_of_uint d)) = true.
Proof. induction d; [reflexivity | exact IHd ..]. Qed.

Lemma edgeId_plain n : plainName (edgeId n) = true.
Proof. unfold edgeId. apply (uint_plain (Nat.to_uint n)). Qed.

Lemma plain_ordersEdgeIds host : ordersPlainNames host -> ordersEdgeIds host.
Proof.
  apply agreeOn_sub. intros s (n & ->). apply edgeId_plain.
Qed.

(** ** What the laws of a collation give *)

Section Laws.

Context {host : Host} {collation : Collation host}.

Lemma collate_flip a b :
  (localeCompare a b < 0)%Z -> (localeCompare b a > 0)%Z.
Proof.
  intros H.
  destruct (Z.compare_spec (localeCompare b a) 0) as [E|E|E]; [| |lia].
  - apply collate_sym in E. lia.
  - pose proof (collate_lt_trans a b a H E) as H'.
    rewrite collate_refl in H'. lia.
Qed.

Lemma collate_flip_gt a b :
  (localeCompare a b > 0)%Z -> (localeCompare b a < 0)%Z.
Proof.
  intros H.
  destruct (Z.compare_spec (localeCompare b a) 0) as [E|E|E]; [|lia|].
  - apply collate_sym in E. lia.
  - assert (E' : (localeCompare b a > 0)%Z) by lia.
    pose proof (collate_gt_trans a b a H E') as H'.
    rewrite collate_refl in H'. lia.
Qed.

Lemma collate_total a b : cle localeCompare a b \/ cle localeCompare b a.
Proof.
  unfold cle.
  destruct (Z.compare_spec (localeCompare a b) 0) as [E|E|E]; [lia | lia|].
  right. assert (E' : (localeCompare a b > 0)%Z) by lia.
  pose proof (collate_flip_gt a b E'). lia.
Qed.

Lemma collate_trans a b c :
  cle localeCompare a b -> cle localeCompare b c -> cle localeCompare a c.
Proof.
  unfold cle. intros H1 H2.
  destruct (Z.compare_spec (localeCompare a c) 0) as [E|E|E]; [lia | lia|].
  exfalso.
  assert (Hca : (localeCompare c a < 0)%Z)
    by (apply collate_flip_gt; lia).
  destruct (Z.eq_dec (localeCompare a b) 0) as [Eab|Nab];
    destruct (Z.eq_dec (localeCompare b c) 0) as [Ebc|Nbc].
  - pose proof (collate_eq_trans a b c Eab Ebc). lia.
  - assert (Hbc : (localeCompare b c < 0)%Z) by lia.
    pose proof (collate_lt_trans b c a Hbc Hca) as Hba.
    apply collate_sym in Eab. lia.
  - assert (Hab : (localeCompare a b < 0)%Z) by lia.
    pose proof (collate_lt_trans c a b Hca Hab) as Hcb.
    apply collate_sym in Ebc. lia.
  - assert (Hab : (localeCompare a b < 0)%Z) by lia.
    assert (Hbc : (localeCompare b c < 0)%Z) by lia.
    pose proof (collate_lt_trans a b c Hab Hbc). lia.
Qed.

End Laws.

(** ** The suffix index *)

Lemma orEmpty_wrap l : orEmpty (wrap l) = l.
Proof. destruct l; reflexivity. Qed.

Lemma wrap_app_single l x : wrap (l ++ [x]) = Some (l ++ [x]).
Proof. destruct l; reflexivity. Qed.

Lemma registerSuffixes_get s record : forall index l,
  mapGet s index = wrap l ->
  mapGet s (registerSuffixes record index) = wrap (l ++ registeredBy s record).
Proof.
  unfold registerSuffixes, registeredBy.
  generalize (seq 0 (length (segmentsOf (ParsedFile.filePath record)))).
  generalize (segmentsOf (ParsedFile.filePath record)) as segments.
  intros segments is_. induction is_ as [|i is_ IH]; intros index l H; simpl.
  - rewrite app_nil_r. assumption.
  - rewrite app_assoc. apply IH.
    rewrite mapGet_mapSet.
    destruct (eqb_str_spec s (suffixAt segments i)) as [<-|Hne].
    + rewrite H, orEmpty_wrap. symmetry. apply wrap_app_single.
    + rewrite app_nil_r. assumption.
Qed.

Lemma buildSuffixIndex_get s records :
  mapGet s (buildSuffixIndex records) = wrap (registered s records).
Proof.
  unfold buildSuffixIndex, registered.
  change (wrap (flat_map (registeredBy s) records))
    with (wrap ([] ++ flat_map (registeredBy s) records)).
  assert (H0 : mapGet s (@nil (str * list str)) = wrap []) by reflexivity.
  revert H0. generalize (@nil str) as l.
  generalize (@nil (str * list str)) as index.
  induction records as [|r records IH]; intros index l H; simpl.
  - rewrite app_nil_r. assumption.
  - rewrite app_assoc. apply IH. apply registerSuffixes_get. assumption.
Qed.

Lemma single_wrap l :
  single (wrap l) = match l with [x] => Some x | _ => None end.
Proof. destruct l as [|x [|y l]]; reflexivity. Qed.

Lemma resolveLoop_spec records segments is_ :
  resolveLoop segments (buildSuffixIndex records) is_
  = firstSingle records (map (suffixAt segments) is_).
Proof.
  induction is_ as [|i is_ IH]; simpl; [reflexivity|].
  rewrite buildSuffixIndex_get, single_wrap, IH.
  destruct (registered (suffixAt segments i) records) as [|x [|y l]]; reflexivity.
Qed.

Lemma resolveModuleTarget_spec declared records :
  resolveModuleTarget declared (buildSuffixIndex records)
  = resolveSpec declared records.
Proof.
  unfold resolveModuleTarget, resolveSpec, attempts. simpl.
  rewrite buildSuffixIndex_get, single_wrap, resolveLoop_spec.
  destruct (registered (normalizePath declared) records) as [|x [|y l]];
    reflexivity.
Qed.

Lemma registeredBy_id s record x :
  In x (registeredBy s record) -> x = ParsedFile.id record.
Proof.
  unfold registeredBy. rewrite in_flat_map. intros (i & _ & H).
  destruct (eqb_str s _); simpl in H; intuition.
Qed.

Lemma registered_ids s records x :
  In x (registered s records) -> In x (map ParsedFile.id records).
Proof.
  unfold registered. rewrite in_flat_map. intros (r & Hr & H).
  apply registeredBy_id in H. subst. apply in_map. assumption.
Qed.

Lemma firstSingle_ids records tries x :
  firstSingle records tries = Some x -> In x (map ParsedFile.id records).
Proof.
  induction tries as [|s tries IH]; simpl; [discriminate|].
  destruct (registered s records) as [|y [|z l]] eqn:E; try assumption.
  intros [= ->]. apply (registered_ids s). rewrite E. left. reflexivity.
Qed.

(** A path that resolves, resolves to the id of an indexed file. *)
Lemma resolveModuleTarget_ids declared records x :
  resolveModuleTarget declared (buildSuffixIndex records) = Some x ->
  In x (map ParsedFile.id records).
Proof.
  rewrite resolveModuleTarget_spec. apply firstSingle_ids.
Qed.

Lemma registered_perm s records records' :
  Permutation records records' ->
  Permutation (registered s records) (registered s records').
Proof.
  unfold registered. induction 1; simpl.
  - reflexivity.
  - apply Permutation_app_head. assumption.
  - rewrite !app_assoc. apply Permutation_app_tail, Permutation_app_comm.
  - etransitivity; eassumption.
Qed.

Lemma firstSingle_perm records records' tries :
  Permutation records records' ->
  firstSingle records tries = firstSingle records' tries.
Proof.
  intros Hp. induction tries as [|s tries IH]; simpl; [reflexivity|].
  pose proof (registered_perm s records records' Hp) as H.
  destruct (registered s records) as [|x [|y l]].
  - apply Permutation_nil in H. rewrite H. assumption.
  - apply Permutation_length_1_inv in H. rewrite H. reflexivity.
  - pose proof (Permutation_length H) as Hl.
    destruct (registered s records') as [|x' [|y' l']]; try discriminate.
    assumption.
Qed.

(** ** The matcher *)

Lemma reads_refl s : reads [] s s.
Proof. unfold reads. simpl. rewrite Nat.add_0_r. auto. Qed.

Lemma reads_trans {c1 c2 s1 s2 s3} :
  reads c1 s1 s2 -> reads c2 s2 s3 -> reads (c1 ++ c2) s1 s3.
Proof.
  intros (R1 & P1 & V1 & C1) (R2 & P2 & V2 & C2). unfold reads.
  rewrite R1, R2, P2, P1, V2, V1, length_app, <- app_assoc.
  unfold prevAfter. rewrite fold_left_app.
  repeat split; auto; lia.
Qed.

Lemma later_refl s : later s s.
Proof. exists []. apply reads_refl. Qed.

Lemma later_trans s1 s2 s3 : later s1 s2 -> later s2 s3 -> later s1 s3.
Proof.
  intros (c1 & H1) (c2 & H2). exists (c1 ++ c2).
  eapply reads_trans; eassumption.
Qed.

Lemma reads_advance {c t} s : rest s = c :: t -> reads [c] s (advance c t s).
Proof. intros H. unfold reads. simpl. rewrite H. repeat split; auto; lia. Qed.

Lemma reads_setCap consumed s s' n v :
  reads consumed s s' -> reads consumed s (setCap n v s').
Proof.
  intros (R & P & V & C). unfold reads. simpl. repeat split; auto.
  intros n' H. apply C in H. unfold capSet in *. simpl.
  destruct (Nat.eqb n' n); [discriminate | assumption].
Qed.

Lemma capSet_setCap n v s : capSet n (setCap n v s).
Proof. unfold capSet. simpl. rewrite Nat.eqb_refl. discriminate. Qed.

Lemma later_pos {s s'} : later s s' -> pos s <= pos s'.
Proof. intros (c & _ & P & _). lia. Qed.

Lemma later_capSet {s s'} n : later s s' -> capSet n s -> capSet n s'.
Proof. intros (c & _ & _ & _ & C). apply C. Qed.

Lemma starLoop_sound (ma : cont -> cont) k :
  (forall k' s x, ma k' s = Some x -> exists s', later s s' /\ k' s' = Some x) ->
  forall fuel s x, starLoop ma k fuel s = Some x ->
  exists s', later s s' /\ k s' = Some x.
Proof.
  intros Hma. induction fuel as [|fuel IH]; intros s x H; simpl in H.
  - exists s. split; [apply later_refl | assumption].
  - destruct (ma _ s) as [y|] eqn:E.
    + injection H as ->.
      apply Hma in E. destruct E as (s1 & L1 & E).
      destruct (Nat.ltb (pos s) (pos s1)); [|discriminate].
      apply IH in E. destruct E as (s2 & L2 & E).
      exists s2. split; [eapply later_trans; eassumption | assumption].
    + exists s. split; [apply later_refl | assumption].
Qed.

Lemma m_sound r : forall k s x,
  m r k s = Some x -> exists s', through r s s' /\ k s' = Some x.
Proof.
  unfold through.
  induction r as [|p|r1 IH1 r2 IH2|r1 IH1 r2 IH2|r1 IH1|n r1 IH1|];
    intros k s x H; cbn [m] in H.
  - exists s. repeat split; [apply later_refl | discriminate | discriminate | assumption].
  - destruct (rest s) as [|c t] eqn:E; [discriminate|].
    destruct (p c); [|discriminate].
    exists (advance c t s). repeat split; try assumption.
    + exists [c]. apply reads_advance. assumption.
    + simpl. lia.
    + discriminate.
  - apply IH1 in H. destruct H as (s1 & (L1 & N1 & C1) & H).
    apply IH2 in H. destruct H as (s2 & (L2 & N2 & C2) & H).
    exists s2. repeat split; try assumption.
    + eapply later_trans; eassumption.
    + simpl. intros Hn. apply andb_false_iff in Hn.
      pose proof (later_pos L1). pose proof (later_pos L2).
      destruct Hn as [Hn|Hn]; [apply N1 in Hn | apply N2 in Hn]; lia.
    + simpl. intros n Hn. apply orb_true_iff in Hn. destruct Hn as [Hn|Hn].
      * apply (later_capSet n L2). apply C1. assumption.
      * apply C2. assumption.
  - destruct (m r1 k s) as [y|] eqn:E.
    + injection H as ->. apply IH1 in E. destruct E as (s1 & (L1 & N1 & C1) & E).
      exists s1. repeat split; try assumption.
      * simpl. intros Hn. apply orb_false_iff in Hn. apply N1, Hn.
      * simpl. intros n Hn. apply andb_true_iff in Hn. apply C1, Hn.
    + apply IH2 in H. destruct H as (s2 & (L2 & N2 & C2) & H).
      exists s2. repeat split; try assumption.
      * simpl. intros Hn. apply orb_false_iff in Hn. apply N2, Hn.
      * simpl. intros n Hn. apply andb_true_iff in Hn. apply C2, Hn.
  - apply starLoop_sound in H.
    + destruct H as (s1 & L1 & H). exists s1.
      repeat split; try assumption; discriminate.
    + intros k' s0 x0 H0. apply IH1 in H0.
      destruct H0 as (s1 & (L1 & _) & H0). exists s1. auto.
  - apply IH1 in H. destruct H as (s1 & (L1 & N1 & C1) & H).
    exists (setCap n (firstn (pos s1 - pos s) (rest s)) s1).
    repeat split; try assumption.
    + destruct L1 as (c & L1). exists c. apply reads_setCap. assumption.
    + simpl. intros n' Hn. apply orb_true_iff in Hn. destruct Hn as [Hn|Hn].
      * apply Nat.eqb_eq in Hn. subst. apply capSet_setCap.
      * apply C1 in Hn. unfold capSet in *. simpl.
        destruct (Nat.eqb n' n); [discriminate | assumption].
  - destruct (xorb _ _); [|discriminate].
    exists s. repeat split; [apply later_refl | discriminate | discriminate | assumption].
Qed.

(** What [exec] answers: a match that starts at or after the cursor,
    is not empty when the pattern is not nullable, and leaves less text
    to read. *)
Lemma execFrom_sound r : forall rs pv ps i e,
  execFrom r pv rs ps = Some (i, e) ->
  ps <= i
  /\ pos e + length (rest e) = ps + length rs
  /\ (nullable r = false -> i < pos e)
  /\ capSet 0 e
  /\ (forall n, definesCap n r = true -> capSet n e).
Proof.
  induction rs as [|c t IH]; intros pv ps i e H; simpl in H.
  - destruct (m r _ _) as [y|] eqn:E; [|discriminate].
    injection H as <- <-.
    apply m_sound in E. destruct E as (s1 & ((cs & R & P & _) & N1 & C1) & E).
    injection E as <-. simpl in *.
    destruct cs; [|discriminate]. simpl in *.
    repeat split; auto.
    + rewrite <- R. simpl. lia.
    + unfold capSet. simpl. discriminate.
    + intros n Hn. apply C1 in Hn. unfold capSet in *. simpl.
      destruct (Nat.eqb n 0); [discriminate | assumption].
  - destruct (m r _ _) as [y|] eqn:E.
    + injection H as <- <-.
      apply m_sound in E. destruct E as (s1 & ((cs & R & P & _) & N1 & C1) & E).
      injection E as <-. simpl in *.
      repeat split; auto.
      * rewrite P. apply (f_equal (@length _)) in R.
        rewrite length_app in R. simpl in R. lia.
      * unfold capSet. simpl. discriminate.
      * intros n Hn. apply C1 in Hn. unfold capSet in *. simpl.
        destruct (Nat.eqb n 0); [discriminate | assumption].
    + apply IH in H. destruct H as (H1 & H2 & H3). simpl.
      repeat split; try tauto; lia.
Qed.

(** The loop over the matches of a pattern that cannot match the empty
    string ends within [length source + 1] rounds, and its result is
    that of a body that never throws. *)
Lemma whileMatch_total {A : Type} pattern (body : nat * mstate -> A -> outcome A) :
  nullable pattern = false ->
  (forall i mt acc,
     capSet 0 mt -> (forall n, definesCap n pattern = true -> capSet n mt) ->
     exists acc', body (i, mt) acc = Ok acc') ->
  forall fuel cur acc, length (rest cur) < fuel ->
  exists a, whileMatch fuel pattern body cur acc = Ok a.
Proof.
  intros Hn Hbody. induction fuel as [|fuel IH]; intros cur acc Hf; [lia|].
  simpl. destruct (exec pattern cur) as [[i mt]|] eqn:E.
  - unfold exec in E. apply execFrom_sound in E.
    destruct E as (H1 & H2 & H3 & H4 & H5).
    destruct (Hbody i mt acc H4 H5) as (acc' & ->). simpl.
    apply IH. specialize (H3 Hn). lia.
  - eexists. reflexivity.
Qed.

Lemma capSet_group {n mt} : capSet n mt -> exists g, group n mt = Some g.
Proof.
  unfold capSet, group. destruct (getCap n (caps mt)) as [g|]; [eauto | congruence].
Qed.

Lemma parseImports_total source : exists r, parseImports source = Ok r.
Proof.
  unfold parseImports.
  destruct (@whileMatch_total importsAcc importPattern parseImportsBody)
    with (fuel := S (length source)) (cur := start source)
         (acc := {| imports := []; reexports := []; importSet := [];
                    reexportSet := [] |}) as (a & ->).
  - reflexivity.
  - intros i mt acc _ H.
    destruct (capSet_group (H 2 eq_refl)) as (g & Hg).
    unfold parseImportsBody. simpl. rewrite Hg.
    repeat match goal with
    | |- context [if ?x then _ else _] => destruct x
    end; eexists; reflexivity.
  - simpl. lia.
  - eexists. reflexivity.
Qed.

Lemma parseExportedSymbols_total source :
  exists r, parseExportedSymbols source = Ok r.
Proof.
  unfold parseExportedSymbols.
  destruct (@whileMatch_total _ exportPattern parseExportedSymbolsBody)
    with (fuel := S (length source)) (cur := start source)
         (acc := (@nil (list N), @nil (list N))) as (a & ->).
  - reflexivity.
  - intros i mt acc _ H.
    destruct (capSet_group (H 2 eq_refl)) as (g & Hg).
    unfold parseExportedSymbolsBody. simpl. rewrite Hg.
    destruct (negb _); eexists; reflexivity.
  - simpl. lia.
  - eexists. reflexivity.
Qed.

Lemma extractIdentifierTokens_total source :
  exists r, extractIdentifierTokens source = Ok r.
Proof.
  unfold extractIdentifierTokens.
  apply whileMatch_total.
  - reflexivity.
  - intros i mt acc H _.
    destruct (capSet_group H) as (g & Hg).
    unfold extractIdentifierTokensBody. simpl. rewrite Hg.
    eexists. reflexivity.
  - simpl. lia.
Qed.

(** C9. The analysis of one file (comment stripping, extraction of
    imports and re-exports, of exported symbols and of identifier
    tokens) ends with a result for every text: no statement throws and
    no loop runs on, whatever the text holds, be it malformed
    declarations or a literal or block comment left open. *)
Theorem parseFile_total (filePath raw : str) :
  exists parsed, parseFile (filePath, raw) = Ok parsed.
Proof.
  unfold parseFile.
  destruct (parseImports_total (stripComments raw)) as (r1 & ->).
  destruct (parseExportedSymbols_total (stripComments raw)) as (r2 & ->).
  destruct (extractIdentifierTokens_total (stripComments raw)) as (r3 & ->).
  simpl. eexists. reflexivity.
Qed.

(** *** The fuel is never the limit *)

(** The matcher calls its continuation at later positions only. *)
Lemma m_ext r : forall k k' s,
  (forall s', later s s' -> k s' = k' s') -> m r k s = m r k' s.
Proof.
  induction r as [|p|r1 IH1 r2 IH2|r1 IH1 r2 IH2|r1 IH1|n r1 IH1|];
    intros k k' s H; cbn [m].
  - apply H, later_refl.
  - destruct (rest s) as [|c t] eqn:E; [reflexivity|].
    destruct (p c); [|reflexivity].
    apply H. exists [c]. apply reads_advance. assumption.
  - apply IH1. intros s1 L1. apply IH2. intros s2 L2.
    apply H. eapply later_trans; eassumption.
  - rewrite (IH1 k k' s H), (IH2 k k' s H). reflexivity.
  - generalize (S (length (rest s))). intros n. revert s H.
    induction n as [|n IHn]; intros s H; cbn [starLoop].
    + apply H, later_refl.
    + rewrite (H s (later_refl s)).
      erewrite IH1; [reflexivity|].
      intros s1 L1. cbv beta.
      destruct (Nat.ltb (pos s) (pos s1)); [|reflexivity].
      apply IHn. intros s2 L2. apply H. eapply later_trans; eassumption.
  - apply IH1. intros s1 (c & L1). apply H. exists c.
    apply reads_setCap. assumption.
  - destruct (xorb _ _); [|reflexivity]. apply H, later_refl.
Qed.

Lemma later_rest {s s'} :
  later s s' -> pos s < pos s' -> length (rest s') < length (rest s).
Proof.
  intros (c & R & P & _) H. rewrite R, length_app. lia.
Qed.

(** Fuel beyond the length of the text left changes nothing: the
    bounded loop of the star is the unbounded greedy loop. *)
Lemma starLoop_fuel r k : forall n1 n2 s,
  length (rest s) < n1 -> length (rest s) < n2 ->
  starLoop (m r) k n1 s = starLoop (m r) k n2 s.
Proof.
  induction n1 as [|n1 IH]; intros n2 s H1 H2; [lia|].
  destruct n2 as [|n2]; [lia|]. cbn [starLoop].
  erewrite m_ext; [reflexivity|].
  intros s1 L1. cbv beta.
  destruct (Nat.ltb (pos s) (pos s1)) eqn:E; [|reflexivity].
  apply Nat.ltb_lt in E. pose proof (later_rest L1 E).
  apply IH; lia.
Qed.

(** ** An import declaration is not found inside a literal *)

Lemma starLoop_Chr p k : forall fuel s x,
  starLoop (m (Chr p)) k fuel s = Some x ->
  exists cs s', reads cs s s' /\ Forall (fun c => p c = true) cs
                /\ k s' = Some x.
Proof.
  assert (Stay : forall s x, k s = Some x ->
    exists cs s', reads cs s s' /\ Forall (fun c => p c = true) cs
                  /\ k s' = Some x).
  { intros s x H. exists [], s.
    split; [apply reads_refl | split; [constructor | assumption]]. }
  induction fuel as [|fuel IH]; intros s x H.
  - apply Stay. exact H.
  - cbn [starLoop] in H.
    remember (starLoop (m (Chr p)) k fuel) as loop eqn:El.
    cbn [m] in H.
    destruct (rest s) as [|c t] eqn:E; [apply Stay; exact H|].
    destruct (p c) eqn:Ep; [|apply Stay; exact H].
    destruct (Nat.ltb (pos s) (pos (advance c t s)));
      [|apply Stay; exact H].
    destruct (loop (advance c t s)) as [y|] eqn:E2;
      [|apply Stay; exact H].
    injection H as ->. subst loop. apply IH in E2.
    destruct E2 as (cs & s' & R & F & H).
    exists (c :: cs), s'. split; [|split; [|assumption]].
    + apply (reads_trans (reads_advance s E) R).
    + constructor; assumption.
Qed.

Lemma prevAfter_snoc cs c pv : prevAfter (cs ++ [c]) pv = Some c.
Proof. unfold prevAfter. rewrite fold_left_app. reflexivity. Qed.

Lemma prevAfter_Forall (p : char -> bool) cs c :
  p c = true -> Forall (fun c => p c = true) cs ->
  exists w, prevAfter cs (Some c) = Some w /\ p w = true.
Proof.
  intros Hc F. destruct cs as [|x cs] using rev_ind.
  - exists c. auto.
  - exists x. rewrite prevAfter_snoc. split; [reflexivity|].
    apply Forall_app in F. destruct F as [_ F]. inversion F. assumption.
Qed.

(** Every match of [importPattern] reads a quote that follows a colon
    or white space, and reads on after it. *)
Lemma importPattern_quote k s x :
  m importPattern k s = Some x ->
  exists cs w t s4,
    rest s = cs ++ w :: QUOTE :: t
    /\ beforeQuote w = true
    /\ pos s + length cs + 2 < pos s4
    /\ later s s4
    /\ k s4 = Some x.
Proof.
  intros H.
  change (m (seqs importHead)
            (m (Chr (N.eqb COLON))
               (m (Star ws)
                  (m (Chr (N.eqb QUOTE))
                     (m (seqs importAfterQuote) k)))) s = Some x) in H.
  apply m_sound in H. destruct H as (s1 & ((c1 & R1) & _ & _) & H).
  cbn [m] in H.
  destruct (rest s1) as [|c t1] eqn:E1; [discriminate|].
  destruct (N.eqb COLON c) eqn:Ec; [|discriminate].
  apply N.eqb_eq in Ec. subst c.
  pose proof (reads_advance s1 E1) as R2.
  apply starLoop_Chr in H. destruct H as (c3 & s3 & R3 & F3 & H).
  destruct (rest s3) as [|q t3] eqn:E3; [discriminate|].
  destruct (N.eqb QUOTE q) eqn:Eq; [|discriminate].
  apply N.eqb_eq in Eq. subst q.
  pose proof (reads_advance s3 E3) as R4.
  apply m_sound in H. destruct H as (s4 & ((c5 & R5) & N5 & _) & H).
  specialize (N5 eq_refl).
  assert (Hw : exists w, prevAfter c3 (Some COLON) = Some w /\ beforeQuote w = true).
  { apply prevAfter_Forall; [reflexivity|].
    eapply Forall_impl; [|exact F3]. simpl. intros a Ha.
    unfold beforeQuote. rewrite Ha. apply orb_true_r. }
  destruct Hw as (w & Hw & Hbw).
  pose proof (reads_trans (reads_trans R1 R2) R3) as R13.
  destruct R13 as (T13 & P13 & V13 & _).
  assert (Hsplit : exists cs, (c1 ++ [COLON]) ++ c3 = cs ++ [w]).
  { destruct c3 as [|y c3] using rev_ind.
    - simpl in Hw. injection Hw as <-. exists c1. rewrite app_nil_r. reflexivity.
    - rewrite prevAfter_snoc in Hw. injection Hw as <-.
      exists ((c1 ++ [COLON]) ++ c3). rewrite app_assoc. reflexivity. }
  destruct Hsplit as (cs & Hcs).
  exists cs, w, t3, s4. repeat split.
  - rewrite T13, Hcs, E3, <- app_assoc. reflexivity.
  - assumption.
  - apply (f_equal (@length _)) in Hcs. rewrite !length_app in Hcs.
    rewrite !length_app in P13. simpl in Hcs, P13, N5. lia.
  - eapply later_trans; [exists ((c1 ++ [COLON]) ++ c3); split; eauto|].
    + repeat split; try assumption. apply (reads_trans (reads_trans R1 R2) R3).
    + eapply later_trans; [exists [QUOTE]; exact R4 | exists c5; exact R5].
  - assumption.
Qed.

Lemma execFrom_inv r : forall rs pv ps i e,
  execFrom r pv rs ps = Some (i, e) ->
  exists skipped rs',
    rs = skipped ++ rs' /\ i = ps + length skipped
    /\ m (Group 0 r) Some
         {| prev := prevAfter skipped pv; rest := rs'; pos := i; caps := [] |}
       = Some e.
Proof.
  induction rs as [|c t IH]; intros pv ps i e H; simpl in H.
  - destruct (m r _ _) as [y|] eqn:E; [|discriminate].
    injection H as <- <-. exists [], []. simpl.
    rewrite Nat.add_0_r. auto.
  - destruct (m r _ _) as [y|] eqn:E.
    + injection H as <- <-. exists [], (c :: t). simpl.
      rewrite Nat.add_0_r. auto.
    + apply IH in H. destruct H as (sk & rs' & -> & -> & H).
      exists (c :: sk), rs'. simpl. repeat split; [lia|].
      replace (ps + S (length sk)) with (S ps + length sk) by lia.
      exact H.
Qed.

Lemma inText_reads {t} cs {s s'} : inText t s -> reads cs s s' -> inText t s'.
Proof.
  intros (before & T & Lb & V) (R & P & V' & _).
  exists (before ++ cs). repeat split.
  - rewrite T, R, app_assoc. reflexivity.
  - rewrite length_app. lia.
  - rewrite V', V. unfold prevAfter. rewrite fold_left_app. reflexivity.
Qed.

Lemma inText_start t : inText t (start t).
Proof. exists []. simpl. auto. Qed.

Lemma exec_import {t cur i e} :
  inText t cur -> exec importPattern cur = Some (i, e) ->
  inText t e /\ hasBareQuote t i (pos e).
Proof.
  intros (before & T & Lb & V) H. unfold exec in H.
  apply execFrom_inv in H. destruct H as (sk & rs' & R & -> & H).
  set (st := {| prev := prevAfter sk (prev cur); rest := rs';
                pos := pos cur + length sk; caps := [] |}) in *.
  assert (Hst : inText t st).
  { exists (before ++ sk). subst st. simpl. repeat split.
    - rewrite T, R, app_assoc. reflexivity.
    - rewrite length_app. lia.
    - rewrite V. unfold prevAfter. rewrite fold_left_app. reflexivity. }
  cbn [m] in H. apply importPattern_quote in H.
  destruct H as (cs & w & tt & s4 & R4 & Hw & P4 & (c4 & L4) & H).
  injection H as <-. split.
  - apply (inText_reads c4 Hst). apply reads_setCap. assumption.
  - destruct Hst as (b2 & T2 & L2 & _).
    exists (b2 ++ cs), w, tt. repeat split.
    + rewrite T2, R4, app_assoc. reflexivity.
    + assumption.
    + rewrite length_app. subst st. simpl in *. lia.
    + rewrite length_app. subst st. simpl in *. lia.
Qed.

Lemma whileMatch_inv {A : Type} pattern (body : nat * mstate -> A -> outcome A)
    (I : mstate -> Prop) (Q : A -> Prop) :
  (forall cur i e acc acc',
     I cur -> Q acc -> exec pattern cur = Some (i, e) ->
     body (i, e) acc = Ok acc' -> I e /\ Q acc') ->
  forall fuel cur acc r,
  I cur -> Q acc -> whileMatch fuel pattern body cur acc = Ok r -> Q r.
Proof.
  intros Hstep. induction fuel as [|fuel IH]; intros cur acc r Hi Hq H;
    simpl in H; [discriminate|].
  destruct (exec pattern cur) as [[i e]|] eqn:E.
  - destruct (body (i, e) acc) as [acc'| |] eqn:Eb; simpl in H; try discriminate.
    destruct (Hstep cur i e acc acc' Hi Hq E Eb) as (Hi' & Hq').
    apply (IH e acc' r Hi' Hq' H).
  - injection H as <-. assumption.
Qed.

Lemma matchSpans_import t spans :
  matchSpans importPattern t = Ok spans ->
  Forall (fun sp => hasBareQuote t (fst sp) (snd sp)) spans.
Proof.
  unfold matchSpans.
  apply (whileMatch_inv importPattern _ (inText t)
           (Forall (fun sp => hasBareQuote t (fst sp) (snd sp)))).
  - intros cur i e acc acc' Hi Hq E Eb. injection Eb as <-.
    destruct (exec_import Hi E) as (Hi' & Hb).
    split; [assumption|]. apply Forall_app. split; [assumption|].
    constructor; [exact Hb | constructor].
  - apply inText_start.
  - constructor.
Qed.

Lemma stringBody_quote body : forall esc k,
  stringBody esc body = true -> nth_error body k = Some QUOTE ->
  (k = 0 /\ esc = true)
  \/ (exists k', k = S k' /\ nth_error body k' = Some BACKSLASH).
Proof.
  induction body as [|c r IH]; intros esc k H Hk.
  - destruct k; discriminate.
  - destruct k as [|k]; simpl in Hk.
    + injection Hk as ->. simpl in H. destruct esc; [auto | discriminate].
    + right. exists k. split; [reflexivity|].
      assert (Hr : exists esc', stringBody esc' r = true
                /\ (esc' = true -> c = BACKSLASH)).
      { simpl in H. destruct esc.
        - exists false. split; [assumption | discriminate].
        - destruct (N.eqb c BACKSLASH) eqn:Eb.
          + apply N.eqb_eq in Eb. exists true. auto.
          + destruct (N.eqb c QUOTE); [discriminate|].
            exists false. split; [assumption | discriminate]. }
      destruct Hr as (esc' & Hr & Hc).
      destruct (IH esc' k Hr Hk) as [(-> & ->)|(k' & -> & Hk')].
      * simpl. rewrite Hc; reflexivity.
      * simpl. assumption.
Qed.

Lemma literal_no_bare_quote before body after i j :
  stringBody false body = true ->
  hasBareQuote (before ++ QUOTE :: body ++ QUOTE :: after) i j ->
  ~ insideLiteral before body i j.
Proof.
  intros Hb (a & w & b & T & Hw & Hi & Hj) (H1 & H2).
  set (t := before ++ QUOTE :: body ++ QUOTE :: after) in *.
  assert (Ta : nth_error t (length a) = Some w).
  { rewrite T, nth_error_app2, Nat.sub_diag by lia. reflexivity. }
  assert (Tq : nth_error t (S (length a)) = Some QUOTE).
  { rewrite T, nth_error_app2 by lia.
    replace (S (length a) - length a) with 1 by lia. reflexivity. }
  assert (Tb : forall k, k < length body ->
            nth_error t (length before + 1 + k) = nth_error body k).
  { intros k Hk. subst t. rewrite nth_error_app2 by lia.
    replace (length before + 1 + k - length before) with (S k) by lia.
    simpl. apply nth_error_app1. assumption. }
  assert (Hq : nth_error body (length a - length before) = Some QUOTE).
  { rewrite <- Tb by lia. rewrite <- Tq. f_equal. lia. }
  destruct (stringBody_quote body false (length a - length before) Hb Hq)
    as [(_ & [=])|(k' & Hk & Hk')].
  assert (Hlt : k' < length body).
  { apply nth_error_Some. rewrite Hk'. discriminate. }
  rewrite <- Tb in Hk' by assumption.
  replace (length before + 1 + k') with (length a) in Hk' by lia.
  rewrite Ta in Hk'. injection Hk' as ->. discriminate.
Qed.

Lemma matchSpans_total pattern source :
  nullable pattern = false -> exists spans, matchSpans pattern source = Ok spans.
Proof.
  intros Hn. unfold matchSpans. apply whileMatch_total.
  - assumption.
  - intros. eexists. reflexivity.
  - simpl. lia.
Qed.

(** C4. For every text the comment stripper returns the text without
    its comments, and nothing else: a text is what it returns if and
    only if it is the source with every line comment dropped up to the
    end of its line, every block comment dropped but for its line
    feeds, and every other code unit, those of the double-quoted
    literals with their escapes included, kept in place.  So the number
    of lines is kept, no line comment and no block comment is left
    behind, and every literal stands as it is, with the slashes and
    stars it holds; and none of the matches that the extraction of
    imports then finds in the stripped text lies inside such a
    literal. *)
Theorem stripComments_contract (source : str) :
  (forall out, stripped source out <-> out = stripComments source)
  /\ lineCount (stripComments source) = lineCount source
  /\ hasComment false false (stripComments source) = false
  /\ (exists spans, matchSpans importPattern (stripComments source) = Ok spans)
  /\ forall pre body post,
       source = pre ++ QUOTE :: body ++ QUOTE :: post ->
       endsNormal pre -> stringBody false body = true ->
       stripComments source
       = stripComments pre ++ QUOTE :: body ++ QUOTE :: stripComments post
       /\ forall spans i j,
            matchSpans importPattern (stripComments source) = Ok spans ->
            In (i, j) spans ->
            ~ insideLiteral (stripComments pre) body i j.
Proof.
  split; [|split; [|split; [|split]]].
  - intros out. split; [apply stripped_sound|].
    intros ->. apply (stripped_complete (length source)). apply le_n.
  - unfold lineCount, stripComments. f_equal.
    apply (stripFrom_newlines (length source)). apply le_n.
  - apply (stripFrom_no_comment (length source)). apply le_n.
  - apply matchSpans_total. reflexivity.
  - intros pre body post -> Hpre Hbody.
    pose proof (stripComments_literal pre body post Hpre Hbody) as E.
    split; [exact E|].
    intros spans i j Hs Hin. rewrite E in Hs.
    apply matchSpans_import in Hs. rewrite Forall_forall in Hs.
    apply (literal_no_bare_quote _ _ _ i j Hbody (Hs (i, j) Hin)).
Qed.

Lemma stripComments_contract_witness :
  stripComments (src "a = 'x//not-a-comment /*not*/ \'y'; // c")
  = stripComments (src "a = ") ++ QUOTE :: src "x//not-a-comment /*not*/ \'y"
    ++ QUOTE :: stripComments (src "; // c").
Proof.
  destruct (stripComments_contract
              (src "a = 'x//not-a-comment /*not*/ \'y'; // c"))
    as (_ & _ & _ & _ & H).
  apply (H (src "a = ") (src "x//not-a-comment /*not*/ \'y") (src "; // c"));
    reflexivity.
Defined.

(** ** The first loop of buildGraph, declaration by declaration *)

Section FirstLoop.

Variable index : suffixIndex.
Variable ids : list str.

Lemma declare_stepDecl k fileId b ts p :
  declare index ids k fileId (b, ts) p
  = (stepDecl index ids b (k, fileId, p), ts ++ [resolved index p]).
Proof. reflexivity. Qed.

Lemma fold_declare k fileId ps : forall b ts,
  fold_left (declare index ids k fileId) ps (b, ts)
  = (fold_left (stepDecl index ids) (map (fun p => (k, fileId, p)) ps) b,
     ts ++ map (resolved index) ps).
Proof.
  induction ps as [|p ps IH]; intros b ts; simpl.
  - rewrite app_nil_r. reflexivity.
  - rewrite declare_stepDecl, IH, <- app_assoc. reflexivity.
Qed.

Lemma forget_addEdge k s t b :
  forget (addEdge k s t b) = addEdge k s t (forget b).
Proof. unfold addEdge. simpl. destruct (negb _); reflexivity. Qed.

Lemma forget_addConsumer s t b :
  forget (addConsumer ids s t b) = addConsumer ids s t (forget b).
Proof. unfold addConsumer. destruct (setHas t ids); reflexivity. Qed.

Lemma forget_addAlias s t p b :
  forget (addAlias s t p b) = addAlias s t p (forget b).
Proof. unfold addAlias. destruct (_ && _); reflexivity. Qed.

Lemma forget_addVirtual t p b :
  forget (addVirtual ids t p b) = addVirtual ids t p (forget b).
Proof. unfold addVirtual. destruct (negb _); reflexivity. Qed.

Lemma forget_stepDecl b d :
  forget (stepDecl index ids b d) = stepDecl index ids (forget b) d.
Proof.
  destruct d as [[k s] p]. unfold stepDecl.
  rewrite forget_addVirtual, forget_addAlias, forget_addConsumer,
    forget_addEdge. reflexivity.
Qed.

Lemma forget_fold_stepDecl ds : forall b,
  forget (fold_left (stepDecl index ids) ds b)
  = fold_left (stepDecl index ids) ds (forget b).
Proof.
  induction ds as [|d ds IH]; intros b; simpl; [reflexivity|].
  rewrite IH, forget_stepDecl. reflexivity.
Qed.

Lemma forget_declareFile b f :
  forget (declareFile index ids b f)
  = fold_left (stepDecl index ids) (declsOf f) (forget b).
Proof.
  unfold declareFile, declsOf.
  rewrite fold_declare.
  rewrite fold_declare.
  rewrite fold_left_app, <- !forget_fold_stepDecl. reflexivity.
Qed.

Lemma forget_fold_declareFile files : forall b,
  forget (fold_left (declareFile index ids) files b)
  = fold_left (stepDecl index ids) (allDecls files) (forget b).
Proof.
  induction files as [|f files IH]; intros b; simpl; [reflexivity|].
  rewrite IH, forget_declareFile, fold_left_app. reflexivity.
Qed.

End FirstLoop.

Lemma firstLoop_run files :
  forget (firstLoop files)
  = run (buildSuffixIndex files) (parsedFileIdsOf files) (allDecls files).
Proof. unfold firstLoop. rewrite forget_fold_declareFile. reflexivity. Qed.

Lemma firstLoop_edges files :
  b_edges (firstLoop files)
  = b_edges (run (buildSuffixIndex files) (parsedFileIdsOf files) (allDecls files)).
Proof. rewrite <- firstLoop_run. reflexivity. Qed.

Lemma firstLoop_virtualNodes files :
  virtualNodes (firstLoop files)
  = virtualNodes (run (buildSuffixIndex files) (parsedFileIdsOf files) (allDecls files)).
Proof. rewrite <- firstLoop_run. reflexivity. Qed.

Lemma firstLoop_aliasCounts files :
  aliasCounts (firstLoop files)
  = aliasCounts (run (buildSuffixIndex files) (parsedFileIdsOf files) (allDecls files)).
Proof. rewrite <- firstLoop_run. reflexivity. Qed.

Lemma firstLoop_consumers files :
  directConsumersByTarget (firstLoop files)
  = directConsumersByTarget
      (run (buildSuffixIndex files) (parsedFileIdsOf files) (allDecls files)).
Proof. rewrite <- firstLoop_run. reflexivity. Qed.

Lemma parsedFileIdsOf_In files x :
  In x (parsedFileIdsOf files) <-> In x (map ParsedFile.id files).
Proof.
  unfold parsedFileIdsOf.
  enough (H : forall s, In x (fold_left (fun s f => setAdd (ParsedFile.id f) s) files s)
                        <-> In x s \/ In x (map ParsedFile.id files)).
  { rewrite H. simpl. tauto. }
  induction files as [|f files IH]; intros s; simpl; [tauto|].
  rewrite IH, setAdd_In. intuition congruence.
Qed.

Section Run.

Variable index : suffixIndex.
Variable ids : list str.

Local Abbreviation stp := (stepDecl index ids).
Local Abbreviation rn := (run index ids).

Lemma run_snoc ds d : rn (ds ++ [d]) = stp (rn ds) d.
Proof. unfold run. rewrite fold_left_app. reflexivity. Qed.

(** *** Edges *)

Lemma addConsumer_edges s t b :
  b_edges (addConsumer ids s t b) = b_edges b
  /\ edgeKeys (addConsumer ids s t b) = edgeKeys b
  /\ edgeNumber (addConsumer ids s t b) = edgeNumber b.
Proof. unfold addConsumer. destruct (setHas t ids); auto. Qed.

Lemma addAlias_edges s t p b :
  b_edges (addAlias s t p b) = b_edges b
  /\ edgeKeys (addAlias s t p b) = edgeKeys b
  /\ edgeNumber (addAlias s t p b) = edgeNumber b.
Proof. unfold addAlias. destruct (_ && _); auto. Qed.

Lemma addVirtual_edges t p b :
  b_edges (addVirtual ids t p b) = b_edges b
  /\ edgeKeys (addVirtual ids t p b) = edgeKeys b
  /\ edgeNumber (addVirtual ids t p b) = edgeNumber b.
Proof. unfold addVirtual. destruct (negb _); auto. Qed.

Lemma step_edges b k s p :
  let t := resolved index p in
  b_edges (stp b (k, s, p)) = b_edges (addEdge k s t b)
  /\ edgeKeys (stp b (k, s, p)) = edgeKeys (addEdge k s t b)
  /\ edgeNumber (stp b (k, s, p)) = edgeNumber (addEdge k s t b).
Proof.
  intros t. unfold stepDecl. fold t.
  destruct (addVirtual_edges t p
    (addAlias s t p (addConsumer ids s t (addEdge k s t b)))) as (-> & -> & ->).
  destruct (addAlias_edges s t p (addConsumer ids s t (addEdge k s t b)))
    as (-> & -> & ->).
  destruct (addConsumer_edges s t (addEdge k s t b)) as (-> & -> & ->).
  auto.
Qed.

Lemma addEdge_inv k s t b : edgesInv b -> edgesInv (addEdge k s t b).
Proof.
  intros (K & N & I & D). unfold addEdge.
  destruct (setHas (edgeKey k s t) (edgeKeys b)) eqn:E; simpl.
  - repeat split; assumption.
  - unfold edgesInv. simpl. unfold setAdd. rewrite E.
    rewrite !map_app, length_app, seq_app, map_app. simpl.
    repeat split.
    + rewrite K. reflexivity.
    + lia.
    + rewrite I, N. reflexivity.
    + apply setHas_false in E. apply NoDup_rev in D.
      rewrite <- (rev_involutive (edgeKeys b ++ _)). apply NoDup_rev.
      rewrite rev_app_distr. simpl. constructor; [|assumption].
      rewrite <- in_rev. assumption.
Qed.

Lemma step_inv b d : edgesInv b -> edgesInv (stp b d).
Proof.
  destruct d as [[k s] p]. intros H.
  destruct (step_edges b k s p) as (E1 & E2 & E3).
  pose proof (addEdge_inv k s (resolved index p) b H) as (K & N & I & D).
  unfold edgesInv. rewrite E1, E2, E3. repeat split; assumption.
Qed.

Lemma run_inv ds : edgesInv (rn ds).
Proof.
  induction ds as [|d ds IH] using rev_ind.
  - repeat split; constructor.
  - rewrite run_snoc. apply step_inv. assumption.
Qed.

Lemma addEdge_keys k s t b :
  edgeKeys (addEdge k s t b) = setAdd (edgeKey k s t) (edgeKeys b).
Proof.
  unfold addEdge, setAdd.
  destruct (setHas (edgeKey k s t) (edgeKeys b)); reflexivity.
Qed.

(** The keys are met in the order of the declarations. *)
Lemma run_keys ds :
  edgeKeys (rn ds)
  = firstOccurrences (map (fun d => keyOfTriple (tripleOfDecl index d)) ds).
Proof.
  induction ds as [|d ds IH] using rev_ind; [reflexivity|].
  rewrite run_snoc. destruct d as [[k s] p].
  destruct (step_edges (rn ds) k s p) as (_ & -> & _).
  rewrite addEdge_keys, IH, map_app. unfold firstOccurrences.
  rewrite fold_left_app. reflexivity.
Qed.

Lemma firstOccurrences_In x l : In x (firstOccurrences l) <-> In x l.
Proof.
  unfold firstOccurrences.
  enough (H : forall s, In x (fold_left (fun s y => setAdd y s) l s)
                        <-> In x s \/ In x l).
  { rewrite H. simpl. tauto. }
  induction l as [|y l IH]; intros s; simpl; [tauto|].
  rewrite IH, setAdd_In. intuition congruence.
Qed.

(** Every edge comes from a declaration. *)
Lemma run_edges_decl ds e :
  In e (b_edges (rn ds)) ->
  exists d, In d ds /\ tripleOf e = tripleOfDecl index d.
Proof.
  induction ds as [|d ds IH] using rev_ind; [intros []|].
  rewrite run_snoc. destruct d as [[k s] p].
  destruct (step_edges (rn ds) k s p) as (-> & _ & _).
  unfold addEdge. destruct (negb _); simpl.
  - rewrite in_app_iff. intros [H|[<-|[]]].
    + destruct (IH H) as (d & Hd & E). exists d.
      split; [apply in_or_app; auto | assumption].
    + exists (k, s, p). split; [apply in_or_app; simpl; auto | reflexivity].
  - intros H. destruct (IH H) as (d & Hd & E). exists d.
    split; [apply in_or_app; auto | assumption].
Qed.

(** Every declaration has an edge with its key. *)
Lemma run_decl_edge ds d :
  In d ds ->
  exists e, In e (b_edges (rn ds))
            /\ keyOfEdge e = keyOfTriple (tripleOfDecl index d).
Proof.
  intros Hd.
  assert (Hk : In (keyOfTriple (tripleOfDecl index d)) (edgeKeys (rn ds))).
  { rewrite run_keys, firstOccurrences_In.
    apply (in_map (fun d => keyOfTriple (tripleOfDecl index d))). assumption. }
  destruct (run_inv ds) as (K & _). rewrite K in Hk.
  apply in_map_iff in Hk. destruct Hk as (e & E & He). exists e. auto.
Qed.

End Run.

(** ** Edge identity *)

Lemma split_at_nul a : forall a' b b',
  nulFree a -> nulFree a' ->
  a ++ NUL :: b = a' ++ NUL :: b' -> a = a' /\ b = b'.
Proof.
  unfold nulFree.
  induction a as [|x a IH]; intros [|y a'] b b' Ha Ha' E; simpl in *.
  - injection E as ->. auto.
  - injection E as <- _. exfalso. apply Ha'. auto.
  - injection E as -> _. exfalso. apply Ha. auto.
  - injection E as -> E. apply IH in E; [|tauto|tauto].
    destruct E as (-> & ->). auto.
Qed.

Lemma kindName_nulFree k : nulFree (kindName k).
Proof.
  unfold nulFree. destruct k; vm_compute; intuition discriminate.
Qed.

Lemma kindName_inj k1 k2 : kindName k1 = kindName k2 -> k1 = k2.
Proof. destruct k1, k2; try reflexivity; discriminate. Qed.

(** With no NUL in the ids of the files, the key of an edge tells its
    kind, source and target. *)
Lemma edgeKey_inj k1 s1 t1 k2 s2 t2 :
  nulFree s1 -> nulFree s2 ->
  edgeKey k1 s1 t1 = edgeKey k2 s2 t2 -> k1 = k2 /\ s1 = s2 /\ t1 = t2.
Proof.
  intros H1 H2 E. unfold edgeKey in E.
  apply split_at_nul in E; try apply kindName_nulFree.
  destruct E as (Ek & E). apply kindName_inj in Ek.
  apply split_at_nul in E; try assumption. tauto.
Qed.

Lemma triple_eqb_eq a b : triple_eqb a b = true <-> a = b.
Proof.
  destruct a as [[k1 s1] t1], b as [[k2 s2] t2]. unfold triple_eqb.
  rewrite !andb_true_iff, !eqb_str_eq. split.
  - intros [[Hk ->] ->]. destruct k1, k2; try discriminate; reflexivity.
  - intros [= -> -> ->]. destruct k2; auto.
Qed.

Lemma key_triple e (t : triple) :
  nulFree (EdgeData.source e) -> nulFree (snd (fst t)) ->
  eqb_str (keyOfEdge e) (keyOfTriple t) = triple_eqb (tripleOf e) t.
Proof.
  intros H1 H2. destruct t as [[k s] g]. simpl in H2.
  destruct (triple_eqb (tripleOf e) (k, s, g)) eqn:Et.
  - apply triple_eqb_eq in Et. unfold keyOfEdge. rewrite Et.
    apply eqb_str_refl.
  - apply eqb_str_neq. intros E. unfold keyOfEdge, tripleOf in E. simpl in E.
    apply edgeKey_inj in E; try assumption. destruct E as (Ek & Es & Eg).
    assert (Ht : tripleOf e = (k, s, g)) by (unfold tripleOf; congruence).
    apply triple_eqb_eq in Ht. congruence.
Qed.

Lemma allDecls_In files k s p :
  In (k, s, p) (allDecls files) <->
  exists f, In f files /\ s = ParsedFile.id f
    /\ ((k = KImport /\ In p (ParsedFile.imports f))
        \/ (k = KReexport /\ In p (ParsedFile.reexports f))).
Proof.
  unfold allDecls, declsOf. rewrite in_flat_map. split.
  - intros (f & Hf & H). exists f. split; [assumption|].
    rewrite in_app_iff, !in_map_iff in H.
    destruct H as [(q & [= <- <- <-] & Hq)|(q & [= <- <- <-] & Hq)]; auto.
  - intros (f & Hf & -> & H). exists f. split; [assumption|].
    rewrite in_app_iff, !in_map_iff.
    destruct H as [(-> & H)|(-> & H)]; [left | right]; exists p; auto.
Qed.

Lemma filter_length_perm {A} (f : A -> bool) l l' :
  Permutation l l' -> length (filter f l) = length (filter f l').
Proof.
  induction 1; simpl; try congruence.
  - destruct (f x); simpl; congruence.
  - destruct (f x), (f y); reflexivity.
Qed.

Lemma filter_key_one {A} (key : A -> str) l x :
  NoDup (map key l) -> In x l ->
  length (filter (fun y => eqb_str (key y) (key x)) l) = 1.
Proof.
  induction l as [|y l IH]; simpl; [intros _ []|].
  intros Hnd Hin. inversion Hnd as [|? ? Hn Hd]; subst.
  destruct (eqb_str_spec (key y) (key x)) as [E|Hne].
  - simpl. f_equal.
    assert (Hnone : forall z, In z l -> eqb_str (key z) (key x) = false).
    { intros z Hz. apply eqb_str_neq. intros E'. apply Hn.
      rewrite E, <- E'. apply in_map. assumption. }
    clear - Hnone. induction l as [|z l IH]; simpl; [reflexivity|].
    rewrite (Hnone z) by (left; reflexivity).
    apply IH. intros z' Hz'. apply Hnone. right. assumption.
  - destruct Hin as [->|Hin]; [congruence|]. apply IH; assumption.
Qed.

Section EdgeFacts.

Variable parsedFiles : list ParsedFile.t.

Let index := buildSuffixIndex parsedFiles.
Let created := b_edges (firstLoop parsedFiles).

Lemma created_run :
  created = b_edges (run index (parsedFileIdsOf parsedFiles) (allDecls parsedFiles)).
Proof. apply firstLoop_edges. Qed.

Lemma created_inv :
  map keyOfEdge created
  = firstOccurrences
      (map (fun d => keyOfTriple (tripleOfDecl index d)) (allDecls parsedFiles))
  /\ map EdgeData.id created = map edgeId (seq 1 (length created))
  /\ NoDup (map keyOfEdge created).
Proof.
  rewrite created_run.
  destruct (run_inv index (parsedFileIdsOf parsedFiles) (allDecls parsedFiles))
    as (K & _ & I & D).
  rewrite <- K. repeat split; try assumption. apply run_keys.
Qed.

Lemma created_source e :
  Forall (fun f => nulFree (ParsedFile.id f)) parsedFiles ->
  In e created -> nulFree (EdgeData.source e).
Proof.
  intros Hnf He. rewrite created_run in He.
  apply run_edges_decl in He. destruct He as ([[k s] p] & Hd & E).
  apply allDecls_In in Hd. destruct Hd as (f & Hf & -> & _).
  injection E as _ -> _. rewrite Forall_forall in Hnf. apply Hnf. assumption.
Qed.

Lemma created_count d :
  Forall (fun f => nulFree (ParsedFile.id f)) parsedFiles ->
  In d (allDecls parsedFiles) ->
  edgeCount (tripleOfDecl index d) created = 1.
Proof.
  intros Hnf Hd.
  pose proof Hd as He. rewrite created_run.
  apply (run_decl_edge index (parsedFileIdsOf parsedFiles)) in He.
  rewrite <- created_run. rewrite <- created_run in He.
  destruct He as (e & He & Ek).
  destruct created_inv as (_ & _ & Hnd).
  rewrite <- (filter_key_one keyOfEdge created e Hnd He).
  unfold edgeCount. f_equal. apply filter_ext_in. intros e' He'.
  rewrite Ek. symmetry. apply key_triple.
  - apply created_source; assumption.
  - destruct d as [[k s] p]. apply allDecls_In in Hd.
    destruct Hd as (f & Hf & -> & _). simpl.
    rewrite Forall_forall in Hnf. apply Hnf. assumption.
Qed.

End EdgeFacts.

Lemma edges_perm {host : Host} parsedFiles :
  Permutation (edges (buildGraphFrom parsedFiles)) (b_edges (firstLoop parsedFiles)).
Proof. apply sortBy_perm. Qed.

(** ** One graph on two hosts *)

Lemma aliasOrder_agree h1 h2 (P : str -> Prop) a b :
  agreeOn h1 h2 P -> P (fst a) -> P (fst b) ->
  Z.leb (@aliasOrder h1 a b) 0 = Z.leb (@aliasOrder h2 a b) 0.
Proof.
  intros Ha Pa Pb. unfold aliasOrder.
  destruct (negb (Nat.eqb (snd b) (snd a))); [reflexivity|].
  destruct (negb (Nat.eqb (length (fst b)) (length (fst a)))); [reflexivity|].
  apply Ha; assumption.
Qed.

Lemma chooseModulePath_agree h1 h2 (P : str -> Prop) aliases fallback :
  agreeOn h1 h2 P ->
  (forall mp, aliases = Some mp -> Forall P (map fst mp)) ->
  @chooseModulePath h1 aliases fallback = @chooseModulePath h2 aliases fallback.
Proof.
  intros Ha Hp. destruct aliases as [[|e es]|]; try reflexivity.
  unfold chooseModulePath. f_equal. f_equal.
  specialize (Hp _ eq_refl). rewrite Forall_forall in Hp.
  apply sortBy_ext_in. intros a b Hin1 Hin2.
  apply (aliasOrder_agree h1 h2 P); [exact Ha | |]; apply Hp; apply in_map; assumption.
Qed.

Lemma usersOf_agree h1 h2 (P : str -> Prop) parsedById consumers symbol :
  agreeOn h1 h2 P -> Forall P consumers ->
  @usersOf h1 parsedById consumers symbol = @usersOf h2 parsedById consumers symbol.
Proof.
  intros Ha Hp. unfold usersOf. rewrite Forall_forall in Hp.
  apply sortBy_ext_in. intros a b Hin1 Hin2.
  apply filter_In in Hin1, Hin2. apply Ha; apply Hp; tauto.
Qed.

Lemma symbolUsersOf_agree h1 h2 (P : str -> Prop) parsedById consumers exported :
  agreeOn h1 h2 P -> Forall P consumers ->
  @symbolUsersOf h1 parsedById consumers exported
  = @symbolUsersOf h2 parsedById consumers exported.
Proof.
  intros Ha Hp. unfold symbolUsersOf.
  generalize (@nil (str * list str)) as acc.
  induction exported as [|x exported IH]; intros acc; [reflexivity|].
  cbn [fold_left]. rewrite (usersOf_agree h1 h2 P _ _ _ Ha Hp). apply IH.
Qed.

Lemma addVirtualNodes_ids vn : forall nodes n,
  In n (addVirtualNodes nodes vn) ->
  In n nodes \/ In n (map snd vn).
Proof.
  unfold addVirtualNodes.
  induction vn as [|v vn IH]; intros nodes n H; [left; exact H|].
  cbn [fold_left] in H. apply IH in H. cbn [map].
  destruct H as [H|H]; [|right; right; exact H].
  destruct (negb _); [|left; exact H].
  apply in_app_or in H. destruct H as [H|[<-|[]]]; [left; exact H|].
  right. left. reflexivity.
Qed.

(** Two hosts that put the compared strings of a tree in one order
    build one graph. *)
Lemma buildGraphFrom_agree h1 h2 (P : str -> Prop) parsedFiles :
  agreeOn h1 h2 P -> Forall P (comparedNames parsedFiles) ->
  @buildGraphFrom h1 parsedFiles = @buildGraphFrom h2 parsedFiles.
Proof.
  intros Ha Hp. unfold comparedNames in Hp.
  apply Forall_app in Hp. destruct Hp as (Pids & Hp).
  apply Forall_app in Hp. destruct Hp as (Pvirt & Hp).
  apply Forall_app in Hp. destruct Hp as (Pedges & Hp).
  apply Forall_app in Hp. destruct Hp as (Palias & Pcons).
  rewrite Forall_forall in Pids, Pvirt, Pedges, Palias, Pcons.
  set (b := firstLoop parsedFiles) in *.
  assert (Hnode : forall f,
            @fileNode h1 b (byId parsedFiles) f = @fileNode h2 b (byId parsedFiles) f).
  { intros f. unfold fileNode. f_equal.
    - apply (chooseModulePath_agree h1 h2 P); [exact Ha|].
      intros mp Hm. apply mapGet_In in Hm. apply Forall_forall. intros x Hx.
      apply Palias. apply in_flat_map. exists (ParsedFile.id f, mp). auto.
    - apply (symbolUsersOf_agree h1 h2 P); [exact Ha|].
      apply Forall_forall. intros c Hc.
      destruct (mapGet (ParsedFile.id f) (directConsumersByTarget b)) as [cs|] eqn:E;
        [|destruct Hc].
      apply mapGet_In in E. apply Pcons. apply in_flat_map.
      exists (ParsedFile.id f, cs). auto. }
  unfold buildGraphFrom. fold b.
  rewrite (map_ext _ _ Hnode). f_equal.
  - apply sortBy_ext_in. intros x y Hx Hy. unfold nodeOrder.
    assert (Hid : forall n,
              In n (addVirtualNodes (map (@fileNode h2 b (byId parsedFiles)) parsedFiles)
                      (virtualNodes b)) -> P (NodeData.id n)).
    { intros n Hn. apply addVirtualNodes_ids in Hn. destruct Hn as [Hn|Hn].
      - apply in_map_iff in Hn. destruct Hn as (f & <- & Hf).
        apply Pids. apply (in_map ParsedFile.id) in Hf. exact Hf.
      - apply in_map_iff in Hn. destruct Hn as (v & <- & Hv).
        apply Pvirt. apply (in_map (fun v => NodeData.id (snd v))). exact Hv. }
    apply Ha; apply Hid; assumption.
  - apply sortBy_ext_in. intros x y Hx Hy. unfold edgeOrder.
    apply Ha; apply Pedges; apply in_map; assumption.
Qed.

Lemma Forall_plain l P :
  (forall s, plainName s = true -> P s) ->
  forallb plainName l = true -> Forall P l.
Proof.
  intros H Hl. apply Forall_forall. intros x Hx. apply H.
  rewrite forallb_forall in Hl. apply Hl. exact Hx.
Qed.

(** On a host that orders plain names as code units, a tree of plain
    names has the graph that the comparison of code units gives. *)
Lemma buildGraphFrom_plain {host : Host} parsedFiles :
  ordersPlainNames host ->
  forallb plainName (comparedNames parsedFiles) = true ->
  buildGraphFrom parsedFiles = @buildGraphFrom codeUnits parsedFiles.
Proof.
  intros Ho Hp.
  apply (buildGraphFrom_agree host codeUnits (fun s => plainName s = true));
    [exact Ho|].
  apply (Forall_plain _ _ (fun s H => H) Hp).
Qed.

Lemma buildGraph_plain {host : Host} inputs parsedFiles :
  ordersPlainNames host ->
  parseFiles inputs = Ok parsedFiles ->
  forallb plainName (comparedNames parsedFiles) = true ->
  buildGraph inputs = @buildGraph codeUnits inputs.
Proof.
  intros Ho E Hp. unfold buildGraph. rewrite E. cbn [bind].
  rewrite (buildGraphFrom_plain parsedFiles Ho Hp). reflexivity.
Qed.

(** The edges alone: every host that orders the edge ids as code units
    lists them alike. *)
Lemma edges_agree {host : Host} parsedFiles :
  ordersEdgeIds host ->
  edges (buildGraphFrom parsedFiles) = edges (@buildGraphFrom codeUnits parsedFiles).
Proof.
  intros Ho. unfold buildGraphFrom. cbn [edges].
  apply sortBy_ext_in. intros x y Hx Hy. unfold edgeOrder.
  destruct (created_inv parsedFiles) as (_ & I & _).
  assert (Hid : forall e, In e (b_edges (firstLoop parsedFiles)) ->
                  exists n, EdgeData.id e = edgeId n).
  { intros e He. apply (in_map EdgeData.id) in He. rewrite I in He.
    apply in_map_iff in He. destruct He as (n & <- & _). exists n. reflexivity. }
  apply Ho; apply Hid; assumption.
Qed.

Lemma edgeTriples_agree {host : Host} inputs :
  ordersEdgeIds host ->
  edgeTriples (buildGraph inputs) = edgeTriples (@buildGraph codeUnits inputs).
Proof.
  intros Ho. unfold edgeTriples, buildGraph.
  destruct (parseFiles inputs) as [pf| |]; try reflexivity.
  cbn [bind]. rewrite (edges_agree pf Ho). reflexivity.
Qed.

Lemma edgeIds_agree {host : Host} inputs :
  ordersEdgeIds host ->
  edgeIds (buildGraph inputs) = edgeIds (@buildGraph codeUnits inputs).
Proof.
  intros Ho. unfold edgeIds, buildGraph.
  destruct (parseFiles inputs) as [pf| |]; try reflexivity.
  cbn [bind]. rewrite (edges_agree pf Ho). reflexivity.
Qed.

(** C5. Edges are one per (kind, source id, resolved target id): every
    declaration of a file has exactly one edge with its kind, the id of
    the file and the target its path resolves to, however many
    declarations of that kind resolve there; two imports that differ in
    the version alone give one edge, and an import and a re-export of
    one path give two edges, one of each kind (listed in the order of
    their ids [e1], [e2]). *)
Theorem edges_deduplicated {host : Host} (parsedFiles : list ParsedFile.t) :
  Forall (fun f => nulFree (ParsedFile.id f)) parsedFiles ->
  (forall d, In d (allDecls parsedFiles) ->
     edgeCount (tripleOfDecl (buildSuffixIndex parsedFiles) d)
       (edges (buildGraphFrom parsedFiles)) = 1)
  /\ edgeTriples
       (buildGraph [(lit "app.fs",
          src "import(path:'x', version:'1'); import(path:'x', version:'2');")])
     = Ok [(KImport, lit "app.fs", lit "x")]
  /\ (ordersEdgeIds host ->
      edgeTriples
        (buildGraph [(lit "app.fs",
           src "import(path:'x', version:'1'); export import(path:'x', version:'1');")])
      = Ok [(KImport, lit "app.fs", lit "x"); (KReexport, lit "app.fs", lit "x")]).
Proof.
  intros Hnf. split; [|split].
  - intros d Hd. unfold edgeCount.
    rewrite (filter_length_perm _ _ _ (edges_perm parsedFiles)).
    apply created_count; assumption.
  - unfold edgeTriples, buildGraph, buildGraphFrom.
    match goal with
    | |- context [parseFiles ?i] =>
        let r := eval vm_compute in (parseFiles i) in
        change (parseFiles i) with r
    end.
    cbn [bind edges].
    match goal with
    | |- context [firstLoop ?l] =>
        let r := eval vm_compute in (b_edges (firstLoop l)) in
        change (b_edges (firstLoop l)) with r
    end.
    reflexivity.
  - intros Ho. rewrite (edgeTriples_agree _ Ho). vm_compute. reflexivity.
Qed.

Lemma edges_deduplicated_witness :
  edgeCount (KImport, lit "a.fs", lit "lib/b.fs")
    (edges (@buildGraphFrom rootCollation
       [file "a.fs" ["b.fs"; "lib/b.fs"]%string ["b.fs"]%string [] [];
        file "lib/b.fs" [] [] [] []]))
  = 1
  /\ edgeTriples
       (@buildGraph rootCollation [(lit "app.fs",
          src "import(path:'x', version:'1'); export import(path:'x', version:'1');")])
     = Ok [(KImport, lit "app.fs", lit "x"); (KReexport, lit "app.fs", lit "x")].
Proof.
  assert (Hnf : Forall (fun f => nulFree (ParsedFile.id f))
                  [file "a.fs" ["b.fs"; "lib/b.fs"]%string ["b.fs"]%string [] [];
                   file "lib/b.fs" [] [] [] []])
    by (repeat constructor; unfold nulFree; vm_compute; intuition discriminate).
  destruct (@edges_deduplicated rootCollation _ Hnf) as (H1 & _ & H3).
  split.
  - apply (H1 (KImport, lit "a.fs", lit "b.fs")). vm_compute. auto.
  - apply H3. apply plain_ordersEdgeIds, rootCollation_plain.
Defined.

(** ** The numbering of the edges *)

Lemma Sorted_map {A B} (R : B -> B -> Prop) (f : A -> B) l :
  Sorted R (map f l) -> Sorted (fun x y => R (f x) (f y)) l.
Proof.
  induction l as [|x l IH]; simpl; intros H; [constructor|].
  inversion H as [|? ? Hs Hh]; subst. constructor; [apply IH; assumption|].
  destruct l; simpl in *; constructor. inversion Hh; assumption.
Qed.

Lemma edgeIds_sorted n :
  n <= 9 -> Sorted (cle codeUnitCompare) (map edgeId (seq 1 n)).
Proof.
  intros Hn.
  do 10 (destruct n as [|n];
         [repeat constructor; vm_compute; discriminate|]).
  lia.
Qed.

(** C1, counterexample.  With ten edges the second place of the output
    holds [e10], where the numbering by position says [e2]: so it is on
    every host that orders the edge ids as strings, and on no such host
    are the edges numbered by position. *)
Lemma edges_numbered_in_order_fails :
  (forall host : Host, ordersEdgeIds host ->
     edgeIds (buildGraph tenImports)
     = Ok (map lit ["e1"; "e10"; "e2"; "e3"; "e4"; "e5"; "e6"; "e7"; "e8"; "e9"]%string))
  /\ ordersEdgeIds rootCollation
  /\ ~ (exists host : Host, ordersEdgeIds host
          /\ forall g, buildGraph tenImports = Ok g -> numberedInOrder (edges g)).
Proof.
  assert (Hids : forall host : Host, ordersEdgeIds host ->
     edgeIds (buildGraph tenImports)
     = Ok (map lit ["e1"; "e10"; "e2"; "e3"; "e4"; "e5"; "e6"; "e7"; "e8"; "e9"]%string)).
  { intros host Ho. rewrite (edgeIds_agree _ Ho). vm_compute. reflexivity. }
  split; [exact Hids|]. split; [apply plain_ordersEdgeIds, rootCollation_plain|].
  intros (host & Ho & H). specialize (Hids host Ho).
  unfold edgeIds in Hids.
  destruct (buildGraph tenImports) as [g| |] eqn:Eg; try discriminate Hids.
  specialize (H g eq_refl).
  cbn [bind] in Hids. injection Hids as Hids.
  destruct (edges g) as [|e0 [|e1 es]]; try discriminate Hids.
  specialize (H 1 e1 eq_refl). injection Hids as _ E1 _.
  rewrite H in E1. vm_compute in E1. discriminate E1.
Qed.

(** C1, as amended.  An edge gets its number when it is created: the
    k-th edge created carries [e<k>], and edges are created in the
    order in which their (kind, source, target) keys are first met
    among the declarations.  The output lists these edges sorted by id
    with the comparison of the host; on a host that orders the edge ids
    as strings that is, up to nine edges, the order of creation. *)
Theorem edges_numbered_at_creation {host : Host} {collation : Collation host}
    (parsedFiles : list ParsedFile.t) :
  let created := b_edges (firstLoop parsedFiles) in
  let g := buildGraphFrom parsedFiles in
  numberedInOrder created
  /\ map keyOfEdge created
     = firstOccurrences
         (map (fun d => keyOfTriple (tripleOfDecl (buildSuffixIndex parsedFiles) d))
            (allDecls parsedFiles))
  /\ Permutation (edges g) created
  /\ Sorted (cle edgeOrder) (edges g)
  /\ (ordersEdgeIds host -> length created <= 9 -> edges g = created).
Proof.
  intros created g.
  destruct (created_inv parsedFiles) as (K & I & _).
  fold created in K, I.
  split; [|split; [exact K | split; [apply sortBy_perm | split]]].
  - intros k e Hk.
    assert (H : nth_error (map EdgeData.id created) k = Some (EdgeData.id e))
      by (rewrite nth_error_map, Hk; reflexivity).
    rewrite I, nth_error_map in H.
    destruct (nth_error (seq 1 (length created)) k) as [j|] eqn:Ej;
      [|discriminate].
    injection H as <-.
    assert (Hlt : k < length (seq 1 (length created)))
      by (apply nth_error_Some; congruence).
    rewrite length_seq in Hlt.
    rewrite nth_error_nth' with (d := 0) in Ej by (rewrite length_seq; lia).
    rewrite seq_nth in Ej by lia. injection Ej as <-. reflexivity.
  - apply sortBy_Sorted. intros a b. apply collate_total.
  - intros Ho Hn. unfold g. rewrite (edges_agree parsedFiles Ho).
    unfold buildGraphFrom. cbn [edges]. apply sortBy_sorted_id.
    apply (Sorted_map (cle codeUnitCompare) EdgeData.id).
    fold created. rewrite I. apply edgeIds_sorted. assumption.
Qed.

Lemma edges_numbered_at_creation_witness :
  edges (@buildGraphFrom rootCollation [file "a.fs" ["m1"; "m2"]%string [] [] []])
  = b_edges (firstLoop [file "a.fs" ["m1"; "m2"]%string [] [] []]).
Proof.
  apply (@edges_numbered_at_creation rootCollation rootCollation_collation
           [file "a.fs" ["m1"; "m2"]%string [] [] []]).
  - apply plain_ordersEdgeIds, rootCollation_plain.
  - vm_compute. lia.
Defined.

(** *** A file registers a string at most once *)

Lemma slashes_app a b : slashes (a ++ b) = slashes a + slashes b.
Proof. unfold slashes. rewrite filter_app, length_app. reflexivity. Qed.

Lemma slashes_cons c s :
  slashes (c :: s) = (if N.eqb c SLASH then 1 else 0) + slashes s.
Proof.
  unfold slashes. cbn [filter]. rewrite (N.eqb_sym SLASH c).
  destruct (N.eqb c SLASH); reflexivity.
Qed.

Lemma split_slashes s : Forall (fun seg => slashes seg = 0) (split s).
Proof.
  induction s as [|c t IH]; simpl.
  - repeat constructor.
  - destruct (N.eqb c SLASH) eqn:E.
    + constructor; [reflexivity | assumption].
    + destruct (split t) as [|seg segs].
      * constructor; [|constructor]. rewrite slashes_cons, E. reflexivity.
      * inversion IH; subst. constructor; [|assumption].
        rewrite slashes_cons, E. assumption.
Qed.

Lemma segmentsOf_slashes s : Forall (fun seg => slashes seg = 0) (segmentsOf s).
Proof.
  unfold segmentsOf. pose proof (split_slashes s) as H.
  rewrite Forall_forall in *. intros x Hx. apply filter_In in Hx. apply H, Hx.
Qed.

Lemma join_slashes l :
  Forall (fun seg => slashes seg = 0) l -> slashes (join l) = length l - 1.
Proof.
  induction l as [|seg l IH]; intros H; [reflexivity|].
  inversion H as [|? ? H0 Hl]; subst.
  destruct l as [|seg2 l]; [simpl; assumption|].
  change (join (seg :: seg2 :: l)) with (seg ++ SLASH :: join (seg2 :: l)).
  rewrite slashes_app, slashes_cons, (IH Hl), H0. simpl. lia.
Qed.

Lemma suffixAt_inj segments i j :
  Forall (fun seg => slashes seg = 0) segments ->
  i < length segments -> j < length segments ->
  suffixAt segments i = suffixAt segments j -> i = j.
Proof.
  intros H Hi Hj E. apply (f_equal slashes) in E. unfold suffixAt in E.
  assert (Hs : forall n, Forall (fun seg => slashes seg = 0) (skipn n segments)).
  { intros n. rewrite <- (firstn_skipn n segments) in H.
    apply Forall_app in H. tauto. }
  rewrite !join_slashes, !length_skipn in E by apply Hs. lia.
Qed.

Lemma registeredBy_once s record : length (registeredBy s record) <= 1.
Proof.
  unfold registeredBy.
  set (segments := segmentsOf (ParsedFile.filePath record)).
  assert (Hb : forall i, In i (seq 0 (length segments)) -> i < length segments)
    by (intros i Hi; apply in_seq in Hi; lia).
  pose proof (seq_NoDup (length segments) 0) as Hnd.
  revert Hb Hnd. generalize (seq 0 (length segments)) as is_.
  induction is_ as [|i is_ IH]; intros Hb Hnd; simpl; [lia|].
  inversion Hnd as [|? ? Hn Hd]; subst.
  destruct (eqb_str_spec s (suffixAt segments i)) as [E|Hne]; simpl.
  - assert (Hnone : forall l,
        (forall x, In x l -> x < length segments) -> ~ In i l ->
        flat_map (fun j => if eqb_str s (suffixAt segments j)
                           then [ParsedFile.id record] else []) l = []).
    { induction l as [|j l IHl]; intros Hl Hout; [reflexivity|]. simpl.
      destruct (eqb_str_spec s (suffixAt segments j)) as [E'|_].
      - exfalso. apply Hout. left. symmetry.
        apply (suffixAt_inj segments i j).
        + apply segmentsOf_slashes.
        + apply Hb. left. reflexivity.
        + apply Hl. left. reflexivity.
        + congruence.
      - simpl. apply IHl.
        + intros x Hx. apply Hl. right. assumption.
        + intros Hin. apply Hout. right. assumption. }
    rewrite Hnone; [| intros x Hx; apply Hb; right; assumption | assumption].
    simpl. lia.
  - apply IH; [|assumption]. intros x Hx. apply Hb. right. assumption.
Qed.

(** ** Resolution *)



(** C3. The answer of the resolver depends on the declared path and
    on which files are indexed, not on the order in which the files
    were put into the index. *)
Theorem resolution_order_independent (declared : str)
    (records records' : list ParsedFile.t) :
  Permutation records records' ->
  resolveModuleTarget declared (buildSuffixIndex records)
  = resolveModuleTarget declared (buildSuffixIndex records').
Proof.
  intros Hp. rewrite !resolveModuleTarget_spec. unfold resolveSpec.
  apply firstSingle_perm. assumption.
Qed.

Lemma resolution_order_independent_witness :
  resolveModuleTarget (lit "b/c.ext")
    (buildSuffixIndex [file "a/b/c.ext" [] [] [] []; file "x/y/c.ext" [] [] [] []])
  = resolveModuleTarget (lit "b/c.ext")
      (buildSuffixIndex [file "x/y/c.ext" [] [] [] []; file "a/b/c.ext" [] [] [] []]).
Proof.
  apply resolution_order_independent. apply perm_swap.
Defined.

(** ** The alias chooser *)

Lemma aliasOrder_ranked {host : Host} a b : cle aliasOrder a b <-> ranked a b.
Proof.
  unfold cle, aliasOrder, ranked.
  destruct (Nat.eqb_spec (snd b) (snd a)) as [E|Hne]; simpl.
  - destruct (Nat.eqb_spec (length (fst b)) (length (fst a))) as [El|Hnl]; simpl.
    + intuition lia.
    + split; [intros H; right; split; [assumption | left; lia]|].
      intros [H|[_ [H|[H _]]]]; lia.
  - split; [intros H; left; lia|].
    intros [H|[H _]]; lia.
Qed.

Section AliasOrder.

Context {host : Host} {collation : Collation host}.

Lemma aliasOrder_total a b : cle aliasOrder a b \/ cle aliasOrder b a.
Proof.
  unfold cle, aliasOrder.
  rewrite (Nat.eqb_sym (snd a) (snd b)).
  rewrite (Nat.eqb_sym (length (fst a)) (length (fst b))).
  destruct (Nat.eqb (snd b) (snd a)); simpl; [|lia].
  destruct (Nat.eqb (length (fst b)) (length (fst a))); simpl; [|lia].
  apply collate_total.
Qed.

Lemma aliasOrder_trans a b c :
  cle aliasOrder a b -> cle aliasOrder b c -> cle aliasOrder a c.
Proof.
  rewrite !aliasOrder_ranked. unfold ranked.
  intros [H1|[E1 [H1|[L1 H1]]]] [H2|[E2 [H2|[L2 H2]]]];
    try (left; lia); try (right; split; [lia|]; left; lia).
  right. split; [lia|]. right. split; [lia|].
  exact (collate_trans _ _ _ H1 H2).
Qed.

(** The chooser answers the fallback on an empty table; on another it
    answers a spelling of the table that every entry is ranked after,
    and the first such in the table. *)
Lemma chooseModulePath_spec aliases fallback :
  match aliases with
  | None | Some [] => chooseModulePath aliases fallback = fallback
  | Some (e :: es) =>
    exists c before after,
      e :: es = before ++ (chooseModulePath aliases fallback, c) :: after
      /\ (forall y, In y (e :: es) ->
            ranked (chooseModulePath aliases fallback, c) y)
      /\ (forall y, In y before ->
            ~ ranked y (chooseModulePath aliases fallback, c))
  end.
Proof.
  destruct aliases as [[|e es]|]; try reflexivity.
  unfold chooseModulePath.
  pose proof (sortBy_head_first aliasOrder e (e :: es) ltac:(discriminate)) as Hf.
  pose proof (sortBy_head_least aliasOrder aliasOrder_total aliasOrder_trans e e es)
    as Hle.
  destruct (hd e (sortBy aliasOrder (e :: es))) as [p c]. cbn [fst].
  destruct Hf as (before & after & E & Hb).
  exists c, before, after. split; [exact E|]. split.
  - intros y Hy. apply aliasOrder_ranked. apply Hle. assumption.
  - intros y Hy Hr. apply (Hb y Hy). apply aliasOrder_ranked. exact Hr.
Qed.

End AliasOrder.

Section Aliases.

Variable index : suffixIndex.
Variable ids : list str.

Local Abbreviation stp := (stepDecl index ids).
Local Abbreviation rn := (run index ids).

Lemma step_aliasCounts b k s p :
  let t := resolved index p in
  aliasCounts (stp b (k, s, p))
  = if negb (eqb_str t p) && negb (eqb_str t s)
    then mapSet t
           (mapSet p (aliasCount (aliasCounts b) t p + 1)
              (orEmpty (mapGet t (aliasCounts b))))
           (aliasCounts b)
    else aliasCounts b.
Proof.
  intros t. unfold stepDecl. fold t.
  assert (E : aliasCounts (addConsumer ids s t (addEdge k s t b)) = aliasCounts b).
  { unfold addConsumer, addEdge.
    destruct (setHas t ids), (negb (setHas _ _)); reflexivity. }
  unfold addVirtual.
  assert (E2 : forall b', aliasCounts
            (if negb (setHas t ids)
             then {| b_edges := b_edges b'; edgeKeys := edgeKeys b';
                     virtualNodes := mapSet t (virtualNode t p) (virtualNodes b');
                     aliasCounts := aliasCounts b';
                     targetsByFile := targetsByFile b';
                     directConsumersByTarget := directConsumersByTarget b';
                     edgeNumber := edgeNumber b' |}
             else b') = aliasCounts b')
    by (intros; destruct (negb _); reflexivity).
  rewrite E2. unfold addAlias. rewrite !E.
  destruct (negb (eqb_str t p) && negb (eqb_str t s)); [reflexivity | exact E].
Qed.

Lemma step_aliasCount b d t' p' :
  aliasCount (aliasCounts (stp b d)) t' p'
  = aliasCount (aliasCounts b) t' p'
    + (if observes index t' p' d then 1 else 0).
Proof.
  destruct d as [[k s] p]. rewrite step_aliasCounts. unfold observes.
  set (t := resolved index p).
  destruct (eqb_str_spec t p) as [Etp|Ntp]; simpl.
  { destruct (eqb_str_spec t' p) as [->|N1]; simpl.
    - rewrite !andb_false_r. simpl. lia.
    - destruct (eqb_str_spec t t') as [E|N2]; [congruence|].
      rewrite !andb_false_r. simpl. lia. }
  destruct (eqb_str_spec t s) as [Ets|Nts]; simpl.
  { destruct (eqb_str_spec t' s) as [->|N1]; simpl.
    - rewrite !andb_false_r. lia.
    - destruct (eqb_str_spec t t') as [E|N2]; [congruence|].
      rewrite !andb_false_r. simpl. lia. }
  unfold aliasCount at 1. rewrite mapGet_mapSet.
  destruct (eqb_str_spec t' t) as [->|N1].
  - simpl. rewrite mapGet_mapSet.
    rewrite (eqb_str_refl t).
    destruct (eqb_str_spec t p) as [?|_]; [contradiction|].
    destruct (eqb_str_spec t s) as [?|_]; [contradiction|]. simpl.
    destruct (eqb_str_spec p' p) as [->|N2].
    + rewrite eqb_str_refl. simpl. reflexivity.
    + destruct (eqb_str_spec p p') as [?|_]; [congruence|]. simpl.
      unfold aliasCount. lia.
  - destruct (eqb_str_spec t t') as [?|_]; [congruence|].
    rewrite !andb_false_r. simpl. unfold aliasCount. lia.
Qed.

Lemma run_aliasCount ds t p :
  aliasCount (aliasCounts (rn ds)) t p = occurrences index ds t p.
Proof.
  induction ds as [|d ds IH] using rev_ind; [reflexivity|].
  rewrite run_snoc, step_aliasCount, IH. unfold occurrences.
  rewrite filter_app, length_app. simpl.
  destruct (observes index t p d); reflexivity.
Qed.

Lemma step_wfAliases b d :
  wfAliases (aliasCounts b) -> wfAliases (aliasCounts (stp b d)).
Proof.
  intros H. destruct d as [[k s] p]. rewrite step_aliasCounts.
  destruct (_ && _); [|assumption].
  intros t mp. rewrite mapGet_mapSet.
  destruct (eqb_str_spec t (resolved index p)) as [->|Hne]; [|apply H].
  intros [= <-].
  assert (Hm : orEmpty (mapGet (resolved index p) (aliasCounts b)) = []
               \/ exists mp', mapGet (resolved index p) (aliasCounts b) = Some mp').
  { destruct (mapGet (resolved index p) (aliasCounts b)); [right; eauto | left; reflexivity]. }
  repeat split.
  - destruct (orEmpty _) as [|[q c] l]; simpl; [discriminate|].
    destruct (eqb_str p q); discriminate.
  - apply mapSet_NoDup. destruct Hm as [->|(mp' & Hm)]; [constructor|].
    rewrite Hm. simpl. apply (H _ _ Hm).
  - intros q c. rewrite mapGet_mapSet.
    destruct (eqb_str q p); [intros [= <-]; lia|].
    destruct Hm as [->|(mp' & Hm)]; [discriminate|].
    rewrite Hm. simpl. apply (H _ _ Hm).
Qed.

Lemma run_wfAliases ds : wfAliases (aliasCounts (rn ds)).
Proof.
  induction ds as [|d ds IH] using rev_ind.
  - intros t mp [=].
  - rewrite run_snoc. apply step_wfAliases. assumption.
Qed.

(** What the chooser answers on the aliases gathered for [target]. *)
Lemma run_choose {host : Host} {collation : Collation host} ds target fallback :
  let occ := occurrences index ds target in
  let chosen := chooseModulePath (mapGet target (aliasCounts (rn ds))) fallback in
  ((forall p, occ p = 0) -> chosen = fallback)
  /\ (forall p, 0 < occ p ->
        0 < occ chosen /\ ranked (chosen, occ chosen) (p, occ p)).
Proof.
  intros occ chosen.
  pose proof (run_wfAliases ds) as Hwf.
  pose proof (fun p => run_aliasCount ds target p) as Hc.
  fold (occ) in Hc. unfold aliasCount in Hc.
  pose proof (chooseModulePath_spec (mapGet target (aliasCounts (rn ds))) fallback)
    as Hs. fold chosen in Hs.
  destruct (mapGet target (aliasCounts (rn ds))) as [mp|] eqn:Em.
  - destruct (Hwf _ _ Em) as (Hne & Hnd & Hpos). simpl in Hc.
    destruct mp as [|e es]; [congruence|].
    destruct Hs as (c & before & after & Esplit & Hbest & _).
    assert (Hin : In (chosen, c) (e :: es))
      by (rewrite Esplit; apply in_or_app; right; left; reflexivity).
    assert (Hget : forall q n, In (q, n) (e :: es) -> occ q = n /\ 0 < n).
    { intros q n Hq. apply (In_mapGet _ _ _ Hnd) in Hq.
      split; [rewrite <- Hc, Hq; reflexivity | apply (Hpos _ _ Hq)]. }
    destruct (Hget _ _ Hin) as (Ec & Hcpos).
    split.
    + intros H0. rewrite H0 in Ec. lia.
    + intros p Hp. rewrite Ec. split; [assumption|].
      apply Hbest. rewrite <- Hc in Hp |- *.
      destruct (mapGet p (e :: es)) as [n|] eqn:Ep; [|simpl in Hp; lia].
      exact (mapGet_In _ _ _ Ep).
  - simpl in Hc. split; [intros _; exact Hs|].
    intros p Hp. rewrite <- Hc in Hp. simpl in Hp. lia.
Qed.

End Aliases.

(** ** Virtual nodes *)

Lemma mapSet_In_keys {V} k (v : V) mp t x :
  NoDup (map fst mp) ->
  In (t, x) (mapSet k v mp) <-> (t = k /\ x = v) \/ (t <> k /\ In (t, x) mp).
Proof.
  intros Hnd. induction mp as [|[k2 v2] mp IH]; simpl.
  - split.
    + intros [[= <- <-]|[]]. auto.
    + intros [(-> & ->)|(_ & [])]. auto.
  - inversion Hnd as [|? ? Hn Hd]; subst.
    destruct (eqb_str_spec k k2) as [->|Hne]; simpl.
    + split.
      * intros [[= <- <-]|H]; [auto|].
        right. split; [|auto]. intros ->. apply Hn.
        apply (in_map fst) in H. assumption.
      * intros [(-> & ->)|(Hne & [[= -> ->]|H])]; auto. congruence.
    + rewrite (IH Hd). split.
      * intros [[= <- <-]|[H|(H1 & H2)]]; auto.
      * intros [H|(H1 & [[= <- <-]|H2])]; auto.
Qed.

Lemma mapSet_same {V} k (v : V) mp : mapGet k mp = Some v -> mapSet k v mp = mp.
Proof.
  induction mp as [|[k2 v2] mp IH]; simpl; [discriminate|].
  destruct (eqb_str_spec k k2) as [->|Hne].
  - intros [= ->]. reflexivity.
  - intros H. rewrite IH by assumption. reflexivity.
Qed.

Section Virtual.

Variable index : suffixIndex.
Variable ids : list str.
Hypothesis index_ids :
  forall p x, resolveModuleTarget p index = Some x -> In x ids.

Local Abbreviation stp := (stepDecl index ids).
Local Abbreviation rn := (run index ids).

Lemma resolved_cases p :
  (resolveModuleTarget p index = None /\ resolved index p = p)
  \/ (In (resolved index p) ids
      /\ resolveModuleTarget p index = Some (resolved index p)).
Proof.
  unfold resolved.
  destruct (resolveModuleTarget p index) as [x|] eqn:E; [right | left]; auto.
  split; [|reflexivity]. apply (index_ids p). assumption.
Qed.

Lemma unresolved_outside p :
  ~ In (resolved index p) ids ->
  resolveModuleTarget p index = None /\ resolved index p = p.
Proof.
  intros H. destruct (resolved_cases p) as [?|(Hin & _)]; [assumption|].
  contradiction.
Qed.

Lemma step_virtualNodes b k s p :
  let t := resolved index p in
  virtualNodes (stp b (k, s, p))
  = if negb (setHas t ids)
    then mapSet t (virtualNode t p) (virtualNodes b)
    else virtualNodes b.
Proof.
  intros t. unfold stepDecl. fold t.
  assert (E : virtualNodes
            (addAlias s t p (addConsumer ids s t (addEdge k s t b)))
            = virtualNodes b).
  { unfold addAlias, addConsumer, addEdge.
    destruct (_ && _), (setHas t ids), (negb (setHas _ _)); reflexivity. }
  unfold addVirtual. destruct (negb (setHas t ids)); simpl; rewrite E; reflexivity.
Qed.

Lemma run_virtualInv ds : virtualInv index ids ds (virtualNodes (rn ds)).
Proof.
  induction ds as [|d ds IH] using rev_ind.
  - repeat split; try constructor; intros; contradiction.
  - destruct IH as (Hnd & Hv & Hd). destruct d as [[k s] p].
    rewrite run_snoc, step_virtualNodes.
    destruct (setHas (resolved index p) ids) eqn:Eh; simpl.
    + apply setHas_In in Eh. repeat split; try assumption.
      * apply (Hv _ _ H).
      * apply (Hv _ _ H).
      * apply (Hv _ _ H).
      * destruct (Hv _ _ H) as (_ & _ & _ & k' & s' & Hin).
        exists k', s'. apply in_or_app. auto.
      * intros k' s' p' Hin Hout. apply in_app_or in Hin.
        destruct Hin as [Hin|[[= <- <- <-]|[]]]; [eauto | contradiction].
    + apply setHas_false in Eh.
      destruct (unresolved_outside p Eh) as (Hr & Ep). rewrite Ep in *.
      split; [apply mapSet_NoDup; assumption|]. split.
      * intros t v Hin. apply (mapSet_In_keys _ _ _ _ _ Hnd) in Hin.
        destruct Hin as [(-> & ->)|(Hne & Hin)].
        -- repeat split; try assumption.
           exists k, s. apply in_or_app. simpl. auto.
        -- destruct (Hv _ _ Hin) as (H1 & H2 & H3 & k' & s' & H4).
           repeat split; try assumption.
           exists k', s'. apply in_or_app. auto.
      * intros k' s' p' Hin Hout. apply (mapSet_In_keys _ _ _ _ _ Hnd).
        destruct (eqb_str_spec p' p) as [->|Hne]; [left; auto|].
        right. split; [assumption|]. apply in_app_or in Hin.
        destruct Hin as [Hin|[[= <- <- <-]|[]]]; [eauto | congruence].
Qed.

(** A further declaration of a path already declared leaves the side
    table as it is. *)
Lemma run_virtual_reused ds k s k' s' p :
  In (k, s, p) ds ->
  virtualNodes (rn (ds ++ [(k', s', p)])) = virtualNodes (rn ds).
Proof.
  intros Hin. rewrite run_snoc, step_virtualNodes.
  destruct (setHas (resolved index p) ids) eqn:Eh; simpl; [reflexivity|].
  apply setHas_false in Eh.
  destruct (run_virtualInv ds) as (Hnd & _ & Hd).
  pose proof (Hd _ _ _ Hin Eh) as Hp.
  destruct (unresolved_outside p Eh) as (_ & ->).
  apply mapSet_same. apply In_mapGet; assumption.
Qed.

End Virtual.

(** ** The nodes of the output *)

Lemma addVirtualNodes_app vn : forall nodes,
  NoDup (map fst vn) ->
  (forall t v, In (t, v) vn ->
     NodeData.id v = t /\ ~ In t (map NodeData.id nodes)) ->
  addVirtualNodes nodes vn = nodes ++ map snd vn.
Proof.
  unfold addVirtualNodes.
  induction vn as [|[t v] vn IH]; intros nodes Hnd Hv; simpl.
  - rewrite app_nil_r. reflexivity.
  - inversion Hnd as [|? ? Hn Hd]; subst.
    destruct (Hv t v (or_introl eq_refl)) as (Ei & Hout).
    assert (E : existsb (fun n => eqb_str (NodeData.id n) (NodeData.id v)) nodes
                = false).
    { destruct (existsb _ nodes) eqn:E; [|reflexivity].
      apply existsb_exists in E. destruct E as (n & Hin & E).
      apply eqb_str_eq in E. exfalso. apply Hout.
      rewrite <- Ei, <- E. apply in_map. assumption. }
    rewrite E. simpl. rewrite IH.
    { rewrite <- app_assoc. reflexivity. }
    { exact Hd. }
    intros t' v' Hin. destruct (Hv t' v' (or_intror Hin)) as (Ei' & Hout').
    split; [assumption|]. rewrite map_app, in_app_iff. simpl.
    intros [H|[H|[]]]; [contradiction|].
    apply Hn. rewrite Ei in H. rewrite H.
    apply (in_map fst) in Hin. exact Hin.
Qed.

Section Nodes.

Context {host : Host}.
Variable parsedFiles : list ParsedFile.t.

Let index := buildSuffixIndex parsedFiles.
Let ids := parsedFileIdsOf parsedFiles.
Let b := firstLoop parsedFiles.
Let g := buildGraphFrom parsedFiles.
Let realNodes := map (fileNode b (byId parsedFiles)) parsedFiles.

Lemma index_ids p x : resolveModuleTarget p index = Some x -> In x ids.
Proof.
  intros H. apply parsedFileIdsOf_In. apply (resolveModuleTarget_ids p). exact H.
Qed.

Lemma virtualNodes_inv :
  virtualInv index ids (allDecls parsedFiles) (virtualNodes b).
Proof.
  unfold b. rewrite firstLoop_virtualNodes.
  apply run_virtualInv. exact index_ids.
Qed.

Lemma realNodes_ids : map NodeData.id realNodes = map ParsedFile.id parsedFiles.
Proof. unfold realNodes. rewrite map_map. reflexivity. Qed.

Lemma nodes_perm : Permutation (nodes g) (realNodes ++ map snd (virtualNodes b)).
Proof.
  unfold g, buildGraphFrom. cbn [nodes].
  fold b. fold realNodes.
  rewrite addVirtualNodes_app.
  - apply sortBy_perm.
  - apply virtualNodes_inv.
  - intros t v Hin. destruct virtualNodes_inv as (_ & Hv & _).
    destruct (Hv t v Hin) as (-> & Hout & _). split; [reflexivity|].
    rewrite realNodes_ids. intros H. apply Hout.
    apply parsedFileIdsOf_In. exact H.
Qed.

Lemma nodes_In n :
  In n (nodes g) <->
  (exists f, In f parsedFiles /\ n = fileNode b (byId parsedFiles) f)
  \/ (exists t, In (t, n) (virtualNodes b)).
Proof.
  split.
  - intros H. apply (Permutation_in _ nodes_perm) in H.
    apply in_app_or in H. destruct H as [H|H].
    + left. apply in_map_iff in H. destruct H as (f & <- & Hf). eauto.
    + right. apply in_map_iff in H. destruct H as ([t v] & <- & Hv). eauto.
  - intros H. apply (Permutation_in _ (Permutation_sym nodes_perm)).
    apply in_or_app. destruct H as [(f & Hf & ->)|(t & Ht)].
    + left. apply in_map. assumption.
    + right. apply (in_map snd) in Ht. exact Ht.
Qed.

Lemma nodes_virtual n :
  In n (nodes g) -> NodeData.isVirtual n = true ->
  In (NodeData.id n, n) (virtualNodes b).
Proof.
  intros H Hv. apply nodes_In in H. destruct H as [(f & _ & ->)|(t & Ht)].
  - discriminate.
  - destruct virtualNodes_inv as (_ & Hinv & _).
    destruct (Hinv t n Ht) as (-> & _). exact Ht.
Qed.

Lemma nodes_real n :
  In n (nodes g) -> NodeData.isVirtual n = false ->
  exists f, In f parsedFiles /\ n = fileNode b (byId parsedFiles) f.
Proof.
  intros H Hv. apply nodes_In in H. destruct H as [H|(t & Ht)]; [assumption|].
  destruct virtualNodes_inv as (_ & Hinv & _).
  destruct (Hinv t n Ht) as (-> & _). discriminate.
Qed.

Lemma nodes_virtual_ids :
  map NodeData.id (map snd (virtualNodes b)) = map fst (virtualNodes b).
Proof.
  destruct virtualNodes_inv as (_ & Hinv & _).
  induction (virtualNodes b) as [|[t v] vn IH]; simpl; [reflexivity|].
  rewrite IH.
  - destruct (Hinv t v (or_introl eq_refl)) as (-> & _). reflexivity.
  - intros t' v' H. apply Hinv. right. assumption.
Qed.

End Nodes.

(** C7, counterexample.  [lib/b.fs] is imported once as [x-y/b.fs]
    and once as [x_y/b.fs], two spellings of one length.  The host with
    collation data shows the file as [x_y/b.fs], the underscore before
    the hyphen, where the lexicographically smaller string is
    [x-y/b.fs]. *)
Lemma lexicographic_tie_break_fails :
  Collation rootCollation
  /\ modulePathsOf (@buildGraph rootCollation underscoreAlias)
     = Ok [(lit "a.fs", lit "a.fs"); (lit "lib/b.fs", lit "x_y/b.fs")]
  /\ preferred (lit "x-y/b.fs", 1) (lit "x_y/b.fs", 1)
  /\ ~ preferred (lit "x_y/b.fs", 1) (lit "x-y/b.fs", 1)
  /\ ~ (forall parsedFiles g,
          parseFiles underscoreAlias = Ok parsedFiles ->
          @buildGraph rootCollation underscoreAlias = Ok g ->
          lexicographicTieBreak parsedFiles g).
Proof.
  assert (Hno : ~ preferred (lit "x_y/b.fs", 1) (lit "x-y/b.fs", 1)).
  { intros [H|(_ & [H|(_ & H)])].
    - vm_compute in H. lia.
    - vm_compute in H. lia.
    - apply codeUnitCompare_lexLe in H. vm_compute in H. apply H. reflexivity. }
  split; [exact rootCollation_collation|]. split; [vm_compute; reflexivity|].
  split; [|split; [exact Hno|]].
  - right. split; [reflexivity|]. right. split; [reflexivity|].
    apply codeUnitCompare_lexLe. vm_compute. discriminate.
  - intros H.
    assert (E : exists parsedFiles g n,
                parseFiles underscoreAlias = Ok parsedFiles
                /\ @buildGraph rootCollation underscoreAlias = Ok g
                /\ nth_error (nodes g) 1 = Some n
                /\ NodeData.isVirtual n = false
                /\ NodeData.id n = lit "lib/b.fs"
                /\ NodeData.modulePath n = lit "x_y/b.fs"
                /\ 0 < occurrences (buildSuffixIndex parsedFiles)
                         (allDecls parsedFiles) (lit "lib/b.fs") (lit "x-y/b.fs")
                /\ occurrences (buildSuffixIndex parsedFiles)
                     (allDecls parsedFiles) (lit "lib/b.fs") (lit "x-y/b.fs") = 1
                /\ occurrences (buildSuffixIndex parsedFiles)
                     (allDecls parsedFiles) (lit "lib/b.fs") (lit "x_y/b.fs") = 1).
    { eexists. eexists. eexists.
      split; [vm_compute; reflexivity|]. split; [vm_compute; reflexivity|].
      split; [vm_compute; reflexivity|]. split; [reflexivity|].
      split; [reflexivity|]. split; [reflexivity|].
      split; [vm_compute; lia|]. split; vm_compute; reflexivity. }
    destruct E as (pf & g & n & Ep & Eg & En & Ev & Ei & Em & Hocc & O1 & O2).
    specialize (H pf g Ep Eg n (lit "x-y/b.fs") (nth_error_In _ _ En) Ev).
    rewrite Ei, Em in H. cbv zeta in H. specialize (H Hocc).
    rewrite O1, O2 in H. exact (Hno H).
Qed.

(** C7, as amended.  The display path of a file is chosen among the
    spellings observed for it by: the highest count; among equal counts
    the longest string; among those the one that the comparison of the
    host, [localeCompare], puts first, and the first in the table among
    those it ranks equal; and it is the file's own id when no spelling
    was observed.  First for the chooser on any table of counts, then
    for the nodes of the graph, where the count of a spelling is the
    number of declarations that observe it. *)
Theorem modulePath_tie_break {host : Host} {collation : Collation host}
    (parsedFiles : list ParsedFile.t)
    (aliases : option (list (str * nat))) (fallback : str) :
  Forall (fun f => ParsedFile.filePath f = ParsedFile.id f) parsedFiles ->
  match aliases with
  | None | Some [] => chooseModulePath aliases fallback = fallback
  | Some (e :: es) =>
    exists c before after,
      e :: es = before ++ (chooseModulePath aliases fallback, c) :: after
      /\ (forall y, In y (e :: es) ->
            ranked (chooseModulePath aliases fallback, c) y)
      /\ (forall y, In y before ->
            ~ ranked y (chooseModulePath aliases fallback, c))
  end
  /\ forall n, In n (nodes (buildGraphFrom parsedFiles)) ->
       NodeData.isVirtual n = false ->
       let occ := occurrences (buildSuffixIndex parsedFiles)
                    (allDecls parsedFiles) (NodeData.id n) in
       ((forall p, occ p = 0) -> NodeData.modulePath n = NodeData.id n)
       /\ (forall p, 0 < occ p ->
             0 < occ (NodeData.modulePath n)
             /\ ranked (NodeData.modulePath n, occ (NodeData.modulePath n))
                  (p, occ p)).
Proof.
  intros Hid. split; [apply (chooseModulePath_spec (collation := collation))|].
  intros n Hn Hv. apply nodes_real in Hn; [|assumption].
  destruct Hn as (f & Hf & ->). cbn [NodeData.id NodeData.modulePath fileNode].
  rewrite firstLoop_aliasCounts.
  rewrite Forall_forall in Hid. rewrite (Hid f Hf).
  apply (run_choose _ _ (collation := collation)).
Qed.

Lemma modulePath_tie_break_witness :
  NodeData.modulePath
    (@nodeOfFile rootCollation twoSpellings (file "lib/b.fs" [] [] [] []))
  = lit "x/lib/b.fs"
  /\ @ranked rootCollation (lit "x/lib/b.fs", 2) (lit "b.fs", 2).
Proof.
  assert (Hid : Forall (fun f => ParsedFile.filePath f = ParsedFile.id f)
                  twoSpellings) by (repeat constructor).
  destruct (@modulePath_tie_break rootCollation rootCollation_collation
              twoSpellings None [] Hid) as (_ & H).
  specialize (H (@nodeOfFile rootCollation twoSpellings (file "lib/b.fs" [] [] [] []))).
  destruct H as (_ & H).
  - vm_compute. right. right. left. reflexivity.
  - reflexivity.
  - split; [vm_compute; reflexivity|].
    apply (H (lit "b.fs")). vm_compute. lia.
Defined.

Lemma filter_fileNode {host : Host} b parsedById l :
  filter NodeData.isVirtual (map (fileNode b parsedById) l) = [].
Proof. induction l as [|f l IH]; [reflexivity | exact IH]. Qed.

Lemma filter_virtual (vn : list (str * NodeData.t)) :
  (forall t v, In (t, v) vn -> v = virtualNode t t) ->
  filter NodeData.isVirtual (map snd vn) = map snd vn.
Proof.
  induction vn as [|[t v] vn IH]; intros H; [reflexivity|].
  pose proof (H t v (or_introl eq_refl)) as Ev.
  cbn [map snd filter].
  replace (NodeData.isVirtual v) with true by (rewrite Ev; reflexivity).
  f_equal. apply IH. intros t' v' H'. apply H. right. assumption.
Qed.

Lemma filter_perm {A} (f : A -> bool) l l' :
  Permutation l l' -> Permutation (filter f l) (filter f l').
Proof.
  induction 1; simpl.
  - constructor.
  - destruct (f x); [constructor|]; assumption.
  - destruct (f x), (f y); try apply perm_swap; reflexivity.
  - etransitivity; eassumption.
Qed.

(** C8. A graph holds at most one virtual node for an unresolved path:
    the virtual nodes have distinct ids; each has the sentinel
    [(unresolved module)] as file path, its id as display path, no
    imports, re-exports, targets, exports or symbol users and zero
    counts, and its id is a declared path that did not resolve; every
    unresolved declared path that is no file id has its virtual node, a
    further declaration of it leaves the table of placeholders
    unchanged, and the edge of such a declaration points at that id;
    every target of an edge is the id of a node. *)
Theorem virtual_nodes {host : Host} (parsedFiles : list ParsedFile.t) :
  let index := buildSuffixIndex parsedFiles in
  let ids := parsedFileIdsOf parsedFiles in
  let g := buildGraphFrom parsedFiles in
  NoDup (map NodeData.id (filter NodeData.isVirtual (nodes g)))
  /\ (forall n, In n (nodes g) -> NodeData.isVirtual n = true ->
        NodeData.filePath n = lit "(unresolved module)"
        /\ NodeData.modulePath n = NodeData.id n
        /\ NodeData.imports n = [] /\ NodeData.reexports n = []
        /\ NodeData.importTargets n = [] /\ NodeData.reexportTargets n = []
        /\ NodeData.importCount n = 0 /\ NodeData.reexportCount n = 0
        /\ NodeData.exports n = [] /\ NodeData.exportCount n = 0
        /\ NodeData.symbolUsers n = []
        /\ resolveModuleTarget (NodeData.id n) index = None
        /\ exists k s, In (k, s, NodeData.id n) (allDecls parsedFiles))
  /\ (forall k s p, In (k, s, p) (allDecls parsedFiles) ->
        resolveModuleTarget p index = None ->
        tripleOfDecl index (k, s, p) = (k, s, p)
        /\ (~ In p (map ParsedFile.id parsedFiles) ->
            exists n, In n (nodes g) /\ NodeData.id n = p
                      /\ NodeData.isVirtual n = true)
        /\ forall ds k' s',
             In (k, s, p) ds ->
             virtualNodes (run index ids (ds ++ [(k', s', p)]))
             = virtualNodes (run index ids ds))
  /\ (forall e, In e (edges g) ->
        exists n, In n (nodes g) /\ NodeData.id n = EdgeData.target e)
  /\ (ordersPlainNames host ->
      nodeKindsOf (buildGraph missingImport)
      = Ok [(lit "app.ext", false); (lit "missing/mod.ext", true)]
      /\ virtualNodesOf (buildGraph missingImport)
         = Ok [ {| NodeData.id := lit "missing/mod.ext";
                   NodeData.filePath := lit "(unresolved module)";
                   NodeData.modulePath := lit "missing/mod.ext";
                   NodeData.imports := [];
                   NodeData.reexports := [];
                   NodeData.importTargets := [];
                   NodeData.reexportTargets := [];
                   NodeData.importCount := 0;
                   NodeData.reexportCount := 0;
                   NodeData.exports := [];
                   NodeData.exportCount := 0;
                   NodeData.symbolUsers := [];
                   NodeData.isVirtual := true |} ]
      /\ edgeTriples (buildGraph missingImport)
         = Ok [(KImport, lit "app.ext", lit "missing/mod.ext")]).
Proof.
  intros index ids g. subst index ids g.
  pose proof (virtualNodes_inv parsedFiles) as (Hnd & Hv & Hd).
  split; [|split; [|split; [|split]]].
  - assert (Hp : Permutation
              (map NodeData.id (filter NodeData.isVirtual
                                  (nodes (buildGraphFrom parsedFiles))))
              (map fst (virtualNodes (firstLoop parsedFiles)))).
    { rewrite <- nodes_virtual_ids.
      apply Permutation_map.
      rewrite (filter_perm _ _ _ (nodes_perm parsedFiles)).
      rewrite filter_app, filter_fileNode. simpl.
      rewrite filter_virtual; [reflexivity|].
      intros t v H. apply (Hv t v H). }
    apply (Permutation_NoDup (Permutation_sym Hp)). assumption.
  - intros n Hn Hvirt. apply nodes_virtual in Hn; [|assumption].
    destruct (Hv _ _ Hn) as (E & _ & Hr & Hdecl).
    rewrite E at 1 2 4 5 6 7 8 9 10 11 12. cbn.
    repeat (split; [reflexivity|]). split; assumption.
  - intros k s p Hin Hr. split; [|split].
    + unfold tripleOfDecl, resolved. rewrite Hr. reflexivity.
    + intros Hout. exists (virtualNode p p).
      split; [|split; reflexivity]. apply nodes_In. right. exists p.
      apply (Hd k s p Hin). unfold resolved. rewrite Hr.
      intros H. apply Hout. apply parsedFileIdsOf_In. exact H.
    + intros ds k' s' Hds.
      apply (run_virtual_reused _ _ (index_ids parsedFiles) ds k s k' s' p Hds).
  - intros e He.
    apply (Permutation_in _ (edges_perm parsedFiles)) in He.
    rewrite firstLoop_edges in He. apply run_edges_decl in He.
    destruct He as ([[k s] p] & Hin & E). injection E as _ _ Et.
    rewrite Et.
    destruct (resolved_cases _ _ (index_ids parsedFiles) p)
      as [(Hr & Ep)|(Hids & _)].
    + destruct (in_dec (list_eq_dec N.eq_dec) p (map ParsedFile.id parsedFiles))
        as [Hreal|Hout].
      * apply in_map_iff in Hreal. destruct Hreal as (f & Ef & Hf).
        exists (nodeOfFile parsedFiles f). split.
        -- apply nodes_In. left. exists f. auto.
        -- rewrite Ep. simpl. assumption.
      * exists (virtualNode p p). split; [|rewrite Ep; reflexivity].
        apply nodes_In. right. exists p. apply (Hd k s p Hin).
        rewrite Ep. intros H. apply Hout. apply parsedFileIdsOf_In. exact H.
    + apply parsedFileIdsOf_In in Hids. apply in_map_iff in Hids.
      destruct Hids as (f & Ef & Hf).
      exists (nodeOfFile parsedFiles f). split.
      * apply nodes_In. left. exists f. auto.
      * simpl. assumption.
  - intros Ho.
    rewrite (buildGraph_plain missingImport
               [file "app.ext" ["missing/mod.ext"]%string [] [] ["import"; "path"; "version"]%string]
               Ho) by (vm_compute; reflexivity).
    repeat split; vm_compute; reflexivity.
Qed.

Lemma virtual_nodes_witness :
  (exists n,
     In n (nodes (@buildGraphFrom rootCollation [file "app.fs" ["m"]%string [] [] []]))
     /\ NodeData.id n = lit "m" /\ NodeData.isVirtual n = true)
  /\ nodeKindsOf (@buildGraph rootCollation missingImport)
     = Ok [(lit "app.ext", false); (lit "missing/mod.ext", true)].
Proof.
  split.
  - refine (proj1 (proj2 (proj1 (proj2 (proj2
      (@virtual_nodes rootCollation [file "app.fs" ["m"]%string [] [] []])))
      KImport (lit "app.fs") (lit "m") _ _)) _).
    + vm_compute. auto.
    + vm_compute. reflexivity.
    + vm_compute. intuition discriminate.
  - destruct (@virtual_nodes rootCollation []) as (_ & _ & _ & _ & H).
    apply (H rootCollation_plain).
Defined.

(** C10, counterexample.  The ids of two files of one tree can be the
    same string: [normalizePath] turns the backslash of a name into a
    slash, so the file [a\b.fs] and the file [b.fs] of the directory
    [a] both get the id [a/b.fs], and the graph has two nodes of that
    id, on every host. *)
Lemma node_ids_repeat :
  (forall host : Host,
     nodeIdsOf (buildGraph backslashName) = Ok [lit "a/b.fs"; lit "a/b.fs"])
  /\ NoDup (map fst backslashName)
  /\ ~ (exists host : Host,
          forall g, buildGraph backslashName = Ok g ->
                    NoDup (map NodeData.id (nodes g))).
Proof.
  assert (H : forall host : Host,
            nodeIdsOf (buildGraph backslashName) = Ok [lit "a/b.fs"; lit "a/b.fs"]).
  { intros host. unfold nodeIdsOf, buildGraph.
    change (parseFiles backslashName)
      with (Ok [file "a/b.fs" [] [] [] []; file "a/b.fs" [] [] [] []]).
    cbn [bind]. f_equal.
    pose proof (nodes_perm [file "a/b.fs" [] [] [] []; file "a/b.fs" [] [] [] []])
      as Hp.
    apply (Permutation_map NodeData.id) in Hp.
    rewrite map_app, realNodes_ids, nodes_virtual_ids in Hp.
    change (map fst (virtualNodes
              (firstLoop [file "a/b.fs" [] [] [] []; file "a/b.fs" [] [] [] []])))
      with (@nil str) in Hp.
    cbn [map app ParsedFile.id file] in Hp.
    apply Permutation_sym, Permutation_length_2_inv in Hp.
    destruct Hp as [Hp|Hp]; exact Hp. }
  split; [exact H|]. split.
  - repeat constructor; vm_compute; intuition discriminate.
  - intros (host & Hg). specialize (H host). unfold nodeIdsOf in H.
    destruct (buildGraph backslashName) as [g| |]; try discriminate H.
    specialize (Hg g eq_refl). cbn [bind] in H. injection H as H.
    rewrite H in Hg. inversion Hg as [|? ? Hout _]; subst.
    apply Hout. left. reflexivity.
Qed.

Lemma parseFiles_ids inputs : forall parsedFiles,
  parseFiles inputs = Ok parsedFiles ->
  map ParsedFile.id parsedFiles = map (fun i => toPosixRelative (fst i)) inputs.
Proof.
  induction inputs as [|[relative raw] inputs IH]; intros parsedFiles H.
  - injection H as <-. reflexivity.
  - cbn [parseFiles] in H.
    destruct (parseFile (relative, raw)) as [f| |] eqn:Ef; try discriminate H.
    destruct (parseFiles inputs) as [fs| |]; try discriminate H.
    cbn [bind] in H. injection H as <-. cbn [map fst]. f_equal.
    + unfold parseFile in Ef.
      destruct (parseImports _) as [r1| |]; try discriminate Ef.
      destruct (parseExportedSymbols _) as [r2| |]; try discriminate Ef.
      destruct (extractIdentifierTokens _) as [r3| |]; try discriminate Ef.
      cbn [bind] in Ef. injection Ef as <-. reflexivity.
    + apply IH. reflexivity.
Qed.

Lemma node_ids_NoDup {host : Host} parsedFiles :
  NoDup (map ParsedFile.id parsedFiles) ->
  NoDup (map NodeData.id (nodes (buildGraphFrom parsedFiles))).
Proof.
  intros Hnd. destruct (virtualNodes_inv parsedFiles) as (Hvnd & Hv & _).
  apply (Permutation_NoDup
           (Permutation_sym (Permutation_map NodeData.id (nodes_perm parsedFiles)))).
  rewrite map_app, realNodes_ids, nodes_virtual_ids.
  apply NoDup_app; [assumption | assumption |].
  intros x Hx Hx'. apply in_map_iff in Hx'. destruct Hx' as ([t v] & <- & Hin).
  destruct (Hv _ _ Hin) as (_ & Hout & _). apply Hout.
  apply parsedFileIdsOf_In. exact Hx.
Qed.

(** C10, as amended.  When the files have pairwise distinct ids, the
    ids of the nodes of the graph are pairwise distinct.  A virtual
    node never carries the id of an indexed file, every file has its
    own node, and an unresolved declared path that is the id of an
    indexed file gets no placeholder: its edge points at the node of
    that file.  The ids are the normalized relative paths: they are
    distinct when these are, and a relative path without backslash,
    doubled slash or leading [./] is its own id. *)
Theorem node_ids_distinct {host : Host} (parsedFiles : list ParsedFile.t) :
  NoDup (map ParsedFile.id parsedFiles) ->
  let index := buildSuffixIndex parsedFiles in
  let g := buildGraphFrom parsedFiles in
  NoDup (map NodeData.id (nodes g))
  /\ (forall n, In n (nodes g) -> NodeData.isVirtual n = true ->
        ~ In (NodeData.id n) (map ParsedFile.id parsedFiles))
  /\ (forall f, In f parsedFiles ->
        exists n, In n (nodes g) /\ NodeData.id n = ParsedFile.id f
                  /\ NodeData.isVirtual n = false)
  /\ (forall k s p, In (k, s, p) (allDecls parsedFiles) ->
        resolveModuleTarget p index = None ->
        In p (map ParsedFile.id parsedFiles) ->
        tripleOfDecl index (k, s, p) = (k, s, p)
        /\ forall n, In n (nodes g) -> NodeData.id n = p ->
             NodeData.isVirtual n = false)
  /\ (forall inputs,
        parseFiles inputs = Ok parsedFiles ->
        map ParsedFile.id parsedFiles
        = map (fun i => normalizePath (fst i)) inputs)
  /\ (forall inputs g',
        NoDup (map fst inputs) ->
        Forall (fun i => ~ In BACKSLASH (fst i)
                         /\ hasPair SLASH SLASH (fst i) = false
                         /\ startsWith (lit "./") (fst i) = false) inputs ->
        buildGraph inputs = Ok g' ->
        NoDup (map NodeData.id (nodes g')))
  /\ resolveModuleTarget (lit "a/c.ext") (buildSuffixIndex ambiguousFullPath)
     = None
  /\ (ordersPlainNames host ->
      nodeKinds (buildGraphFrom ambiguousFullPath)
      = [(lit "a/b/c.ext", false); (lit "a/c.ext", false); (lit "b/a/c.ext", false)]
      /\ map tripleOf (edges (buildGraphFrom ambiguousFullPath))
         = [(KImport, lit "a/b/c.ext", lit "a/c.ext")]).
Proof.
  intros Hnd index g. subst index g.
  pose proof (virtualNodes_inv parsedFiles) as (Hvnd & Hv & Hd).
  assert (Hvirt : forall n, In n (nodes (buildGraphFrom parsedFiles)) ->
            NodeData.isVirtual n = true ->
            ~ In (NodeData.id n) (map ParsedFile.id parsedFiles)).
  { intros n Hn Hvn. apply nodes_virtual in Hn; [|assumption].
    destruct (Hv _ _ Hn) as (_ & Hout & _).
    intros H. apply Hout. apply parsedFileIdsOf_In. exact H. }
  split; [|split; [exact Hvirt | split; [|split; [|split; [|split; [|split]]]]]].
  - apply node_ids_NoDup. exact Hnd.
  - intros f Hf. exists (nodeOfFile parsedFiles f). split; [|auto].
    apply nodes_In. left. exists f. auto.
  - intros k s p Hin Hr Hp. split.
    + unfold tripleOfDecl, resolved. rewrite Hr. reflexivity.
    + intros n Hn <-. destruct (NodeData.isVirtual n) eqn:E; [|reflexivity].
      exfalso. apply (Hvirt n Hn E). assumption.
  - intros inputs E. apply (parseFiles_ids inputs parsedFiles E).
  - intros inputs g' Hin Hclean Eg. unfold buildGraph in Eg.
    destruct (parseFiles inputs) as [pf| |] eqn:Ep; try discriminate Eg.
    cbn [bind] in Eg. injection Eg as <-. apply node_ids_NoDup.
    rewrite (parseFiles_ids inputs pf Ep).
    replace (map (fun i => toPosixRelative (fst i)) inputs) with (map fst inputs);
      [exact Hin|].
    apply map_ext_in. intros i Hi. rewrite Forall_forall in Hclean.
    destruct (Hclean i Hi) as (H1 & H2 & H3). symmetry.
    apply normalizePath_fixed; assumption.
  - vm_compute. reflexivity.
  - intros Ho.
    rewrite (buildGraphFrom_plain ambiguousFullPath Ho) by (vm_compute; reflexivity).
    split; vm_compute; reflexivity.
Qed.

Lemma node_ids_distinct_witness :
  NoDup (map NodeData.id (nodes (@buildGraphFrom rootCollation ambiguousFullPath)))
  /\ nodeKinds (@buildGraphFrom rootCollation ambiguousFullPath)
     = [(lit "a/b/c.ext", false); (lit "a/c.ext", false); (lit "b/a/c.ext", false)].
Proof.
  assert (Hnd : NoDup (map ParsedFile.id ambiguousFullPath))
    by (repeat constructor; vm_compute; intuition discriminate).
  destruct (@node_ids_distinct rootCollation ambiguousFullPath Hnd)
    as (H1 & _ & _ & _ & _ & _ & _ & H8).
  split; [exact H1|]. apply (H8 rootCollation_plain).
Defined.

(** ** Symbol users *)

Section Consumers.

Variable index : suffixIndex.
Variable ids : list str.

Local Abbreviation stp := (stepDecl index ids).
Local Abbreviation rn := (run index ids).

Lemma step_consumers b k s p :
  let t := resolved index p in
  directConsumersByTarget (stp b (k, s, p))
  = if setHas t ids
    then mapSet t (setAdd s (orEmpty (mapGet t (directConsumersByTarget b))))
           (directConsumersByTarget b)
    else directConsumersByTarget b.
Proof.
  intros t. unfold stepDecl. fold t.
  assert (E : forall b', directConsumersByTarget
            (addVirtual ids t p (addAlias s t p b'))
            = directConsumersByTarget b').
  { intros b'. unfold addVirtual, addAlias.
    destruct (negb (setHas t ids)), (_ && _); reflexivity. }
  rewrite E. unfold addConsumer.
  assert (E2 : directConsumersByTarget (addEdge k s t b)
               = directConsumersByTarget b).
  { unfold addEdge. destruct (negb _); reflexivity. }
  destruct (setHas t ids); simpl; rewrite E2; reflexivity.
Qed.

Lemma run_consumersInv ds :
  consumersInv index ids ds (directConsumersByTarget (rn ds)).
Proof.
  induction ds as [|d ds IH] using rev_ind.
  - intros t. split; [constructor|]. simpl. split; [intros [] |].
    intros (_ & k & p & [] & _).
  - destruct d as [[k s] p]. rewrite run_snoc, step_consumers.
    intros t. destruct (IH t) as (Hnd & Hc).
    assert (Hold : forall c,
      (In t ids /\ exists k' p', In (k', c, p') ds /\ resolved index p' = t)
      -> In t ids /\ exists k' p', In (k', c, p') (ds ++ [(k, s, p)])
                                   /\ resolved index p' = t).
    { intros c (Ht & k' & p' & Hin & E). split; [assumption|].
      exists k', p'. split; [apply in_or_app; auto | assumption]. }
    destruct (setHas (resolved index p) ids) eqn:Eh.
    + apply setHas_In in Eh. rewrite mapGet_mapSet.
      destruct (eqb_str_spec t (resolved index p)) as [->|Hne]; simpl.
      * split; [apply setAdd_NoDup; assumption|].
        intros c. rewrite setAdd_In, Hc. split.
        -- intros [->|H]; [|apply Hold; assumption].
           split; [assumption|]. exists k, p.
           split; [apply in_or_app; simpl; auto | reflexivity].
        -- intros (Ht & k' & p' & Hin & E). apply in_app_or in Hin.
           destruct Hin as [Hin|[[= <- <- <-]|[]]]; [|auto].
           right. split; [assumption|]. exists k', p'. auto.
      * split; [assumption|]. intros c. rewrite Hc. split; [apply Hold|].
        intros (Ht & k' & p' & Hin & E). apply in_app_or in Hin.
        destruct Hin as [Hin|[[= <- <- <-]|[]]]; [|congruence].
        split; [assumption|]. exists k', p'. auto.
    + apply setHas_false in Eh.
      split; [assumption|]. intros c. rewrite Hc. split; [apply Hold|].
      intros (Ht & k' & p' & Hin & E). apply in_app_or in Hin.
      destruct Hin as [Hin|[[= <- <- <-]|[]]].
      * split; [assumption|]. exists k', p'. auto.
      * exfalso. apply Eh. rewrite E. assumption.
Qed.

End Consumers.

Lemma byId_get_In files c f :
  mapGet c (byId files) = Some f -> In f files /\ ParsedFile.id f = c.
Proof.
  unfold byId.
  enough (H : forall acc,
    mapGet c (fold_left (fun mp f => mapSet (ParsedFile.id f) f mp) files acc)
    = Some f ->
    (In f files /\ ParsedFile.id f = c) \/ mapGet c acc = Some f).
  { intros Hg. destruct (H [] Hg) as [?|[=]]. assumption. }
  induction files as [|x files IH]; intros acc Hg; simpl in *; [auto|].
  destruct (IH _ Hg) as [(Hin & E)|Hacc]; [left; auto|].
  rewrite mapGet_mapSet in Hacc.
  destruct (eqb_str_spec c (ParsedFile.id x)) as [->|Hne]; [|auto].
  injection Hacc as <-. left. auto.
Qed.

Lemma byId_In_get files f :
  NoDup (map ParsedFile.id files) -> In f files ->
  mapGet (ParsedFile.id f) (byId files) = Some f.
Proof.
  unfold byId.
  enough (H : forall acc, NoDup (map ParsedFile.id files) ->
    (In f files
     \/ (mapGet (ParsedFile.id f) acc = Some f
         /\ ~ In (ParsedFile.id f) (map ParsedFile.id files))) ->
    mapGet (ParsedFile.id f)
      (fold_left (fun mp f => mapSet (ParsedFile.id f) f mp) files acc) = Some f).
  { intros Hnd Hin. apply H; auto. }
  induction files as [|x files IH]; intros acc Hnd Hin; simpl in *.
  - destruct Hin as [[]|(H & _)]. assumption.
  - inversion Hnd as [|? ? Hn Hd]; subst. apply IH; [assumption|].
    destruct Hin as [[->|Hin]|(Hacc & Hout)].
    + right. split; [apply mapGet_mapSet_same | assumption].
    + left. assumption.
    + right. split; [|tauto]. rewrite mapGet_mapSet_other; [assumption|].
      intros E. apply Hout. left. congruence.
Qed.

Lemma usesSymbol_spec files symbol c :
  NoDup (map ParsedFile.id files) ->
  usesSymbol (byId files) symbol c = true <->
  exists cf, In cf files /\ ParsedFile.id cf = c
             /\ In symbol (ParsedFile.tokens cf).
Proof.
  intros Hnd. unfold usesSymbol. split.
  - destruct (mapGet c (byId files)) as [cf|] eqn:E; [|discriminate].
    intros H. apply setHas_In in H. apply byId_get_In in E.
    exists cf. tauto.
  - intros (cf & Hin & <- & Hs).
    rewrite (byId_In_get files cf Hnd Hin). apply setHas_In. assumption.
Qed.

Lemma usersOf_In {host : Host} parsedById consumers symbol c :
  In c (usersOf parsedById consumers symbol) <->
  In c consumers /\ usesSymbol parsedById symbol c = true.
Proof. unfold usersOf. rewrite sortBy_In, filter_In. reflexivity. Qed.

Lemma usersOf_sorted {host : Host} {collation : Collation host}
    parsedById consumers symbol :
  NoDup consumers ->
  StronglySorted (cle localeCompare) (usersOf parsedById consumers symbol)
  /\ NoDup (usersOf parsedById consumers symbol).
Proof.
  intros Hnd. unfold usersOf. split.
  - apply sortBy_StronglySorted.
    + intros a b. apply collate_total.
    + intros a b c. apply collate_trans.
  - apply (Permutation_NoDup (Permutation_sym (sortBy_perm _ _))).
    apply NoDup_filter. assumption.
Qed.

Lemma objSet_get {V} k (v : V) o symbol :
  mapGet symbol (objSet k v o)
  = if eqb_str symbol k && negb (eqb_str k PROTO) then Some v
    else mapGet symbol o.
Proof.
  unfold objSet. fold PROTO.
  destruct (eqb_str k PROTO); [rewrite andb_false_r; reflexivity|].
  rewrite andb_true_r. apply mapGet_mapSet.
Qed.

(** What the loop over the exported symbols leaves under [symbol]. *)
Lemma symbolUsersOf_get {host : Host} parsedById consumers exported symbol :
  mapGet symbol (symbolUsersOf parsedById consumers exported)
  = if setHas symbol exported && negb (eqb_str symbol PROTO)
       && Nat.ltb 0 (length (usersOf parsedById consumers symbol))
    then Some (usersOf parsedById consumers symbol)
    else None.
Proof.
  unfold symbolUsersOf.
  enough (H : forall acc,
    mapGet symbol
      (fold_left
         (fun symbolUsers symbol =>
            let users := usersOf parsedById consumers symbol in
            if Nat.ltb 0 (length users) then objSet symbol users symbolUsers
            else symbolUsers) exported acc)
    = if setHas symbol exported && negb (eqb_str symbol PROTO)
         && Nat.ltb 0 (length (usersOf parsedById consumers symbol))
      then Some (usersOf parsedById consumers symbol)
      else mapGet symbol acc).
  { rewrite H. reflexivity. }
  induction exported as [|x exported IH]; intros acc; [reflexivity|].
  cbn [fold_left]. rewrite IH. unfold setHas. cbn [existsb]. fold (setHas symbol exported).
  destruct (setHas symbol exported && negb (eqb_str symbol PROTO)
            && Nat.ltb 0 (length (usersOf parsedById consumers symbol))) eqn:E.
  - apply andb_true_iff in E. destruct E as (E & ->).
    apply andb_true_iff in E. destruct E as (-> & ->).
    rewrite orb_true_r. reflexivity.
  - cbv zeta.
    destruct (eqb_str_spec symbol x) as [<-|Hne]; simpl.
    + destruct (Nat.ltb 0 (length (usersOf parsedById consumers symbol))) eqn:En.
      * rewrite objSet_get, eqb_str_refl. simpl.
        rewrite andb_true_r. destruct (eqb_str symbol PROTO); reflexivity.
      * rewrite andb_false_r. reflexivity.
    + rewrite E.
      destruct (Nat.ltb 0 (length (usersOf parsedById consumers x))); [|reflexivity].
      rewrite objSet_get.
      destruct (eqb_str_spec symbol x) as [?|_]; [contradiction | reflexivity].
Qed.

Lemma id_inj files f f' :
  NoDup (map ParsedFile.id files) -> In f files -> In f' files ->
  ParsedFile.id f = ParsedFile.id f' -> f = f'.
Proof.
  induction files as [|x files IH]; simpl; [intros _ []|].
  intros Hnd Hf Hf' E. inversion Hnd as [|? ? Hn Hd]; subst.
  destruct Hf as [->|Hf], Hf' as [->|Hf']; auto.
  - exfalso. apply Hn. rewrite E. apply in_map. assumption.
  - exfalso. apply Hn. rewrite <- E. apply in_map. assumption.
Qed.

Lemma edge_iff_decl {host : Host} parsedFiles c t :
  Forall (fun f => nulFree (ParsedFile.id f)) parsedFiles ->
  (exists e, In e (edges (buildGraphFrom parsedFiles))
             /\ EdgeData.source e = c /\ EdgeData.target e = t)
  <-> (exists k p, In (k, c, p) (allDecls parsedFiles)
                   /\ resolved (buildSuffixIndex parsedFiles) p = t).
Proof.
  intros Hnf. split.
  - intros (e & He & <- & <-).
    apply (Permutation_in _ (edges_perm parsedFiles)) in He.
    rewrite firstLoop_edges in He. apply run_edges_decl in He.
    destruct He as ([[k s] p] & Hin & E). injection E as _ -> ->.
    exists k, p. auto.
  - intros (k & p & Hin & <-).
    pose proof Hin as He.
    apply (run_decl_edge (buildSuffixIndex parsedFiles)
             (parsedFileIdsOf parsedFiles)) in He.
    rewrite <- firstLoop_edges in He. destruct He as (e & He & Ek).
    exists e. split.
    + apply (Permutation_in _ (Permutation_sym (edges_perm parsedFiles))).
      assumption.
    + unfold keyOfEdge, tripleOf, tripleOfDecl, keyOfTriple in Ek.
      apply edgeKey_inj in Ek; [tauto | |].
      * apply (created_source parsedFiles e Hnf He).
      * apply allDecls_In in Hin. destruct Hin as (f & Hf & -> & _).
        rewrite Forall_forall in Hnf. apply Hnf. assumption.
Qed.

(** C6, counterexample.  A file that imports itself is listed among
    the users of its own exported symbol: so it is on every host that
    orders plain names as code units, the host with collation data
    among them. *)
Lemma users_are_others_fails :
  (forall host : Host, ordersPlainNames host ->
     symbolUsersById (buildGraph selfImport)
     = Ok [(lit "a.fs", [(lit "Foo", [lit "a.fs"])])])
  /\ ordersPlainNames rootCollation
  /\ ~ (exists host : Host, ordersPlainNames host
          /\ forall g, buildGraph selfImport = Ok g -> usersAreOthers g).
Proof.
  assert (Hu : forall host : Host, ordersPlainNames host ->
     symbolUsersById (buildGraph selfImport)
     = Ok [(lit "a.fs", [(lit "Foo", [lit "a.fs"])])]).
  { intros host Ho.
    rewrite (buildGraph_plain selfImport
               [file "a.fs" ["a.fs"]%string [] ["Foo"]%string
                  ["import"; "path"; "version"; "export"; "function"; "Foo"]%string]
               Ho) by (vm_compute; reflexivity).
    vm_compute. reflexivity. }
  split; [exact Hu|]. split; [exact rootCollation_plain|].
  intros (host & Ho & H). specialize (Hu host Ho). unfold symbolUsersById in Hu.
  destruct (buildGraph selfImport) as [g| |]; try discriminate Hu.
  specialize (H g eq_refl). cbn [bind] in Hu. injection Hu as Hu.
  destruct (nodes g) as [|n [|n' ns]] eqn:En; try discriminate Hu.
  injection Hu as Ei Eu.
  apply (H n (lit "Foo") [lit "a.fs"]).
  - rewrite En. left. reflexivity.
  - rewrite Eu. reflexivity.
  - rewrite Ei. left. reflexivity.
Qed.

(** C6, as amended.  For files with distinct ids: for every indexed
    file and every exported symbol of it other than [__proto__], the
    list stored for the symbol holds exactly the files, the file itself
    included when it imports itself, that have an import or re-export
    edge to this file and hold the name of the symbol among their
    tokens, each once and in the order of the host's [localeCompare];
    when there is no such file the symbol has no entry, and no entry is
    ever an empty list.  Nothing is stored for [__proto__], which the
    host reads as the prototype of the object and not as a key. *)
Theorem symbol_users {host : Host} {collation : Collation host}
    (parsedFiles : list ParsedFile.t) :
  NoDup (map ParsedFile.id parsedFiles) ->
  Forall (fun f => nulFree (ParsedFile.id f)) parsedFiles ->
  let g := buildGraphFrom parsedFiles in
  forall f n symbol,
    In f parsedFiles -> In n (nodes g) -> NodeData.id n = ParsedFile.id f ->
    mapGet symbol (NodeData.symbolUsers n) <> Some []
    /\ mapGet (lit "__proto__") (NodeData.symbolUsers n) = None
    /\ (~ In symbol (ParsedFile.exportedSymbols f) ->
        mapGet symbol (NodeData.symbolUsers n) = None)
    /\ (In symbol (ParsedFile.exportedSymbols f) -> symbol <> lit "__proto__" ->
        exists users,
          StronglySorted (cle localeCompare) users /\ NoDup users
          /\ (forall c, In c users
                <-> isUser parsedFiles g (ParsedFile.id f) symbol c)
          /\ mapGet symbol (NodeData.symbolUsers n)
             = match users with
               | [] => None
               | _ :: _ => Some users
               end).
Proof.
  intros Hnd Hnf g f n symbol Hf Hn Hid. subst g.
  assert (En : n = nodeOfFile parsedFiles f).
  { apply nodes_In in Hn. destruct Hn as [(f' & Hf' & ->)|(t & Ht)].
    - simpl in Hid. rewrite (id_inj parsedFiles f' f Hnd Hf' Hf Hid). reflexivity.
    - exfalso. destruct (virtualNodes_inv parsedFiles) as (_ & Hv & _).
      destruct (Hv t n Ht) as (-> & Hout & _). simpl in Hid. apply Hout.
      apply parsedFileIdsOf_In. rewrite Hid. apply in_map. assumption. }
  subst n. unfold nodeOfFile. cbn [NodeData.symbolUsers fileNode].
  rewrite !symbolUsersOf_get, firstLoop_consumers.
  set (index := buildSuffixIndex parsedFiles).
  set (ids := parsedFileIdsOf parsedFiles).
  set (consumers := orEmpty (mapGet (ParsedFile.id f)
         (directConsumersByTarget (run index ids (allDecls parsedFiles))))).
  set (users := usersOf (byId parsedFiles) consumers symbol).
  destruct (run_consumersInv index ids (allDecls parsedFiles) (ParsedFile.id f))
    as (Hcnd & Hc).
  fold consumers in Hcnd, Hc.
  assert (Hlen : Nat.ltb 0 (length users) = true -> users <> []).
  { destruct users; [discriminate | discriminate]. }
  split; [|split; [|split]].
  - destruct (_ && _ && Nat.ltb 0 (length users)) eqn:E; [|discriminate].
    apply andb_true_iff in E. destruct E as (_ & E).
    intros [= Hu]. apply (Hlen E Hu).
  - fold PROTO. rewrite eqb_str_refl, andb_false_r. reflexivity.
  - intros Hout. apply setHas_false in Hout. rewrite Hout. reflexivity.
  - intros Hin Hp. exists users.
    destruct (usersOf_sorted (byId parsedFiles) consumers symbol Hcnd)
      as (Hs & Hun).
    split; [exact Hs | split; [exact Hun | split]].
    + intros c. unfold users. rewrite usersOf_In, Hc.
      rewrite (usesSymbol_spec parsedFiles symbol c Hnd).
      unfold isUser. rewrite (edge_iff_decl parsedFiles c (ParsedFile.id f) Hnf).
      fold index. split; [tauto|]. intros (H1 & H2). split; [|assumption].
      split; [|assumption]. apply parsedFileIdsOf_In. apply in_map. assumption.
    + apply setHas_In in Hin. rewrite Hin.
      fold PROTO in Hp. apply eqb_str_neq in Hp. rewrite Hp. simpl.
      destruct users; reflexivity.
Qed.

Lemma symbol_users_witness :
  exists users,
    StronglySorted (cle (@localeCompare rootCollation)) users /\ NoDup users
    /\ (forall c, In c users
          <-> isUser addScenario (@buildGraphFrom rootCollation addScenario)
                (lit "lib/util.ext") (lit "Add") c)
    /\ mapGet (lit "Add")
         (NodeData.symbolUsers
            (@nodeOfFile rootCollation addScenario
               (file "lib/util.ext" [] [] ["Add"]%string ["Add"; "a"; "b"]%string)))
       = match users with
         | [] => None
         | _ :: _ => Some users
         end.
Proof.
  assert (Hnd : NoDup (map ParsedFile.id addScenario))
    by (repeat constructor; vm_compute; intuition discriminate).
  assert (Hnf : Forall (fun f => nulFree (ParsedFile.id f)) addScenario)
    by (repeat constructor; unfold nulFree; vm_compute; intuition discriminate).
  refine (proj2 (proj2 (proj2 (@symbol_users rootCollation rootCollation_collation
    addScenario Hnd Hnf
    (file "lib/util.ext" [] [] ["Add"]%string ["Add"; "a"; "b"]%string)
    (@nodeOfFile rootCollation addScenario
       (file "lib/util.ext" [] [] ["Add"]%string ["Add"; "a"; "b"]%string))
    (lit "Add") _ _ _))) _ _).
  - vm_compute. auto.
  - vm_compute. auto.
  - reflexivity.
  - vm_compute. auto.
  - vm_compute. discriminate.
Defined.

(** ** The host's replace and the results of the extractors *)

Lemma execFrom_le r rs pv ps i e :
  execFrom r pv rs ps = Some (i, e) -> i <= pos e.
Proof.
  intros H. apply execFrom_inv in H. destruct H as (sk & rs' & _ & _ & H).
  apply m_sound in H. destruct H as (s1 & (L1 & _) & H).
  injection H as <-. apply later_pos in L1. exact L1.
Qed.

Lemma replaceFrom_fuel pattern by_ : forall n1 n2 cur,
  length (rest cur) < n1 -> length (rest cur) < n2 ->
  replaceFrom n1 pattern by_ cur = replaceFrom n2 pattern by_ cur.
Proof.
  induction n1 as [|n1 IH]; intros n2 cur H1 H2; [lia|].
  destruct n2 as [|n2]; [lia|]. cbn [replaceFrom].
  destruct (exec pattern cur) as [[i mt]|] eqn:E; [|reflexivity].
  unfold exec in E. pose proof (execFrom_le _ _ _ _ _ _ E) as Hle.
  apply execFrom_sound in E.
  destruct E as (Hi & Hp & _).
  f_equal. f_equal.
  destruct (Nat.ltb i (pos mt)) eqn:El.
  - apply Nat.ltb_lt in El. apply IH; lia.
  - destruct (rest mt) as [|c t] eqn:Er; [reflexivity|].
    f_equal. simpl in Hp. apply IH; simpl; lia.
Qed.

(** Each list that [parseImports] returns is free of duplicates. *)
Lemma parseImports_NoDup source is_ rs :
  parseImports source = Ok (is_, rs) -> NoDup is_ /\ NoDup rs.
Proof.
  unfold parseImports.
  destruct (whileMatch _ _ _ _ _) as [a| |] eqn:E; try discriminate.
  intros [= <- <-].
  apply (whileMatch_inv importPattern parseImportsBody (fun _ => True)
           (fun a => (importSet a = imports a /\ NoDup (imports a))
                     /\ (reexportSet a = reexports a /\ NoDup (reexports a))))
    in E; [tauto | | exact I | simpl; repeat split; constructor].
  intros cur i e acc acc' _ ((Ei & Ni) & (Er & Nr)) _ Hb.
  split; [exact I|]. unfold parseImportsBody in Hb.
  destruct (group 2 (snd (i, e))) as [g2|]; [|discriminate].
  destruct (nonEmpty _); [|injection Hb as <-; tauto].
  destruct (truthy _).
  - destruct (setHas _ (reexportSet acc)) eqn:Eh; simpl in Hb;
      injection Hb as <-; [tauto|]. simpl.
    unfold setAdd. rewrite Eh, Er. repeat split; try assumption.
    rewrite <- Er. apply (setAdd_NoDup (normalizePath (trim g2))) in Nr.
    unfold setAdd in Nr. rewrite <- Er in Nr. rewrite Eh in Nr. exact Nr.
  - destruct (setHas _ (importSet acc)) eqn:Eh; simpl in Hb;
      injection Hb as <-; [tauto|]. simpl.
    unfold setAdd. rewrite Eh, Ei. repeat split; try assumption.
    rewrite <- Ei. apply (setAdd_NoDup (normalizePath (trim g2))) in Ni.
    unfold setAdd in Ni. rewrite <- Ei in Ni. rewrite Eh in Ni. exact Ni.
Qed.

Lemma parseFiles_total inputs : exists parsed, parseFiles inputs = Ok parsed.
Proof.
  induction inputs as [|[filePath raw] inputs (fs & IH)]; simpl.
  - eexists. reflexivity.
  - unfold parseFile.
    destruct (parseImports_total (stripComments raw)) as (r1 & ->).
    destruct (parseExportedSymbols_total (stripComments raw)) as (r2 & ->).
    destruct (extractIdentifierTokens_total (stripComments raw)) as (r3 & ->).
    simpl. rewrite IH. simpl. eexists. reflexivity.
Qed.

(** [buildGraph] answers a graph for every list of files. *)
Lemma buildGraph_total {host : Host} inputs : exists g, buildGraph inputs = Ok g.
Proof.
  unfold buildGraph. destruct (parseFiles_total inputs) as (fs & ->).
  eexists. reflexivity.
Qed.

(* ================================================================== *)
(** * Further properties of the indexer *)
(* ================================================================== *)

(** ** normalizePath *)

(** X1. A normalized path holds no backslash and no two slashes in a
    row.  A path of that shape that does not begin with [./] is left
    as it is by [normalizePath]; one leading [./] is removed per pass,
    so normalizing is idempotent exactly on the values whose result
    does not begin with [./]. *)
Theorem normalizePath_normal (value : str) :
  ~ In BACKSLASH (normalizePath value)
  /\ hasPair SLASH SLASH (normalizePath value) = false
  /\ (normalizePath (normalizePath value) = normalizePath value
      <-> startsWith (lit "./") (normalizePath value) = false)
  /\ normalizePath (lit "././a") = lit "./a".
Proof.
  split; [apply normalizePath_no_backslash|].
  split; [apply collapseSlashes_hasPair|].
  split; [|reflexivity].
  split.
  - intros E. destruct (startsWith _ (normalizePath value)) eqn:Es; [|reflexivity].
    exfalso. set (p := normalizePath value) in *.
    assert (Hlen : length (normalizePath p) < length p).
    { unfold normalizePath at 1.
      rewrite unslash_id by apply normalizePath_no_backslash. fold p.
      destruct (stripDotSlash_cases p) as [(E1 & _)|(_ & Hl)]; [congruence|].
      assert (H : forall b (l : list N), length (collapseSlashes b l) <= length l).
      { intros b l. revert b. induction l as [|x l IH]; intros b; simpl; [lia|].
        destruct (N.eqb x SLASH); [destruct b|]; simpl;
          try pose proof (IH true); try pose proof (IH false); lia. }
      pose proof (H false (stripDotSlash p)). lia. }
    rewrite E in Hlen. lia.
  - intros Es. apply normalizePath_fixed.
    + apply normalizePath_no_backslash.
    + apply collapseSlashes_hasPair.
    + assumption.
Qed.

(** ** stripComments, once more *)

Lemma stripFrom_fixed t :
  (hasComment false false t = false -> stripFrom false false false false t = t)
  /\ (forall esc, hasComment true esc t = false ->
        stripFrom true false false esc t = t).
Proof.
  induction t as [|c r (IHn & IHs)]; [split; reflexivity|].
  split.
  - intros H. cbn [hasComment] in H. cbn [stripFrom].
    destruct (N.eqb c QUOTE) eqn:Eq.
    + cbn [andb]. f_equal. apply IHs. assumption.
    + destruct (N.eqb c SLASH) eqn:Es.
      * cbn [andb] in H |- *.
        destruct (nextIs (hd_error r) SLASH); [discriminate H|].
        destruct (nextIs (hd_error r) STAR); [discriminate H|].
        f_equal. apply IHn. assumption.
      * cbn [andb] in H |- *. f_equal. apply IHn. assumption.
  - intros esc H. cbn [hasComment] in H. cbn [stripFrom]. f_equal.
    destruct esc; [apply IHs; assumption|].
    destruct (N.eqb c BACKSLASH); [apply IHs; assumption|].
    destruct (N.eqb c QUOTE); [apply IHn | apply IHs]; assumption.
Qed.

Lemma stripFrom_length n :
  forall s, length s <= n -> forall a b c d,
  length (stripFrom a b c d s) <= length s.
Proof.
  induction n as [|n IH]; intros s Hn a b c d.
  - destruct s; [simpl; lia | simpl in Hn; lia].
  - destruct s as [|ch rest]; [simpl; lia|].
    simpl in Hn.
    assert (IH1 : forall a b c d, length (stripFrom a b c d rest) <= length rest)
      by (intros; apply IH; lia).
    assert (IH2 : forall a b c d,
      length (match rest with [] => [] | _ :: r2 => stripFrom a b c d r2 end)
      <= length rest).
    { intros a' b' c' d'. destruct rest as [|x r2]; [simpl; lia|].
      simpl in Hn |- *.
      specialize (IH r2 ltac:(lia) a' b' c' d'). lia. }
    cbn [stripFrom].
    repeat match goal with
    | |- context [if ?x then _ else _] => destruct x
    end; cbn [length];
    try (specialize (IH1 a b c d); lia);
    try (specialize (IH2 a b c d); lia);
    match goal with
    | |- context [stripFrom ?a ?b ?c ?d rest] => specialize (IH1 a b c d); lia
    | |- context [match rest with [] => [] | _ :: r2 => stripFrom ?a ?b ?c ?d r2 end] =>
        specialize (IH2 a b c d); lia
    end.
Qed.

(** X2. Stripping is idempotent and never lengthens a text: the output
    of [stripComments] is left as it is by a second pass. *)
Theorem stripComments_idempotent (source : str) :
  stripComments (stripComments source) = stripComments source
  /\ length (stripComments source) <= length source.
Proof.
  split.
  - unfold stripComments at 1. apply stripFrom_fixed.
    apply (stripFrom_no_comment (length source)). apply le_n.
  - apply (stripFrom_length (length source)). apply le_n.
Qed.

(** ** countNonCommentLoc *)

Lemma dropWhile_all p s : forallb p s = true -> dropWhile p s = [].
Proof.
  induction s as [|c t IH]; intros H; simpl in *; [reflexivity|].
  apply andb_true_iff in H. destruct H as (-> & H). apply IH. assumption.
Qed.

Lemma dropWhile_some p s :
  forallb p s = false -> exists c r, dropWhile p s = c :: r /\ p c = false.
Proof.
  induction s as [|c t IH]; intros H; simpl in *; [discriminate|].
  destruct (p c) eqn:E; [apply IH; assumption|].
  exists c, t. auto.
Qed.

Lemma notBlank_forallb line : notBlank line = negb (forallb isSpace line).
Proof.
  unfold notBlank. induction line as [|c t IH]; simpl; [reflexivity|].
  rewrite IH. destruct (isSpace c); reflexivity.
Qed.

Lemma trim_notBlank line : Nat.ltb 0 (length (trim line)) = notBlank line.
Proof.
  rewrite notBlank_forallb. unfold trim.
  destruct (forallb isSpace line) eqn:E.
  - rewrite (dropWhile_all _ _ E). reflexivity.
  - destruct (dropWhile_some _ _ E) as (c & r & -> & Hc). simpl rev.
    assert (F : forallb isSpace (rev r ++ [c]) = false).
    { rewrite forallb_app. simpl. rewrite Hc. apply andb_false_r. }
    destruct (dropWhile_some _ _ F) as (c' & r' & -> & _).
    rewrite length_rev. reflexivity.
Qed.

Lemma countNonCommentLoc_filter s :
  countNonCommentLoc s = length (filter (fun b : bool => b) (map notBlank (splitLines s))).
Proof.
  unfold countNonCommentLoc.
  induction (splitLines s) as [|line lines IH]; simpl; [reflexivity|].
  rewrite trim_notBlank. destruct (notBlank line); simpl; rewrite IH; reflexivity.
Qed.

Lemma splitLines_cons s : exists line lines, splitLines s = line :: lines.
Proof.
  destruct s as [|c t]; simpl; [eauto|].
  destruct (N.eqb c NL); [eauto|].
  destruct (N.eqb c CR && nextIs (hd_error t) NL).
  - destruct t; eauto.
  - destruct (splitLines t); eauto.
Qed.

Lemma isSpace_CR : isSpace CR = true.
Proof. reflexivity. Qed.

Lemma splitLines_app n : forall a, length a <= n -> forall b,
  map notBlank (splitLines (a ++ NL :: b))
  = map notBlank (splitLines a) ++ map notBlank (splitLines b).
Proof.
  induction n as [|n IH]; intros a Hn b.
  - destruct a; [reflexivity | simpl in Hn; lia].
  - destruct a as [|c t]; [reflexivity|]. simpl in Hn.
    cbn [app splitLines].
    destruct (N.eqb c NL) eqn:En.
    { cbn [map app]. f_equal. apply IH. lia. }
    destruct (N.eqb c CR) eqn:Ec.
    + apply N.eqb_eq in Ec. subst c. cbn [andb].
      destruct t as [|d t2].
      * cbn [app hd_error nextIs]. rewrite N.eqb_refl. reflexivity.
      * cbn [app hd_error nextIs].
        destruct (N.eqb d NL) eqn:Ed.
        { cbn [map app]. f_equal. apply IH. simpl in Hn. lia. }
        specialize (IH (d :: t2) ltac:(simpl in *; lia) b).
        cbn [app] in IH.
        destruct (splitLines_cons (d :: t2 ++ NL :: b)) as (l1 & ls1 & E1).
        destruct (splitLines_cons (d :: t2)) as (l2 & ls2 & E2).
        rewrite E1, E2 in IH |- *. cbn [map app] in IH |- *.
        injection IH as Ea Eb. rewrite Eb. f_equal.
        rewrite !notBlank_forallb in *. simpl.
        destruct (forallb isSpace l1), (forallb isSpace l2);
          try reflexivity; discriminate.
    + cbn [andb].
      specialize (IH t ltac:(lia) b).
      destruct (splitLines_cons (t ++ NL :: b)) as (l1 & ls1 & E1).
      destruct (splitLines_cons t) as (l2 & ls2 & E2).
      rewrite E1, E2 in IH |- *. cbn [map app] in IH |- *.
      injection IH as Ea Eb. rewrite Eb. f_equal.
      rewrite !notBlank_forallb in *. simpl.
      destruct (isSpace c); [|reflexivity]. simpl. exact Ea.
Qed.

Lemma splitLines_length n : forall s, length s <= n ->
  length (splitLines s) = lineCount s.
Proof.
  unfold lineCount.
  induction n as [|n IH]; intros s Hn.
  - destruct s; [reflexivity | simpl in Hn; lia].
  - destruct s as [|c t]; [reflexivity|]. simpl in Hn.
    rewrite newlines_cons. cbn [splitLines].
    destruct (N.eqb c NL) eqn:En.
    { simpl. rewrite IH by lia. reflexivity. }
    destruct (N.eqb c CR && nextIs (hd_error t) NL) eqn:Ec.
    + destruct t as [|d t2]; [reflexivity|].
      apply andb_true_iff in Ec. destruct Ec as (_ & Ed). simpl in Ed.
      rewrite newlines_cons, Ed. simpl in Hn |- *. rewrite IH by lia. reflexivity.
    + specialize (IH t ltac:(lia)).
      destruct (splitLines_cons t) as (l2 & ls2 & E2).
      rewrite E2 in IH |- *. simpl in IH |- *. exact IH.
Qed.

Lemma filter_length_le {A} (p : A -> bool) l : length (filter p l) <= length l.
Proof.
  induction l as [|x l IH]; simpl; [lia|]. destruct (p x); simpl; lia.
Qed.

(** X3. [countNonCommentLoc] counts the lines that hold something else
    than white space, a line ending at a line feed with the carriage
    return before it if any.  The lines are as many as the line feeds
    plus one, the count of two texts joined by a line feed is the sum
    of their counts, and the count of a stripped file is at most the
    number of lines of the file as read. *)
Theorem countNonCommentLoc_lines (a b raw : str) :
  countNonCommentLoc a = length (filter notBlank (splitLines a))
  /\ length (splitLines a) = lineCount a
  /\ countNonCommentLoc (a ++ NL :: b) = countNonCommentLoc a + countNonCommentLoc b
  /\ countNonCommentLoc (stripComments raw) <= lineCount raw.
Proof.
  assert (Hc : forall s, countNonCommentLoc s = length (filter notBlank (splitLines s))).
  { intros s. rewrite countNonCommentLoc_filter.
    induction (splitLines s) as [|l ls IH]; simpl; [reflexivity|].
    destruct (notBlank l); simpl; rewrite IH; reflexivity. }
  split; [apply Hc|].
  split; [apply (splitLines_length (length a)); apply le_n|].
  split.
  - rewrite !countNonCommentLoc_filter.
    rewrite (splitLines_app (length a) a (le_n _)).
    rewrite filter_app, length_app. reflexivity.
  - rewrite Hc.
    pose proof (filter_length_le notBlank (splitLines (stripComments raw))) as H.
    rewrite (splitLines_length (length (stripComments raw))) in H by apply le_n.
    unfold lineCount, stripComments in *.
    rewrite (stripFrom_newlines (length raw)) in H by apply le_n. exact H.
Qed.

(** ** What the groups of a match hold *)

Lemma reads_firstn {cs s s'} :
  reads cs s s' -> firstn (pos s' - pos s) (rest s) = cs.
Proof.
  intros (R & P & _). rewrite R, P.
  replace (pos s + length cs - pos s) with (length cs + 0) by lia.
  rewrite firstn_app_2. simpl. apply app_nil_r.
Qed.

Ltac sem_split := split; [|split; [|split]].

Section Groups.

Variable n : nat.
Variable P : str -> Prop.

Lemma starLoop_sem (ma : cont -> cont) r k :
  (forall k' s x, ma k' s = Some x ->
     exists cs s', reads cs s s' /\ derives r cs
       /\ (capHolds n P s -> capHolds n P s') /\ k' s' = Some x) ->
  forall fuel s x, starLoop ma k fuel s = Some x ->
  exists cs s', reads cs s s' /\ derives (Star r) cs
    /\ (capHolds n P s -> capHolds n P s') /\ k s' = Some x.
Proof.
  intros Hma. induction fuel as [|fuel IH]; intros s x H; simpl in H.
  - exists [], s. sem_split; auto using reads_refl. constructor.
  - destruct (ma _ s) as [y|] eqn:E.
    + injection H as ->.
      apply Hma in E. destruct E as (c1 & s1 & R1 & D1 & C1 & E).
      destruct (Nat.ltb (pos s) (pos s1)); [|discriminate].
      apply IH in E. destruct E as (c2 & s2 & R2 & D2 & C2 & E).
      exists (c1 ++ c2), s2. sem_split; auto.
      * eapply reads_trans; eassumption.
      * constructor; assumption.
    + exists [], s. sem_split; auto using reads_refl. constructor.
Qed.

Lemma m_sem r : groupsHold n P r -> forall k s x,
  m r k s = Some x ->
  exists cs s', reads cs s s' /\ derives r cs
    /\ (capHolds n P s -> capHolds n P s') /\ k s' = Some x.
Proof.
  induction r as [|p|r1 IH1 r2 IH2|r1 IH1 r2 IH2|r1 IH1|n' r1 IH1|];
    intros G k s x H; cbn [m] in H; cbn [groupsHold] in G.
  - exists [], s. sem_split; auto using reads_refl. constructor.
  - destruct (rest s) as [|c t] eqn:E; [discriminate|].
    destruct (p c) eqn:Ep; [|discriminate].
    exists [c], (advance c t s). sem_split; auto.
    + apply reads_advance. assumption.
    + constructor. assumption.
  - destruct G as (G1 & G2).
    apply (IH1 G1) in H. destruct H as (c1 & s1 & R1 & D1 & C1 & H).
    apply (IH2 G2) in H. destruct H as (c2 & s2 & R2 & D2 & C2 & H).
    exists (c1 ++ c2), s2. sem_split; auto.
    + eapply reads_trans; eassumption.
    + constructor; assumption.
  - destruct G as (G1 & G2).
    destruct (m r1 k s) as [y|] eqn:E.
    + injection H as ->. apply (IH1 G1) in E.
      destruct E as (c1 & s1 & R1 & D1 & C1 & E).
      exists c1, s1. sem_split; auto. apply derives_AltL. assumption.
    + apply (IH2 G2) in H. destruct H as (c2 & s2 & R2 & D2 & C2 & H).
      exists c2, s2. sem_split; auto. apply derives_AltR. assumption.
  - apply (starLoop_sem (m r1) r1) in H; [assumption|].
    intros k' s0 x0 H0. apply (IH1 G). assumption.
  - destruct G as (G1 & G2).
    apply (IH1 G1) in H. destruct H as (c1 & s1 & R1 & D1 & C1 & H).
    rewrite (reads_firstn R1) in H.
    exists c1, (setCap n' c1 s1). sem_split; auto.
    + apply reads_setCap. assumption.
    + constructor. assumption.
    + intros Hs v [Hv|Hv].
      * injection Hv as -> <-. apply G2; auto.
      * apply C1; assumption.
  - destruct (xorb _ _); [|discriminate].
    exists [], s. sem_split; auto using reads_refl. constructor.
Qed.

Lemma getCap_In k v cs : getCap k cs = Some v -> In (k, v) cs.
Proof.
  induction cs as [|[k' v'] cs IH]; simpl; [discriminate|].
  destruct (Nat.eqb k k') eqn:E.
  - apply Nat.eqb_eq in E. intros [= ->]. left. subst. reflexivity.
  - intros H. right. apply IH. assumption.
Qed.

(** The text of group [n] of a match found by [exec]. *)
Lemma exec_group r cur i e v :
  groupsHold n P (Group 0 r) ->
  exec r cur = Some (i, e) -> group n e = Some v -> P v.
Proof.
  intros G H Hv. unfold exec in H. apply execFrom_inv in H.
  destruct H as (sk & rs' & _ & _ & H).
  apply (m_sem _ G) in H. destruct H as (cs & s' & _ & _ & C & H).
  injection H as <-. apply C; [|apply getCap_In; exact Hv].
  intros w []. 
Qed.

End Groups.

Lemma derives_minLen r cs : derives r cs -> minLen r <= length cs.
Proof.
  induction 1; simpl; rewrite ?length_app; lia.
Qed.

Lemma derives_Star_Chr p cs : derives (Star (Chr p)) cs -> forallb p cs = true.
Proof.
  intros H. remember (Star (Chr p)) as r eqn:Er.
  induction H; try discriminate; [reflexivity|].
  injection Er as ->. rewrite forallb_app, IHderives2 by reflexivity.
  inversion H as [|p' c Hc| | | | | | |]; subst. simpl. rewrite Hc. reflexivity.
Qed.

Lemma derives_Lit s cs : derives (Lit s) cs -> cs = s.
Proof.
  revert cs. induction s as [|c t IH]; intros cs H; simpl in H.
  - inversion H. reflexivity.
  - inversion H as [| |r1 r2 a b Ha Hb| | | | | |]; subst.
    inversion Ha as [|p c' Hc| | | | | | |]; subst.
    apply N.eqb_eq in Hc. subst. simpl. f_equal. apply IH. assumption.
Qed.

Lemma derives_identifier cs :
  derives (Seq (Chr isIdentStart) (Star (Chr isWord))) cs -> isIdentifier cs = true.
Proof.
  intros H. inversion H as [| |r1 r2 a b Ha Hb| | | | | |]; subst.
  inversion Ha; subst. simpl.
  apply derives_Star_Chr in Hb. rewrite Hb.
  match goal with E : isIdentStart _ = true |- _ => rewrite E end. reflexivity.
Qed.

(** ** What the extractors return *)

Lemma derives_Plus_Chr p cs :
  derives (Plus (Chr p)) cs -> forallb p cs = true /\ cs <> [].
Proof.
  intros H. inversion H as [| |r1 r2 a b Ha Hb| | | | | |]; subst.
  inversion Ha as [|p' c Hc| | | | | | |]; subst.
  apply derives_Star_Chr in Hb. simpl. rewrite Hc, Hb.
  split; [reflexivity | discriminate].
Qed.

Lemma trim_In c s : In c (trim s) -> In c s.
Proof.
  unfold trim. intros H. apply in_rev in H.
  apply dropWhile_In in H. apply in_rev in H.
  apply dropWhile_In in H. exact H.
Qed.

Lemma normalizePath_In c value :
  In c (normalizePath value) -> c = SLASH \/ In c value.
Proof.
  unfold normalizePath. intros H.
  apply collapseSlashes_In, stripDotSlash_In, in_map_iff in H.
  destruct H as (x & E & Hx).
  destruct (N.eqb x BACKSLASH); [left; congruence | right; congruence].
Qed.

Lemma importPattern_group2 :
  groupsHold 2 (fun v => ~ In QUOTE v) (Group 0 importPattern).
Proof.
  cbn. repeat split; try (intros [=]).
  intros v Hv. apply derives_Plus_Chr in Hv. destruct Hv as (Hv & _).
  rewrite forallb_forall in Hv. intros Hq. apply Hv in Hq. discriminate Hq.
Qed.

Lemma nonEmpty_neq (s : str) : nonEmpty s = true -> s <> [].
Proof. destruct s; [discriminate | discriminate]. Qed.

Lemma cleanTarget_normalized g2 :
  ~ In QUOTE g2 -> nonEmpty (normalizePath (trim g2)) = true ->
  cleanTarget (normalizePath (trim g2)).
Proof.
  intros Hq Hn. split; [apply nonEmpty_neq; assumption|].
  split; [apply normalizePath_no_backslash|].
  split; [|apply collapseSlashes_hasPair].
  intros H. apply normalizePath_In in H. destruct H as [H|H]; [discriminate H|].
  apply trim_In in H. contradiction.
Qed.

(** X4. [parseImports] answers for every text, and what it answers is
    clean: no path twice in the imports, none twice in the re-exports,
    and every path non-empty, without a backslash, without a double
    quote and without two slashes in a row. *)
Theorem parseImports_targets (source : str) :
  exists is_ rs,
    parseImports source = Ok (is_, rs)
    /\ NoDup is_ /\ NoDup rs
    /\ (forall p, In p (is_ ++ rs) -> cleanTarget p).
Proof.
  destruct (parseImports_total source) as ([is_ rs] & E).
  exists is_, rs. split; [exact E|].
  destruct (parseImports_NoDup _ _ _ E) as (N1 & N2).
  split; [exact N1|]. split; [exact N2|].
  unfold parseImports in E.
  destruct (whileMatch _ _ _ _ _) as [a| |] eqn:Ew; try discriminate.
  injection E as <- <-.
  refine (whileMatch_inv importPattern parseImportsBody (fun _ => True)
            (fun a => forall p, In p (imports a ++ reexports a) -> cleanTarget p)
            _ _ _ _ _ I _ Ew); [|intros p []].
  intros cur i e acc acc' _ Hq Ex Hb.
  split; [exact I|]. unfold parseImportsBody in Hb. cbn [snd] in Hb.
  destruct (group 2 e) as [g2|] eqn:Eg; [|discriminate].
  pose proof (exec_group 2 _ _ _ _ _ _ importPattern_group2 Ex Eg) as Hg.
  destruct (nonEmpty (normalizePath (trim g2))) eqn:En;
    [|injection Hb as <-; exact Hq].
  pose proof (cleanTarget_normalized g2 Hg En) as Hc.
  destruct (truthy _).
  - destruct (negb _); injection Hb as <-; [|exact Hq].
    cbn [imports reexports]. intros p Hp.
    rewrite app_assoc in Hp. apply in_app_or in Hp.
    destruct Hp as [Hp|[<-|[]]]; [apply Hq; exact Hp | exact Hc].
  - destruct (negb _); injection Hb as <-; [|exact Hq].
    cbn [imports reexports]. intros p Hp.
    apply in_app_or in Hp. destruct Hp as [Hp|Hp].
    + apply in_app_or in Hp. destruct Hp as [Hp|[<-|[]]]; [|exact Hc].
      apply Hq. apply in_or_app. left. exact Hp.
    + apply Hq. apply in_or_app. right. exact Hp.
Qed.

Lemma exportPattern_group2 :
  groupsHold 2 (fun v => isIdentifier v = true) (Group 0 exportPattern).
Proof.
  cbn. repeat split; try (intros [=]).
  intros v Hv. apply derives_identifier. exact Hv.
Qed.

Lemma derives_seqs_WordB r cs : derives (Seq WordB r) cs -> derives r cs.
Proof.
  intros H. inversion H as [| |r1 r2 a b Ha Hb| | | | | |]; subst.
  inversion Ha; subst. exact Hb.
Qed.

Lemma identPattern_group0 :
  groupsHold 0 (fun v => isIdentifier v = true) (Group 0 identPattern).
Proof.
  cbn. repeat split. intros _ v Hv.
  apply derives_seqs_WordB in Hv.
  inversion Hv as [| |r1 r2 a b Ha Hb| | | | | |]; subst.
  inversion Hb as [| |r3 r4 c d Hc Hd| | | | | |]; subst.
  inversion Hd as [| |r5 r6 c' d' Hc' Hd'| | | | | |]; subst.
  inversion Hc'; subst. inversion Hd'; subst.
  rewrite !app_nil_r. apply derives_identifier. constructor; assumption.
Qed.

(** X5. The names that the extractors return are names: each exported
    symbol and each token starts with a letter or an underscore and
    goes on with letters, digits and underscores, and no name comes
    twice; both extractors answer for every text. *)
Theorem extracted_names (source : str) :
  (exists symbols,
     parseExportedSymbols source = Ok symbols
     /\ NoDup symbols /\ Forall (fun s => isIdentifier s = true) symbols)
  /\ (exists tokens,
        extractIdentifierTokens source = Ok tokens
        /\ NoDup tokens /\ Forall (fun s => isIdentifier s = true) tokens).
Proof.
  split.
  - destruct (parseExportedSymbols_total source) as (symbols & E).
    exists symbols. split; [exact E|].
    unfold parseExportedSymbols in E.
    destruct (whileMatch _ _ _ _ _) as [a| |] eqn:Ew; try discriminate.
    injection E as <-.
    apply (whileMatch_inv exportPattern parseExportedSymbolsBody (fun _ => True)
             (fun a => snd a = fst a /\ NoDup (fst a)
                       /\ Forall (fun s => isIdentifier s = true) (fst a)))
      in Ew; [tauto | | exact I | simpl; repeat split; constructor].
    intros cur i e acc acc' _ (Es & Hn & Hf) Ex Hb.
    split; [exact I|]. unfold parseExportedSymbolsBody in Hb. cbn [snd] in Hb.
    destruct (group 2 e) as [symbol|] eqn:Eg; [|discriminate].
    pose proof (exec_group 2 _ _ _ _ _ _ exportPattern_group2 Ex Eg) as Hg.
    destruct (setHas symbol (snd acc)) eqn:Eh; simpl in Hb; injection Hb as <-;
      [tauto|].
    simpl. unfold setAdd. rewrite Eh, Es.
    split; [reflexivity|]. split.
    + pose proof (setAdd_NoDup symbol (fst acc) Hn) as H.
      unfold setAdd in H. rewrite <- Es, Eh in H. rewrite <- Es. exact H.
    + apply Forall_app. split; [exact Hf | constructor; [exact Hg | constructor]].
  - destruct (extractIdentifierTokens_total source) as (tokens & E).
    exists tokens. split; [exact E|].
    unfold extractIdentifierTokens in E.
    apply (whileMatch_inv identPattern extractIdentifierTokensBody (fun _ => True)
             (fun a => NoDup a /\ Forall (fun s => isIdentifier s = true) a))
      in E; [exact E | | exact I | split; constructor].
    intros cur i e acc acc' _ (Hn & Hf) Ex Hb.
    split; [exact I|]. unfold extractIdentifierTokensBody in Hb. cbn [snd] in Hb.
    destruct (group 0 e) as [tok|] eqn:Eg; [|discriminate].
    pose proof (exec_group 0 _ _ _ _ _ _ identPattern_group0 Ex Eg) as Hg.
    injection Hb as <-. split; [apply setAdd_NoDup; exact Hn|].
    rewrite Forall_forall in *. intros x Hx. apply setAdd_In in Hx.
    destruct Hx as [->|Hx]; [exact Hg | apply Hf; exact Hx].
Qed.

(** ** countFunctionDeclarations *)

Lemma whileMatch_joint {A : Type} pattern (body : nat * mstate -> A -> outcome A)
    (J : mstate -> A -> Prop) :
  (forall cur i e acc acc',
     J cur acc -> exec pattern cur = Some (i, e) ->
     body (i, e) acc = Ok acc' -> J e acc') ->
  forall fuel cur acc r,
  J cur acc -> whileMatch fuel pattern body cur acc = Ok r ->
  exists cur', J cur' r.
Proof.
  intros Hstep. induction fuel as [|fuel IH]; intros cur acc r Hj H;
    simpl in H; [discriminate|].
  destruct (exec pattern cur) as [[i e]|] eqn:E.
  - destruct (body (i, e) acc) as [acc'| |] eqn:Eb; simpl in H; try discriminate.
    apply (IH e acc' r (Hstep cur i e acc acc' Hj E Eb) H).
  - injection H as <-. exists cur. assumption.
Qed.

Lemma groupsHold_True k r : groupsHold k (fun _ => True) r.
Proof. induction r; simpl; auto. Qed.

(** A match found by [exec] leaves at least [minLen] code units less
    to read. *)
Lemma exec_minLen r cur i e :
  exec r cur = Some (i, e) -> length (rest e) + minLen r <= length (rest cur).
Proof.
  intros H. unfold exec in H. apply execFrom_inv in H.
  destruct H as (sk & rs' & R & _ & H).
  apply (m_sem 0 (fun _ => True) _ (groupsHold_True 0 _)) in H.
  destruct H as (cs & s' & (R' & _) & D & _ & H). injection H as <-.
  apply derives_minLen in D. simpl in D, R'.
  rewrite R, R', !length_app. lia.
Qed.

(** X6. [countFunctionDeclarations] answers for every text, and never
    more declarations than the text has room for: a declaration takes
    at least the ten code units of [function], a blank and a name, and
    no code unit is counted in two declarations. *)
Theorem countFunctionDeclarations_bound (source : str) :
  exists n, countFunctionDeclarations source = Ok n /\ 10 * n <= length source.
Proof.
  unfold countFunctionDeclarations.
  destruct (@whileMatch_total nat functionPattern (fun _ count => Ok (count + 1)))
    with (fuel := S (length source)) (cur := start source) (acc := 0)
    as (n & E).
  - reflexivity.
  - intros. eexists. reflexivity.
  - simpl. lia.
  - exists n. split; [exact E|].
    destruct (whileMatch_joint functionPattern (fun _ count => Ok (count + 1))
                (fun cur count => 10 * count + length (rest cur) <= length source))
      with (fuel := S (length source)) (cur := start source) (acc := 0) (r := n)
      as (cur' & H).
    + intros cur i e acc acc' Hj Ex Hb. injection Hb as <-.
      apply exec_minLen in Ex. change (minLen functionPattern) with 10 in Ex. lia.
    + simpl. lia.
    + exact E.
    + lia.
Qed.

(** ** The module file name of a path *)

Lemma dropWhile_head_false p c t : p c = false -> dropWhile p (c :: t) = c :: t.
Proof. intros H. simpl. rewrite H. reflexivity. Qed.

Lemma dropWhile_length p (l : list N) : length (dropWhile p l) <= length l.
Proof.
  induction l as [|x l IH]; simpl; [lia|]. destruct (p x); simpl; lia.
Qed.

Lemma dropWhile_fixed p c t :
  length (c :: t) <= length (dropWhile p (c :: t)) -> p c = false.
Proof.
  simpl. destruct (p c); [|reflexivity].
  intros H. pose proof (dropWhile_length p t). lia.
Qed.

Lemma trim_fixed b :
  trim b = b -> dropWhile isSpace b = b /\ dropWhile isSpace (rev b) = rev b.
Proof.
  intros E. destruct b as [|c t]; [split; reflexivity|].
  assert (L : length (trim (c :: t)) = length (c :: t)) by (rewrite E; reflexivity).
  unfold trim in L. rewrite length_rev in L.
  pose proof (dropWhile_length isSpace (rev (dropWhile isSpace (c :: t)))) as L1.
  rewrite length_rev in L1.
  assert (Hc : isSpace c = false) by (apply (dropWhile_fixed _ c t); lia).
  rewrite (dropWhile_head_false _ c t Hc). split; [reflexivity|].
  unfold trim in E. rewrite (dropWhile_head_false _ c t Hc) in E.
  apply (f_equal (@rev N)) in E. rewrite rev_involutive in E. exact E.
Qed.

Lemma slashFree_dropWhile b : ~ In SLASH b -> dropWhile (N.eqb SLASH) b = b.
Proof.
  destruct b as [|c t]; [reflexivity|]. intros H. apply dropWhile_head_false.
  apply N.eqb_neq. intros E. apply H. left. symmetry. exact E.
Qed.

Lemma slashFree_takeWhile b : ~ In SLASH b -> takeWhile notSlash b = b.
Proof.
  induction b as [|c t IH]; intros H; simpl; [reflexivity|].
  unfold notSlash at 1. destruct (N.eqb c SLASH) eqn:E.
  - apply N.eqb_eq in E. exfalso. apply H. left. exact E.
  - simpl. f_equal. apply IH. intros Ht. apply H. right. exact Ht.
Qed.

Lemma takeWhile_app_stop b r :
  ~ In SLASH b -> nextIs (hd_error r) SLASH = true \/ r = [] ->
  takeWhile notSlash (b ++ r) = b.
Proof.
  intros Hb Hr. induction b as [|c t IH]; simpl.
  - destruct Hr as [Hr| ->]; [|reflexivity].
    destruct r as [|x r']; [discriminate Hr|]. simpl in Hr |- *.
    unfold notSlash. rewrite Hr. reflexivity.
  - unfold notSlash at 1. destruct (N.eqb c SLASH) eqn:E.
    + apply N.eqb_eq in E. exfalso. apply Hb. left. exact E.
    + simpl. f_equal. apply IH. intros Ht. apply Hb. right. exact Ht.
Qed.

(** The base name of a path whose last segment is [b]. *)
Lemma basename_last pre b :
  b <> [] -> ~ In SLASH b -> endsWithSlash pre -> basename (pre ++ b) = b.
Proof.
  intros Hne Hb Hpre. unfold basename. rewrite rev_app_distr.
  assert (Hrb : ~ In SLASH (rev b)) by (rewrite <- in_rev; exact Hb).
  assert (Hd : dropWhile (N.eqb SLASH) (rev b ++ rev pre) = rev b ++ rev pre).
  { destruct (rev b) as [|c t] eqn:E.
    - apply (f_equal (@rev N)) in E. rewrite rev_involutive in E. contradiction.
    - apply dropWhile_head_false. apply N.eqb_neq. intros Ec.
      apply Hrb. left. symmetry. exact Ec. }
  rewrite Hd, takeWhile_app_stop; [apply rev_involutive | exact Hrb |].
  destruct Hpre as [->|(q & ->)]; [right; reflexivity|].
  left. rewrite rev_app_distr. simpl. reflexivity.
Qed.

Lemma dropWhile_slash_app t b :
  ~ In SLASH b ->
  exists pre, dropWhile (N.eqb SLASH) (t ++ SLASH :: b) = pre ++ b
              /\ endsWithSlash pre.
Proof.
  intros Hb. induction t as [|x t IH]; cbn [app dropWhile].
  - rewrite N.eqb_refl, slashFree_dropWhile by exact Hb.
    exists []. split; [reflexivity | left; reflexivity].
  - destruct (N.eqb SLASH x); [exact IH|].
    exists ((x :: t) ++ [SLASH]). split.
    + rewrite <- app_assoc. reflexivity.
    + right. exists (x :: t). reflexivity.
Qed.

Lemma stripDotSlash_app d b :
  ~ In SLASH b ->
  exists pre, stripDotSlash (d ++ SLASH :: b) = pre ++ b /\ endsWithSlash pre.
Proof.
  intros Hb.
  assert (Same : exists pre, d ++ SLASH :: b = pre ++ b /\ endsWithSlash pre).
  { exists (d ++ [SLASH]). split; [rewrite <- app_assoc; reflexivity|].
    right. exists d. reflexivity. }
  unfold stripDotSlash.
  destruct d as [|c1 [|c2 t]]; cbn [app] in *.
  - destruct b as [|c2 t]; [exact Same|].
    change (N.eqb SLASH DOT) with false. cbn [andb]. exact Same.
  - destruct (N.eqb c1 DOT && N.eqb SLASH SLASH); [|exact Same].
    rewrite slashFree_dropWhile by exact Hb.
    exists []. split; [reflexivity | left; reflexivity].
  - destruct (N.eqb c1 DOT && N.eqb c2 SLASH); [|exact Same].
    apply dropWhile_slash_app. exact Hb.
Qed.

Lemma slashFree_collapse f b : ~ In SLASH b -> collapseSlashes f b = b.
Proof.
  revert f. induction b as [|c t IH]; intros f H; simpl; [reflexivity|].
  destruct (N.eqb c SLASH) eqn:E.
  - apply N.eqb_eq in E. exfalso. apply H. left. exact E.
  - f_equal. apply IH. intros Ht. apply H. right. exact Ht.
Qed.

Lemma collapseSlashes_app b : ~ In SLASH b -> forall q f,
  exists pre, collapseSlashes f (q ++ SLASH :: b) = pre ++ b
              /\ ((pre = [] /\ f = true) \/ exists q', pre = q' ++ [SLASH]).
Proof.
  intros Hb. induction q as [|x q IH]; intros f; cbn [app collapseSlashes].
  - rewrite N.eqb_refl, (slashFree_collapse true b Hb).
    destruct f.
    + exists []. split; [reflexivity | left; split; reflexivity].
    + exists [SLASH]. split; [reflexivity | right; exists []; reflexivity].
  - destruct (N.eqb x SLASH) eqn:E.
    + destruct (IH true) as (pre & Ep & Hp). destruct f.
      * exists pre. split; [exact Ep|].
        destruct Hp as [(-> & _)|Hp]; [left; split; reflexivity | right; exact Hp].
      * exists (SLASH :: pre). split; [rewrite Ep; reflexivity|]. right.
        destruct Hp as [(-> & _)|(q' & ->)];
          [exists []; reflexivity | exists (SLASH :: q'); reflexivity].
    + destruct (IH false) as (pre & Ep & Hp).
      exists (x :: pre). split; [rewrite Ep; reflexivity|]. right.
      destruct Hp as [(_ & [=])|(q' & ->)]. exists (x :: q'). reflexivity.
Qed.

Lemma normalizePath_app d b :
  ~ In SLASH b -> ~ In BACKSLASH b ->
  exists pre, normalizePath (d ++ SLASH :: b) = pre ++ b /\ endsWithSlash pre.
Proof.
  intros Hs Hb. unfold normalizePath.
  rewrite map_app. cbn [map]. change (N.eqb SLASH BACKSLASH) with false. cbv iota.
  rewrite (unslash_id b Hb).
  destruct (stripDotSlash_app
              (map (fun c => if N.eqb c BACKSLASH then SLASH else c) d) b Hs)
    as (pre & -> & Hpre).
  destruct Hpre as [->|(q & ->)].
  - cbn [app]. rewrite (slashFree_collapse false b Hs).
    exists []. split; [reflexivity | left; reflexivity].
  - rewrite <- app_assoc. cbn [app].
    destruct (collapseSlashes_app b Hs q false) as (pre & -> & Hp).
    exists pre. split; [reflexivity|].
    destruct Hp as [(_ & [=])|Hp]. right. exact Hp.
Qed.

Lemma dropWhile_app_keep p q x r :
  p x = false ->
  exists q', dropWhile p (q ++ x :: r) = q' ++ x :: r.
Proof.
  intros Hx. induction q as [|c q IH]; simpl.
  - rewrite Hx. exists []. reflexivity.
  - destruct (p c); [exact IH|]. exists (c :: q). reflexivity.
Qed.

Lemma trim_app pre b :
  b <> [] -> trim b = b -> endsWithSlash pre ->
  exists pre', trim (pre ++ b) = pre' ++ b /\ endsWithSlash pre'.
Proof.
  intros Hne Et Hpre. destruct (trim_fixed b Et) as (E1 & E2).
  assert (Back : forall pre', rev (dropWhile isSpace (rev (pre' ++ b))) = pre' ++ b).
  { intros pre'. rewrite rev_app_distr.
    destruct (rev b) as [|c t] eqn:Er.
    - apply (f_equal (@rev N)) in Er. rewrite rev_involutive in Er. contradiction.
    - cbn [app]. rewrite dropWhile_head_false.
      + change (c :: t ++ rev pre') with ((c :: t) ++ rev pre').
        rewrite <- Er, <- rev_app_distr. apply rev_involutive.
      + apply (dropWhile_fixed _ c t). rewrite E2. apply le_n. }
  unfold trim. destruct Hpre as [->|(q & ->)].
  - exists []. cbn [app]. rewrite E1. split; [apply (Back []) | left; reflexivity].
  - rewrite <- app_assoc. cbn [app].
    destruct (dropWhile_app_keep isSpace q SLASH b eq_refl) as (q' & ->).
    exists (q' ++ [SLASH]). split.
    + rewrite <- (Back (q' ++ [SLASH])), <- app_assoc. reflexivity.
    + right. exists q'. reflexivity.
Qed.

Lemma nonEmpty_app (a b : str) : b <> [] -> nonEmpty (a ++ b) = true.
Proof. destruct a; [destruct b; [contradiction | reflexivity] | reflexivity]. Qed.

Lemma toModuleFileName_split d b :
  b <> [] -> ~ In SLASH b -> ~ In BACKSLASH b -> trim b = b ->
  toModuleFileName (d ++ SLASH :: b)
  = (if endsWith (lit ".fs") b then Some b else None)
  /\ toModuleFileName b = (if endsWith (lit ".fs") b then Some b else None).
Proof.
  intros Hne Hs Hb Et. unfold toModuleFileName. split.
  - destruct (normalizePath_app d b Hs Hb) as (pre & -> & Hpre).
    destruct (trim_app pre b Hne Et Hpre) as (pre' & -> & Hpre').
    rewrite nonEmpty_app by exact Hne. cbn [negb].
    rewrite (basename_last pre' b Hne Hs Hpre').
    destruct (endsWith _ b); reflexivity.
  - rewrite normalizePath_fixed, Et.
    + pose proof (nonEmpty_app [] b Hne) as Hn. cbn [app] in Hn. rewrite Hn.
      cbn [negb].
      pose proof (basename_last [] b Hne Hs (or_introl eq_refl)) as Hl.
      cbn [app] in Hl. rewrite Hl.
      destruct (endsWith _ b); reflexivity.
    + exact Hb.
    + clear -Hs. induction b as [|c t IH]; [reflexivity|].
      cbn [hasPair]. rewrite IH by (intros H; apply Hs; right; exact H).
      destruct (N.eqb c SLASH) eqn:E; [|reflexivity].
      apply N.eqb_eq in E. exfalso. apply Hs. left. exact E.
    + change (lit "./") with [DOT; SLASH].
      destruct b as [|c1 [|c2 t]]; cbn [startsWith];
        [reflexivity | apply andb_false_r |].
      destruct (N.eqb SLASH c2) eqn:E; [|apply andb_false_r].
      apply N.eqb_eq in E. exfalso. apply Hs. right. left. symmetry. exact E.
Qed.

(** X7. The module file name of a path is its last segment, whatever
    the directories before it: for a name [b] without slash or
    backslash and without white space at its ends, [toModuleFileName]
    of [d/b] is that of [b] alone, which is [b] when it ends in [.fs]
    and nothing otherwise.  The label of the node is [b], and the
    source link of the file is that of any file of the same name. *)
Theorem toModuleFileName_directory (d b : str) (config : option SourceConfig.t) :
  b <> [] -> ~ In SLASH b -> ~ In BACKSLASH b -> trim b = b ->
  toModuleFileName (d ++ SLASH :: b) = toModuleFileName b
  /\ toModuleFileName b = (if endsWith (lit ".fs") b then Some b else None)
  /\ labelOf (d ++ SLASH :: b) = b
  /\ sourceUrlOf config (d ++ SLASH :: b) = sourceUrlOf config b.
Proof.
  intros Hne Hs Hb Et.
  destruct (toModuleFileName_split d b Hne Hs Hb Et) as (E1 & E2).
  assert (E : toModuleFileName (d ++ SLASH :: b) = toModuleFileName b)
    by (rewrite E1, E2; reflexivity).
  split; [exact E|]. split; [exact E2|]. split.
  - unfold labelOf.
    replace (d ++ SLASH :: b) with ((d ++ [SLASH]) ++ b)
      by (rewrite <- app_assoc; reflexivity).
    apply basename_last; [exact Hne | exact Hs | right; exists d; reflexivity].
  - unfold sourceUrlOf, sourceElementIdOf. rewrite E. reflexivity.
Qed.

Lemma toModuleFileName_directory_witness :
  toModuleFileName (lit "std/geometry/vector.fs") = Some (lit "vector.fs").
Proof.
  destruct (toModuleFileName_directory (lit "std/geometry") (lit "vector.fs") None)
    as (E1 & E2 & _).
  - discriminate.
  - vm_compute. intuition discriminate.
  - vm_compute. intuition discriminate.
  - reflexivity.
  - change (lit "std/geometry/vector.fs")
      with (lit "std/geometry" ++ SLASH :: lit "vector.fs").
    rewrite E1, E2. reflexivity.
Defined.

(** ** encodeURIComponent and the source link *)

Ltac bools :=
  repeat match goal with
  | H : _ && _ = true |- _ => apply andb_true_iff in H; destruct H
  | H : _ || _ = true |- _ => apply orb_true_iff in H; destruct H
  | H : _ || _ = false |- _ => apply orb_false_iff in H; destruct H
  | H : N.leb _ _ = true |- _ => apply N.leb_le in H
  | H : N.leb _ _ = false |- _ => apply N.leb_gt in H
  | H : N.ltb _ _ = true |- _ => apply N.ltb_lt in H
  | H : N.ltb _ _ = false |- _ => apply N.ltb_ge in H
  | H : N.eqb _ _ = true |- _ => apply N.eqb_eq in H
  | H : N.eqb _ _ = false |- _ => apply N.eqb_neq in H
  | H : false = true |- _ => discriminate H
  end.

Lemma isUnescaped_ascii c : isUnescaped c = true -> (c < 128)%N.
Proof.
  unfold isUnescaped, isAlpha, isDigit, inRange.
  change (lit "-_.!~*'()") with [45; 95; 46; 33; 126; 42; 39; 40; 41]%N.
  cbn [existsb]. intros H. bools; lia.
Qed.

Lemma hexDigit_safe d : (d < 16)%N -> isUnescaped (hexDigit d) = true.
Proof.
  intros H. unfold hexDigit, isUnescaped, isAlpha, isDigit, inRange.
  destruct (N.ltb d 10) eqn:E; bools.
  - replace (N.leb 48 (48 + d) && N.leb (48 + d) 57) with true;
      [rewrite orb_true_r; reflexivity|].
    symmetry. apply andb_true_iff. split; apply N.leb_le; lia.
  - replace (N.leb 65 (55 + d) && N.leb (55 + d) 90) with true; [reflexivity|].
    symmetry. apply andb_true_iff. split; apply N.leb_le; lia.
Qed.

Lemma percentEncode_safe octet :
  (octet < 256)%N -> forallb isUriSafe (percentEncode octet) = true.
Proof.
  intros H. unfold percentEncode. cbn [forallb].
  assert (H1 : (octet / 16 < 16)%N)
    by (apply N.Div0.div_lt_upper_bound; exact H).
  assert (H2 : (octet mod 16 < 16)%N) by (apply N.mod_lt; discriminate).
  unfold isUriSafe at 2 3. rewrite !hexDigit_safe by assumption. reflexivity.
Qed.

Lemma utf8_octets cp :
  (cp < 1114112)%N -> Forall (fun o => (o < 256)%N) (utf8 cp).
Proof.
  intros H. unfold utf8.
  assert (M : forall a, (a mod 64 < 64)%N) by (intros a; apply N.mod_lt; discriminate).
  destruct (N.ltb cp 128) eqn:E1; bools; [repeat constructor; lia|].
  destruct (N.ltb cp 2048) eqn:E2; bools.
  { assert (cp / 64 < 32)%N by (apply N.Div0.div_lt_upper_bound; exact E2).
    pose proof (M cp). repeat constructor; lia. }
  destruct (N.ltb cp 65536) eqn:E3; bools.
  { assert (cp / 4096 < 16)%N by (apply N.Div0.div_lt_upper_bound; exact E3).
    pose proof (M cp). pose proof (M (cp / 64)%N). repeat constructor; lia. }
  assert (cp / 262144 < 5)%N by (apply N.Div0.div_lt_upper_bound; lia).
  pose proof (M cp). pose proof (M (cp / 64)%N). pose proof (M (cp / 4096)%N).
  repeat constructor; lia.
Qed.

Lemma escaped_safe cp :
  (cp < 1114112)%N -> forallb isUriSafe (flat_map percentEncode (utf8 cp)) = true.
Proof.
  intros H. pose proof (utf8_octets cp H) as Ho.
  induction Ho as [|o os Ho _ IH]; [reflexivity|].
  cbn [flat_map]. rewrite forallb_app, IH, percentEncode_safe by exact Ho.
  reflexivity.
Qed.

Lemma pairCodePoint_bound c d :
  isLeadSurrogate c = true -> isTrailSurrogate d = true ->
  (pairCodePoint c d < 1114112)%N.
Proof.
  unfold isLeadSurrogate, isTrailSurrogate, inRange, pairCodePoint.
  intros H1 H2. bools. lia.
Qed.

Lemma encodeURIComponent_spec n : forall s, length s <= n ->
  if isWellFormed s
  then exists r, encodeURIComponent s = Ok r
         /\ (Forall codeUnit s -> forallb isUriSafe r = true)
  else encodeURIComponent s = Throws.
Proof.
  induction n as [|n IH]; intros s Hn.
  - destruct s; [|simpl in Hn; lia]. simpl. exists []. auto.
  - destruct s as [|c t]; [simpl; exists []; auto|]. simpl in Hn.
    cbn [isWellFormed encodeURIComponent].
    destruct (isUnescaped c) eqn:Eu.
    + pose proof (isUnescaped_ascii c Eu) as Hc.
      assert (El : isLeadSurrogate c = false).
      { unfold isLeadSurrogate, inRange.
        destruct (N.leb 55296 c) eqn:E; [bools; lia | reflexivity]. }
      assert (Et : isTrailSurrogate c = false).
      { unfold isTrailSurrogate, inRange.
        destruct (N.leb 56320 c) eqn:E; [bools; lia | reflexivity]. }
      rewrite El, Et. cbn [negb andb].
      specialize (IH t ltac:(lia)).
      destruct (isWellFormed t).
      * destruct IH as (r & -> & Hr). exists (c :: r). split; [reflexivity|].
        intros Hf. inversion Hf; subst. cbn [forallb].
        unfold isUriSafe at 1. rewrite Eu. apply Hr. assumption.
      * rewrite IH. reflexivity.
    + destruct (isLeadSurrogate c) eqn:El.
      * assert (Et : isTrailSurrogate c = false).
        { unfold isLeadSurrogate, isTrailSurrogate, inRange in *.
          destruct (N.leb 56320 c) eqn:E; [bools; lia | reflexivity]. }
        rewrite Et. destruct t as [|d t2]; [reflexivity|].
        destruct (isTrailSurrogate d) eqn:Ed; [|reflexivity]. cbn [andb].
        specialize (IH t2 ltac:(simpl in Hn; lia)).
        destruct (isWellFormed t2).
        -- destruct IH as (r & -> & Hr). cbn [bind]. eexists. split; [reflexivity|].
           intros Hf. inversion Hf as [|? ? _ Hf']; subst.
           inversion Hf' as [|? ? _ Hf'']; subst.
           rewrite forallb_app, Hr by assumption.
           rewrite escaped_safe; [reflexivity|].
           apply pairCodePoint_bound; assumption.
        -- rewrite IH. reflexivity.
      * destruct (isTrailSurrogate c) eqn:Et; [reflexivity|]. cbn [negb andb].
        specialize (IH t ltac:(lia)).
        destruct (isWellFormed t).
        -- destruct IH as (r & -> & Hr). cbn [bind]. eexists. split; [reflexivity|].
           intros Hf. inversion Hf as [|? ? Hc Hf']; subst.
           rewrite forallb_app, Hr by assumption.
           rewrite escaped_safe; [reflexivity|]. unfold codeUnit in Hc. lia.
        -- rewrite IH. reflexivity.
Qed.

Lemma isUriSafe_slashes r : forallb isUriSafe r = true -> slashes r = 0.
Proof.
  unfold slashes. induction r as [|c r IH]; intros H; [reflexivity|].
  cbn [forallb] in H. apply andb_true_iff in H. destruct H as (Hc & Hr).
  cbn [filter]. destruct (N.eqb SLASH c) eqn:E; [|apply IH; exact Hr].
  apply N.eqb_eq in E. subst c. discriminate Hc.
Qed.

(** X8. [buildOnshapeSourceUrl] throws exactly when one of the three
    ids holds a surrogate without its partner.  Otherwise it answers
    the address made of the fixed parts and of the three encoded ids,
    each written with letters, digits, the marks [- _ . ! ~ * ' ( )]
    and the percent sign alone: the address holds the eight slashes of
    its fixed parts and no other. *)
Theorem buildOnshapeSourceUrl_safe (elementId documentId workspaceId : str) :
  Forall codeUnit (documentId ++ workspaceId ++ elementId) ->
  if isWellFormed documentId && isWellFormed workspaceId && isWellFormed elementId
  then exists d w e,
         buildOnshapeSourceUrl elementId documentId workspaceId
         = Ok (lit "https://cad.onshape.com/documents/" ++ d
               ++ lit "/w/" ++ w ++ lit "/e/" ++ e)
         /\ encodeURIComponent documentId = Ok d
         /\ encodeURIComponent workspaceId = Ok w
         /\ encodeURIComponent elementId = Ok e
         /\ forallb isUriSafe (d ++ w ++ e) = true
         /\ slashes (lit "https://cad.onshape.com/documents/" ++ d
                     ++ lit "/w/" ++ w ++ lit "/e/" ++ e) = 8
  else buildOnshapeSourceUrl elementId documentId workspaceId = Throws.
Proof.
  intros Hf. apply Forall_app in Hf. destruct Hf as (Hd & Hf).
  apply Forall_app in Hf. destruct Hf as (Hw & He).
  unfold buildOnshapeSourceUrl.
  pose proof (encodeURIComponent_spec _ documentId (le_n _)) as Sd.
  pose proof (encodeURIComponent_spec _ workspaceId (le_n _)) as Sw.
  pose proof (encodeURIComponent_spec _ elementId (le_n _)) as Se.
  destruct (isWellFormed documentId); [|rewrite Sd; reflexivity].
  destruct Sd as (d & -> & Sd). cbn [bind andb].
  destruct (isWellFormed workspaceId); [|rewrite Sw; reflexivity].
  destruct Sw as (w & -> & Sw). cbn [bind andb].
  destruct (isWellFormed elementId); [|rewrite Se; reflexivity].
  destruct Se as (e & -> & Se). cbn [bind].
  specialize (Sd Hd). specialize (Sw Hw). specialize (Se He).
  exists d, w, e. repeat split.
  - rewrite !forallb_app, Sd, Sw, Se. reflexivity.
  - rewrite !slashes_app, (isUriSafe_slashes d Sd), (isUriSafe_slashes w Sw),
      (isUriSafe_slashes e Se). reflexivity.
Qed.

Lemma buildOnshapeSourceUrl_safe_witness :
  buildOnshapeSourceUrl (lit "a/b c") (lit "d?1") (lit "w#2")
  = Ok (lit "https://cad.onshape.com/documents/d%3F1/w/w%232/e/a%2Fb%20c").
Proof.
  pose proof (buildOnshapeSourceUrl_safe (lit "a/b c") (lit "d?1") (lit "w#2")) as H.
  cbv beta in H.
  destruct H as (d & w & e & E & Ed & Ew & Ee & _).
  - repeat constructor.
  - rewrite E. vm_compute in Ed, Ew, Ee.
    injection Ed as <-. injection Ew as <-. injection Ee as <-. reflexivity.
Defined.

(** ** The Onshape element map *)

Lemma dropWhile_suffix p (l : list N) : exists pre, l = pre ++ dropWhile p l.
Proof.
  induction l as [|x l (pre & IH)]; simpl; [exists []; reflexivity|].
  destruct (p x); [|exists []; reflexivity].
  exists (x :: pre). simpl. f_equal. exact IH.
Qed.

Lemma dropWhile_head p (l : list N) c r : dropWhile p l = c :: r -> p c = false.
Proof.
  induction l as [|x l IH]; simpl; [discriminate|].
  destruct (p x) eqn:E; [exact IH|]. intros [= <- _]. exact E.
Qed.

Lemma trim_idempotent s : trim (trim s) = trim s.
Proof.
  unfold trim at 2 3.
  set (u := dropWhile isSpace s).
  destruct (dropWhile isSpace (rev u)) as [|c v] eqn:Ev; [reflexivity|].
  pose proof (dropWhile_head _ _ _ _ Ev) as Hc.
  destruct (dropWhile_suffix isSpace (rev u)) as (pre & Hp). rewrite Ev in Hp.
  apply (f_equal (@rev N)) in Hp. rewrite rev_involutive, rev_app_distr in Hp.
  assert (Hu : dropWhile isSpace (rev (c :: v)) = rev (c :: v)).
  { destruct (rev (c :: v)) as [|x w] eqn:Er.
    - apply (f_equal (@length N)) in Er. rewrite length_rev in Er. discriminate Er.
    - apply dropWhile_head_false. cbn [app] in Hp.
      destruct u as [|y u'] eqn:Eu; [discriminate Hp|].
      injection Hp as <- _. subst u. apply (dropWhile_head _ _ _ _ Eu). }
  unfold trim. rewrite Hu, rev_involutive, (dropWhile_head_false _ c v Hc).
  reflexivity.
Qed.

Lemma trimmedString_trimmedId v : trimmedId (trimmedString v).
Proof.
  intros id H. unfold trimmedString in H.
  destruct v as [[| | |s| |]|]; try discriminate.
  destruct (Nat.ltb 0 (length (trim s))) eqn:E; [|discriminate].
  injection H as <-. split; [|apply trim_idempotent].
  apply Nat.ltb_lt in E. intros E0. rewrite E0 in E. simpl in E. lia.
Qed.

Lemma checkElementIds_ok filePath entries :
  checkElementIds filePath entries = Returns tt ->
  forall name id, In (name, id) (asStrings entries) ->
    In (name, JString id) entries /\ notBlank id = true.
Proof.
  induction entries as [|[moduleFile elementId] entries IH]; intros H name id Hin;
    [destruct Hin|].
  cbn [checkElementIds] in H.
  destruct (invalidElementId elementId) eqn:Ei; [discriminate|].
  unfold asStrings in Hin. cbn [flat_map fst snd] in Hin.
  apply in_app_or in Hin. destruct Hin as [Hin|Hin].
  - destruct elementId as [| | |s| |]; try destruct Hin.
    + injection H0 as <- <-. split; [left; reflexivity|].
      rewrite <- trim_notBlank. cbn [invalidElementId] in Ei.
      destruct (length (trim s)); [discriminate | reflexivity].
    + destruct H0.
  - destruct (IH H name id Hin) as (H1 & H2). split; [right; exact H1 | exact H2].
Qed.

Lemma startsWith_app a b : startsWith a (a ++ b) = true.
Proof.
  induction a as [|c a IH]; [reflexivity|].
  cbn [app startsWith]. rewrite N.eqb_refl. exact IH.
Qed.

Lemma endsWith_app a b : endsWith b (a ++ b) = true.
Proof. unfold endsWith. rewrite rev_app_distr. apply startsWith_app. Qed.

Lemma quoted_message (a name b file : str) :
  a ++ QUOTE :: name ++ QUOTE :: b ++ file
  = (a ++ QUOTE :: name ++ QUOTE :: b) ++ file.
Proof.
  rewrite <- app_assoc. cbn [app]. rewrite <- app_assoc. reflexivity.
Qed.

Lemma checkElementIds_raises filePath entries :
  match checkElementIds filePath entries with
  | Returns _ => True
  | Raises message => endsWith filePath message = true
  | Exits _ _ => False
  end.
Proof.
  induction entries as [|[moduleFile elementId] entries IH]; cbn [checkElementIds];
    [exact I|].
  destruct (invalidElementId elementId); [|exact IH].
  rewrite quoted_message. apply endsWith_app.
Qed.

(** X9. What [loadOnshapeElementMap] makes of a parsed file.  It
    returns only for an object; the document and workspace ids it
    returns are, when present, non-empty and trimmed; the element map
    it returns is always there, and holds the string entries of the
    file as they are written, none of them blank.  When it raises, the
    message ends with the path of the file; it never ends the process. *)
Theorem loadOnshapeElementMap_result (filePath : str) (parsed : json) :
  match loadOnshapeElementMap filePath parsed with
  | Returns loaded =>
    isRecord parsed = true
    /\ trimmedId (OnshapeElementMap.documentId loaded)
    /\ trimmedId (OnshapeElementMap.workspaceId loaded)
    /\ exists elements,
         OnshapeElementMap.elementsByName loaded = Some elements
         /\ forall name id, In (name, id) elements ->
              notBlank id = true
              /\ exists e, mapGet (lit "elementsByName") (fieldsOf parsed) = Some e
                           /\ In (name, JString id) (fieldsOf e)
  | Raises message => endsWith filePath message = true
  | Exits _ _ => False
  end.
Proof.
  unfold loadOnshapeElementMap.
  destruct (isRecord parsed) eqn:Er; cbn [negb]; [|apply endsWith_app].
  destruct (mapGet (lit "elementsByName") (fieldsOf parsed)) as [e|] eqn:Ee.
  - destruct (isRecord e) eqn:Ere; cbn [negb].
    + pose proof (checkElementIds_raises filePath (fieldsOf e)) as Hr.
      pose proof (checkElementIds_ok filePath (fieldsOf e)) as Hok.
      destruct (checkElementIds filePath (fieldsOf e)) as [[]| |]; [|exact Hr|exact Hr].
      split; [reflexivity|]. split; [apply trimmedString_trimmedId|].
      split; [apply trimmedString_trimmedId|].
      eexists. split; [reflexivity|]. intros name id Hin.
      destruct (Hok eq_refl name id Hin) as (H1 & H2).
      split; [exact H2|]. exists e. split; [reflexivity | exact H1].
    + rewrite quoted_message. apply endsWith_app.
  - split; [reflexivity|]. split; [apply trimmedString_trimmedId|].
    split; [apply trimmedString_trimmedId|].
    eexists. split; [reflexivity|]. intros name id [].
Qed.

(** The document id is stored trimmed, an element id as written. *)
Example loadOnshapeElementMap_ex :
  loadOnshapeElementMap (lit "map.json")
    (JObject [ (lit "documentId", JString (lit " d1 "));
               (lit "workspaceId", JNumber 7 0);
               (lit "elementsByName",
                JObject [(lit "vector.fs", JString (lit " e1 "))]) ])
  = Returns {| OnshapeElementMap.documentId := Some (lit "d1");
               OnshapeElementMap.workspaceId := None;
               OnshapeElementMap.elementsByName :=
                 Some [(lit "vector.fs", lit " e1 ")] |}.
Proof. vm_compute. reflexivity. Qed.

(** ** The command line *)

(** X10. An option of the command line can be written in two
    arguments or in one with an equals sign, and the loop of
    [parseArgs] goes on in the same way after either, from any locals:
    always for [--root] and [--out], and for the three Onshape options
    when the value is not empty.  With an empty value the two spellings
    part: the two-argument form of an Onshape option raises, the
    one-argument form stores the empty string. *)
Theorem parseArgs_spellings (cwd : str) (pathResolve : list str -> str)
    (value : str) (rest : list str) (o : CliOptions.t) :
  parseArgsLoop (lit "--root" :: value :: rest) o
  = parseArgsLoop ((lit "--root=" ++ value) :: rest) o
  /\ parseArgsLoop (lit "--out" :: value :: rest) o
     = parseArgsLoop ((lit "--out=" ++ value) :: rest) o
  /\ parseArgs cwd pathResolve (lit "--root" :: value :: rest)
     = parseArgs cwd pathResolve ((lit "--root=" ++ value) :: rest)
  /\ (value <> [] ->
      parseArgsLoop (lit "--onshape-map" :: value :: rest) o
      = parseArgsLoop ((lit "--onshape-map=" ++ value) :: rest) o
      /\ parseArgsLoop (lit "--onshape-document-id" :: value :: rest) o
         = parseArgsLoop ((lit "--onshape-document-id=" ++ value) :: rest) o
      /\ parseArgsLoop (lit "--onshape-workspace-id" :: value :: rest) o
         = parseArgsLoop ((lit "--onshape-workspace-id=" ++ value) :: rest) o)
  /\ parseArgsLoop (lit "--onshape-document-id" :: [] :: rest) o
     = Raises (lit "Missing value for --onshape-document-id <id>")
  /\ parseArgsLoop (lit "--onshape-document-id=" :: rest) o
     = parseArgsLoop rest (CliOptions.withOnshapeDocumentId [] o).
Proof.
  split; [cbn; reflexivity|]. split; [cbn; reflexivity|].
  split; [unfold parseArgs; cbn; reflexivity|].
  split; [|split; cbn; reflexivity].
  intros Hv. destruct value as [|c v]; [contradiction|].
  repeat split; cbn; reflexivity.
Qed.

Lemma parseArgs_spellings_witness :
  parseArgsLoop [lit "--onshape-map"; lit "map.json"] initialOptions
  = parseArgsLoop [lit "--onshape-map=map.json"] initialOptions.
Proof.
  refine (proj1 (proj1 (proj2 (proj2 (proj2
    (parseArgs_spellings [] (fun _ => []) (lit "map.json") [] initialOptions)))) _)).
  discriminate.
Defined.

Lemma startsWith_split p s :
  startsWith p s = true -> s = p ++ skipn (length p) s.
Proof.
  revert s. induction p as [|c p IH]; intros s H; [reflexivity|].
  destruct s as [|d s]; [discriminate H|].
  cbn [startsWith] in H. apply andb_true_iff in H. destruct H as (E & H).
  apply N.eqb_eq in E. subst d. cbn [app length skipn]. f_equal. apply IH. exact H.
Qed.

Lemma rootGiven_app consumed r rest :
  rootGiven r rest -> rootGiven r (consumed ++ rest).
Proof.
  intros [H|(before & after & ->)].
  - left. apply in_or_app. right. exact H.
  - right. exists (consumed ++ before), after. rewrite <- app_assoc. reflexivity.
Qed.

Lemma optionGiven_trans flag consumed rest a b c :
  optionGiven flag a b (consumed ++ rest) -> optionGiven flag b c rest ->
  optionGiven flag a c (consumed ++ rest).
Proof.
  intros H1 [->|(v & -> & Hv)]; [exact H1|].
  right. exists v. split; [reflexivity|].
  intros E. apply in_or_app. right. apply Hv. exact E.
Qed.

Lemma argsGiven_trans consumed rest o o' res :
  argsGiven (consumed ++ rest) o o' -> argsGiven rest o' res ->
  argsGiven (consumed ++ rest) o res.
Proof.
  intros (R1 & D1 & W1) (R2 & D2 & W2). split; [|split].
  - destruct R2 as [->|[R2|R2]]; [exact R1 | right; left; exact R2 |].
    right. right. apply rootGiven_app. exact R2.
  - eapply optionGiven_trans; eassumption.
  - eapply optionGiven_trans; eassumption.
Qed.

Lemma argsGiven_refl argv o : argsGiven argv o o.
Proof. split; [left; reflexivity | split; left; reflexivity]. Qed.

Lemma optionGiven_slice (prefix : string) arg argv before :
  startsWith (lit prefix) arg = true -> In arg argv ->
  optionGiven (lit prefix) before (Some (sliceAfter prefix arg)) argv.
Proof.
  intros Hs Hin. right. eexists. split; [reflexivity|].
  intros E. apply startsWith_split in Hs. unfold sliceAfter in E.
  rewrite E, app_nil_r in Hs. rewrite <- Hs. exact Hin.
Qed.

Lemma optionGiven_value flag v argv before :
  nonEmpty v = true -> optionGiven flag before (Some v) argv.
Proof.
  intros Hv. right. exists v. split; [reflexivity|].
  intros ->. discriminate Hv.
Qed.

Ltac same_given := split; [left; reflexivity | split; left; reflexivity].

Lemma parseArgsLoop_given n : forall argv, length argv <= n -> forall o res,
  parseArgsLoop argv o = Returns res -> argsGiven argv o res.
Proof.
  induction n as [|n IH]; intros argv Hn o res H.
  - destruct argv; [|simpl in Hn; lia]. injection H as <-. apply argsGiven_refl.
  - destruct argv as [|arg rest]; [injection H as <-; apply argsGiven_refl|].
    simpl in Hn. cbn [parseArgsLoop] in H.
    assert (One : forall o', argsGiven ([arg] ++ rest) o o' ->
              parseArgsLoop rest o' = Returns res ->
              argsGiven (arg :: rest) o res).
    { intros o' G E. apply (argsGiven_trans [arg] rest o o' res G).
      apply (IH rest); [lia | exact E]. }
    assert (Two : forall value rest' o', rest = value :: rest' ->
              argsGiven ([arg; value] ++ rest') o o' ->
              parseArgsLoop rest' o' = Returns res ->
              argsGiven (arg :: rest) o res).
    { intros value rest' o' -> G E.
      apply (argsGiven_trans [arg; value] rest' o o' res G).
      apply (IH rest'); [simpl in Hn; lia | exact E]. }
    destruct (eqb_str arg (lit "--help") || eqb_str arg (lit "-h"));
      [discriminate H|].
    destruct (eqb_str arg (lit "--root")) eqn:E1.
    { apply eqb_str_eq in E1. subst arg.
      destruct rest as [|value rest'].
      - injection H as <-. split; [right; left; reflexivity|].
        split; left; reflexivity.
      - apply (Two value rest' _ eq_refl) in H; [exact H|].
        split; [|split; left; reflexivity].
        right. right. right. exists [], rest'. reflexivity. }
    destruct (startsWith (lit "--root=") arg) eqn:E2.
    { apply One in H; [exact H|].
      split; [|split; left; reflexivity].
      right. right. left. cbn [CliOptions.withRoot CliOptions.root].
      apply startsWith_split in E2. unfold sliceAfter.
      rewrite <- E2. left. reflexivity. }
    destruct (eqb_str arg (lit "--out")) eqn:E3.
    { destruct rest as [|value rest'].
      - injection H as <-. apply argsGiven_refl.
      - apply (Two value rest' _ eq_refl) in H; [exact H|]. same_given. }
    destruct (startsWith (lit "--out=") arg) eqn:E4.
    { apply One in H; [exact H|]. same_given. }
    destruct (eqb_str arg (lit "--onshape-map")) eqn:E5.
    { destruct rest as [|value rest']; [discriminate H|].
      destruct (negb (nonEmpty value)); [discriminate H|].
      apply (Two value rest' _ eq_refl) in H; [exact H|]. same_given. }
    destruct (startsWith (lit "--onshape-map=") arg) eqn:E6.
    { apply One in H; [exact H|]. same_given. }
    destruct (eqb_str arg (lit "--onshape-document-id")) eqn:E7.
    { destruct rest as [|value rest']; [discriminate H|].
      destruct (nonEmpty value) eqn:Ev; [|discriminate H]. cbn [negb] in H.
      apply (Two value rest' _ eq_refl) in H; [exact H|].
      split; [left; reflexivity|]. split; [|left; reflexivity].
      apply optionGiven_value. exact Ev. }
    destruct (startsWith (lit "--onshape-document-id=") arg) eqn:E8.
    { apply One in H; [exact H|].
      split; [left; reflexivity|]. split; [|left; reflexivity].
      apply optionGiven_slice; [exact E8 | left; reflexivity]. }
    destruct (eqb_str arg (lit "--onshape-workspace-id")) eqn:E9.
    { destruct rest as [|value rest']; [discriminate H|].
      destruct (nonEmpty value) eqn:Ev; [|discriminate H]. cbn [negb] in H.
      apply (Two value rest' _ eq_refl) in H; [exact H|].
      split; [left; reflexivity|]. split; [left; reflexivity|].
      apply optionGiven_value. exact Ev. }
    destruct (startsWith (lit "--onshape-workspace-id=") arg) eqn:E10;
      [|discriminate H].
    apply One in H; [exact H|].
    split; [left; reflexivity|]. split; [left; reflexivity|].
    apply optionGiven_slice; [exact E10 | left; reflexivity].
Qed.

(** X11. When [parseArgs] returns, the root it returns is the resolved
    form of a non-empty root that the command line gives, in the
    argument [--root=r] or in the two arguments [--root r]; with no
    such root it raises or ends the process. *)
Theorem parseArgs_root (cwd : str) (pathResolve : list str -> str)
    (argv : list str) (options : CliOptions.t) :
  parseArgs cwd pathResolve argv = Returns options ->
  exists r,
    r <> [] /\ CliOptions.root options = pathResolve [r] /\ rootGiven r argv.
Proof.
  unfold parseArgs. intros H.
  destruct (parseArgsLoop argv initialOptions) as [o| |] eqn:E; try discriminate H.
  destruct (nonEmpty (CliOptions.root o)) eqn:En; [|discriminate H].
  cbn [negb] in H. injection H as <-.
  exists (CliOptions.root o). split; [apply nonEmpty_neq; exact En|].
  split; [reflexivity|].
  destruct (parseArgsLoop_given _ argv (le_n _) _ _ E) as ([R|[R|R]] & _).
  - rewrite R in En. discriminate En.
  - rewrite R in En. discriminate En.
  - exact R.
Qed.

Lemma parseArgs_root_witness :
  exists r, r <> [] /\ rootGiven r [lit "--out=g.json"; lit "--root"; lit "std"].
Proof.
  destruct (parseArgs_root [] (fun l => concat l)
              [lit "--out=g.json"; lit "--root"; lit "std"]
              {| CliOptions.root := lit "std"; CliOptions.out := lit "g.json";
                 CliOptions.onshapeMap := None;
                 CliOptions.onshapeDocumentId := None;
                 CliOptions.onshapeWorkspaceId := None |})
    as (r & H1 & _ & H2).
  - vm_compute. reflexivity.
  - exists r. split; assumption.
Defined.

(** The fields of the map that [loadOnshapeElementMap] returns. *)
Lemma loadOnshapeElementMap_fields filePath parsed loaded :
  loadOnshapeElementMap filePath parsed = Returns loaded ->
  trimmedId (OnshapeElementMap.documentId loaded)
  /\ trimmedId (OnshapeElementMap.workspaceId loaded)
  /\ exists entries,
       OnshapeElementMap.elementsByName loaded = Some (asStrings entries)
       /\ checkElementIds filePath entries = Returns tt.
Proof.
  unfold loadOnshapeElementMap.
  destruct (negb (isRecord parsed)); [discriminate|].
  destruct (mapGet (lit "elementsByName") (fieldsOf parsed)) as [e|].
  - destruct (negb (isRecord e)); [discriminate|].
    destruct (checkElementIds filePath (fieldsOf e)) as [[]| |] eqn:Ec;
      try discriminate.
    intros [= <-]. cbn.
    split; [apply trimmedString_trimmedId|].
    split; [apply trimmedString_trimmedId|].
    exists (fieldsOf e). split; [reflexivity | exact Ec].
  - intros [= <-]. cbn.
    split; [apply trimmedString_trimmedId|].
    split; [apply trimmedString_trimmedId|].
    exists []. split; reflexivity.
Qed.

(** X12. The ids of the source links.  With the options that
    [parseArgs] returns and the map that [loadOnshapeElementMap]
    returns, the document id and the workspace id that [main] hands to
    [buildGraph] are never empty, unless the command line holds the
    argument [--onshape-document-id=] (resp. [--onshape-workspace-id=])
    with nothing after the equals sign; and no element id is blank. *)
Theorem sourceConfig_ids (cwd : str) (pathResolve : list str -> str)
    (argv : list str) (options : CliOptions.t)
    (filePath : str) (parsed : json) (loaded : OnshapeElementMap.t) :
  parseArgs cwd pathResolve argv = Returns options ->
  loadOnshapeElementMap filePath parsed = Returns loaded ->
  (SourceConfig.documentId (onshapeSourceConfigOf options loaded) = [] ->
   In (lit "--onshape-document-id=") argv)
  /\ (SourceConfig.workspaceId (onshapeSourceConfigOf options loaded) = [] ->
      In (lit "--onshape-workspace-id=") argv)
  /\ forall name id,
       In (name, id) (SourceConfig.elementsByName (onshapeSourceConfigOf options loaded)) ->
       notBlank id = true.
Proof.
  intros Ha Hl.
  destruct (loadOnshapeElementMap_fields _ _ _ Hl) as (Ld & Lw & entries & Le & He).
  unfold parseArgs in Ha.
  destruct (parseArgsLoop argv initialOptions) as [o| |] eqn:E; try discriminate Ha.
  destruct (negb (nonEmpty (CliOptions.root o))); [discriminate Ha|].
  injection Ha as <-.
  destruct (parseArgsLoop_given _ argv (le_n _) _ _ E) as (_ & D & W).
  unfold onshapeSourceConfigOf. cbn.
  split; [|split].
  - destruct D as [->|(v & -> & Hv)]; cbn.
    + destruct (OnshapeElementMap.documentId loaded) as [d|] eqn:Ed; cbn.
      * intros ->. destruct (Ld _ eq_refl) as (Hne & _). contradiction.
      * discriminate.
    + exact Hv.
  - destruct W as [->|(v & -> & Hv)]; cbn.
    + destruct (OnshapeElementMap.workspaceId loaded) as [d|] eqn:Ed; cbn.
      * intros ->. destruct (Lw _ eq_refl) as (Hne & _). contradiction.
      * discriminate.
    + exact Hv.
  - rewrite Le. cbn. intros name id Hin.
    apply (checkElementIds_ok filePath entries He name id Hin).
Qed.

Lemma sourceConfig_ids_witness : notBlank (lit "e1") = true.
Proof.
  refine (proj2 (proj2 (sourceConfig_ids [] (fun l => concat l)
    [lit "--root=std"; lit "--onshape-map=m.json"]
    {| CliOptions.root := lit "std"; CliOptions.out := lit "public/graph.json";
       CliOptions.onshapeMap := Some (lit "m.json");
       CliOptions.onshapeDocumentId := None;
       CliOptions.onshapeWorkspaceId := None |}
    (lit "m.json")
    (JObject [(lit "elementsByName", JObject [(lit "vector.fs", JString (lit "e1"))])])
    {| OnshapeElementMap.documentId := None;
       OnshapeElementMap.workspaceId := None;
       OnshapeElementMap.elementsByName := Some [(lit "vector.fs", lit "e1")] |}
    _ _)) (lit "vector.fs") (lit "e1") _).
  - vm_compute. reflexivity.
  - vm_compute. reflexivity.
  - left. reflexivity.
Defined.

(** ** The targets of a node and the edges that leave it *)

Section Targets.

Variable index : suffixIndex.
Variable ids : list str.

Lemma stepDecl_targets b d :
  targetsByFile (stepDecl index ids b d) = targetsByFile b.
Proof.
  destruct d as [[k s] p]. unfold stepDecl, addVirtual, addAlias, addConsumer, addEdge.
  repeat match goal with
  | |- context [if ?x then _ else _] => destruct x
  end; reflexivity.
Qed.

Lemma fold_stepDecl_targets ds : forall b,
  targetsByFile (fold_left (stepDecl index ids) ds b) = targetsByFile b.
Proof.
  induction ds as [|d ds IH]; intros b; simpl; [reflexivity|].
  rewrite IH. apply stepDecl_targets.
Qed.

Lemma declareFile_targets b f :
  targetsByFile (declareFile index ids b f)
  = mapSet (ParsedFile.id f)
      (map (resolved index) (ParsedFile.imports f),
       map (resolved index) (ParsedFile.reexports f))
      (targetsByFile b).
Proof.
  unfold declareFile. rewrite fold_declare. rewrite fold_declare.
  cbn [targetsByFile app]. rewrite !fold_stepDecl_targets. reflexivity.
Qed.

Lemma fold_declareFile_other x files : forall b,
  ~ In x (map ParsedFile.id files) ->
  mapGet x (targetsByFile (fold_left (declareFile index ids) files b))
  = mapGet x (targetsByFile b).
Proof.
  induction files as [|f files IH]; intros b H; simpl; [reflexivity|].
  simpl in H. rewrite IH by tauto.
  rewrite declareFile_targets, mapGet_mapSet_other; [reflexivity|].
  intros E. apply H. left. symmetry. exact E.
Qed.

Lemma fold_declareFile_targets f files : forall b,
  NoDup (map ParsedFile.id files) -> In f files ->
  mapGet (ParsedFile.id f)
    (targetsByFile (fold_left (declareFile index ids) files b))
  = Some (map (resolved index) (ParsedFile.imports f),
          map (resolved index) (ParsedFile.reexports f)).
Proof.
  induction files as [|f' files IH]; intros b Hnd Hin; [destruct Hin|].
  simpl in Hnd. inversion Hnd as [|? ? Hout Hnd']; subst.
  destruct Hin as [->|Hin]; simpl.
  - rewrite fold_declareFile_other by exact Hout.
    rewrite declareFile_targets. apply mapGet_mapSet_same.
  - apply IH; assumption.
Qed.

End Targets.

(** The identities of the edges of a graph are those of the
    declarations of its files. *)
Lemma edge_triple_iff {host : Host} parsedFiles t :
  Forall (fun f => nulFree (ParsedFile.id f)) parsedFiles ->
  (exists e, In e (edges (buildGraphFrom parsedFiles)) /\ tripleOf e = t)
  <-> (exists d, In d (allDecls parsedFiles)
                 /\ tripleOfDecl (buildSuffixIndex parsedFiles) d = t).
Proof.
  intros Hnf. split.
  - intros (e & He & <-).
    apply (Permutation_in _ (edges_perm parsedFiles)) in He.
    rewrite firstLoop_edges in He. apply run_edges_decl in He.
    destruct He as (d & Hd & E). exists d. auto.
  - intros (d & Hd & <-).
    destruct (run_decl_edge (buildSuffixIndex parsedFiles)
                (parsedFileIdsOf parsedFiles) _ _ Hd) as (e & He & Ek).
    rewrite <- firstLoop_edges in He.
    exists e. split.
    + apply (Permutation_in _ (Permutation_sym (edges_perm parsedFiles))). exact He.
    + pose proof (created_source parsedFiles e Hnf He) as Hs.
      destruct d as [[k s] p]. apply allDecls_In in Hd.
      destruct Hd as (f & Hf & -> & _).
      unfold keyOfEdge, tripleOf, tripleOfDecl in *. cbn [keyOfTriple] in Ek.
      apply edgeKey_inj in Ek; [|exact Hs|].
      * destruct Ek as (-> & -> & ->). reflexivity.
      * rewrite Forall_forall in Hnf. apply Hnf. exact Hf.
Qed.

(** X13. The targets of a node.  For files with distinct ids, the
    node of a file lists in [importTargets] what its imports resolve
    to, one for one and in their order, and likewise for its
    re-exports; and these are the targets of the import (resp.
    re-export) edges that leave the node. *)
Theorem node_targets {host : Host} (parsedFiles : list ParsedFile.t)
    (f : ParsedFile.t) :
  NoDup (map ParsedFile.id parsedFiles) ->
  Forall (fun f => nulFree (ParsedFile.id f)) parsedFiles ->
  In f parsedFiles ->
  let index := buildSuffixIndex parsedFiles in
  let g := buildGraphFrom parsedFiles in
  let n := nodeOfFile parsedFiles f in
  In n (nodes g)
  /\ NodeData.importTargets n = map (resolved index) (ParsedFile.imports f)
  /\ NodeData.reexportTargets n = map (resolved index) (ParsedFile.reexports f)
  /\ (forall t, In t (NodeData.importTargets n) <->
        exists e, In e (edges g) /\ tripleOf e = (KImport, ParsedFile.id f, t))
  /\ (forall t, In t (NodeData.reexportTargets n) <->
        exists e, In e (edges g) /\ tripleOf e = (KReexport, ParsedFile.id f, t)).
Proof.
  intros Hnd Hnf Hf index g n. subst index g n.
  assert (Et : mapGet (ParsedFile.id f) (targetsByFile (firstLoop parsedFiles))
               = Some (map (resolved (buildSuffixIndex parsedFiles)) (ParsedFile.imports f),
                       map (resolved (buildSuffixIndex parsedFiles)) (ParsedFile.reexports f)))
    by (apply fold_declareFile_targets; assumption).
  assert (Ei : NodeData.importTargets (nodeOfFile parsedFiles f)
               = map (resolved (buildSuffixIndex parsedFiles)) (ParsedFile.imports f))
    by (unfold nodeOfFile, fileNode; cbn [NodeData.importTargets]; rewrite Et; reflexivity).
  assert (Er : NodeData.reexportTargets (nodeOfFile parsedFiles f)
               = map (resolved (buildSuffixIndex parsedFiles)) (ParsedFile.reexports f))
    by (unfold nodeOfFile, fileNode; cbn [NodeData.reexportTargets]; rewrite Et; reflexivity).
  split; [apply nodes_In; left; exists f; auto|].
  split; [exact Ei|]. split; [exact Er|].
  split; intros t.
  - rewrite Ei, (edge_triple_iff parsedFiles _ Hnf), in_map_iff. split.
    + intros (p & <- & Hp). exists (KImport, ParsedFile.id f, p). split; [|reflexivity].
      apply allDecls_In. exists f. auto.
    + intros ([[k s] p] & Hd & E). injection E as -> -> <-.
      apply allDecls_In in Hd. destruct Hd as (f' & Hf' & E & [(_ & Hp)|([=] & _)]).
      apply (id_inj parsedFiles f f' Hnd Hf Hf') in E. subst f'.
      exists p. auto.
  - rewrite Er, (edge_triple_iff parsedFiles _ Hnf), in_map_iff. split.
    + intros (p & <- & Hp). exists (KReexport, ParsedFile.id f, p). split; [|reflexivity].
      apply allDecls_In. exists f. auto.
    + intros ([[k s] p] & Hd & E). injection E as -> -> <-.
      apply allDecls_In in Hd. destruct Hd as (f' & Hf' & E & [([=] & _)|(_ & Hp)]).
      apply (id_inj parsedFiles f f' Hnd Hf Hf') in E. subst f'.
      exists p. auto.
Qed.

Lemma node_targets_witness :
  NodeData.importTargets (@nodeOfFile rootCollation twoSpellings
    (file "a.fs" ["b.fs"; "x/lib/b.fs"]%string [] [] []))
  = map (resolved (buildSuffixIndex twoSpellings)) [lit "b.fs"; lit "x/lib/b.fs"].
Proof.
  refine (proj1 (proj2 (@node_targets rootCollation twoSpellings
    (file "a.fs" ["b.fs"; "x/lib/b.fs"]%string [] [] []) _ _ _))).
  - repeat constructor; vm_compute; intuition discriminate.
  - repeat constructor; unfold nulFree; vm_compute; intuition discriminate.
  - left. reflexivity.
Defined.

(** ** The graph does not depend on the order of the files *)

Lemma sorted_perm_eq {A} (cmp : A -> A -> Z) : forall l l',
  (forall a b, In a l -> In b l -> cle cmp a b -> cle cmp b a -> a = b) ->
  StronglySorted (cle cmp) l -> StronglySorted (cle cmp) l' ->
  Permutation l l' -> l = l'.
Proof.
  induction l as [|a t IH]; intros l' Hanti Hs Hs' Hp.
  - apply Permutation_nil in Hp. subst. reflexivity.
  - destruct l' as [|a' t'].
    { apply Permutation_sym, Permutation_nil in Hp. discriminate Hp. }
    inversion Hs as [|? ? Hst Hall]; subst.
    inversion Hs' as [|? ? Hst' Hall']; subst.
    rewrite Forall_forall in Hall, Hall'.
    assert (Ha' : In a' (a :: t))
      by (apply (Permutation_in _ (Permutation_sym Hp)); left; reflexivity).
    assert (Ha : In a (a' :: t')) by (apply (Permutation_in _ Hp); left; reflexivity).
    assert (E : a = a').
    { destruct Ha' as [E|Ha']; [exact E|].
      destruct Ha as [E|Ha]; [symmetry; exact E|].
      apply Hanti; [left; reflexivity | right; exact Ha' | |].
      - apply Hall. exact Ha'.
      - apply Hall'. exact Ha. }
    subst a'. f_equal. apply IH; try assumption.
    + intros x y Hx Hy. apply Hanti; right; assumption.
    + apply Permutation_cons_inv in Hp. exact Hp.
Qed.

Lemma sortBy_perm_eq {A} (cmp : A -> A -> Z) l l' :
  (forall a b, cle cmp a b \/ cle cmp b a) ->
  (forall a b c, cle cmp a b -> cle cmp b c -> cle cmp a c) ->
  (forall a b, In a l -> In b l -> cle cmp a b -> cle cmp b a -> a = b) ->
  Permutation l l' -> sortBy cmp l = sortBy cmp l'.
Proof.
  intros Htot Htr Hanti Hp. apply (sorted_perm_eq cmp).
  - intros a b Ha Hb. apply Hanti; apply (sortBy_In cmp); assumption.
  - apply sortBy_StronglySorted; assumption.
  - apply sortBy_StronglySorted; assumption.
  - rewrite !sortBy_perm. exact Hp.
Qed.

Lemma insertBy_map {host : Host} {A} (f : A -> str) x l :
  map f (insertBy (fun a b => localeCompare (f a) (f b)) x l)
  = insertBy localeCompare (f x) (map f l).
Proof.
  induction l as [|y l IH]; simpl; [reflexivity|].
  destruct (Z.leb (localeCompare (f x) (f y)) 0); simpl; [reflexivity|].
  rewrite IH. reflexivity.
Qed.

Lemma sortBy_map {host : Host} {A} (f : A -> str) l :
  map f (sortBy (fun a b => localeCompare (f a) (f b)) l)
  = sortBy localeCompare (map f l).
Proof.
  induction l as [|x l IH]; simpl; [reflexivity|].
  rewrite insertBy_map, IH. reflexivity.
Qed.

(** Two strings that the host ranks below each other, it ranks equal;
    it tells them apart when they are among the names it separates. *)
Lemma collate_both {host : Host} {collation : Collation host} names a b :
  separates host names -> In a names -> In b names ->
  cle localeCompare a b -> cle localeCompare b a -> a = b.
Proof.
  unfold cle. intros Hs Ha Hb H1 H2. apply Hs; try assumption.
  destruct (Z.eq_dec (localeCompare a b) 0) as [E|E]; [exact E|].
  assert (Hlt : (localeCompare a b < 0)%Z) by lia.
  pose proof (collate_flip a b Hlt). lia.
Qed.

Section Permuted.

Variables files files' : list ParsedFile.t.
Hypothesis Hperm : Permutation files files'.

Lemma resolved_perm p :
  resolved (buildSuffixIndex files) p = resolved (buildSuffixIndex files') p.
Proof.
  unfold resolved. rewrite !resolveModuleTarget_spec. unfold resolveSpec.
  rewrite (firstSingle_perm files files' _ Hperm). reflexivity.
Qed.

Lemma allDecls_perm : Permutation (allDecls files) (allDecls files').
Proof. unfold allDecls. apply Permutation_flat_map. exact Hperm. Qed.

Lemma ids_perm x :
  In x (parsedFileIdsOf files) <-> In x (parsedFileIdsOf files').
Proof.
  rewrite !parsedFileIdsOf_In.
  split; apply Permutation_in; [|symmetry]; apply Permutation_map; exact Hperm.
Qed.

Lemma occurrences_perm t p :
  occurrences (buildSuffixIndex files) (allDecls files) t p
  = occurrences (buildSuffixIndex files') (allDecls files') t p.
Proof.
  unfold occurrences.
  rewrite (filter_length_perm _ _ _ allDecls_perm).
  f_equal. apply filter_ext. intros [[k s] q]. unfold observes.
  rewrite resolved_perm. reflexivity.
Qed.

End Permuted.

(** The names of a tree: the ids of its files and the paths they
    declare. *)
Lemma declared_name files k s p :
  In (k, s, p) (allDecls files) -> In s (namesOf files) /\ In p (namesOf files).
Proof.
  intros H. apply allDecls_In in H. destruct H as (f & Hf & -> & Hp).
  unfold namesOf. split; apply in_or_app.
  - left. apply in_map. exact Hf.
  - right. apply in_flat_map. exists f. split; [exact Hf|].
    apply in_or_app. destruct Hp as [(_ & Hp)|(_ & Hp)]; [left | right]; exact Hp.
Qed.

Lemma observed_name files t p :
  0 < occurrences (buildSuffixIndex files) (allDecls files) t p ->
  In p (namesOf files).
Proof.
  unfold occurrences. intros H.
  destruct (filter _ (allDecls files)) as [|[[k s] q] l] eqn:E; [simpl in H; lia|].
  assert (Hin : In (k, s, q) (filter (observes (buildSuffixIndex files) t p)
                                (allDecls files)))
    by (rewrite E; left; reflexivity).
  apply filter_In in Hin. destruct Hin as (Hd & Ho).
  unfold observes in Ho. repeat (apply andb_true_iff in Ho; destruct Ho as (Ho & _)).
  apply eqb_str_eq in Ho. subst q.
  apply (declared_name files k s p Hd).
Qed.

Lemma ranked_both {host : Host} {collation : Collation host} names a ca b cb :
  separates host names -> In a names -> In b names ->
  ranked (a, ca) (b, cb) -> ranked (b, cb) (a, ca) -> a = b.
Proof.
  unfold ranked. cbn [fst snd]. intros Hs Ha Hb H1 H2.
  assert (L : (localeCompare a b <= 0)%Z /\ (localeCompare b a <= 0)%Z).
  { destruct H1 as [H1|(E1 & [H1|(L1 & H1)])], H2 as [H2|(E2 & [H2|(L2 & H2)])];
      lia. }
  destruct L as (L1 & L2). apply (collate_both names); assumption.
Qed.

Lemma fold_left_ext_in {A B} (f g : A -> B -> A) l : forall a,
  (forall a x, In x l -> f a x = g a x) -> fold_left f l a = fold_left g l a.
Proof.
  induction l as [|x l IH]; intros a H; simpl; [reflexivity|].
  rewrite H by (left; reflexivity). apply IH.
  intros a' y Hy. apply H. right. exact Hy.
Qed.

Lemma NoDup_map_In_eq {A B} (f : A -> B) l x y :
  NoDup (map f l) -> In x l -> In y l -> f x = f y -> x = y.
Proof.
  induction l as [|z l IH]; intros Hnd Hx Hy E; [destruct Hx|].
  simpl in Hnd. inversion Hnd as [|? ? Hout Hnd']; subst.
  destruct Hx as [->|Hx], Hy as [->|Hy].
  - reflexivity.
  - exfalso. apply Hout. rewrite E. apply in_map. exact Hy.
  - exfalso. apply Hout. rewrite <- E. apply in_map. exact Hx.
  - apply IH; assumption.
Qed.

(** The nodes before the final sort: those of the files, then the
    placeholders. *)
Lemma nodes_unsorted {host : Host} parsedFiles :
  nodes (buildGraphFrom parsedFiles) = sortBy nodeOrder (unsortedNodes parsedFiles).
Proof.
  unfold buildGraphFrom, unsortedNodes. cbn [nodes]. f_equal.
  apply addVirtualNodes_app.
  - apply (virtualNodes_inv parsedFiles).
  - intros t v Hin. destruct (virtualNodes_inv parsedFiles) as (_ & Hv & _).
    destruct (Hv t v Hin) as (-> & Hout & _). split; [reflexivity|].
    rewrite (realNodes_ids parsedFiles). intros H. apply Hout.
    apply parsedFileIdsOf_In. exact H.
Qed.

Lemma unsortedNodes_ids {host : Host} parsedFiles :
  map NodeData.id (unsortedNodes parsedFiles)
  = map ParsedFile.id parsedFiles ++ map fst (virtualNodes (firstLoop parsedFiles)).
Proof.
  unfold unsortedNodes.
  rewrite map_app, (realNodes_ids parsedFiles), (nodes_virtual_ids parsedFiles).
  reflexivity.
Qed.

Lemma nodes_unsorted_NoDup {host : Host} parsedFiles :
  NoDup (map ParsedFile.id parsedFiles) ->
  NoDup (map NodeData.id (unsortedNodes parsedFiles)).
Proof.
  intros Hnd. destruct (virtualNodes_inv parsedFiles) as (Hvnd & Hv & _).
  rewrite unsortedNodes_ids.
  apply NoDup_app; [assumption | assumption |].
  intros x Hx Hx'. apply in_map_iff in Hx'. destruct Hx' as ([t v] & <- & Hin).
  destruct (Hv _ _ Hin) as (_ & Hout & _). apply Hout.
  apply parsedFileIdsOf_In. exact Hx.
Qed.

(** The ids of the nodes are names of the tree. *)
Lemma unsortedNodes_names {host : Host} parsedFiles n :
  In n (unsortedNodes parsedFiles) -> In (NodeData.id n) (namesOf parsedFiles).
Proof.
  intros H. apply (in_map NodeData.id) in H. rewrite unsortedNodes_ids in H.
  apply in_app_or in H. destruct H as [H|H].
  - unfold namesOf. apply in_or_app. left. exact H.
  - destruct (virtualNodes_inv parsedFiles) as (_ & Hv & _).
    apply in_map_iff in H. destruct H as ([t v] & <- & Hin).
    destruct (Hv _ _ Hin) as (_ & _ & _ & k & s & Hd).
    apply (declared_name parsedFiles k s t Hd).
Qed.

Section Independent.

Context {host : Host} {collation : Collation host}.
Variables files files' : list ParsedFile.t.
Hypothesis Hperm : Permutation files files'.
Hypothesis Hnd : NoDup (map ParsedFile.id files).
Hypothesis Hsep : separates host (namesOf files).

Lemma permuted_ids_NoDup : NoDup (map ParsedFile.id files').
Proof.
  apply (Permutation_NoDup (Permutation_map ParsedFile.id Hperm)). exact Hnd.
Qed.

Lemma modulePath_perm t fallback :
  chooseModulePath (mapGet t (aliasCounts (firstLoop files))) fallback
  = chooseModulePath (mapGet t (aliasCounts (firstLoop files'))) fallback.
Proof.
  rewrite !firstLoop_aliasCounts.
  pose proof (run_choose (buildSuffixIndex files) (parsedFileIdsOf files)
                (allDecls files) t fallback) as (Z1 & P1).
  pose proof (run_choose (buildSuffixIndex files') (parsedFileIdsOf files')
                (allDecls files') t fallback) as (Z2 & P2).
  set (c := chooseModulePath
              (mapGet t (aliasCounts (run (buildSuffixIndex files)
                 (parsedFileIdsOf files) (allDecls files)))) fallback) in *.
  set (c' := chooseModulePath
               (mapGet t (aliasCounts (run (buildSuffixIndex files')
                  (parsedFileIdsOf files') (allDecls files')))) fallback) in *.
  assert (Eo : forall p,
    occurrences (buildSuffixIndex files') (allDecls files') t p
    = occurrences (buildSuffixIndex files) (allDecls files) t p)
    by (intros p; symmetry; apply occurrences_perm; exact Hperm).
  pose proof (observed_name files t) as Hname.
  set (occ := occurrences (buildSuffixIndex files) (allDecls files) t) in *.
  destruct (Nat.eq_dec (occ c) 0) as [E0|E0].
  - assert (Hz : forall p, occ p = 0).
    { intros p. destruct (Nat.eq_dec (occ p) 0) as [E|E]; [exact E|].
      destruct (P1 p ltac:(lia)) as (H & _). lia. }
    rewrite (Z1 Hz). symmetry. apply Z2. intros p. rewrite Eo. apply Hz.
  - destruct (P2 c ltac:(rewrite Eo; lia)) as (Hc' & Pr2).
    rewrite Eo in Hc'. rewrite (Eo c'), (Eo c) in Pr2.
    destruct (P1 c' Hc') as (_ & Pr1).
    apply (ranked_both (namesOf files) _ _ _ _ Hsep
             (Hname c ltac:(lia)) (Hname c' Hc') Pr1 Pr2).
Qed.

Lemma consumers_perm t :
  Permutation
    (orEmpty (mapGet t (directConsumersByTarget (firstLoop files))))
    (orEmpty (mapGet t (directConsumersByTarget (firstLoop files')))).
Proof.
  rewrite !firstLoop_consumers.
  destruct (run_consumersInv (buildSuffixIndex files) (parsedFileIdsOf files)
              (allDecls files) t) as (N1 & M1).
  destruct (run_consumersInv (buildSuffixIndex files') (parsedFileIdsOf files')
              (allDecls files') t) as (N2 & M2).
  apply NoDup_Permutation; [exact N1 | exact N2|].
  intros c. rewrite M1, M2. rewrite (ids_perm files files' Hperm).
  split; intros (Ht & k & p & Hin & E); (split; [exact Ht|]); exists k, p.
  - split; [apply (Permutation_in _ (allDecls_perm _ _ Hperm)); exact Hin|].
    rewrite <- (resolved_perm files files' Hperm). exact E.
  - split; [apply (Permutation_in _ (Permutation_sym (allDecls_perm _ _ Hperm)));
            exact Hin|].
    rewrite (resolved_perm files files' Hperm). exact E.
Qed.

Lemma consumers_names t c :
  In c (orEmpty (mapGet t (directConsumersByTarget (firstLoop files)))) ->
  In c (namesOf files).
Proof.
  rewrite firstLoop_consumers. intros H.
  destruct (run_consumersInv (buildSuffixIndex files) (parsedFileIdsOf files)
              (allDecls files) t) as (_ & M).
  apply M in H. destruct H as (_ & k & p & Hd & _).
  apply (declared_name files k c p Hd).
Qed.

Lemma usesSymbol_perm symbol c :
  usesSymbol (byId files) symbol c = usesSymbol (byId files') symbol c.
Proof.
  pose proof (usesSymbol_spec files symbol c Hnd) as H1.
  pose proof (usesSymbol_spec files' symbol c permuted_ids_NoDup) as H2.
  assert (E : usesSymbol (byId files) symbol c = true
              <-> usesSymbol (byId files') symbol c = true).
  { rewrite H1, H2. split; intros (cf & Hin & Hc); exists cf; split; try exact Hc.
    - apply (Permutation_in _ Hperm). exact Hin.
    - apply (Permutation_in _ (Permutation_sym Hperm)). exact Hin. }
  destruct (usesSymbol (byId files) symbol c),
           (usesSymbol (byId files') symbol c); try reflexivity.
  - symmetry. apply E. reflexivity.
  - apply E. reflexivity.
Qed.

Lemma usersOf_perm t symbol :
  usersOf (byId files)
    (orEmpty (mapGet t (directConsumersByTarget (firstLoop files)))) symbol
  = usersOf (byId files')
      (orEmpty (mapGet t (directConsumersByTarget (firstLoop files')))) symbol.
Proof.
  unfold usersOf. apply sortBy_perm_eq.
  - intros a b. apply collate_total.
  - intros a b c. apply collate_trans.
  - intros a b Ha Hb. apply filter_In in Ha, Hb.
    apply (collate_both (namesOf files)); [exact Hsep | |];
      apply (consumers_names t); tauto.
  - rewrite (filter_ext _ _ (usesSymbol_perm symbol)).
    apply filter_perm. apply consumers_perm.
Qed.

Lemma fileNode_perm f :
  In f files ->
  fileNode (firstLoop files) (byId files) f
  = fileNode (firstLoop files') (byId files') f.
Proof.
  intros Hf.
  assert (Hf' : In f files') by (apply (Permutation_in _ Hperm); exact Hf).
  assert (Et : mapGet (ParsedFile.id f) (targetsByFile (firstLoop files))
               = Some (map (resolved (buildSuffixIndex files)) (ParsedFile.imports f),
                       map (resolved (buildSuffixIndex files)) (ParsedFile.reexports f)))
    by (apply fold_declareFile_targets; assumption).
  assert (Et' : mapGet (ParsedFile.id f) (targetsByFile (firstLoop files'))
                = Some (map (resolved (buildSuffixIndex files')) (ParsedFile.imports f),
                        map (resolved (buildSuffixIndex files')) (ParsedFile.reexports f)))
    by (apply fold_declareFile_targets; [apply permuted_ids_NoDup | assumption]).
  unfold fileNode. rewrite Et, Et', modulePath_perm. cbn [fst snd].
  rewrite !(map_ext _ _ (resolved_perm files files' Hperm)).
  f_equal. unfold symbolUsersOf. apply fold_left_ext_in.
  intros a symbol _. rewrite usersOf_perm. reflexivity.
Qed.

Lemma virtuals_perm :
  Permutation (virtualNodes (firstLoop files)) (virtualNodes (firstLoop files')).
Proof.
  destruct (virtualNodes_inv files) as (N1 & V1 & D1).
  destruct (virtualNodes_inv files') as (N2 & V2 & D2).
  assert (Half : forall fs fs',
    Permutation fs fs' ->
    virtualInv (buildSuffixIndex fs) (parsedFileIdsOf fs) (allDecls fs)
      (virtualNodes (firstLoop fs)) ->
    virtualInv (buildSuffixIndex fs') (parsedFileIdsOf fs') (allDecls fs')
      (virtualNodes (firstLoop fs')) ->
    forall x, In x (virtualNodes (firstLoop fs)) ->
              In x (virtualNodes (firstLoop fs'))).
  { intros fs fs' Hp (_ & Va & _) (_ & _ & Db) [t v] Hin.
    destruct (Va t v Hin) as (-> & Hout & Hr & k & s & Hd).
    apply (Db k s t).
    - apply (Permutation_in _ (allDecls_perm _ _ Hp)). exact Hd.
    - rewrite <- (resolved_perm fs fs' Hp). unfold resolved. rewrite Hr.
      rewrite <- (ids_perm fs fs' Hp). exact Hout. }
  apply NoDup_Permutation.
  - apply (NoDup_map_inv fst). exact N1.
  - apply (NoDup_map_inv fst). exact N2.
  - intros x. split.
    + apply (Half files files' Hperm); apply virtualNodes_inv.
    + apply (Half files' files (Permutation_sym Hperm)); apply virtualNodes_inv.
Qed.

Lemma nodes_perm_eq :
  nodes (buildGraphFrom files) = nodes (buildGraphFrom files').
Proof.
  rewrite !nodes_unsorted. apply sortBy_perm_eq.
  - intros a b. apply collate_total.
  - intros a b c. apply collate_trans.
  - intros a b Ha Hb H1 H2.
    apply (NoDup_map_In_eq NodeData.id _ a b (nodes_unsorted_NoDup files Hnd) Ha Hb).
    apply (collate_both (namesOf files)); try assumption;
      apply unsortedNodes_names; assumption.
  - unfold unsortedNodes. apply Permutation_app.
    + rewrite (map_ext_in _ _ _ fileNode_perm).
      apply Permutation_map. exact Hperm.
    + apply Permutation_map. apply virtuals_perm.
Qed.

End Independent.

Lemma edge_triples_NoDup {host : Host} parsedFiles :
  NoDup (map tripleOf (edges (buildGraphFrom parsedFiles))).
Proof.
  apply (Permutation_NoDup
           (Permutation_sym (Permutation_map tripleOf (edges_perm parsedFiles)))).
  destruct (created_inv parsedFiles) as (_ & _ & H).
  apply (NoDup_map_inv keyOfTriple). rewrite map_map. exact H.
Qed.

Lemma edge_ids {host : Host} parsedFiles :
  map EdgeData.id (edges (buildGraphFrom parsedFiles))
  = sortBy localeCompare
      (map edgeId (seq 1 (length (edges (buildGraphFrom parsedFiles))))).
Proof.
  destruct (created_inv parsedFiles) as (_ & I & _).
  rewrite (Permutation_length (edges_perm parsedFiles)), <- I.
  unfold buildGraphFrom. cbn [edges]. apply (sortBy_map EdgeData.id).
Qed.

(** X14. The graph does not depend on the order in which the files
    are handed to the builder, as long as the host tells the names of
    the tree apart.  For files with distinct ids, on a host whose
    comparison ranks no two different names of the tree (ids of files,
    declared paths) equal, the lists of nodes built from a list of
    files and from any permutation of it are equal, field for field;
    the edges have the same identities (kind, source, target) and the
    same ids, and only which edge carries which id can differ. *)
Theorem graph_order_independent {host : Host} {collation : Collation host}
    (parsedFiles parsedFiles' : list ParsedFile.t) :
  Permutation parsedFiles parsedFiles' ->
  NoDup (map ParsedFile.id parsedFiles) ->
  Forall (fun f => nulFree (ParsedFile.id f)) parsedFiles ->
  separates host (namesOf parsedFiles) ->
  nodes (buildGraphFrom parsedFiles) = nodes (buildGraphFrom parsedFiles')
  /\ Permutation (map tripleOf (edges (buildGraphFrom parsedFiles)))
       (map tripleOf (edges (buildGraphFrom parsedFiles')))
  /\ map EdgeData.id (edges (buildGraphFrom parsedFiles))
     = map EdgeData.id (edges (buildGraphFrom parsedFiles')).
Proof.
  intros Hperm Hnd Hnf Hsep.
  assert (Hnf' : Forall (fun f => nulFree (ParsedFile.id f)) parsedFiles').
  { rewrite Forall_forall in *. intros f Hf. apply Hnf.
    apply (Permutation_in _ (Permutation_sym Hperm)). exact Hf. }
  assert (Hp : Permutation (map tripleOf (edges (buildGraphFrom parsedFiles)))
                 (map tripleOf (edges (buildGraphFrom parsedFiles')))).
  { apply NoDup_Permutation; try apply edge_triples_NoDup.
    intros t. rewrite !in_map_iff.
    pose proof (edge_triple_iff parsedFiles t Hnf) as H1.
    pose proof (edge_triple_iff parsedFiles' t Hnf') as H2.
    assert (Hd : (exists d, In d (allDecls parsedFiles)
                    /\ tripleOfDecl (buildSuffixIndex parsedFiles) d = t)
                 <-> (exists d, In d (allDecls parsedFiles')
                        /\ tripleOfDecl (buildSuffixIndex parsedFiles') d = t)).
    { split; intros ([[k s] p] & Hin & E); exists (k, s, p);
        unfold tripleOfDecl in *.
      - split; [apply (Permutation_in _ (allDecls_perm _ _ Hperm)); exact Hin|].
        rewrite <- (resolved_perm _ _ Hperm). exact E.
      - split; [apply (Permutation_in _ (Permutation_sym (allDecls_perm _ _ Hperm)));
                exact Hin|].
        rewrite (resolved_perm _ _ Hperm). exact E. }
    split; intros (e & E & He).
    + destruct (proj2 H2 (proj1 Hd (proj1 H1 (ex_intro _ e (conj He E)))))
        as (e' & He' & E'). exists e'. auto.
    + destruct (proj2 H1 (proj2 Hd (proj1 H2 (ex_intro _ e (conj He E)))))
        as (e' & He' & E'). exists e'. auto. }
  split; [apply nodes_perm_eq; assumption|]. split; [exact Hp|].
  rewrite !edge_ids. apply Permutation_length in Hp. rewrite !length_map in Hp.
  rewrite Hp. reflexivity.
Qed.

Lemma plain_separates {host : Host} {collation : Collation host} names :
  ordersPlainNames host -> forallb plainName names = true -> separates host names.
Proof.
  intros Ho Hp a b Ha Hb E. rewrite forallb_forall in Hp.
  pose proof (Ho a b (Hp a Ha) (Hp b Hb)) as H1.
  pose proof (Ho b a (Hp b Hb) (Hp a Ha)) as H2.
  cbn [localeCompare codeUnits] in H1, H2.
  rewrite E in H1. rewrite (collate_sym a b E) in H2. symmetry in H1, H2.
  apply Z.leb_le in H1, H2. rewrite (codeUnitCompare_antisym a b) in H2.
  apply codeUnitCompare_eq. lia.
Qed.

Lemma graph_order_independent_witness :
  nodes (@buildGraphFrom rootCollation twoSpellings)
  = nodes (@buildGraphFrom rootCollation (rev twoSpellings)).
Proof.
  apply (@graph_order_independent rootCollation rootCollation_collation
           twoSpellings (rev twoSpellings)).
  - apply Permutation_rev.
  - repeat constructor; vm_compute; intuition discriminate.
  - repeat constructor; unfold nulFree; vm_compute; intuition discriminate.
  - apply (@plain_separates rootCollation rootCollation_collation);
      [apply rootCollation_plain | vm_compute; reflexivity].
Defined.

(** ** The order of the nodes *)

Section Stable.

Context {host : Host} {collation : Collation host}.
Context {A : Type}.
Variable key : A -> str.

Let byKey (a b : A) : Z := localeCompare (key a) (key b).
Let tied (x : str) (a : A) : bool := Z.eqb (localeCompare x (key a)) 0.

Lemma insertBy_tied x a l :
  filter (tied x) (insertBy byKey a l) = filter (tied x) (a :: l).
Proof.
  induction l as [|y l IH]; [reflexivity|].
  cbn [insertBy]. destruct (Z.leb (byKey a y) 0) eqn:E; [reflexivity|].
  cbn [filter] in *. rewrite IH.
  destruct (tied x y) eqn:Ey, (tied x a) eqn:Ea; try reflexivity.
  exfalso. unfold tied in Ey, Ea. apply Z.eqb_eq in Ey, Ea.
  apply Z.leb_gt in E. unfold byKey in E.
  pose proof (collate_eq_trans _ _ _ (collate_sym _ _ Ea) Ey). lia.
Qed.

(** The sort is stable: the elements that the host ranks equal to a
    string keep the order they had. *)
Lemma sortBy_tied x l :
  filter (tied x) (sortBy byKey l) = filter (tied x) l.
Proof.
  induction l as [|a l IH]; [reflexivity|].
  cbn [sortBy]. rewrite insertBy_tied. cbn [filter]. rewrite IH. reflexivity.
Qed.

End Stable.

(** X15. The nodes of a graph come in the order of the host's
    comparison of their ids, each id ranked below or equal to those
    after it.  Nodes whose ids the host ranks equal keep the order in
    which they were made: the nodes of the files in the order of the
    files, then the placeholders in the order in which their paths were
    first declared.  There is one node for each file and one for each
    placeholder. *)
Theorem nodes_sorted {host : Host} {collation : Collation host}
    (parsedFiles : list ParsedFile.t) :
  let g := buildGraphFrom parsedFiles in
  StronglySorted (cle localeCompare) (map NodeData.id (nodes g))
  /\ Permutation (nodes g) (unsortedNodes parsedFiles)
  /\ (forall x : str,
        filter (fun n => Z.eqb (localeCompare x (NodeData.id n)) 0) (nodes g)
        = filter (fun n => Z.eqb (localeCompare x (NodeData.id n)) 0)
            (unsortedNodes parsedFiles))
  /\ map NodeData.id (unsortedNodes parsedFiles)
     = map ParsedFile.id parsedFiles
       ++ map fst (virtualNodes (firstLoop parsedFiles))
  /\ length (nodes g)
     = length parsedFiles + length (virtualNodes (firstLoop parsedFiles)).
Proof.
  intros g. subst g. rewrite nodes_unsorted.
  split; [|split; [|split; [|split]]].
  - unfold nodeOrder. rewrite (sortBy_map NodeData.id).
    apply sortBy_StronglySorted.
    + intros a b. apply collate_total.
    + intros a b c. apply collate_trans.
  - apply sortBy_perm.
  - intros x. apply (sortBy_tied NodeData.id x).
  - apply unsortedNodes_ids.
  - rewrite sortBy_length. unfold unsortedNodes.
    rewrite length_app, !length_map. reflexivity.
Qed.

Lemma nodes_sorted_witness :
  StronglySorted (cle (@localeCompare rootCollation))
    (map NodeData.id (nodes (@buildGraphFrom rootCollation ambiguousFullPath))).
Proof.
  apply (@nodes_sorted rootCollation rootCollation_collation ambiguousFullPath).
Defined.

(** ** Resolution, in terms of the tails of paths *)

Lemma split_free s : slashes s = 0 -> split s = [s].
Proof.
  induction s as [|c t IH]; intros H; [reflexivity|].
  rewrite slashes_cons in H. simpl.
  destruct (N.eqb c SLASH); [discriminate H|].
  rewrite IH by exact H. reflexivity.
Qed.

Lemma split_app seg rest_ :
  slashes seg = 0 -> split (seg ++ SLASH :: rest_) = seg :: split rest_.
Proof.
  induction seg as [|c t IH]; intros H.
  - reflexivity.
  - rewrite slashes_cons in H. cbn [app split].
    destruct (N.eqb c SLASH); [discriminate H|].
    rewrite IH by exact H. reflexivity.
Qed.

Lemma split_join l :
  l <> [] -> Forall (fun seg => slashes seg = 0) l -> split (join l) = l.
Proof.
  induction l as [|seg l IH]; intros Hne H; [contradiction|].
  inversion H as [|? ? H0 Hl]; subst.
  destruct l as [|seg2 l]; [apply split_free; exact H0|].
  change (join (seg :: seg2 :: l)) with (seg ++ SLASH :: join (seg2 :: l)).
  rewrite split_app by exact H0. f_equal. apply IH; [discriminate | exact Hl].
Qed.

Lemma segmentsOf_join l : Forall goodSegment l -> segmentsOf (join l) = l.
Proof.
  intros H. unfold segmentsOf. destruct l as [|seg l]; [reflexivity|].
  rewrite split_join; [| discriminate |].
  - induction H as [|x l' (_ & Hx) _ IH]; [reflexivity|].
    simpl. rewrite Hx, IH. reflexivity.
  - rewrite Forall_forall in *. intros x Hx. apply H. exact Hx.
Qed.

Lemma segmentsOf_good s : Forall goodSegment (segmentsOf s).
Proof.
  pose proof (segmentsOf_slashes s) as H. rewrite Forall_forall in *.
  intros x Hx. split; [apply H; exact Hx|].
  unfold segmentsOf in Hx. apply filter_In in Hx. apply Hx.
Qed.

Lemma good_skipn i (l : list str) : Forall goodSegment l -> Forall goodSegment (skipn i l).
Proof.
  intros H. rewrite <- (firstn_skipn i l) in H. apply Forall_app in H. apply H.
Qed.

Lemma join_inj l l' :
  Forall goodSegment l -> Forall goodSegment l' -> join l = join l' -> l = l'.
Proof.
  intros H H' E. rewrite <- (segmentsOf_join l H), <- (segmentsOf_join l' H'), E.
  reflexivity.
Qed.

(** What a file registers under a string. *)
Lemma registeredBy_In s record x :
  In x (registeredBy s record) <->
  x = ParsedFile.id record
  /\ exists i, i < length (segmentsOf (ParsedFile.filePath record))
               /\ s = suffixAt (segmentsOf (ParsedFile.filePath record)) i.
Proof.
  unfold registeredBy. rewrite in_flat_map. split.
  - intros (i & Hi & H). apply in_seq in Hi.
    destruct (eqb_str_spec s (suffixAt (segmentsOf (ParsedFile.filePath record)) i))
      as [E|_]; [|destruct H].
    destruct H as [<-|[]]. split; [reflexivity|]. exists i. split; [lia | exact E].
  - intros (-> & i & Hi & E). exists i. split; [apply in_seq; lia|].
    rewrite <- E, eqb_str_refl. left. reflexivity.
Qed.

Lemma registeredBy_tail tail record :
  tail <> [] -> Forall goodSegment tail ->
  (exists x, In x (registeredBy (join tail) record))
  <-> endsWithSegments tail (ParsedFile.filePath record).
Proof.
  intros Hne Hg. split.
  - intros (x & Hx). apply registeredBy_In in Hx. destruct Hx as (_ & i & Hi & E).
    unfold suffixAt in E. apply join_inj in E;
      [|exact Hg | apply good_skipn, segmentsOf_good].
    exists (firstn i (segmentsOf (ParsedFile.filePath record))).
    rewrite E. symmetry. apply firstn_skipn.
  - intros (before & E). exists (ParsedFile.id record).
    apply registeredBy_In. split; [reflexivity|].
    exists (length before). rewrite E, length_app. split.
    + destruct tail; [contradiction | simpl; lia].
    + unfold suffixAt. rewrite skipn_app, Nat.sub_diag, skipn_all. reflexivity.
Qed.

Lemma firstSingle_Some records tries x :
  firstSingle records tries = Some x ->
  exists s, In s tries /\ registered s records = [x].
Proof.
  induction tries as [|s tries IH]; simpl; [discriminate|].
  destruct (registered s records) as [|y [|z l]] eqn:E.
  - intros H. destruct (IH H) as (s' & Hs & Hr). exists s'. auto.
  - intros [= ->]. exists s. auto.
  - intros H. destruct (IH H) as (s' & Hs & Hr). exists s'. auto.
Qed.

(** X16. A declared path resolves to a file along a shared tail.
    When [resolveModuleTarget] answers an id, there are one or more
    whole segments with which the normalized declared path ends, with
    which the path of a file of that id ends, and with which the path
    of no file of another id ends. *)
Theorem resolveModuleTarget_tail (declared : str) (records : list ParsedFile.t)
    (x : str) :
  resolveModuleTarget declared (buildSuffixIndex records) = Some x ->
  exists tail,
    tail <> []
    /\ endsWithSegments tail (normalizePath declared)
    /\ (exists f, In f records /\ ParsedFile.id f = x
                  /\ endsWithSegments tail (ParsedFile.filePath f))
    /\ forall g, In g records ->
         endsWithSegments tail (ParsedFile.filePath g) -> ParsedFile.id g = x.
Proof.
  rewrite resolveModuleTarget_spec. unfold resolveSpec. intros H.
  apply firstSingle_Some in H. destruct H as (s & Hs & Hr).
  assert (Hx : In x (registered s records)) by (rewrite Hr; left; reflexivity).
  unfold registered in Hx. apply in_flat_map in Hx. destruct Hx as (f & Hf & Hx).
  apply registeredBy_In in Hx. destruct Hx as (Ex & i & Hi & Es).
  set (segs := segmentsOf (ParsedFile.filePath f)) in *.
  set (tail := skipn i segs).
  assert (Hne : tail <> []).
  { intros E. apply (f_equal (@length _)) in E. unfold tail in E.
    rewrite length_skipn in E. simpl in E. lia. }
  assert (Hg : Forall goodSegment tail) by apply good_skipn, segmentsOf_good.
  assert (Ej : s = join tail) by exact Es.
  exists tail. split; [exact Hne|]. split; [|split].
  - unfold attempts in Hs. destruct Hs as [<-|Hs].
    + exists []. rewrite Ej. apply segmentsOf_join. exact Hg.
    + apply in_map_iff in Hs. destruct Hs as (j & Ej' & _).
      exists (firstn j (segmentsOf (normalizePath declared))).
      rewrite Ej in Ej'. unfold suffixAt in Ej'. apply join_inj in Ej';
        [| apply good_skipn, segmentsOf_good | exact Hg].
      rewrite <- Ej'. symmetry. apply firstn_skipn.
  - exists f. split; [exact Hf|]. split; [symmetry; exact Ex|].
    exists (firstn i segs). symmetry. apply firstn_skipn.
  - intros g Hg' He.
    apply (registeredBy_tail tail g Hne Hg) in He. destruct He as (y & Hy).
    pose proof (registeredBy_id _ _ _ Hy) as Ey. subst y.
    assert (Hin : In (ParsedFile.id g) (registered s records)).
    { unfold registered. apply in_flat_map. exists g. rewrite Ej. auto. }
    rewrite Hr in Hin. destruct Hin as [E|[]]. symmetry. exact E.
Qed.

Lemma resolveModuleTarget_tail_witness :
  exists tail, tail <> [] /\ endsWithSegments tail (lit "x/lib/b.fs").
Proof.
  destruct (resolveModuleTarget_tail (lit "./x//lib\b.fs") twoSpellings (lit "lib/b.fs"))
    as (tail & H1 & H2 & _).
  - vm_compute. reflexivity.
  - exists tail. split; [exact H1 | exact H2].
Defined.

Lemma registered_unique tail f records :
  tail <> [] -> Forall goodSegment tail ->
  NoDup records -> In f records ->
  endsWithSegments tail (ParsedFile.filePath f) ->
  (forall g, In g records -> endsWithSegments tail (ParsedFile.filePath g) -> g = f) ->
  registered (join tail) records = [ParsedFile.id f].
Proof.
  intros Hne Hg Hnd Hf He Hu.
  assert (Own : registeredBy (join tail) f = [ParsedFile.id f]).
  { apply (registeredBy_tail tail f Hne Hg) in He. destruct He as (y & Hy).
    pose proof (registeredBy_id _ _ _ Hy) as ->.
    pose proof (registeredBy_once (join tail) f) as Hl.
    destruct (registeredBy (join tail) f) as [|a [|b l]]; [destruct Hy | |simpl in Hl; lia].
    destruct Hy as [->|[]]. reflexivity. }
  assert (Other : forall g, In g records -> g <> f -> registeredBy (join tail) g = []).
  { intros g Hin Hgf. destruct (registeredBy (join tail) g) as [|a l] eqn:E; [reflexivity|].
    exfalso. apply Hgf. apply Hu; [exact Hin|].
    apply (registeredBy_tail tail g Hne Hg). exists a. rewrite E. left. reflexivity. }
  unfold registered. clear He Hu.
  induction records as [|r records IH]; [destruct Hf|].
  inversion Hnd as [|? ? Hout Hnd']; subst. simpl.
  destruct Hf as [->|Hf].
  - rewrite Own. simpl. f_equal.
    assert (Hnil : forall l, (forall g, In g l -> registeredBy (join tail) g = []) ->
                     flat_map (registeredBy (join tail)) l = []).
    { induction l as [|g l IHl]; intros Hl; [reflexivity|]. simpl.
      rewrite Hl by (left; reflexivity). apply IHl.
      intros g' Hg'. apply Hl. right. exact Hg'. }
    apply Hnil. intros g Hin. apply Other; [right; exact Hin|].
    intros ->. contradiction.
  - rewrite Other; [|left; reflexivity | intros ->; contradiction]. simpl.
    apply IH; try assumption.
    intros g Hin. apply Other. right. exact Hin.
Qed.

(** X17. A file is found under any tail of its path that it shares
    with no other file.  For files with distinct ids: a declared path
    whose normalized form is one or more whole segments with which the
    path of exactly one file ends resolves to the id of that file. *)
Theorem resolveModuleTarget_unique_tail (declared : str)
    (records : list ParsedFile.t) (f : ParsedFile.t) (tail : list str) :
  NoDup (map ParsedFile.id records) ->
  In f records -> tail <> [] ->
  normalizePath declared = join tail ->
  endsWithSegments tail (ParsedFile.filePath f) ->
  (forall g, In g records -> endsWithSegments tail (ParsedFile.filePath g) -> g = f) ->
  resolveModuleTarget declared (buildSuffixIndex records) = Some (ParsedFile.id f).
Proof.
  intros Hnd Hf Hne En He Hu.
  assert (Hg : Forall goodSegment tail).
  { destruct He as (before & E).
    pose proof (segmentsOf_good (ParsedFile.filePath f)) as H.
    rewrite E in H. apply Forall_app in H. apply H. }
  unfold resolveModuleTarget. rewrite En, buildSuffixIndex_get.
  rewrite (registered_unique tail f records Hne Hg (NoDup_map_inv _ _ Hnd) Hf He Hu).
  reflexivity.
Qed.

Lemma resolveModuleTarget_unique_tail_witness :
  resolveModuleTarget (lit "lib\b.fs") (buildSuffixIndex twoSpellings)
  = Some (lit "lib/b.fs").
Proof.
  apply (resolveModuleTarget_unique_tail (lit "lib\b.fs") twoSpellings
           (file "lib/b.fs" [] [] [] []) [lit "lib"; lit "b.fs"]).
  - repeat constructor; vm_compute; intuition discriminate.
  - right. right. left. reflexivity.
  - discriminate.
  - reflexivity.
  - exists []. reflexivity.
  - intros g [<-|[<-|[<-|[]]]] (before & E); vm_compute in E.
    + destruct before as [|? [|? ?]]; discriminate E.
    + destruct before as [|? [|? ?]]; discriminate E.
    + reflexivity.
Defined.

(** ** The tokens of a text are its whole words *)

Lemma after_nil s : after [] s = s.
Proof. destruct s. unfold after. simpl. f_equal. lia. Qed.

Lemma after_cons c cs t s :
  rest s = c :: t -> after cs (advance c t s) = after (c :: cs) s.
Proof.
  intros E. unfold after, advance. simpl. rewrite E. simpl. f_equal. lia.
Qed.

(** The greedy star of a class reads the longest run first. *)
Lemma starLoop_Chr_max p k : forall fuel s x,
  length (rest s) < fuel ->
  k (after (takeWhile p (rest s)) s) = Some x ->
  starLoop (m (Chr p)) k fuel s = Some x.
Proof.
  induction fuel as [|fuel IH]; intros s x Hf H; [lia|].
  cbn [starLoop].
  remember (starLoop (m (Chr p)) k fuel) as loop eqn:El.
  cbn [m].
  destruct (rest s) as [|c t] eqn:E.
  - cbn [takeWhile] in H. rewrite after_nil in H. exact H.
  - cbn [takeWhile] in H. destruct (p c) eqn:Ep.
    + assert (Hlt : Nat.ltb (pos s) (pos (advance c t s)) = true)
        by (apply Nat.ltb_lt; simpl; lia).
      rewrite Hlt. subst loop.
      rewrite (IH (advance c t s) x); [reflexivity | simpl in *; lia|].
      cbn [rest advance]. rewrite (after_cons c _ t s E). exact H.
    + rewrite after_nil in H. exact H.
Qed.

Lemma isIdentStart_isWord c : isIdentStart c = true -> isWord c = true.
Proof.
  unfold isIdentStart, isWord. intros H. apply orb_true_iff in H.
  destruct H as [->| ->]; [reflexivity | apply orb_true_r].
Qed.

Lemma takeWhile_forallb p (l : str) : forallb p (takeWhile p l) = true.
Proof.
  induction l as [|c t IH]; simpl; [reflexivity|].
  destruct (p c) eqn:E; [simpl; rewrite E; exact IH | reflexivity].
Qed.

Lemma takeWhile_split p (l : str) :
  l = takeWhile p l ++ skipn (length (takeWhile p l)) l.
Proof.
  induction l as [|c t IH]; simpl; [reflexivity|].
  destruct (p c); simpl; [f_equal; exact IH | reflexivity].
Qed.

Lemma takeWhile_stop p (l : str) :
  match hd_error (skipn (length (takeWhile p l)) l) with
  | Some c => p c = false
  | None => True
  end.
Proof.
  induction l as [|c t IH]; simpl; [exact I|].
  destruct (p c) eqn:E; simpl; [exact IH | exact E].
Qed.

Lemma takeWhile_firstn p (l : str) :
  firstn (length (takeWhile p l)) l = takeWhile p l.
Proof.
  induction l as [|c t IH]; simpl; [reflexivity|].
  destruct (p c); simpl; [f_equal; exact IH | reflexivity].
Qed.

Lemma takeWhile_app_all p (a b : str) :
  forallb p a = true ->
  match hd_error b with Some c => p c = false | None => True end ->
  takeWhile p (a ++ b) = a.
Proof.
  intros Ha Hb. induction a as [|c t IH]; simpl.
  - destruct b as [|x b']; [reflexivity|]. simpl in Hb |- *. rewrite Hb. reflexivity.
  - simpl in Ha. apply andb_true_iff in Ha. destruct Ha as (-> & Ha).
    f_equal. apply IH. exact Ha.
Qed.

Lemma prevAfter_word cs pv :
  cs <> [] -> forallb isWord cs = true -> isWordOpt (prevAfter cs pv) = true.
Proof.
  intros Hne Hw. destruct cs as [|x cs] using rev_ind; [contradiction|].
  rewrite prevAfter_snoc. rewrite forallb_app in Hw.
  apply andb_true_iff in Hw. destruct Hw as (_ & Hw). simpl in Hw |- *.
  rewrite andb_true_r in Hw. exact Hw.
Qed.

Lemma prevAfter_app a b pv : prevAfter (a ++ b) pv = prevAfter b (prevAfter a pv).
Proof. unfold prevAfter. apply fold_left_app. Qed.

(** A match of [identPattern] at a position: there is one exactly
    where a name can start, and it reads the longest run of word
    characters. *)
Lemma ident_match st :
  identAt (prev st) (rest st) = true ->
  m (Group 0 identPattern) Some st
  = Some (setCap 0 (takeWhile isWord (rest st))
            (after (takeWhile isWord (rest st)) st)).
Proof.
  unfold identAt. intros H. apply andb_true_iff in H. destruct H as (Hp & Hc).
  apply negb_true_iff in Hp.
  destruct (rest st) as [|c t] eqn:E; [discriminate Hc|].
  pose proof (isIdentStart_isWord c Hc) as Hw.
  unfold identPattern. cbn [seqs m]. rewrite E. cbn [hd_error isWordOpt].
  rewrite Hp, Hw, Hc. cbn [xorb].
  cbn [takeWhile]. rewrite Hw.
  set (run := takeWhile isWord t).
  apply starLoop_Chr_max; [simpl; lia|].
  cbn [rest advance]. fold run. rewrite (after_cons c run t st E).
  assert (Hprev : isWordOpt (prev (after (c :: run) st)) = true).
  { cbn [prev after]. apply prevAfter_word; [discriminate|].
    simpl. rewrite Hw. apply takeWhile_forallb. }
  assert (Hnext : isWordOpt (hd_error (rest (after (c :: run) st))) = false).
  { cbn [rest after]. rewrite E. cbn [length skipn].
    pose proof (takeWhile_stop isWord t) as Hs. fold run in Hs.
    destruct (hd_error (skipn (length run) t)); [exact Hs | reflexivity]. }
  rewrite Hprev, Hnext. cbn [xorb]. f_equal. f_equal.
  cbn [pos after length].
  replace (pos st + S (length run) - pos st) with (S (length run)) by lia.
  cbn [firstn]. f_equal. apply takeWhile_firstn.
Qed.

Lemma ident_nomatch st :
  identAt (prev st) (rest st) = false -> m (Group 0 identPattern) Some st = None.
Proof.
  unfold identAt. intros H. unfold identPattern. cbn [seqs m].
  destruct (rest st) as [|c t] eqn:E; cbn [hd_error isWordOpt].
  - destruct (xorb _ _); reflexivity.
  - destruct (isIdentStart c) eqn:Ec; [|destruct (xorb _ _); reflexivity].
    rewrite (isIdentStart_isWord c Ec). rewrite andb_true_r in H.
    apply negb_false_iff in H. rewrite H. reflexivity.
Qed.

(** The match that [exec] finds is the first one. *)
Lemma execFrom_first r : forall rs pv ps i e,
  execFrom r pv rs ps = Some (i, e) ->
  exists sk rs',
    rs = sk ++ rs' /\ i = ps + length sk
    /\ m (Group 0 r) Some
         {| prev := prevAfter sk pv; rest := rs'; pos := i; caps := [] |}
       = Some e
    /\ forall sk1 sk2, sk = sk1 ++ sk2 -> sk2 <> [] ->
         m (Group 0 r) Some
           {| prev := prevAfter sk1 pv; rest := sk2 ++ rs';
              pos := ps + length sk1; caps := [] |}
         = None.
Proof.
  induction rs as [|c t IH]; intros pv ps i e H; simpl in H.
  - destruct (m r _ _) as [y|] eqn:E; [|discriminate].
    injection H as <- <-. exists [], []. simpl. rewrite Nat.add_0_r.
    repeat split; auto. intros [|? ?] [|? ?] Hs Hne; try discriminate Hs.
    contradiction.
  - destruct (m r _ _) as [y|] eqn:E.
    + injection H as <- <-. exists [], (c :: t). simpl. rewrite Nat.add_0_r.
      repeat split; auto. intros [|? ?] [|? ?] Hs Hne; try discriminate Hs.
      contradiction.
    + apply IH in H. destruct H as (sk & rs' & -> & -> & H & Hfirst).
      exists (c :: sk), rs'. simpl. split; [reflexivity|]. split; [lia|]. split.
      * replace (ps + S (length sk)) with (S ps + length sk) by lia. exact H.
      * intros sk1 sk2 Hs Hne. destruct sk1 as [|c1 sk1].
        -- simpl in Hs. subst sk2. simpl. rewrite Nat.add_0_r.
           cbn [m]. exact E.
        -- simpl in Hs. injection Hs as <- Hs.
           change (prevAfter (c :: sk1) pv) with (prevAfter sk1 (Some c)).
           cbn [length].
           replace (ps + S (length sk1)) with (S ps + length sk1) by lia.
           apply Hfirst; assumption.
Qed.

Lemma execFrom_none r : forall rs pv ps,
  execFrom r pv rs ps = None ->
  forall sk1 rs1, rs = sk1 ++ rs1 ->
    m (Group 0 r) Some
      {| prev := prevAfter sk1 pv; rest := rs1; pos := ps + length sk1; caps := [] |}
    = None.
Proof.
  induction rs as [|c t IH]; intros pv ps H sk1 rs1 Hs; simpl in H.
  - destruct (m r _ _) as [y|] eqn:E; [discriminate|].
    destruct sk1; [|discriminate Hs]. simpl in Hs. subst rs1. simpl.
    rewrite Nat.add_0_r. cbn [m]. exact E.
  - destruct (m r _ _) as [y|] eqn:E; [discriminate|].
    destruct sk1 as [|c1 sk1].
    + simpl in Hs. subst rs1. simpl. rewrite Nat.add_0_r. cbn [m]. exact E.
    + simpl in Hs. injection Hs as <- Hs.
      change (prevAfter (c :: sk1) pv) with (prevAfter sk1 (Some c)).
      cbn [length].
      replace (ps + S (length sk1)) with (S ps + length sk1) by lia.
      apply IH; assumption.
Qed.

Lemma app_split_le {A} (a b c d : list A) :
  a ++ b = c ++ d -> length a <= length c -> exists z, c = a ++ z /\ b = z ++ d.
Proof.
  revert c. induction a as [|x a IH]; intros c E Hl.
  - exists c. simpl in E. auto.
  - destruct c as [|y c]; [simpl in Hl; lia|].
    simpl in E. injection E as -> E. simpl in Hl.
    destruct (IH c E ltac:(lia)) as (z & -> & ->). exists z. auto.
Qed.

Lemma whileMatch_final {A : Type} pattern (body : nat * mstate -> A -> outcome A)
    (J : mstate -> A -> Prop) :
  (forall cur i e acc acc',
     J cur acc -> exec pattern cur = Some (i, e) ->
     body (i, e) acc = Ok acc' -> J e acc') ->
  forall fuel cur acc r,
  J cur acc -> whileMatch fuel pattern body cur acc = Ok r ->
  exists cur', J cur' r /\ exec pattern cur' = None.
Proof.
  intros Hstep. induction fuel as [|fuel IH]; intros cur acc r Hj H;
    simpl in H; [discriminate|].
  destruct (exec pattern cur) as [[i e]|] eqn:E.
  - destruct (body (i, e) acc) as [acc'| |] eqn:Eb; simpl in H; try discriminate.
    apply (IH e acc' r (Hstep cur i e acc acc' Hj E Eb) H).
  - injection H as <-. exists cur. auto.
Qed.

(** What [exec] finds for [identPattern] from a position of a text. *)
Lemma exec_ident text cur i e :
  inText text cur -> exec identPattern cur = Some (i, e) ->
  exists before tok,
    text = before ++ tok ++ rest e /\ length before = i /\ pos cur <= i
    /\ identAt (prevAfter before None) (tok ++ rest e) = true
    /\ takeWhile isWord (tok ++ rest e) = tok
    /\ group 0 e = Some tok /\ inText text e /\ pos e = i + length tok
    /\ forall x y, text = x ++ y -> pos cur <= length x -> length x < i ->
         identAt (prevAfter x None) y = false.
Proof.
  intros (b0 & Et & Lb & Ep) H. unfold exec in H.
  apply execFrom_first in H.
  destruct H as (sk & rs' & Er & -> & H & Hfirst).
  set (st := {| prev := prevAfter sk (prev cur); rest := rs';
                pos := pos cur + length sk; caps := [] |}) in *.
  destruct (identAt (prev st) (rest st)) eqn:Ei;
    [|rewrite (ident_nomatch st Ei) in H; discriminate H].
  rewrite (ident_match st Ei) in H. injection H as <-.
  cbn [rest prev] in Ei. cbn [rest after setCap prev pos st].
  set (tok := takeWhile isWord rs') in *.
  assert (Es : rs' = tok ++ skipn (length tok) rs') by apply takeWhile_split.
  exists (b0 ++ sk), tok.
  assert (Epv : prevAfter (b0 ++ sk) None = prevAfter sk (prev cur))
    by (rewrite prevAfter_app, Ep; reflexivity).
  split; [rewrite Et, Er, <- app_assoc, <- Es; reflexivity|].
  split; [rewrite length_app; lia|]. split; [lia|].
  split; [rewrite Epv, <- Es; exact Ei|].
  split; [rewrite <- Es; reflexivity|].
  split; [reflexivity|]. split; [|split; [reflexivity|]].
  - exists ((b0 ++ sk) ++ tok). cbn [rest pos prev after setCap st]. split; [|split].
    + rewrite Et, Er, <- !app_assoc. rewrite <- Es. reflexivity.
    + rewrite !length_app. lia.
    + rewrite prevAfter_app, Epv. reflexivity.
  - intros x y Exy Hx1 Hx2. rewrite Et in Exy.
    destruct (app_split_le b0 (rest cur) x y Exy ltac:(lia)) as (z & -> & Ez).
    rewrite Er in Ez. rewrite length_app in Hx2.
    symmetry in Ez.
    destruct (app_split_le z y sk rs' Ez ltac:(lia)) as (sk2 & -> & ->).
    assert (Hne : sk2 <> []).
    { intros ->. rewrite app_nil_r in Hx2. lia. }
    specialize (Hfirst z sk2 eq_refl Hne).
    destruct (identAt (prevAfter (b0 ++ z) None) (sk2 ++ rs')) eqn:Ex; [|reflexivity].
    rewrite ident_match in Hfirst; [discriminate Hfirst|].
    cbn [prev rest]. rewrite prevAfter_app, <- Ep in Ex. exact Ex.
Qed.

Lemma identAt_identifier pv tok rest_ :
  identAt pv (tok ++ rest_) = true -> takeWhile isWord (tok ++ rest_) = tok ->
  isIdentifier tok = true /\ isWordOpt pv = false
  /\ isWordOpt (hd_error rest_) = false.
Proof.
  unfold identAt. intros H Et. apply andb_true_iff in H. destruct H as (Hp & Hc).
  apply negb_true_iff in Hp.
  assert (Hw : forallb isWord tok = true)
    by (rewrite <- Et; apply takeWhile_forallb).
  destruct tok as [|c t].
  - simpl in *. destruct rest_ as [|x r]; [discriminate Hc|].
    simpl in Et. rewrite (isIdentStart_isWord x Hc) in Et. discriminate Et.
  - simpl in Hc, Hw. apply andb_true_iff in Hw. destruct Hw as (_ & Hw).
    split; [simpl; rewrite Hc, Hw; reflexivity|]. split; [exact Hp|].
    pose proof (takeWhile_stop isWord ((c :: t) ++ rest_)) as Hs.
    rewrite Et, skipn_app, Nat.sub_diag, skipn_all in Hs. simpl in Hs.
    destruct (hd_error rest_); [exact Hs | reflexivity].
Qed.

(** What has no quote has no literal to blank. *)
Lemma exec_quote r cur i e :
  (forall cs, derives r cs -> In QUOTE cs) ->
  exec r cur = Some (i, e) -> In QUOTE (rest cur).
Proof.
  intros Hq H. unfold exec in H. apply execFrom_inv in H.
  destruct H as (sk & rs' & Er & _ & H).
  apply (m_sem 0 (fun _ => True) _ (groupsHold_True 0 _)) in H.
  destruct H as (cs & s' & (R & _) & D & _ & _).
  inversion D; subst. simpl in R. rewrite Er, R.
  apply in_or_app. right. apply in_or_app. left. apply Hq. assumption.
Qed.

Lemma stringPattern_quote cs : derives stringPattern cs -> In QUOTE cs.
Proof.
  unfold stringPattern. cbn [seqs]. intros H.
  inversion H as [| |r1 r2 a b Ha Hb| | | | | |]; subst.
  inversion Ha as [|p c Hc| | | | | | |]; subst.
  apply N.eqb_eq in Hc. subst c. left. reflexivity.
Qed.

Lemma replaceAll_no_quote source :
  ~ In QUOTE source -> replaceAll stringPattern (lit " ") source = source.
Proof.
  intros Hq. unfold replaceAll. cbn [replaceFrom].
  destruct (exec stringPattern (start source)) as [[i e]|] eqn:E; [|reflexivity].
  exfalso. apply Hq. apply (exec_quote _ _ _ _ stringPattern_quote E).
Qed.

(** X18. The tokens of a text are its whole words.  With the literals
    of the text blanked by the first step of [extractIdentifierTokens],
    a name is among the tokens if and only if it is a letter or an
    underscore followed by letters, digits and underscores, and stands
    somewhere in the blanked text with no word character before it and
    none after it.  A text without a double quote has nothing to blank. *)
Theorem tokens_whole_words (source : str) :
  (exists tokens,
     extractIdentifierTokens source = Ok tokens
     /\ forall tok, In tok tokens <->
          isIdentifier tok = true
          /\ wholeWord tok (replaceAll stringPattern (lit " ") source))
  /\ (~ In QUOTE source -> replaceAll stringPattern (lit " ") source = source).
Proof.
  split; [|apply replaceAll_no_quote].
  destruct (extractIdentifierTokens_total source) as (tokens & E).
  exists tokens. split; [exact E|].
  unfold extractIdentifierTokens in E.
  set (text := replaceAll stringPattern (lit " ") source) in *.
  intros tok. split.
  - revert tok.
    refine (whileMatch_inv identPattern extractIdentifierTokensBody (inText text)
              (fun acc => forall tok, In tok acc ->
                 isIdentifier tok = true /\ wholeWord tok text)
              _ _ _ _ _ (inText_start text) _ E); [|intros tok []].
    intros cur i e acc acc' Hi Hq Ex Hb.
    destruct (exec_ident text cur i e Hi Ex)
      as (before & tk & Et & Lb & _ & Hid & Htk & Hg & Hi' & _).
    split; [exact Hi'|].
    unfold extractIdentifierTokensBody in Hb. cbn [snd] in Hb. rewrite Hg in Hb.
    injection Hb as <-. intros tok Hin. apply setAdd_In in Hin.
    destruct Hin as [->|Hin]; [|apply Hq; exact Hin].
    destruct (identAt_identifier _ _ _ Hid Htk) as (H1 & H2 & H3).
    split; [exact H1|]. exists before, (rest e). auto.
  - intros (Hident & a & b & Et & Ha & Hb).
    assert (Hw : forallb isWord tok = true).
    { destruct tok as [|c t]; [discriminate Hident|]. simpl in Hident |- *.
      apply andb_true_iff in Hident. destruct Hident as (Hc & Ht).
      rewrite (isIdentStart_isWord c Hc). exact Ht. }
    assert (Hat : identAt (prevAfter a None) (tok ++ b) = true).
    { unfold identAt. rewrite Ha. destruct tok as [|c t]; [discriminate Hident|].
      simpl in Hident |- *. apply andb_true_iff in Hident. apply Hident. }
    assert (Htake : takeWhile isWord (tok ++ b) = tok).
    { apply takeWhile_app_all; [exact Hw|].
      destruct (hd_error b); [exact Hb | exact I]. }
    destruct (whileMatch_final identPattern extractIdentifierTokensBody
                (fun cur acc => inText text cur
                                /\ (pos cur <= length a \/ In tok acc)))
      with (fuel := S (length text)) (cur := start text) (acc := @nil (list N))
           (r := tokens) as (cur' & (Hi & Hj) & Hnone).
    + intros cur i e acc acc' (Hi & Hj) Ex Hbody.
      destruct (exec_ident text cur i e Hi Ex)
        as (before & tk & Et' & Lb & Hle & Hid & Htk & Hg & Hi' & Hpos & Hfirst).
      split; [exact Hi'|].
      unfold extractIdentifierTokensBody in Hbody. cbn [snd] in Hbody.
      rewrite Hg in Hbody. injection Hbody as <-.
      destruct Hj as [Hj|Hj]; [|right; apply setAdd_In; right; exact Hj].
      destruct (Nat.lt_trichotomy i (length a)) as [Hlt|[Heq|Hgt]].
      * left. rewrite Hpos.
        destruct (Nat.le_gt_cases (i + length tk) (length a)) as [Hok|Hbad];
          [exact Hok|]. exfalso.
        assert (Ex' : before ++ (tk ++ rest e) = a ++ (tok ++ b))
          by (rewrite <- Et'; exact Et).
        destruct (app_split_le before (tk ++ rest e) a (tok ++ b) Ex' ltac:(lia))
          as (z & Ea & Ez).
        assert (Lz : length z = length a - i)
          by (rewrite Ea, length_app; lia).
        destruct (app_split_le z (tok ++ b) tk (rest e) (eq_sym Ez) ltac:(lia))
          as (z2 & Etk & _).
        assert (Hz : z <> []) by (intros ->; simpl in Lz; lia).
        assert (Hwz : forallb isWord z = true).
        { assert (Hwt : forallb isWord tk = true)
            by (rewrite <- Htk; apply takeWhile_forallb).
          rewrite Etk, forallb_app in Hwt. apply andb_true_iff in Hwt. apply Hwt. }
        rewrite Ea, prevAfter_app, (prevAfter_word z _ Hz Hwz) in Ha.
        discriminate Ha.
      * right. apply setAdd_In. left.
        assert (Ex' : before ++ (tk ++ rest e) = a ++ (tok ++ b))
          by (rewrite <- Et'; exact Et).
        destruct (app_split_le before (tk ++ rest e) a (tok ++ b) Ex' ltac:(lia))
          as (z & Ea & Ez).
        assert (z = []).
        { apply (f_equal (@length _)) in Ea. rewrite length_app in Ea.
          destruct z; [reflexivity | simpl in Ea; lia]. }
        subst z. simpl in Ez. rewrite Ez in Htk. rewrite Htake in Htk.
        exact Htk.
      * exfalso. rewrite (Hfirst a (tok ++ b) Et Hj Hgt) in Hat. discriminate Hat.
    + split; [apply inText_start | left; simpl; lia].
    + exact E.
    + destruct Hj as [Hj|Hj]; [|exact Hj]. exfalso.
      destruct Hi as (b0 & Et0 & Lb0 & Ep0).
      assert (Ex' : b0 ++ rest cur' = a ++ (tok ++ b))
        by (rewrite <- Et0; exact Et).
      destruct (app_split_le b0 (rest cur') a (tok ++ b) Ex' ltac:(lia))
        as (z & Ea & Ez).
      unfold exec in Hnone.
      pose proof (execFrom_none _ _ _ _ Hnone z (tok ++ b) Ez) as Hm.
      rewrite ident_match in Hm; [discriminate Hm|].
      cbn [prev rest]. rewrite Ep0, <- prevAfter_app, <- Ea. exact Hat.
Qed.
